(** * AOCL-Sparse: CSR normalisation and SpMV dispatch, a shallow embedding

    The development follows four source files of the library:

    - [library/src/level2/aoclsparse_csrmv.cpp]: the vectorised SpMV kernels
      and the two C entry points [aoclsparse_scsrmv] / [aoclsparse_dcsrmv];
    - [library/src/analysis/aoclsparse_csr_util.hpp]: copy, sort, diagonal
      fill and the optimisation driver of a CSR matrix;
    - [library/src/level3/aoclsparse_sp2m.cpp]: the type dispatch of the
      sparse product;
    - [library/src/include/aoclsparse_itsol_options.hpp]: the options
      registry of the iterative solvers.

    Conventions.  [aoclsparse_int] is modelled by [Z]; signed overflow is
    undefined behaviour in C++ and lies outside the model, but for the one
    product that an entry point computes from an argument it has not
    bounded, [10 * m] in [aoclsparse_dcsrmv], which is modelled with the
    wrap-around of the 32-bit [aoclsparse_int].  An array is a
    list; reading outside an array is undefined behaviour in C++, the model
    returns a default there and every theorem about array contents assumes
    the sizes that make all reads fall inside.  A call of [std::sort] has
    undefined behaviour when its comparison does not order the range
    strictly: the sort is a parameter that may have no result, and the
    call in which it has none has the outcome [Undefined].  The scalar
    type [T] of the
    templates is abstract: a carrier with the operations the kernels use. *)

From stdpp Require Import base numbers list list_numbers gmap strings.
From Stdlib Require Import ZArith Lia Ascii.

Local Open Scope Z_scope.

(** ** Types of the public interface *)

(** The status codes returned by the functions under study. *)
Inductive aoclsparse_status :=
| aoclsparse_status_success
| aoclsparse_status_not_implemented
| aoclsparse_status_invalid_pointer
| aoclsparse_status_invalid_size
| aoclsparse_status_internal_error
| aoclsparse_status_invalid_value
| aoclsparse_status_wrong_type
| aoclsparse_status_memory_error.

Global Instance aoclsparse_status_eq_dec : EqDecision aoclsparse_status.
Proof. solve_decision. Defined.

Inductive aoclsparse_operation :=
| aoclsparse_operation_none
| aoclsparse_operation_transpose
| aoclsparse_operation_conjugate_transpose.

Global Instance aoclsparse_operation_eq_dec : EqDecision aoclsparse_operation.
Proof. solve_decision. Defined.

Inductive aoclsparse_matrix_type :=
| aoclsparse_matrix_type_general
| aoclsparse_matrix_type_symmetric
| aoclsparse_matrix_type_hermitian
| aoclsparse_matrix_type_triangular.

Global Instance aoclsparse_matrix_type_eq_dec : EqDecision aoclsparse_matrix_type.
Proof. solve_decision. Defined.

(** [aoclsparse_index_base] is a C enumeration used as an integer offset
    ([A->csr_row_ptr[i] - base]); it is kept as an integer, so that a value
    that is neither of the two enumerators can be expressed, as the check in
    [aoclsparse_csr_optimize] expects. *)
Definition aoclsparse_index_base := Z.
Definition aoclsparse_index_base_zero : aoclsparse_index_base := 0.
Definition aoclsparse_index_base_one : aoclsparse_index_base := 1.

Inductive aoclsparse_matrix_data_type :=
| aoclsparse_dmat
| aoclsparse_smat
| aoclsparse_cmat
| aoclsparse_zmat.

Global Instance aoclsparse_matrix_data_type_eq_dec :
  EqDecision aoclsparse_matrix_data_type.
Proof. solve_decision. Defined.

Inductive aoclsparse_request :=
| aoclsparse_stage_nnz_count
| aoclsparse_stage_finalize
| aoclsparse_stage_full_computation.

(** The descriptor [_aoclsparse_mat_descr]: the two fields the code reads. *)
Record aoclsparse_mat_descr := MatDescr {
  descr_type : aoclsparse_matrix_type;
  descr_base : aoclsparse_index_base
}.

(** [aoclsparse_context]: thread count and the AVX512 capability flag. *)
Record aoclsparse_context := MkContext {
  num_threads : Z;
  is_avx512 : bool
}.

(** ** Scalars, arrays and loops *)

(** The operations the kernels apply to [float] / [double] values.  [sfma]
    is the fused multiply-add of [_mm256_fmadd_ps] and its siblings;
    [is_one] and [is_zero] are the comparisons [v == static_cast<T>(1)] and
    [v == static_cast<T>(0)]. *)
Class Scalar (T : Type) := {
  szero : T;
  sadd : T → T → T;
  smul : T → T → T;
  sfma : T → T → T → T;
  is_one : T → bool;
  is_zero : T → bool
}.

(** [a[i]] for a C array [a] and an [aoclsparse_int] index. *)
Definition at_ {A} (d : A) (a : list A) (i : Z) : A :=
  if bool_decide (i < 0) then d else default d (a !! Z.to_nat i).

(** [a[i] = v]; the model leaves [a] as it is when [i] is outside. *)
Definition set_ {A} (a : list A) (i : Z) (v : A) : list A :=
  if bool_decide (i < 0) then a else <[Z.to_nat i := v]> a.

(** [for (j = lo; j < hi; j++) s = body j s]. *)
Definition for_range {S} (lo hi : Z) (body : Z → S → S) (s : S) : S :=
  foldl (λ s j, body j s) s (seqZ lo (hi - lo)).

(** [for (j = lo; j < bound; j += step) s = body j s], for a positive
    [step]: at most [bound - lo] iterations run, which is the fuel. *)
Fixpoint for_stride_fuel {S} (fuel : nat) (step bound : Z)
    (body : Z → S → S) (j : Z) (s : S) : S :=
  match fuel with
  | O => s
  | S fuel' =>
      if bool_decide (j < bound)
      then for_stride_fuel fuel' step bound body (j + step) (body j s)
      else s
  end.

Definition for_stride {S} (step lo bound : Z) (body : Z → S → S) (s : S) : S :=
  for_stride_fuel (Z.to_nat (bound - lo)) step bound body lo s.

(** ** The vectorised SpMV kernels (aoclsparse_csrmv.cpp) *)

Section Kernels.
Context {T : Type} `{Scalar T}.

(** A vector register is the list of its lanes, lane 0 first. *)
Definition vreg := list T.

Definition lane (v : vreg) (k : Z) : T := at_ szero v k.

(** [_mm256_setzero_ps], [_mm256_setzero_pd], [_mm512_setzero_pd]. *)
Definition vzero (w : Z) : vreg := (λ _, szero) <$> seqZ 0 w.

(** [_mm256_loadu_ps(&csr_val[j])] and siblings: [w] consecutive values. *)
Definition vloadu (w : Z) (csr_val : list T) (j : Z) : vreg :=
  (λ k, at_ szero csr_val (j + k)) <$> seqZ 0 w.

(** [_mm256_set_ps(x[csr_col_ind[j + 7]], ..., x[csr_col_ind[j]])]: the
    last argument is lane 0. *)
Definition vgather (w : Z) (x : list T) (csr_col_ind : list Z) (j : Z) : vreg :=
  (λ k, at_ szero x (at_ 0 csr_col_ind (j + k))) <$> seqZ 0 w.

(** [_mm256_fmadd_ps(a, b, c)]: lane-wise [a * b + c], fused. *)
Fixpoint vfmadd (a b c : vreg) : vreg :=
  match a, b, c with
  | a0 :: a', b0 :: b', c0 :: c' => sfma a0 b0 c0 :: vfmadd a' b' c'
  | _, _, _ => []
  end.

(** The horizontal addition of the eight [float] lanes, in the order of
    the source: [sumQuad = lo + hi], [sumDual = loDual + hiDual],
    [sum = lo + hi]. *)
Definition hsum_ps (v : vreg) : T :=
  let sumQuad k := sadd (lane v k) (lane v (k + 4)) in
  let sumDual k := sadd (sumQuad k) (sumQuad (k + 2)) in
  sadd (sumDual 0) (sumDual 1).

(** The horizontal addition of four [double] lanes: [_mm256_hadd_pd(v, v)]
    holds [v0 + v1] in lanes 0, 1 and [v2 + v3] in lanes 2, 3; lane 0 of
    [sum_lo + sum_hi] is the result. *)
Definition hsum_pd (v : vreg) : T :=
  sadd (sadd (lane v 0) (lane v 1)) (sadd (lane v 2) (lane v 3)).

(** [_mm256_add_pd(_mm512_extractf64x4_pd(v, 0), _mm512_extractf64x4_pd(v, 1))]. *)
Definition vfold_512 (v : vreg) : vreg :=
  (λ k, sadd (lane v k) (lane v (k + 4))) <$> seqZ 0 4.

(** The tail shared by the three kernels:
<<
    if(alpha != static_cast<T>(1)) result = alpha * result;
    if(beta != static_cast<T>(0)) result += beta * y[i];
    y[i] = result;
>>
    [y] is read only inside the second conditional. *)
Definition scale_and_store (alpha beta : T) (result : T) (y : list T) (i : Z)
  : list T :=
  let result := if negb (is_one alpha) then smul alpha result else result in
  let result :=
    if negb (is_zero beta) then sadd result (smul beta (at_ szero y i))
    else result in
  set_ y i result.

(** The remainder loop [result += csr_val[j] * x[csr_col_ind[j]]]. *)
Definition remainder_loop (csr_val : list T) (csr_col_ind : list Z)
    (x : list T) (lo hi : Z) (result : T) : T :=
  for_range lo hi
    (λ j result,
       sadd result (smul (at_ szero csr_val j)
                         (at_ szero x (at_ 0 csr_col_ind j))))
    result.

(** The gather / fused multiply-add loop over [w] lanes. *)
Definition vector_loop (w : Z) (csr_val : list T) (csr_col_ind : list Z)
    (x : list T) (lo bound : Z) (vec_y : vreg) : vreg :=
  for_stride w lo bound
    (λ j vec_y, vfmadd (vloadu w csr_val j) (vgather w x csr_col_ind j) vec_y)
    vec_y.

(** The dot product of row [i] as [aoclsparse_csrmv_vectorized<float>]
    accumulates it (8 lanes). *)
Definition row_dot_ps (csr_val : list T) (csr_col_ind csr_row_ptr : list Z)
    (x : list T) (i : Z) : T :=
  let result := szero in
  let nnz := at_ 0 csr_row_ptr (i + 1) - at_ 0 csr_row_ptr i in
  let k_iter := Z.quot nnz 8 in
  let k_rem := Z.rem nnz 8 in
  let vec_y :=
    vector_loop 8 csr_val csr_col_ind x (at_ 0 csr_row_ptr i)
      (at_ 0 csr_row_ptr (i + 1) - k_rem) (vzero 8) in
  let result := if bool_decide (k_iter ≠ 0) then hsum_ps vec_y else result in
  remainder_loop csr_val csr_col_ind x
    (at_ 0 csr_row_ptr (i + 1) - k_rem) (at_ 0 csr_row_ptr (i + 1)) result.

(** The same for [aoclsparse_csrmv_vectorized_avx2<double>] (4 lanes). *)
Definition row_dot_avx2 (csr_val : list T) (csr_col_ind csr_row_ptr : list Z)
    (x : list T) (i : Z) : T :=
  let result := szero in
  let nnz := at_ 0 csr_row_ptr (i + 1) - at_ 0 csr_row_ptr i in
  let k_iter := Z.quot nnz 4 in
  let k_rem := Z.rem nnz 4 in
  let vec_y :=
    vector_loop 4 csr_val csr_col_ind x (at_ 0 csr_row_ptr i)
      (at_ 0 csr_row_ptr (i + 1) - k_rem) (vzero 4) in
  let result := if bool_decide (k_iter ≠ 0) then hsum_pd vec_y else result in
  remainder_loop csr_val csr_col_ind x
    (at_ 0 csr_row_ptr (i + 1) - k_rem) (at_ 0 csr_row_ptr (i + 1)) result.

(** The same for [aoclsparse_csrmv_vectorized_avx512<double>]: 8 lanes,
    folded to 4 before the horizontal addition. *)
Definition row_dot_avx512 (csr_val : list T) (csr_col_ind csr_row_ptr : list Z)
    (x : list T) (i : Z) : T :=
  let result := szero in
  let nnz := at_ 0 csr_row_ptr (i + 1) - at_ 0 csr_row_ptr i in
  let k_iter := Z.quot nnz 8 in
  let k_rem := Z.rem nnz 8 in
  let vec_y_512 :=
    vector_loop 8 csr_val csr_col_ind x (at_ 0 csr_row_ptr i)
      (at_ 0 csr_row_ptr (i + 1) - k_rem) (vzero 8) in
  let vec_y := vfold_512 vec_y_512 in
  let result := if bool_decide (k_iter ≠ 0) then hsum_pd vec_y else result in
  remainder_loop csr_val csr_col_ind x
    (at_ 0 csr_row_ptr (i + 1) - k_rem) (at_ 0 csr_row_ptr (i + 1)) result.

(** The row loop [for(i = 0; i < m; i++)].  Row [i] reads and writes
    [y[i]] only, so the OpenMP [parallel for] of the source computes what
    the sequential loop computes. *)
Definition csrmv_rows (row_dot : Z → T) (alpha : T) (m : Z) (beta : T)
    (y : list T) : aoclsparse_status * list T :=
  (aoclsparse_status_success,
   for_range 0 m (λ i y, scale_and_store alpha beta (row_dot i) y i) y).

Definition aoclsparse_csrmv_vectorized (alpha : T) (m n nnz : Z)
    (csr_val : list T) (csr_col_ind csr_row_ptr : list Z) (x : list T)
    (beta : T) (y : list T) (context : aoclsparse_context) :=
  csrmv_rows (row_dot_ps csr_val csr_col_ind csr_row_ptr x) alpha m beta y.

Definition aoclsparse_csrmv_vectorized_avx512 (alpha : T) (m n nnz : Z)
    (csr_val : list T) (csr_col_ind csr_row_ptr : list Z) (x : list T)
    (beta : T) (y : list T) (context : aoclsparse_context) :=
  csrmv_rows (row_dot_avx512 csr_val csr_col_ind csr_row_ptr x) alpha m beta y.

Definition aoclsparse_csrmv_vectorized_avx2 (alpha : T) (m n nnz : Z)
    (csr_val : list T) (csr_col_ind csr_row_ptr : list Z) (x : list T)
    (beta : T) (y : list T) (context : aoclsparse_context) :=
  csrmv_rows (row_dot_avx2 csr_val csr_col_ind csr_row_ptr x) alpha m beta y.

End Kernels.

(** ** The C entry points of SpMV (aoclsparse_csrmv.cpp) *)

(** The kernels an entry point can call.  Two of them,
    [aoclsparse_csrmv_symm] and [aoclsparse_csrmv_general], are defined in
    [aoclsparse_csrmv.hpp], which is not among the sources: the entry points
    take the kernels as a table, and the source's own three are put into it
    by [linked_kernels]. *)
Record csrmv_kernels (T : Type) := CsrmvKernels {
  csrmv_symm :
    T → Z → Z → Z → list T → list Z → list Z → list T → T → list T →
    aoclsparse_status * list T;
  csrmv_general :
    T → Z → Z → Z → list T → list Z → list Z → list T → T → list T →
    aoclsparse_context → aoclsparse_status * list T;
  csrmv_vectorized :
    T → Z → Z → Z → list T → list Z → list Z → list T → T → list T →
    aoclsparse_context → aoclsparse_status * list T;
  csrmv_vectorized_avx512 :
    T → Z → Z → Z → list T → list Z → list Z → list T → T → list T →
    aoclsparse_context → aoclsparse_status * list T;
  csrmv_vectorized_avx2 :
    T → Z → Z → Z → list T → list Z → list Z → list T → T → list T →
    aoclsparse_context → aoclsparse_status * list T
}.
Global Arguments csrmv_symm {T} _.
Global Arguments csrmv_general {T} _.
Global Arguments csrmv_vectorized {T} _.
Global Arguments csrmv_vectorized_avx512 {T} _.
Global Arguments csrmv_vectorized_avx2 {T} _.



Definition wrap_aoclsparse_int (z : Z) : Z :=
  (z + 2147483648) `mod` 4294967296 - 2147483648.

Section EntryPoints.
Context {T : Type}.

(** The preprocessor symbol [USE_AVX512], the process-wide
    [global_context], and the value that the field [is_avx512] of the
    local [context] happens to hold in [aoclsparse_scsrmv], which never
    assigns it. *)
Variable USE_AVX512 : bool.
Variable global_context : aoclsparse_context.
Variable indeterminate_is_avx512 : bool.

Variable K : csrmv_kernels T.

(** A pointer argument is [None] when it is [nullptr] and [Some a] when it
    points to the array [a].  [alpha] and [beta] are dereferenced by the
    source without a check and are passed by value here.  The result is
    the status and what [y] points to afterwards. *)
Definition aoclsparse_scsrmv (trans : aoclsparse_operation) (alpha : T)
    (m n nnz : Z) (csr_val : option (list T))
    (csr_col_ind csr_row_ptr : option (list Z))
    (descr : option aoclsparse_mat_descr)
    (x : option (list T)) (beta : T) (y : option (list T))
  : aoclsparse_status * option (list T) :=
  let context :=
    {| num_threads := num_threads global_context;
       is_avx512 := indeterminate_is_avx512 |} in
  match descr with
  | None => (aoclsparse_status_invalid_pointer, y)
  | Some descr =>
  if bool_decide (descr_base descr ≠ aoclsparse_index_base_zero)
  then (aoclsparse_status_not_implemented, y)
  else if bool_decide (descr_type descr ≠ aoclsparse_matrix_type_general)
          && bool_decide (descr_type descr ≠ aoclsparse_matrix_type_symmetric)
  then (aoclsparse_status_not_implemented, y)
  else if bool_decide (trans ≠ aoclsparse_operation_none)
  then (aoclsparse_status_not_implemented, y)
  else if bool_decide (m < 0) then (aoclsparse_status_invalid_size, y)
  else if bool_decide (n < 0) then (aoclsparse_status_invalid_size, y)
  else if bool_decide (nnz < 0) then (aoclsparse_status_invalid_size, y)
  else if bool_decide (m = 0) || bool_decide (n = 0) || bool_decide (nnz = 0)
  then (aoclsparse_status_success, y)
  else
  match csr_val, csr_row_ptr, csr_col_ind, x, y with
  | None, _, _, _, _ => (aoclsparse_status_invalid_pointer, y)
  | _, None, _, _, _ => (aoclsparse_status_invalid_pointer, y)
  | _, _, None, _, _ => (aoclsparse_status_invalid_pointer, y)
  | _, _, _, None, _ => (aoclsparse_status_invalid_pointer, y)
  | _, _, _, _, None => (aoclsparse_status_invalid_pointer, y)
  | Some csr_val, Some csr_row_ptr, Some csr_col_ind, Some x, Some y =>
      let '(status, y) :=
        if bool_decide (descr_type descr = aoclsparse_matrix_type_symmetric)
        then csrmv_symm K alpha m n nnz csr_val csr_col_ind csr_row_ptr x beta y
        else csrmv_vectorized K alpha m n nnz csr_val csr_col_ind csr_row_ptr
               x beta y context in
      (status, Some y)
  end
  end.

Definition aoclsparse_dcsrmv (trans : aoclsparse_operation) (alpha : T)
    (m n nnz : Z) (csr_val : option (list T))
    (csr_col_ind csr_row_ptr : option (list Z))
    (descr : option aoclsparse_mat_descr)
    (x : option (list T)) (beta : T) (y : option (list T))
  : aoclsparse_status * option (list T) :=
  let context :=
    {| num_threads := num_threads global_context;
       is_avx512 := is_avx512 global_context |} in
  match descr with
  | None => (aoclsparse_status_invalid_pointer, y)
  | Some descr =>
  if bool_decide (descr_base descr ≠ aoclsparse_index_base_zero)
  then (aoclsparse_status_not_implemented, y)
  else if bool_decide (descr_type descr ≠ aoclsparse_matrix_type_general)
          && bool_decide (descr_type descr ≠ aoclsparse_matrix_type_symmetric)
  then (aoclsparse_status_not_implemented, y)
  else if bool_decide (trans ≠ aoclsparse_operation_none)
  then (aoclsparse_status_not_implemented, y)
  else if bool_decide (m < 0) then (aoclsparse_status_invalid_size, y)
  else if bool_decide (n < 0) then (aoclsparse_status_invalid_size, y)
  else if bool_decide (nnz < 0) then (aoclsparse_status_invalid_size, y)
  else if bool_decide (m = 0) || bool_decide (n = 0) || bool_decide (nnz = 0)
  then (aoclsparse_status_success, y)
  else
  match csr_val, csr_row_ptr, csr_col_ind, x, y with
  | None, _, _, _, _ => (aoclsparse_status_invalid_pointer, y)
  | _, None, _, _, _ => (aoclsparse_status_invalid_pointer, y)
  | _, _, None, _, _ => (aoclsparse_status_invalid_pointer, y)
  | _, _, _, None, _ => (aoclsparse_status_invalid_pointer, y)
  | _, _, _, _, None => (aoclsparse_status_invalid_pointer, y)
  | Some csr_val, Some csr_row_ptr, Some csr_col_ind, Some x, Some y =>
      let '(status, y) :=
        if bool_decide (descr_type descr = aoclsparse_matrix_type_symmetric)
        then csrmv_symm K alpha m n nnz csr_val csr_col_ind csr_row_ptr x beta y
        else if bool_decide (nnz ≤ wrap_aoclsparse_int (10 * m))
        then csrmv_general K alpha m n nnz csr_val csr_col_ind csr_row_ptr
               x beta y context
        else if USE_AVX512
        then if is_avx512 context
             then csrmv_vectorized_avx512 K alpha m n nnz csr_val csr_col_ind
                    csr_row_ptr x beta y context
             else csrmv_vectorized_avx2 K alpha m n nnz csr_val csr_col_ind
                    csr_row_ptr x beta y context
        else csrmv_vectorized_avx2 K alpha m n nnz csr_val csr_col_ind
               csr_row_ptr x beta y context in
      (status, Some y)
  end
  end.
End EntryPoints.

(** ** Matrix handles *)

(** A pointer is [None] when it is [nullptr], else the address of an
    allocation. *)
Definition loc := positive.
Definition ptr := option loc.

(** [_aoclsparse_csr]: the three buffers of a CSR matrix. *)
Record aoclsparse_csr := Csr {
  csr_row_ptr : ptr;
  csr_col_ptr : ptr;
  csr_val : ptr
}.

(** [_aoclsparse_matrix]: the fields read or written by the code under
    study.  [m], [n], [nnz] and [base] of the source are [mat_m], [mat_n],
    [mat_nnz] and [mat_base] here. *)
Record aoclsparse_matrix := Matrix {
  mat_m : Z;
  mat_n : Z;
  mat_nnz : Z;
  mat_base : aoclsparse_index_base;
  val_type : aoclsparse_matrix_data_type;
  csr_mat : aoclsparse_csr;
  opt_csr_mat : aoclsparse_csr;
  opt_csr_is_users : bool;
  internal_base_index : aoclsparse_index_base;
  idiag : ptr;
  iurow : ptr;
  opt_csr_ready : bool;
  opt_csr_full_diag : bool;
  optimized : bool
}.

Definition set_opt_csr_mat (A : aoclsparse_matrix) (v : aoclsparse_csr) :=
  Matrix (mat_m A) (mat_n A) (mat_nnz A) (mat_base A) (val_type A) (csr_mat A)
    v (opt_csr_is_users A) (internal_base_index A) (idiag A) (iurow A)
    (opt_csr_ready A) (opt_csr_full_diag A) (optimized A).

Definition set_opt_csr_is_users (A : aoclsparse_matrix) (v : bool) :=
  Matrix (mat_m A) (mat_n A) (mat_nnz A) (mat_base A) (val_type A) (csr_mat A)
    (opt_csr_mat A) v (internal_base_index A) (idiag A) (iurow A)
    (opt_csr_ready A) (opt_csr_full_diag A) (optimized A).

Definition set_internal_base_index (A : aoclsparse_matrix)
    (v : aoclsparse_index_base) :=
  Matrix (mat_m A) (mat_n A) (mat_nnz A) (mat_base A) (val_type A) (csr_mat A)
    (opt_csr_mat A) (opt_csr_is_users A) v (idiag A) (iurow A)
    (opt_csr_ready A) (opt_csr_full_diag A) (optimized A).

Definition set_idiag_iurow (A : aoclsparse_matrix) (d u : ptr) :=
  Matrix (mat_m A) (mat_n A) (mat_nnz A) (mat_base A) (val_type A) (csr_mat A)
    (opt_csr_mat A) (opt_csr_is_users A) (internal_base_index A) d u
    (opt_csr_ready A) (opt_csr_full_diag A) (optimized A).

Definition set_optimized (A : aoclsparse_matrix) (ready full_diag opt : bool) :=
  Matrix (mat_m A) (mat_n A) (mat_nnz A) (mat_base A) (val_type A) (csr_mat A)
    (opt_csr_mat A) (opt_csr_is_users A) (internal_base_index A) (idiag A)
    (iurow A) ready full_diag opt.

(** The scalar type a template is instantiated at. *)
Inductive template_type :=
| T_float
| T_double
| T_complex_float
| T_complex_double.

Global Instance template_type_eq_dec : EqDecision template_type.
Proof. solve_decision. Defined.

(** ** The type dispatch of the sparse product (aoclsparse_sp2m.cpp) *)

Section Sp2m.
(** What the output slot [*C] holds. *)
Context {Slot : Type}.

(** [aoclsparse_csr2m_t<T>] of [aoclsparse_csr2m.hpp], which is not among
    the sources: it receives the slot and returns the status and what the
    slot holds afterwards. *)
Variable aoclsparse_csr2m_t :
  template_type →
  aoclsparse_operation → option aoclsparse_mat_descr → aoclsparse_matrix →
  aoclsparse_operation → option aoclsparse_mat_descr → aoclsparse_matrix →
  aoclsparse_request → Slot → aoclsparse_status * Slot.

(** [A], [B] and [C] are pointers: [None] is [nullptr].  The result is
    the status and what [C] points to afterwards. *)
Definition aoclsparse_sp2m (opA : aoclsparse_operation)
    (descrA : option aoclsparse_mat_descr) (A : option aoclsparse_matrix)
    (opB : aoclsparse_operation)
    (descrB : option aoclsparse_mat_descr) (B : option aoclsparse_matrix)
    (request : aoclsparse_request) (C : option Slot)
  : aoclsparse_status * option Slot :=
  match A, B, C with
  | Some A, Some B, Some C =>
      let call ty :=
        let '(status, C) :=
          aoclsparse_csr2m_t ty opA descrA A opB descrB B request C in
        (status, Some C) in
      if bool_decide (val_type A = aoclsparse_smat)
         && bool_decide (val_type B = aoclsparse_smat)
      then call T_float
      else if bool_decide (val_type A = aoclsparse_dmat)
              && bool_decide (val_type B = aoclsparse_dmat)
      then call T_double
      else if bool_decide (val_type A = aoclsparse_cmat)
              && bool_decide (val_type B = aoclsparse_cmat)
      then call T_complex_float
      else if bool_decide (val_type A = aoclsparse_zmat)
              && bool_decide (val_type B = aoclsparse_zmat)
      then call T_complex_double
      else (aoclsparse_status_wrong_type, Some C)
  | _, _, _ => (aoclsparse_status_invalid_pointer, C)
  end.
End Sp2m.

(** The kernel the value type [ty] of a matrix selects. *)
Definition template_of (ty : aoclsparse_matrix_data_type) : template_type :=
  match ty with
  | aoclsparse_smat => T_float
  | aoclsparse_dmat => T_double
  | aoclsparse_cmat => T_complex_float
  | aoclsparse_zmat => T_complex_double
  end.

(** ** Memory *)

(** What a call does: it returns; or it leaves through an exception no
    handler of the function catches ([std::length_error] of a
    [std::vector] asked for a negative number of elements); or its
    behaviour is undefined, and the model says nothing of what it does
    from there on (a [std::sort] that leaves its range, because the
    comparison it was given does not order the range strictly: the call
    need not return). *)
Inductive outcome (A : Type) :=
| Returns (a : A)
| Throws
| Undefined.
Global Arguments Returns {A} _.
Global Arguments Throws {A}.
Global Arguments Undefined {A}.

Section Memory.
Context {T : Type} `{Scalar T}.

(** An allocation holds [aoclsparse_int]s or values of type [T]. *)
Inductive block :=
| IntBlock (a : list Z)
| ValBlock (a : list T).

(** The live allocations, and the fate of the allocations to come: the
    head of [oracle] tells whether the next request for memory is served
    ([true]) or ends in [std::bad_alloc] ([false]); when the list is used
    up every request is served. *)
Record heap := Heap {
  blocks : gmap loc block;
  oracle : list bool
}.

Definition ints_at (h : heap) (p : ptr) : list Z :=
  match p with
  | Some l => match blocks h !! l with Some (IntBlock a) => a | _ => [] end
  | None => []
  end.

Definition vals_at (h : heap) (p : ptr) : list T :=
  match p with
  | Some l => match blocks h !! l with Some (ValBlock a) => a | _ => [] end
  | None => []
  end.

(** [p[i]] *)
Definition load_int (h : heap) (p : ptr) (i : Z) : Z := at_ 0 (ints_at h p) i.
Definition load_val (h : heap) (p : ptr) (i : Z) : T := at_ szero (vals_at h p) i.

(** [p[i] = v] *)
Definition store_int (h : heap) (p : ptr) (i : Z) (v : Z) : heap :=
  match p with
  | Some l =>
      match blocks h !! l with
      | Some (IntBlock a) =>
          Heap (<[l := IntBlock (set_ a i v)]> (blocks h)) (oracle h)
      | _ => h
      end
  | None => h
  end.

Definition store_val (h : heap) (p : ptr) (i : Z) (v : T) : heap :=
  match p with
  | Some l =>
      match blocks h !! l with
      | Some (ValBlock a) =>
          Heap (<[l := ValBlock (set_ a i v)]> (blocks h)) (oracle h)
      | _ => h
      end
  | None => h
  end.

(** Whether a request for [n] elements is served.  A negative [n] makes
    [new T[n]] throw [std::bad_array_new_length], which is a
    [std::bad_alloc]. *)
Definition request_memory (n : Z) (h : heap) : bool * heap :=
  if bool_decide (n < 0) then (false, h)
  else match oracle h with
       | [] => (true, h)
       | served :: rest => (served, Heap (blocks h) rest)
       end.

Definition new_block (b : block) (h : heap) : loc * heap :=
  let l := fresh (dom (blocks h)) in
  (l, Heap (<[l := b]> (blocks h)) (oracle h)).

(** [new aoclsparse_int[n]]: the address of a new allocation, or [None]
    when [std::bad_alloc] is thrown.  The cells of a new allocation are
    indeterminate in C++; the model fills them with zeros. *)
Definition new_ints (n : Z) (h : heap) : option loc * heap :=
  let '(served, h) := request_memory n h in
  if served
  then let '(l, h) := new_block (IntBlock (replicate (Z.to_nat n) 0)) h in
       (Some l, h)
  else (None, h).

(** [::operator new(n * sizeof(T))] *)
Definition new_vals (n : Z) (h : heap) : option loc * heap :=
  let '(served, h) := request_memory n h in
  if served
  then let '(l, h) := new_block (ValBlock (replicate (Z.to_nat n) szero)) h in
       (Some l, h)
  else (None, h).

(** [delete[] p] and [::operator delete(p)]; nothing happens for
    [nullptr]. *)
Definition delete_ptr (p : ptr) (h : heap) : heap :=
  match p with
  | Some l => Heap (delete l (blocks h)) (oracle h)
  | None => h
  end.

(** The storage of a local [std::vector<aoclsparse_int>] of [n] elements:
    [Throws] for a negative [n] ([std::length_error]), else whether the
    storage was obtained ([false]: [std::bad_alloc]).  A vector of no
    element asks for no memory: it cannot fail, and the requests to come
    are what they were. *)
Definition vector_storage (n : Z) (h : heap) : outcome (bool * heap) :=
  if bool_decide (n < 0) then Throws
  else if bool_decide (n = 0) then Returns (true, h)
  else Returns (request_memory n h).
End Memory.
Global Arguments block : clear implicits.
Global Arguments heap : clear implicits.
Global Arguments ints_at : simpl never.
Global Arguments vals_at : simpl never.
Global Arguments load_int : simpl never.
Global Arguments load_val : simpl never.
Global Arguments store_int : simpl never.
Global Arguments store_val : simpl never.

(** ** Copy, sort and diagonal fill (aoclsparse_csr_util.hpp) *)

Inductive aoclsparse_shape :=
| shape_general
| shape_lower_triangle
| shape_upper_triangle.

Definition is_null (p : ptr) : bool := bool_decide (p = None).

Section Analysis.
Context {T : Type} `{Scalar T}.

(** The handler [catch(std::bad_alloc &)] of [aoclsparse_copy_csr]. *)
Definition copy_csr_catch (As : aoclsparse_csr) (h : heap T)
  : aoclsparse_status * aoclsparse_csr * heap T :=
  let h := delete_ptr (csr_row_ptr As) h in
  let h := delete_ptr (csr_col_ptr As) h in
  let h := delete_ptr (csr_val As) h in
  (aoclsparse_status_memory_error, As, h).

(** [A] and [As] point to two distinct structures, as at the only call of
    the source ([&A->csr_mat], [&A->opt_csr_mat]); the result holds what
    [*As] is afterwards. *)
Definition aoclsparse_copy_csr (m n nnz : Z) (base : aoclsparse_index_base)
    (A As : aoclsparse_csr) (h : heap T)
  : aoclsparse_status * aoclsparse_csr * heap T :=
  if bool_decide (m < 0) then (aoclsparse_status_invalid_size, As, h)
  else if is_null (csr_col_ptr A) || is_null (csr_row_ptr A)
          || is_null (csr_val A)
  then (aoclsparse_status_invalid_pointer, As, h)
  else if bool_decide (m = 0) || bool_decide (nnz = 0)
  then (aoclsparse_status_success, As, h)
  else
  match new_ints (m + 1) h with
  | (None, h) => copy_csr_catch As h
  | (Some row, h) =>
  let As := Csr (Some row) (csr_col_ptr As) (csr_val As) in
  match new_ints nnz h with
  | (None, h) => copy_csr_catch As h
  | (Some col, h) =>
  let As := Csr (csr_row_ptr As) (Some col) (csr_val As) in
  match new_vals nnz h with
  | (None, h) => copy_csr_catch As h
  | (Some val, h) =>
  let As := Csr (csr_row_ptr As) (csr_col_ptr As) (Some val) in
  let aval := csr_val A in
  let aval_s := csr_val As in
  let h :=
    for_range 0 (m + 1)
      (λ i h, store_int h (csr_row_ptr As) i
                (load_int h (csr_row_ptr A) i - base)) h in
  let h :=
    for_range 0 nnz
      (λ i h,
         let h := store_int h (csr_col_ptr As) i
                    (load_int h (csr_col_ptr A) i - base) in
         store_val h aval_s i (load_val h aval i)) h in
  (aoclsparse_status_success, As, h)
  end end end.

(** [std::sort] of the C++ standard library, on a range of
    [aoclsparse_int]s with a comparison function: the range in its new
    order, or [None] for a call that does not rearrange its range and
    return.  On a range that the comparison does not order strictly the
    behaviour of [std::sort] is undefined in C++ (with [<=] as
    comparison: a range that holds two positions of one column); the
    sorts of the standard libraries return a short range of this kind in
    some order, and on a longer one they can leave the range and the
    memory of the program. *)
Variable std_sort : (Z → Z → bool) → list Z → option (list Z).

(** [std::sort(std::begin(perm) + lo, std::begin(perm) + hi, comp)] *)
Definition sort_range (lo hi : Z) (comp : Z → Z → bool) (perm : list Z)
  : option (list Z) :=
  match std_sort comp (take (Z.to_nat (hi - lo)) (drop (Z.to_nat lo) perm))
  with
  | Some sorted =>
      Some (take (Z.to_nat lo) perm
            ++ sorted
            ++ drop (Z.to_nat lo + Z.to_nat (hi - lo)) perm)
  | None => None
  end.

(** The body of the loop over the rows of [aoclsparse_sort_csr]: the
    positions of row [i] are sorted by column in [perm], and the row is
    copied in this order from [A] to [As].  The state is [perm] and the
    memory; there is none when the sort has no result. *)
Definition sort_row (base : aoclsparse_index_base) (A As : aoclsparse_csr)
    (i : Z) (s : list Z * heap T) : option (list Z * heap T) :=
  let '(perm, h) := s in
  let aval := csr_val A in
  let aval_s := csr_val As in
  let idx := load_int h (csr_row_ptr A) i - base in
  let nnzrow := load_int h (csr_row_ptr A) (i + 1) - base - idx in
  match
    sort_range idx (idx + nnzrow)
      (λ a b, bool_decide (load_int h (csr_col_ptr A) a
                           ≤ load_int h (csr_col_ptr A) b))
      perm
  with
  | None => None
  | Some perm =>
  let h :=
    for_range idx (idx + nnzrow)
      (λ j h,
         let h := store_int h (csr_col_ptr As) j
                    (load_int h (csr_col_ptr A) (at_ 0 perm j) - base) in
         store_val h aval_s j (load_val h aval (at_ 0 perm j)))
      h in
  Some (perm, h)
  end.

(** The loop over the rows [0 .. m - 1]: it goes no further than a sort
    without result. *)
Definition sort_rows (m : Z) (base : aoclsparse_index_base)
    (A As : aoclsparse_csr) (s : list Z * heap T)
  : option (list Z * heap T) :=
  for_range 0 m
    (λ i s, match s with
            | Some s => sort_row base A As i s
            | None => None
            end)
    (Some s).

(** The buffers [*As] points to are written, the structure [*As] is not:
    the result is the status and the memory. *)
Definition aoclsparse_sort_csr (m n nnz : Z) (base : aoclsparse_index_base)
    (A As : aoclsparse_csr) (h : heap T)
  : outcome (aoclsparse_status * heap T) :=
  if bool_decide (m = 0) || bool_decide (nnz = 0)
  then Returns (aoclsparse_status_success, h)
  else if is_null (csr_col_ptr A) || is_null (csr_row_ptr A)
          || is_null (csr_val A)
  then Returns (aoclsparse_status_invalid_pointer, h)
  else
  match vector_storage nnz h with
  | Throws => Throws
  | Undefined => Undefined
  | Returns (false, h) => Returns (aoclsparse_status_memory_error, h)
  | Returns (true, h) =>
  let perm := replicate (Z.to_nat nnz) 0 in
  let perm := for_range 0 nnz (λ j perm, set_ perm j j) perm in
  match sort_rows m base A As (perm, h) with
  | None => Undefined
  | Some (perm, h) => Returns (aoclsparse_status_success, h)
  end
  end.

(** The inner loop of the first pass of [aoclsparse_csr_fill_diag]:
<<
    for(idx = ...; idx < idxend; idx++)
    {
        j = A->csr_col_ptr[idx] - base;
        if(i == j) { diag_found = true; break; }
        if(j > i) break;
    }
>>
    The result is [diag_found] and the value of [idx] when the loop is
    left.  At most [idxend - idx] iterations run, which is the fuel. *)
Fixpoint scan_row_fuel (fuel : nat) (h : heap T) (col : ptr)
    (base i idxend idx : Z) : bool * Z :=
  match fuel with
  | O => (false, idx)
  | S fuel' =>
      if bool_decide (idx < idxend)
      then let j := load_int h col idx - base in
           if bool_decide (i = j) then (true, idx)
           else if bool_decide (j > i) then (false, idx)
           else scan_row_fuel fuel' h col base i idxend (idx + 1)
      else (false, idx)
  end.

Definition scan_row (h : heap T) (col : ptr) (base i idxend idx : Z)
  : bool * Z :=
  scan_row_fuel (Z.to_nat (idxend - idx)) h col base i idxend idx.

(** The first pass: [missing_diag] and [count]. *)
Definition find_missing_diag (m n : Z) (base : aoclsparse_index_base)
    (A : aoclsparse_csr) (h : heap T) (missing_diag : list Z)
  : list Z * Z :=
  for_range 0 m
    (λ i '(missing_diag, count),
       let idxend := load_int h (csr_row_ptr A) (i + 1) - base in
       let '(diag_found, idx) :=
         scan_row h (csr_col_ptr A) base i idxend
           (load_int h (csr_row_ptr A) i - base) in
       if negb diag_found && bool_decide (i < n)
       then (set_ missing_diag i (idx + count), count + 1)
       else (missing_diag, count))
    (missing_diag, 0).

(** The statements that add the missing diagonal of row [i] at
    [nnz_curr]. *)
Definition add_diag (icol aval : ptr) (i : Z) (s : heap T * Z * Z)
  : heap T * Z * Z :=
  let '(h, n_added, nnz_curr) := s in
  let n_added := n_added + 1 in
  let h := store_int h icol nnz_curr i in
  let h := store_val h aval nnz_curr szero in
  (h, n_added, nnz_curr + 1).

(** The body of the loop over the entries of row [i]: the entry at [idx]
    is copied, behind the missing diagonal if this is its place.  The
    state is the memory, [n_added] and [nnz_curr]. *)
Definition copy_entry (base : aoclsparse_index_base) (A : aoclsparse_csr)
    (missing_diag : list Z) (icol aval : ptr) (i idx : Z)
    (s : heap T * Z * Z) : heap T * Z * Z :=
  let '(h, n_added, nnz_curr) := s in
  let '(h, n_added, nnz_curr) :=
    if bool_decide (nnz_curr = at_ 0 missing_diag i)
    then add_diag icol aval i (h, n_added, nnz_curr)
    else (h, n_added, nnz_curr) in
  let h := store_val h aval nnz_curr (load_val h (csr_val A) idx) in
  let h := store_int h icol nnz_curr
             (load_int h (csr_col_ptr A) idx - base) in
  (h, n_added, nnz_curr + 1).

(** The body of the loop over the rows: row [i] is copied into [icrow],
    [icol], [aval]. *)
Definition fill_row (base : aoclsparse_index_base) (A : aoclsparse_csr)
    (missing_diag : list Z) (icrow icol aval : ptr) (i : Z)
    (s : heap T * Z * Z) : heap T * Z * Z :=
  let '(h, n_added, nnz_curr) := s in
  let idxend := load_int h (csr_row_ptr A) (i + 1) - base in
  let h := store_int h icrow i
             (load_int h (csr_row_ptr A) i - base + n_added) in
  let '(h, n_added, nnz_curr) :=
    for_range (load_int h (csr_row_ptr A) i - base) idxend
      (copy_entry base A missing_diag icol aval i)
      (h, n_added, nnz_curr) in
  if bool_decide (nnz_curr = at_ 0 missing_diag i)
  then add_diag icol aval i (h, n_added, nnz_curr)
  else (h, n_added, nnz_curr).

(** The second pass: the rows are copied with the missing diagonals
    added. *)
Definition fill_rows (m : Z) (base : aoclsparse_index_base)
    (A : aoclsparse_csr) (missing_diag : list Z) (icrow icol aval : ptr)
    (h : heap T) : heap T * Z * Z :=
  for_range 0 m (fill_row base A missing_diag icrow icol aval) (h, 0, 0).

(** The result holds what [*A] is afterwards. *)
Definition aoclsparse_csr_fill_diag (m n nnz : Z)
    (base : aoclsparse_index_base) (A : aoclsparse_csr) (h : heap T)
  : outcome (aoclsparse_status * aoclsparse_csr * heap T) :=
  match vector_storage m h with
  | Throws => Throws
  | Undefined => Undefined
  | Returns (false, h) => Returns (aoclsparse_status_memory_error, A, h)
  | Returns (true, h) =>
  let missing_diag := replicate (Z.to_nat m) (-1) in
  if is_null (csr_col_ptr A) || is_null (csr_row_ptr A) || is_null (csr_val A)
  then Returns (aoclsparse_status_invalid_pointer, A, h)
  else
  let '(missing_diag, count) := find_missing_diag m n base A h missing_diag in
  if bool_decide (count ≤ 0) then Returns (aoclsparse_status_success, A, h)
  else
  let nnz_new := nnz + count in
  match new_ints (m + 1) h with
  | (None, h) => Returns (aoclsparse_status_memory_error, A, h)
  | (Some icrow, h) =>
  match new_ints nnz_new h with
  | (None, h) =>
      Returns (aoclsparse_status_memory_error, A, delete_ptr (Some icrow) h)
  | (Some icol, h) =>
  match new_vals nnz_new h with
  | (None, h) =>
      Returns (aoclsparse_status_memory_error, A,
               delete_ptr (Some icol) (delete_ptr (Some icrow) h))
  | (Some aval, h) =>
  let '(h, n_added, nnz_curr) :=
    fill_rows m base A missing_diag (Some icrow) (Some icol) (Some aval) h in
  let h := store_int h (Some icrow) m nnz_new in
  let h := delete_ptr (csr_col_ptr A) h in
  let h := delete_ptr (csr_row_ptr A) h in
  let h := delete_ptr (csr_val A) h in
  Returns (aoclsparse_status_success,
           Csr (Some icrow) (Some icol) (Some aval), h)
  end end end
  end.

(** *** The optimisation driver *)

(** The type the template is instantiated at: [std::is_same_v<T, double>]
    and [std::is_same_v<T, float>] compare against it. *)
Variable T_is : template_type.

(** Three functions that the header declares and another file defines,
    which is not among the sources: they are parameters of the driver.
    The error handler passed to the first is [nullptr] and is left out;
    the references [sorted] and [fulldiag] of the second are results; the
    third receives [*idiag] and [*iurow] and returns what they are
    afterwards. *)
Variable aoclsparse_csr_check_internal :
  Z → Z → Z → aoclsparse_csr → aoclsparse_shape → aoclsparse_index_base →
  heap T → aoclsparse_status.
Variable aoclsparse_csr_check_sort_diag :
  Z → Z → aoclsparse_index_base → aoclsparse_csr → heap T →
  aoclsparse_status * bool * bool.
Variable aoclsparse_csr_indices :
  Z → aoclsparse_index_base → ptr → ptr → ptr → ptr → heap T →
  aoclsparse_status * ptr * ptr * heap T.

(** "build the clean CSR matrix": the conditional on [sorted && fulldiag].
    [Some status] in the result is an early [return status]. *)
Definition optimize_build (A : aoclsparse_matrix) (sorted fulldiag : bool)
    (h : heap T) : option aoclsparse_status * aoclsparse_matrix * heap T :=
  if sorted && fulldiag
  then
    let A := set_opt_csr_mat A
               (Csr (csr_row_ptr (csr_mat A)) (csr_col_ptr (opt_csr_mat A))
                    (csr_val (opt_csr_mat A))) in
    let A := set_opt_csr_mat A
               (Csr (csr_row_ptr (opt_csr_mat A)) (csr_col_ptr (csr_mat A))
                    (csr_val (opt_csr_mat A))) in
    let A := set_opt_csr_mat A
               (Csr (csr_row_ptr (opt_csr_mat A)) (csr_col_ptr (opt_csr_mat A))
                    (csr_val (csr_mat A))) in
    let A := set_opt_csr_is_users A true in
    let A := set_internal_base_index A (mat_base A) in
    (None, A, h)
  else
    let A := set_opt_csr_is_users A false in
    let '(status, As, h) :=
      aoclsparse_copy_csr (mat_m A) (mat_n A) (mat_nnz A) (mat_base A)
        (csr_mat A) (opt_csr_mat A) h in
    let A := set_opt_csr_mat A As in
    if bool_decide (status ≠ aoclsparse_status_success)
    then (Some status, A, h)
    else
      let A := set_internal_base_index A aoclsparse_index_base_zero in
      (None, A, h).

(** The result holds what [*A] is afterwards ([None] when [A] is
    [nullptr]). *)
Definition aoclsparse_csr_optimize (A : option aoclsparse_matrix) (h : heap T)
  : outcome (aoclsparse_status * option aoclsparse_matrix * heap T) :=
  match A with
  | None => Returns (aoclsparse_status_invalid_pointer, None, h)
  | Some A =>
  if negb (bool_decide (val_type A = aoclsparse_dmat)
             && bool_decide (T_is = T_double)
           || bool_decide (val_type A = aoclsparse_smat)
              && bool_decide (T_is = T_float))
  then Returns (aoclsparse_status_wrong_type, Some A, h)
  else if bool_decide (mat_base A ≠ aoclsparse_index_base_zero)
          && bool_decide (mat_base A ≠ aoclsparse_index_base_one)
  then Returns (aoclsparse_status_invalid_value, Some A, h)
  else
  let status :=
    aoclsparse_csr_check_internal (mat_m A) (mat_n A) (mat_nnz A) (csr_mat A)
      shape_general (mat_base A) h in
  if bool_decide (status ≠ aoclsparse_status_success)
  then Returns (status, Some A, h)
  else
  let '(status, sorted, fulldiag) :=
    aoclsparse_csr_check_sort_diag (mat_m A) (mat_n A) (mat_base A)
      (csr_mat A) h in
  if bool_decide (status ≠ aoclsparse_status_success)
  then Returns (aoclsparse_status_internal_error, Some A, h)
  else
  match optimize_build A sorted fulldiag h with
  | (Some status, A, h) => Returns (status, Some A, h)
  | (None, A, h) =>
  (* if(!sorted) *)
  let after_sort :=
    if negb sorted
    then
      match aoclsparse_sort_csr (mat_m A) (mat_n A) (mat_nnz A)
              (mat_base A) (csr_mat A) (opt_csr_mat A) h with
      | Throws => Throws
      | Undefined => Undefined
      | Returns (_, h) =>
          let '(status, sorted, fulldiag) :=
            aoclsparse_csr_check_sort_diag (mat_m A) (mat_n A)
              (internal_base_index A) (opt_csr_mat A) h in
          Returns (status, sorted, fulldiag, h)
      end
    else Returns (aoclsparse_status_success, sorted, fulldiag, h) in
  match after_sort with
  | Throws => Throws
  | Undefined => Undefined
  | Returns (status, sorted, fulldiag, h) =>
  if bool_decide (status ≠ aoclsparse_status_success)
  then Returns (status, Some A, h)
  else
  (* if(!fulldiag) *)
  let after_fill :=
    if negb fulldiag
    then
      match aoclsparse_csr_fill_diag (mat_m A) (mat_n A) (mat_nnz A)
              (internal_base_index A) (opt_csr_mat A) h with
      | Throws => Throws
      | Undefined => Undefined
      | Returns (status, As, h) => Returns (status, set_opt_csr_mat A As, h)
      end
    else Returns (aoclsparse_status_success, A, h) in
  match after_fill with
  | Throws => Throws
  | Undefined => Undefined
  | Returns (status, A, h) =>
  if bool_decide (status ≠ aoclsparse_status_success)
  then Returns (status, Some A, h)
  else
  let '(status, d, u, h) :=
    aoclsparse_csr_indices (mat_m A) (internal_base_index A)
      (csr_row_ptr (opt_csr_mat A)) (csr_col_ptr (opt_csr_mat A))
      (idiag A) (iurow A) h in
  let A := set_idiag_iurow A d u in
  if bool_decide (status ≠ aoclsparse_status_success)
  then Returns (status, Some A, h)
  else
  let A := set_optimized A true fulldiag true in
  Returns (aoclsparse_status_success, Some A, h)
  end end end
  end.
End Analysis.

(** ** The validator and the diagonal index builder *)

Section Collaborators.
Context {T : Type} `{Scalar T}.

(** Modelled from the spec: [aoclsparse_csr_check_internal] is declared in
    the header and defined elsewhere.  "Fails with InvalidSize if m/n/nnz
    negative, InvalidPointer if any required buffer is null, InvalidValue
    if base is neither 0 nor 1"; the structural conditions are those of
    the raw CSR: "row-offset[0] = base, row-offset[m] - base = nnz",
    offsets "monotonically non-decreasing", "every column index lies in
    [base, base+n)".  The spec names no status for a structural
    violation; the model answers InvalidValue. *)
Definition csr_check_internal_model (m n nnz : Z) (A : aoclsparse_csr)
    (shape : aoclsparse_shape) (base : aoclsparse_index_base) (h : heap T)
  : aoclsparse_status :=
  if bool_decide (m < 0) || bool_decide (n < 0) || bool_decide (nnz < 0)
  then aoclsparse_status_invalid_size
  else if is_null (csr_col_ptr A) || is_null (csr_row_ptr A)
          || is_null (csr_val A)
  then aoclsparse_status_invalid_pointer
  else if bool_decide (base ≠ 0) && bool_decide (base ≠ 1)
  then aoclsparse_status_invalid_value
  else if bool_decide (load_int h (csr_row_ptr A) 0 = base)
          && bool_decide (load_int h (csr_row_ptr A) m - base = nnz)
          && forallb (λ i, bool_decide (load_int h (csr_row_ptr A) i
                                        ≤ load_int h (csr_row_ptr A) (i + 1)))
               (seqZ 0 m)
          && forallb (λ j, bool_decide (base ≤ load_int h (csr_col_ptr A) j
                                        < base + n))
               (seqZ 0 nnz)
  then aoclsparse_status_success
  else aoclsparse_status_invalid_value.

(** The column indices of row [i], base removed. *)
Definition row_columns (base : aoclsparse_index_base) (A : aoclsparse_csr)
    (h : heap T) (i : Z) : list Z :=
  (λ idx, load_int h (csr_col_ptr A) idx - base)
  <$> seqZ (load_int h (csr_row_ptr A) i - base)
           (load_int h (csr_row_ptr A) (i + 1) - load_int h (csr_row_ptr A) i).

Fixpoint strictly_increasing (l : list Z) : bool :=
  match l with
  | a :: (b :: _) as l' => bool_decide (a < b) && strictly_increasing l'
  | _ => true
  end.

(** Modelled from the spec: [aoclsparse_csr_check_sort_diag] is declared in
    the header and defined elsewhere.  It "reports sorted (true iff every
    row's column indices are strictly increasing after base removal) and
    fulldiag (true iff every row i<n contains column i)"; null buffers are
    answered by InvalidPointer. *)
Definition csr_check_sort_diag_model (m n : Z) (base : aoclsparse_index_base)
    (A : aoclsparse_csr) (h : heap T) : aoclsparse_status * bool * bool :=
  if is_null (csr_col_ptr A) || is_null (csr_row_ptr A) || is_null (csr_val A)
  then (aoclsparse_status_invalid_pointer, false, false)
  else
    (aoclsparse_status_success,
     forallb (λ i, strictly_increasing (row_columns base A h i)) (seqZ 0 m),
     forallb (λ i, bool_decide (n ≤ i)
                   || bool_decide (i ∈ row_columns base A h i)) (seqZ 0 m)).

(** The position of the first entry of row [i] whose column satisfies
    [P], or the end of the row. *)
Definition first_position (P : Z → bool) (base : aoclsparse_index_base)
    (icrow icol : ptr) (h : heap T) (i : Z) : Z :=
  let lo := load_int h icrow i - base in
  let hi := load_int h icrow (i + 1) - base in
  default hi
    (head (filter (λ idx, P (load_int h icol idx - base) = true)
             (seqZ lo (hi - lo)))).

(** Modelled from the spec: [aoclsparse_csr_indices] is declared in the
    header and defined elsewhere.  It builds "two parallel sequences of
    length m: idiag[i] = position within NormalizedCSR of row i's diagonal
    entry; iurow[i] = position of the first entry with column > i". *)
Definition csr_indices_model (m : Z) (base : aoclsparse_index_base)
    (icrow icol : ptr) (idiag iurow : ptr) (h : heap T)
  : aoclsparse_status * ptr * ptr * heap T :=
  if bool_decide (m < 0)
  then (aoclsparse_status_invalid_size, idiag, iurow, h)
  else if is_null icrow || is_null icol
  then (aoclsparse_status_invalid_pointer, idiag, iurow, h)
  else
  match new_ints m h with
  | (None, h) => (aoclsparse_status_memory_error, idiag, iurow, h)
  | (Some d, h) =>
  match new_ints m h with
  | (None, h) =>
      (aoclsparse_status_memory_error, idiag, iurow, delete_ptr (Some d) h)
  | (Some u, h) =>
  let h :=
    for_range 0 m
      (λ i h,
         let h := store_int h (Some d) i
                    (first_position (λ c, bool_decide (c = i)) base icrow icol h i) in
         store_int h (Some u) i
           (first_position (λ c, bool_decide (c > i)) base icrow icol h i)) h in
  (aoclsparse_status_success, Some d, Some u, h)
  end end.
End Collaborators.

(** ** Instances used to run the model on concrete inputs *)

(** The integers as scalars: exact arithmetic. *)
Global Instance Z_scalar : Scalar Z := {|
  szero := 0;
  sadd := Z.add;
  smul := Z.mul;
  sfma a b c := a * b + c;
  is_one a := bool_decide (a = 1);
  is_zero a := bool_decide (a = 0)
|}.

(** A table of kernels that only tell which of them was called: kernel
    number [k] stores [k] in [y[0]]. *)
Definition probe_kernels : csrmv_kernels Z :=
  {| csrmv_symm := λ _ _ _ _ _ _ _ _ _ y, (aoclsparse_status_success, set_ y 0 1);
     csrmv_general := λ _ _ _ _ _ _ _ _ _ y _, (aoclsparse_status_success, set_ y 0 2);
     csrmv_vectorized := λ _ _ _ _ _ _ _ _ _ y _, (aoclsparse_status_success, set_ y 0 3);
     csrmv_vectorized_avx512 := λ _ _ _ _ _ _ _ _ _ y _, (aoclsparse_status_success, set_ y 0 4);
     csrmv_vectorized_avx2 := λ _ _ _ _ _ _ _ _ _ y _, (aoclsparse_status_success, set_ y 0 5) |}.

(** ** Exact arithmetic *)



Section KernelStatements.
Context {T : Type} `{Scalar T}.

Definition kernel_type : Type :=
  T → Z → Z → Z → list T → list Z → list Z → list T → T → list T →
  aoclsparse_context → aoclsparse_status * list T.

(** The three kernels defined in aoclsparse_csrmv.cpp, each with the
    way it accumulates the dot product of a row. *)
Definition vectorized_kernels
  : list (kernel_type * (list T → list Z → list Z → list T → Z → T)) :=
  [(aoclsparse_csrmv_vectorized, row_dot_ps);
   (aoclsparse_csrmv_vectorized_avx2, row_dot_avx2);
   (aoclsparse_csrmv_vectorized_avx512, row_dot_avx512)].



End KernelStatements.

(** ** Statements about the entry points of SpMV *)

Section EntryPointStatements.
Context {T : Type}.
Variable USE_AVX512 : bool.
Variable global_context : aoclsparse_context.
Variable indeterminate_is_avx512 : bool.
Variable K : csrmv_kernels T.

(** The answer of both entry points when a precondition check stops the
    call: the status, and [y] as it was. *)
Definition both_stop (trans : aoclsparse_operation) (alpha : T) (m n nnz : Z)
    (csr_val : option (list T)) (csr_col_ind csr_row_ptr : option (list Z))
    (descr : option aoclsparse_mat_descr) (x : option (list T)) (beta : T)
    (y : option (list T)) (status : aoclsparse_status) : Prop :=
  aoclsparse_scsrmv global_context indeterminate_is_avx512 K trans alpha m n nnz csr_val csr_col_ind csr_row_ptr descr x beta y
  = (status, y)
  ∧ aoclsparse_dcsrmv USE_AVX512 global_context K trans alpha m n nnz csr_val csr_col_ind csr_row_ptr descr x beta y
    = (status, y).



End EntryPointStatements.

(** A one-by-one general matrix in single precision. *)
Definition general_descr : aoclsparse_mat_descr :=
  MatDescr aoclsparse_matrix_type_general aoclsparse_index_base_zero.

(** ** Statements about memory *)

Section MemoryStatements.
Context {T : Type}.

(** The next [k] requests for memory are served. *)
Definition grants (k : nat) (h : heap T) : bool :=
  forallb id (take k (oracle h)).

(** The allocation at [p] is live. *)
Definition live (h : heap T) (p : ptr) : Prop :=
  ∃ l, p = Some l ∧ is_Some (blocks h !! l).

(** Every allocation of [h] is in [h'], with the same contents. *)
Definition preserved (h h' : heap T) : Prop :=
  ∀ l b, blocks h !! l = Some b → blocks h' !! l = Some b.

(** [h] and [h'] agree outside the allocations at the pointers [W]. *)
Definition same_except (W : list ptr) (h h' : heap T) : Prop :=
  ∀ l, Some l ∉ W → blocks h' !! l = blocks h !! l.
End MemoryStatements.

(** ** Statements about rows *)

Section RowStatements.
Context {T : Type} `{Scalar T}.

(** The entries of row [i], as pairs of a column index with the base
    removed and a value. *)
Definition csr_row (base : aoclsparse_index_base) (A : aoclsparse_csr)
    (h : heap T) (i : Z) : list (Z * T) :=
  (λ idx, (load_int h (csr_col_ptr A) idx - base, load_val h (csr_val A) idx))
  <$> seqZ (load_int h (csr_row_ptr A) i - base)
           (load_int h (csr_row_ptr A) (i + 1) - load_int h (csr_row_ptr A) i).

(** What the scan of a row for its diagonal finds in a list of columns:
    whether it stops on column [i], and how many columns it passes before
    it stops. *)
Fixpoint scan_list (i : Z) (cols : list Z) : bool * nat :=
  match cols with
  | [] => (false, 0%nat)
  | c :: cols' =>
      if bool_decide (i = c) then (true, 0%nat)
      else if bool_decide (c > i) then (false, 0%nat)
      else let '(found, k) := scan_list i cols' in (found, S k)
  end.

(** Row [i] lies in the square part of the matrix and does not hold
    column [i]. *)
Definition lacks_diag (n : Z) (base : aoclsparse_index_base)
    (A : aoclsparse_csr) (h : heap T) (i : Z) : Prop :=
  i < n ∧ i ∉ row_columns base A h i.

Global Instance lacks_diag_dec n base A h i : Decision (lacks_diag n base A h i).
Proof. unfold lacks_diag. apply _. Defined.

(** The rows below [m] that lack their diagonal. *)
Definition rows_lacking_diag (m n : Z) (base : aoclsparse_index_base)
    (A : aoclsparse_csr) (h : heap T) : list Z :=
  filter (lacks_diag n base A h) (seqZ 0 m).

(** The rows of a matrix are sorted: the columns of each increase
    strictly. *)
Definition rows_sorted (m : Z) (base : aoclsparse_index_base)
    (A : aoclsparse_csr) (h : heap T) : Prop :=
  ∀ i, 0 ≤ i < m → strictly_increasing (row_columns base A h i) = true.
End RowStatements.

(** ** Statements about aoclsparse_csr_optimize *)

Section OptimizeStatements.
Context {T : Type} `{Scalar T}.
Variable T_is : template_type.
Variable csr_check_internal :
  Z → Z → Z → aoclsparse_csr → aoclsparse_shape → aoclsparse_index_base →
  heap T → aoclsparse_status.
Variable csr_check_sort_diag :
  Z → Z → aoclsparse_index_base → aoclsparse_csr → heap T →
  aoclsparse_status * bool * bool.
Variable csr_indices :
  Z → aoclsparse_index_base → ptr → ptr → ptr → ptr → heap T →
  aoclsparse_status * ptr * ptr * heap T.

(** The handle passes the checks that precede the construction of the
    clean matrix, and the probe answers [sorted] and [fulldiag]. *)
Definition validated (A : aoclsparse_matrix) (h : heap T)
    (sorted fulldiag : bool) : Prop :=
  (val_type A = aoclsparse_dmat ∧ T_is = T_double
   ∨ val_type A = aoclsparse_smat ∧ T_is = T_float)
  ∧ (mat_base A = aoclsparse_index_base_zero
     ∨ mat_base A = aoclsparse_index_base_one)
  ∧ csr_check_internal (mat_m A) (mat_n A) (mat_nnz A) (csr_mat A)
      shape_general (mat_base A) h
    = aoclsparse_status_success
  ∧ csr_check_sort_diag (mat_m A) (mat_n A) (mat_base A) (csr_mat A) h
    = (aoclsparse_status_success, sorted, fulldiag).

(** The index builder leaves the allocations it finds as they are. *)
Definition indices_keep_memory : Prop :=
  ∀ m base icrow icol d u h status d' u' h',
    csr_indices m base icrow icol d u h = (status, d', u', h') →
    preserved h h'.

(** The handle in the aliased state. *)
Definition aliased (A : aoclsparse_matrix) : aoclsparse_matrix :=
  set_internal_base_index
    (set_opt_csr_is_users (set_opt_csr_mat A (csr_mat A)) true) (mat_base A).

(** The handle after the call of [aoclsparse_copy_csr] in the other
    branch. *)
Definition copied (A : aoclsparse_matrix) (As : aoclsparse_csr)
  : aoclsparse_matrix :=
  set_opt_csr_mat (set_opt_csr_is_users A false) As.
End OptimizeStatements.

(** ** Concrete matrices *)

(** The handle of a matrix whose row offsets, column indices and values
    are the allocations 1, 2 and 3. *)
Definition csr_123 : aoclsparse_csr :=
  Csr (Some 1%positive) (Some 2%positive) (Some 3%positive).

(** A memory that holds these three arrays and serves every request. *)
Definition memory_of (row_ptr col_ind : list Z) (values : list Z) : heap Z :=
  Heap (<[3%positive := ValBlock values]>
          (<[2%positive := IntBlock col_ind]>
             (<[1%positive := IntBlock row_ptr]> ∅))) [].

(** One row, two columns, the diagonal stored behind the entry of
    column 1. *)
Definition unsorted_row : heap Z := memory_of [0; 2] [1; 0] [10; 20].

(** A handle as the constructor leaves it: the user's buffers in
    [csr_mat], nothing optimised yet. *)
Definition fresh_handle (m n nnz : Z) (base : aoclsparse_index_base)
    (ty : aoclsparse_matrix_data_type) (user : aoclsparse_csr)
  : aoclsparse_matrix :=
  Matrix m n nnz base ty user (Csr None None None) false base None None
    false false false.

(** The matrix of the sample program. *)
Definition sample_memory : heap Z :=
  memory_of [0; 2; 3; 4; 7; 8] [0; 3; 1; 2; 1; 3; 4; 4]
    [1; 2; 3; 4; 5; 6; 7; 8].

(** One row, one column, no entry. *)
Definition empty_row : heap Z := memory_of [0; 0] [] [].

(** The driver, with the validator and the index builder modelled from the
    spec and a sort that is never reached on sorted input. *)
Definition optimize_model (T_is : template_type)
    (std_sort : (Z → Z → bool) → list Z → option (list Z))
    (A : option aoclsparse_matrix) (h : heap Z) :=
  aoclsparse_csr_optimize std_sort T_is csr_check_internal_model
    csr_check_sort_diag_model csr_indices_model A h.

(** ** Statements about sorting *)

Section SortStatements.
Context {T : Type} `{Scalar T}.

(** What [std::is_sorted] checks: no element compares before its
    predecessor. *)
Fixpoint is_sorted (comp : Z → Z → bool) (l : list Z) : bool :=
  match l with
  | a :: (b :: _) as l' => negb (comp b a) && is_sorted comp l'
  | _ => true
  end.

(** [comp] orders the elements of [l] strictly and totally when they
    differ. *)
Definition orders_distinct (comp : Z → Z → bool) (l : list Z) : Prop :=
  (∀ a b, a ∈ l → b ∈ l → a ≠ b → comp a b = negb (comp b a))
  ∧ (∀ a b c, a ∈ l → b ∈ l → c ∈ l →
       comp a b = true → comp b c = true → comp a c = true).

(** The contract of [std::sort] the development relies on: on a range of
    distinct elements that [comp] orders, the call returns, and the
    result is a permutation of the range and is sorted.  (The C++
    standard asks for a strict weak ordering, which the comparison [<=]
    of [aoclsparse_sort_csr] is not on equal elements; nothing is assumed
    for a range where [comp] does not order the elements, not even that
    the call has a result.) *)
Definition std_sort_contract
    (std_sort : (Z → Z → bool) → list Z → option (list Z)) : Prop :=
  ∀ comp l, NoDup l → orders_distinct comp l →
    ∃ sorted, std_sort comp l = Some sorted
              ∧ sorted ≡ₚ l ∧ is_sorted comp sorted = true.

(** Insertion sort as the standard libraries run it on short ranges: the
    new element moves towards the front past every element it compares
    before.  [racc] is the sorted part, last element first. *)
Fixpoint insert_back (comp : Z → Z → bool) (x : Z) (racc : list Z) : list Z :=
  match racc with
  | [] => [x]
  | p :: racc' =>
      if comp x p then p :: insert_back comp x racc' else x :: racc
  end.

Definition insertion_pass (comp : Z → Z → bool) (l : list Z) : list Z :=
  reverse (foldl (λ racc x, insert_back comp x racc) [] l).

(** It returns on every range, ordered by [comp] or not. *)
Definition insertion_sort (comp : Z → Z → bool) (l : list Z)
  : option (list Z) :=
  Some (insertion_pass comp l).

(** The input of [aoclsparse_sort_csr] as the driver prepares it: a valid
    matrix [A] in base [base], and buffers of [As] that hold the row
    offsets of [A] with the base removed and room for the entries,
    apart from the buffers of [A]. *)
Definition sort_input (m nnz : Z) (base : aoclsparse_index_base)
    (A As : aoclsparse_csr) (h : heap T) : Prop :=
  0 ≤ m ∧ 0 ≤ nnz
  ∧ Z.of_nat (length (ints_at h (csr_row_ptr A))) = m + 1
  ∧ Z.of_nat (length (ints_at h (csr_col_ptr A))) = nnz
  ∧ Z.of_nat (length (vals_at h (csr_val A))) = nnz
  ∧ load_int h (csr_row_ptr A) 0 = base
  ∧ load_int h (csr_row_ptr A) m = base + nnz
  ∧ (∀ i, 0 ≤ i < m →
       load_int h (csr_row_ptr A) i ≤ load_int h (csr_row_ptr A) (i + 1))
  ∧ ints_at h (csr_row_ptr As)
    = (λ v, v - base) <$> ints_at h (csr_row_ptr A)
  ∧ Z.of_nat (length (ints_at h (csr_col_ptr As))) = nnz
  ∧ Z.of_nat (length (vals_at h (csr_val As))) = nnz
  ∧ (∀ p, p ∈ [csr_row_ptr A; csr_col_ptr A; csr_val A; csr_row_ptr As] →
       p ∉ [csr_col_ptr As; csr_val As]).

(** [is_sorted] read on a list that is kept last element first. *)
Fixpoint rsorted (comp : Z → Z → bool) (racc : list Z) : bool :=
  match racc with
  | p :: (q :: _) as racc' => negb (comp p q) && rsorted comp racc'
  | _ => true
  end.
End SortStatements.

Section SortProgress.
Context {T : Type} `{Scalar T}.
Variables (nnz : Z) (base : aoclsparse_index_base) (A As : aoclsparse_csr)
  (h0 : heap T).

(** The invariant of the loop over the rows of [aoclsparse_sort_csr],
    which started in [h0]: what holds when the rows below [j] have been
    sorted. *)
Definition rows_done (j : Z) (s : list Z * heap T) : Prop :=
  let '(perm, h) := s in
  same_except [csr_col_ptr As; csr_val As] h0 h
  ∧ Z.of_nat (length (ints_at h (csr_col_ptr As))) = nnz
  ∧ Z.of_nat (length (vals_at h (csr_val As))) = nnz
  ∧ Z.of_nat (length perm) = nnz
  ∧ (∀ k, load_int h0 (csr_row_ptr A) j - base ≤ k < nnz → at_ 0 perm k = k)
  ∧ ∀ i, 0 ≤ i < j →
      csr_row 0 As h i ≡ₚ csr_row base A h0 i
      ∧ strictly_increasing (csr_row 0 As h i).*1 = true.
End SortProgress.

(** One row with two entries on the same column. *)
Definition duplicate_columns : heap Z :=
  Heap (<[6%positive := ValBlock [10; 20]]>
          (<[5%positive := IntBlock [1; 1]]>
             (<[4%positive := IntBlock [0; 2]]>
                (blocks (memory_of [0; 2] [1; 1] [10; 20]))))) [].

Definition csr_456 : aoclsparse_csr :=
  Csr (Some 4%positive) (Some 5%positive) (Some 6%positive).

(** Three rows in base one with unsorted columns, and the buffers of the
    clean matrix as [aoclsparse_copy_csr] leaves them. *)
Definition unsorted_base_one : heap Z :=
  Heap (<[6%positive := ValBlock [10; 20; 30; 40; 50; 60]]>
          (<[5%positive := IntBlock [2; 0; 1; 2; 1; 0]]>
             (<[4%positive := IntBlock [0; 3; 3; 6]]>
                (blocks (memory_of [1; 4; 4; 7] [3; 1; 2; 3; 2; 1]
                           [10; 20; 30; 40; 50; 60]))))) [].

(** ** Statements about aoclsparse_csr_fill_diag *)

Section FillStatements.
Context {T : Type} `{Scalar T}.

(** A valid matrix of [m] rows and [nnz] entries in base [base]: live
    buffers of the right sizes, and row offsets that start at [base], end
    at [base + nnz] and do not decrease. *)
Definition valid_csr (m nnz : Z) (base : aoclsparse_index_base)
    (A : aoclsparse_csr) (h : heap T) : Prop :=
  0 ≤ m
  ∧ live h (csr_row_ptr A) ∧ live h (csr_col_ptr A) ∧ live h (csr_val A)
  ∧ Z.of_nat (length (ints_at h (csr_row_ptr A))) = m + 1
  ∧ Z.of_nat (length (ints_at h (csr_col_ptr A))) = nnz
  ∧ Z.of_nat (length (vals_at h (csr_val A))) = nnz
  ∧ load_int h (csr_row_ptr A) 0 = base
  ∧ load_int h (csr_row_ptr A) m = base + nnz
  ∧ (∀ i, 0 ≤ i < m →
       load_int h (csr_row_ptr A) i ≤ load_int h (csr_row_ptr A) (i + 1)).

(** The pairs at the positions [lo], ..., [lo + len - 1] of an array of
    columns and an array of values. *)
Definition entries (cols : list Z) (vals : list T) (lo len : Z)
  : list (Z * T) :=
  (λ idx, (at_ 0 cols idx, at_ szero vals idx)) <$> seqZ lo len.

(** The pairs (column - base, value) at the positions [lo], ...,
    [lo + len - 1] of the matrix. *)
Definition row_part (base : aoclsparse_index_base) (A : aoclsparse_csr)
    (h : heap T) (lo len : Z) : list (Z * T) :=
  (λ idx, (load_int h (csr_col_ptr A) idx - base, load_val h (csr_val A) idx))
  <$> seqZ lo len.
End FillStatements.

(** Four rows in base one: row 0 lacks its diagonal before its entries,
    row 1 holds it, row 2 is empty and row 3 lacks it behind its
    entries. *)
Definition lacking_diagonals : heap Z :=
  memory_of [1; 3; 4; 4; 6] [2; 4; 2; 1; 2] [10; 20; 30; 40; 50].

(** ** The two passes of aoclsparse_csr_fill_diag *)

Section FillInvariants.
Context {T : Type} `{Scalar T}.

(** The buffers of [A] hold in [h'] what they hold in [h]. *)
Definition same_matrix (A : aoclsparse_csr) (h h' : heap T) : Prop :=
  ints_at h' (csr_row_ptr A) = ints_at h (csr_row_ptr A)
  ∧ ints_at h' (csr_col_ptr A) = ints_at h (csr_col_ptr A)
  ∧ vals_at h' (csr_val A) = vals_at h (csr_val A).

(** Row [i] is recorded as lacking its diagonal by the first pass. *)
Definition flagged (n : Z) (base : aoclsparse_index_base)
    (A : aoclsparse_csr) (h : heap T) (i : Z) : bool :=
  negb (scan_list i (row_columns base A h i)).1 && bool_decide (i < n).

(** How many rows below [j] are flagged. *)
Definition flagged_below (n : Z) (base : aoclsparse_index_base)
    (A : aoclsparse_csr) (h : heap T) (j : Z) : Z :=
  Z.of_nat (length (filter (λ i, flagged n base A h i = true) (seqZ 0 j))).

(** The position the first pass records for a flagged row: where the
    scan stopped, moved by the diagonals added above. *)
Definition diag_slot (n : Z) (base : aoclsparse_index_base)
    (A : aoclsparse_csr) (h : heap T) (i : Z) : Z :=
  load_int h (csr_row_ptr A) i - base
  + Z.of_nat (scan_list i (row_columns base A h i)).2
  + flagged_below n base A h i.

(** Row [i] as the second pass writes it: with a zero on column [i] where
    the scan of the first pass stopped, if the row is flagged. *)
Definition filled_row (n : Z) (base : aoclsparse_index_base)
    (A : aoclsparse_csr) (h : heap T) (i : Z) : list (Z * T) :=
  let lo := load_int h (csr_row_ptr A) i - base in
  let len := load_int h (csr_row_ptr A) (i + 1) - load_int h (csr_row_ptr A) i in
  let k := Z.of_nat (scan_list i (row_columns base A h i)).2 in
  if flagged n base A h i
  then row_part base A h lo k ++ (i, szero) :: row_part base A h (lo + k) (len - k)
  else csr_row base A h i.

(** The memory [h] during the second pass, which started in [h0]: only
    the new buffers have been written, [icrow] holds [R], [icol] and
    [aval] have [N] cells, and their first [nnz_curr] cells hold the
    entries [l]. *)
Definition written (h0 : heap T) (icrow icol aval : ptr) (N : Z)
    (h : heap T) (R : list Z) (nnz_curr : Z) (l : list (Z * T)) : Prop :=
  same_except [icrow; icol; aval] h0 h
  ∧ ints_at h icrow = R
  ∧ Z.of_nat (length (ints_at h icol)) = N
  ∧ Z.of_nat (length (vals_at h aval)) = N
  ∧ 0 ≤ nnz_curr
  ∧ entries (ints_at h icol) (vals_at h aval) 0 nnz_curr = l.
End FillInvariants.

Section FillProgress.
Context {T : Type} `{Scalar T}.
Variables (m n : Z) (base : aoclsparse_index_base) (A : aoclsparse_csr)
  (h0 : heap T) (icrow icol aval : ptr) (N : Z).

(** The invariant of the loop over the entries of row [i], before the
    entry at [idx]: behind the entries [done] of the rows above, the new
    buffers hold the entries of the row up to [idx], with the diagonal
    among them once its slot has been passed. *)
Definition row_progress (i : Z) (done : list (Z * T)) (R : list Z)
    (idx : Z) (s : heap T * Z * Z) : Prop :=
  let '(h, n_added, nnz_curr) := s in
  let lo := load_int h0 (csr_row_ptr A) i - base in
  let k := Z.of_nat (scan_list i (row_columns base A h0 i)).2 in
  let above := flagged_below n base A h0 i in
  ∃ l, written h0 icrow icol aval N h R nnz_curr (done ++ l)
       ∧ nnz_curr = idx + n_added
       ∧ ((n_added = above
           ∧ l = row_part base A h0 lo (idx - lo)
           ∧ (flagged n base A h0 i = true → idx ≤ lo + k))
          ∨ (flagged n base A h0 i = true
             ∧ n_added = above + 1
             ∧ lo + k < idx
             ∧ l = row_part base A h0 lo k
                   ++ (i, szero) :: row_part base A h0 (lo + k) (idx - lo - k))).

(** The invariant of the loop over the rows, before row [i]. *)
Definition rows_filled (i : Z) (s : heap T * Z * Z) : Prop :=
  let '(h, n_added, nnz_curr) := s in
  ∃ R, written h0 icrow icol aval N h R nnz_curr
         (concat (filled_row n base A h0 <$> seqZ 0 i))
       ∧ n_added = flagged_below n base A h0 i
       ∧ nnz_curr
         = load_int h0 (csr_row_ptr A) i - base + flagged_below n base A h0 i
       ∧ Z.of_nat (length R) = m + 1
       ∧ ∀ k, 0 ≤ k < i →
           at_ 0 R k
           = load_int h0 (csr_row_ptr A) k - base
             + flagged_below n base A h0 k.
End FillProgress.

(** ** The options registry (aoclsparse_itsol_options.hpp)

    A [std::string] is a [string]; the character classes are those of the
    "C" locale, in which [std::regex] and [::tolower] work unless the
    program changes the locale.  The methods that print ([PrintOption],
    [PrintDetails], [PrintOptions]) format numbers through streams and are
    left out. *)

Inductive lbound_t := m_inf | greaterthan | greaterequal.
Inductive ubound_t := p_inf | lessthan | lessequal.

Global Instance lbound_t_eq_dec : EqDecision lbound_t.
Proof. solve_decision. Defined.
Global Instance ubound_t_eq_dec : EqDecision ubound_t.
Proof. solve_decision. Defined.

(** The exceptions the classes throw, with the text they carry. *)
Inductive exception :=
| invalid_argument (what : string)
| out_of_range (what : string).

(** A call that returns or throws. *)
Inductive result (A : Type) :=
| Ok (a : A)
| Thrown (e : exception).
Global Arguments Ok {A} a.
Global Arguments Thrown {A} e.

Module OptionUtility.
(** [regex_replace] of ["^[[:space:]]+"] by nothing: the blanks at the
    start go. *)
Fixpoint ltrim (str : string) : string :=
  match str with
  | String c rest => if Ascii.is_space c then ltrim rest else str
  | EmptyString => EmptyString
  end.

(** [regex_replace] of ["[[:space:]]+$"] by nothing: the blanks at the
    end go. *)
Fixpoint rtrim (str : string) : string :=
  match str with
  | String c rest =>
      match rtrim rest with
      | EmptyString => if Ascii.is_space c then EmptyString
                       else String c EmptyString
      | kept => String c kept
      end
  | EmptyString => EmptyString
  end.

(** [regex_replace(str, regex("[[:space:]]+"), " ")]: every run of
    blanks becomes one space.  [in_run] tells that the character before
    was a blank. *)
Fixpoint squeeze_from (in_run : bool) (str : string) : string :=
  match str with
  | String c rest =>
      if Ascii.is_space c
      then if in_run then squeeze_from true rest
           else String " "%char (squeeze_from true rest)
      else String c (squeeze_from false rest)
  | EmptyString => EmptyString
  end.

Definition squeeze (str : string) : string := squeeze_from false str.

(** [::tolower] in the "C" locale. *)
Definition tolower (c : ascii) : ascii :=
  let n := nat_of_ascii c in
  if ((65 <=? n) && (n <=? 90))%nat then ascii_of_nat (n + 32) else c.

(** [transform(str.begin(), str.end(), str.begin(), ::tolower)] *)
Fixpoint transform_tolower (str : string) : string :=
  match str with
  | String c rest => String (tolower c) (transform_tolower rest)
  | EmptyString => EmptyString
  end.

Definition PrepareString (str : string) : string :=
  let str := ltrim str in
  let str := rtrim str in
  let str := squeeze str in
  transform_tolower str.
End OptionUtility.

(** The members of [OptionBase], which every option class inherits. *)
Module OptionBase.
Record t := Mk {
  name : string;
  id : Z;
  desc : string;
  setby : Z;
  hidden : bool;
  pgrp : Z
}.
End OptionBase.

Module OptionInt.
Record t := Mk {
  base : OptionBase.t;
  vdefault : Z;
  value : Z;
  lower : Z;
  lbound : lbound_t;
  upper : Z;
  ubound : ubound_t
}.

Definition GetName (o : t) : string := OptionBase.name (base o).

Definition CheckRange (value lower : Z) (lbound : lbound_t) (upper : Z)
    (ubound : ubound_t) : Z :=
  let iflag := 0 in
  let iflag :=
    if bool_decide (lbound = greaterthan) && bool_decide (value ≤ lower)
    then iflag + 1
    else if bool_decide (lbound = greaterequal) && bool_decide (value < lower)
    then iflag + 2
    else iflag in
  let iflag :=
    if bool_decide (ubound = lessthan) && bool_decide (value >= upper)
    then iflag + 10
    else if bool_decide (ubound = lessequal) && bool_decide (value > upper)
    then iflag + 20
    else iflag in
  iflag.

(** The constructor. *)
Definition construct (name : string) (id : Z) (desc : string) (hidden : bool)
    (pgrp : Z) (lower : Z) (lbound : lbound_t) (upper : Z) (ubound : ubound_t)
    (vdefault : Z) : result t :=
  if bool_decide (upper ≠ upper) || bool_decide (lower ≠ lower)
  then Thrown (invalid_argument "Either lower or upper are not finite.")
  else if bool_decide (upper < lower)
  then Thrown (invalid_argument
                 "Invalid bounds for option value: lower > upper.")
  else if bool_decide (lower = upper) && bool_decide (lbound ≠ m_inf)
          && bool_decide (ubound ≠ p_inf)
          && negb (bool_decide (lbound = greaterequal)
                   && bool_decide (ubound = lessequal))
  then Thrown (invalid_argument "Invalid bounds for option.")
  else if bool_decide (vdefault ≠ vdefault)
  then Thrown (invalid_argument "Invalid default value.")
  else if bool_decide (CheckRange vdefault lower lbound upper ubound ≠ 0)
  then Thrown (invalid_argument "Default value out-of-bounds")
  else
  let name := OptionUtility.PrepareString name in
  if bool_decide (name = EmptyString)
  then Thrown (invalid_argument
                 "Invalid name (string reduced to zero-length).")
  else Ok (Mk (OptionBase.Mk name id desc 0 hidden pgrp) vdefault vdefault
             lower lbound upper ubound).

Definition GetIntegerValue (o : t) : Z := value o.

Definition SetInvegerValue (o : t) (value setby : Z) : result t :=
  if bool_decide (value ≠ value)
  then Thrown (invalid_argument "Passed option value is invalid.")
  else if bool_decide
            (CheckRange value (lower o) (lbound o) (upper o) (ubound o) ≠ 0)
  then Thrown (out_of_range "Value out-of-bounds.")
  else
  let b := base o in
  Ok (Mk (OptionBase.Mk (OptionBase.name b) (OptionBase.id b)
            (OptionBase.desc b)
            (if bool_decide (setby ≠ 0) then setby else 0)
            (OptionBase.hidden b) (OptionBase.pgrp b))
        (vdefault o) value (lower o) (lbound o) (upper o) (ubound o)).
End OptionInt.

(** The comparisons of the floating-point type [T] of [OptionReal<T>]:
    [==], [!=], [<], [<=], [>], [>=]. *)
Class RealType (T : Type) := {
  real_eq : T → T → bool;
  real_ne : T → T → bool;
  real_lt : T → T → bool;
  real_le : T → T → bool;
  real_gt : T → T → bool;
  real_ge : T → T → bool
}.

Module OptionReal.
Section WithT.
Context {T : Type} `{RealType T}.

Record t := Mk {
  base : OptionBase.t;
  vdefault : T;
  value : T;
  lower : T;
  lbound : lbound_t;
  upper : T;
  ubound : ubound_t
}.

Definition GetName (o : t) : string := OptionBase.name (base o).

Definition CheckRange (value lower : T) (lbound : lbound_t) (upper : T)
    (ubound : ubound_t) : Z :=
  let iflag := 0 in
  let iflag :=
    if bool_decide (lbound = greaterthan) && real_le value lower
    then iflag + 1
    else if bool_decide (lbound = greaterequal) && real_lt value lower
    then iflag + 2
    else iflag in
  let iflag :=
    if bool_decide (ubound = lessthan) && real_ge value upper
    then iflag + 10
    else if bool_decide (ubound = lessequal) && real_gt value upper
    then iflag + 20
    else iflag in
  iflag.

(** The constructor. *)
Definition construct (name : string) (id : Z) (desc : string)
    (hidden : bool) (pgrp : Z) (lower : T) (lbound : lbound_t) (upper : T)
    (ubound : ubound_t) (vdefault : T) : result t :=
  if real_ne upper upper || real_ne lower lower
  then Thrown (invalid_argument "Either lower or upper are not finite.")
  else if real_lt upper lower
  then Thrown (invalid_argument
                 "Invalid bounds for option value: lower > upper.")
  else if real_eq lower upper && bool_decide (lbound ≠ m_inf)
          && bool_decide (ubound ≠ p_inf)
          && negb (bool_decide (lbound = greaterequal)
                   && bool_decide (ubound = lessequal))
  then Thrown (invalid_argument "Invalid bounds for option.")
  else if real_ne vdefault vdefault
  then Thrown (invalid_argument "Invalid default value.")
  else if bool_decide (CheckRange vdefault lower lbound upper ubound ≠ 0)
  then Thrown (invalid_argument "Default value out-of-bounds.")
  else
  let name := OptionUtility.PrepareString name in
  if bool_decide (name = EmptyString)
  then Thrown (invalid_argument
                 "Invalid name (string reduced to zero-length).")
  else Ok (Mk (OptionBase.Mk name id desc 0 hidden pgrp) vdefault vdefault
             lower lbound upper ubound).

Definition GetRealValue (o : t) : T := value o.

Definition SetRealValue (o : t) (value : T) (setby : Z) : result t :=
  if real_ne value value
  then Thrown (invalid_argument "Passed option value is invalid.")
  else if bool_decide
            (CheckRange value (lower o) (lbound o) (upper o) (ubound o) ≠ 0)
  then Thrown (out_of_range "Value out-of-bounds.")
  else
  let b := base o in
  Ok (Mk (OptionBase.Mk (OptionBase.name b) (OptionBase.id b)
            (OptionBase.desc b)
            (if bool_decide (setby ≠ 0) then setby else 0)
            (OptionBase.hidden b) (OptionBase.pgrp b))
        (vdefault o) value (lower o) (lbound o) (upper o) (ubound o)).
End WithT.
Global Arguments t T : clear implicits.
End OptionReal.

Module OptionBool.
Record t := Mk {
  base : OptionBase.t;
  vdefault : bool;
  value : bool
}.

Definition GetName (o : t) : string := OptionBase.name (base o).

(** The constructor. *)
Definition construct (name : string) (id : Z) (desc : string) (hidden : bool)
    (pgrp : Z) (vdefault : bool) : result t :=
  if bool_decide (vdefault ≠ vdefault)
  then Thrown (invalid_argument "Default value is not finite.")
  else
  let name := OptionUtility.PrepareString name in
  if bool_decide (name = EmptyString)
  then Thrown (invalid_argument
                 "Invalid name (string reduced to zero-length).")
  else Ok (Mk (OptionBase.Mk name id desc 0 hidden pgrp) vdefault vdefault).

Definition GetBoolValue (o : t) : bool := value o.

Definition SetBoolValue (o : t) (value : bool) (setby : Z) : result t :=
  if bool_decide (value ≠ value)
  then Thrown (invalid_argument "passed option value is invalid.")
  else
  let b := base o in
  Ok (Mk (OptionBase.Mk (OptionBase.name b) (OptionBase.id b)
            (OptionBase.desc b)
            (if bool_decide (setby ≠ 0) then setby else 0)
            (OptionBase.hidden b) (OptionBase.pgrp b))
        (vdefault o) value).
End OptionBool.

Module OptionString.
Record t := Mk {
  base : OptionBase.t;
  vdefault : string;
  value : string;
  labels : gmap string Z
}.

Definition GetName (o : t) : string := OptionBase.name (base o).

(** The loop of the constructor over the entries of its argument
    [labels], a [std::map] that is given by its entries in the order of
    the iteration; [own] is the member [OptionString::labels]. *)
Fixpoint insert_labels (entries : list (string * Z)) (own : gmap string Z)
  : result (gmap string Z) :=
  match entries with
  | [] => Ok own
  | entry :: entries =>
      let label := OptionUtility.PrepareString entry.1 in
      if bool_decide (label = EmptyString)
      then Thrown (invalid_argument
                     "Invalid option value (string reduced to zero-length).")
      else
      match own !! label with
      | Some _ =>
          Thrown (invalid_argument "Failed to insert a label, duplicate?")
      | None => insert_labels entries (<[label := entry.2]> own)
      end
  end.

(** The constructor. *)
Definition construct (name : string) (id : Z) (desc : string) (hidden : bool)
    (pgrp : Z) (labels : list (string * Z)) (vdefault : string) : result t :=
  if bool_decide (length labels = 0%nat)
  then Thrown (invalid_argument
                 "Label's map must contain at least one entry.")
  else
  let name := OptionUtility.PrepareString name in
  if bool_decide (name = EmptyString)
  then Thrown (invalid_argument
                 "Invalid name (string reduced to zero-length).")
  else
  match insert_labels labels ∅ with
  | Thrown e => Thrown e
  | Ok own =>
      let label := OptionUtility.PrepareString vdefault in
      match own !! label with
      | None => Thrown (invalid_argument "Default label is invalid.")
      | Some _ =>
          Ok (Mk (OptionBase.Mk name id desc 0 hidden pgrp) label label own)
      end
  end.

Definition GetStringValue (o : t) : string := value o.

(** [GetStringValue(key)]: the value, and [key] as it is afterwards.
    [labels.at] throws [std::out_of_range] for a missing key, with a
    text of the library's. *)
Definition GetStringValue_key (o : t) : result (string * Z) :=
  match labels o !! value o with
  | Some key => Ok (value o, key)
  | None => Thrown (out_of_range "map::at")
  end.

Definition SetStringValue (o : t) (value : string) (setby : Z) : result t :=
  let val := OptionUtility.PrepareString value in
  match labels o !! val with
  | None => Thrown (invalid_argument "Unrecognized value for this option.")
  | Some _ =>
      let b := base o in
      Ok (Mk (OptionBase.Mk (OptionBase.name b) (OptionBase.id b)
                (OptionBase.desc b)
                (if bool_decide (setby ≠ 0) then setby else 0)
                (OptionBase.hidden b) (OptionBase.pgrp b))
            (vdefault o) val (labels o))
  end.
End OptionString.

Module OptionRegistry.
Section WithT.
Context {T : Type} `{RealType T}.

Record t := Mk {
  readonly : bool;
  IntRegistry : list OptionInt.t;
  RealRegistry : list (OptionReal.t T);
  BoolRegistry : list OptionBool.t;
  StringRegistry : list OptionString.t
}.

(** The constructor. *)
Definition construct : t := Mk false [] [] [] [].

Definition Lock (r : t) : t :=
  Mk true (IntRegistry r) (RealRegistry r) (BoolRegistry r)
    (StringRegistry r).

Definition UnLock (r : t) : t :=
  Mk false (IntRegistry r) (RealRegistry r) (BoolRegistry r)
    (StringRegistry r).

(** The four overloads of [Register]. *)
Definition Register_Int (r : t) (i : OptionInt.t) : Z * t :=
  (0, Mk (readonly r) (IntRegistry r ++ [i]) (RealRegistry r)
        (BoolRegistry r) (StringRegistry r)).

Definition Register_Real (r : t) (x : OptionReal.t T) : Z * t :=
  (0, Mk (readonly r) (IntRegistry r) (RealRegistry r ++ [x])
        (BoolRegistry r) (StringRegistry r)).

Definition Register_Bool (r : t) (b : OptionBool.t) : Z * t :=
  (0, Mk (readonly r) (IntRegistry r) (RealRegistry r) (BoolRegistry r ++ [b])
        (StringRegistry r)).

Definition Register_String (r : t) (s : OptionString.t) : Z * t :=
  (0, Mk (readonly r) (IntRegistry r) (RealRegistry r) (BoolRegistry r)
        (StringRegistry r ++ [s])).

(** The four overloads of [SetOption]: the flag and the registry
    afterwards.  [std::find_if] is [list_find]: the position and the
    element of the first match, or [None] for [end()]. *)
Definition SetOption_Int (r : t) (name : string) (value setby : Z) : Z * t :=
  let pname := OptionUtility.PrepareString name in
  match list_find (λ o, OptionInt.GetName o = pname) (IntRegistry r) with
  | Some (it, o) =>
      if readonly r then (4, r)
      else
      match OptionInt.SetInvegerValue o value setby with
      | Thrown (out_of_range _) => (1, r)
      | Thrown (invalid_argument _) => (2, r)
      | Ok o =>
          (0, Mk (readonly r) (<[it := o]> (IntRegistry r)) (RealRegistry r)
                (BoolRegistry r) (StringRegistry r))
      end
  | None => (3, r)
  end.

Definition SetOption_Real (r : t) (name : string) (value : T) (setby : Z)
  : Z * t :=
  let pname := OptionUtility.PrepareString name in
  match list_find (λ o, OptionReal.GetName o = pname) (RealRegistry r) with
  | Some (it, o) =>
      if readonly r then (4, r)
      else
      match OptionReal.SetRealValue o value setby with
      | Thrown (out_of_range _) => (1, r)
      | Thrown (invalid_argument _) => (2, r)
      | Ok o =>
          (0, Mk (readonly r) (IntRegistry r) (<[it := o]> (RealRegistry r))
                (BoolRegistry r) (StringRegistry r))
      end
  | None => (3, r)
  end.

(** This overload catches [invalid_argument] only. *)
Definition SetOption_Bool (r : t) (name : string) (value : bool) (setby : Z)
  : result (Z * t) :=
  let pname := OptionUtility.PrepareString name in
  match list_find (λ o, OptionBool.GetName o = pname) (BoolRegistry r) with
  | Some (it, o) =>
      if readonly r then Ok (4, r)
      else
      match OptionBool.SetBoolValue o value setby with
      | Thrown (invalid_argument _) => Ok (2, r)
      | Thrown e => Thrown e
      | Ok o =>
          Ok (0, Mk (readonly r) (IntRegistry r) (RealRegistry r)
                   (<[it := o]> (BoolRegistry r)) (StringRegistry r))
      end
  | None => Ok (3, r)
  end.

Definition SetOption_String (r : t) (name value : string) (setby : Z)
  : Z * t :=
  let pname := OptionUtility.PrepareString name in
  match list_find (λ o, OptionString.GetName o = pname) (StringRegistry r)
  with
  | Some (it, o) =>
      if readonly r then (4, r)
      else
      match OptionString.SetStringValue o value setby with
      | Thrown (out_of_range _) => (1, r)
      | Thrown (invalid_argument _) => (2, r)
      | Ok o =>
          (0, Mk (readonly r) (IntRegistry r) (RealRegistry r)
                (BoolRegistry r) (<[it := o]> (StringRegistry r)))
      end
  | None => (3, r)
  end.

(** The overloads of [GetOption]: the flag, and the referenced
    arguments as they are afterwards. *)
Definition GetOption_Int (r : t) (name : string) (value : Z) : Z * Z :=
  let pname := OptionUtility.PrepareString name in
  match list_find (λ o, OptionInt.GetName o = pname) (IntRegistry r) with
  | Some (_, o) => (0, OptionInt.GetIntegerValue o)
  | None => (3, value)
  end.

Definition GetOption_Real (r : t) (name : string) (value : T) : Z * T :=
  let pname := OptionUtility.PrepareString name in
  match list_find (λ o, OptionReal.GetName o = pname) (RealRegistry r) with
  | Some (_, o) => (0, OptionReal.GetRealValue o)
  | None => (3, value)
  end.

Definition GetOption_Bool (r : t) (name : string) (value : bool) : Z * bool :=
  let pname := OptionUtility.PrepareString name in
  match list_find (λ o, OptionBool.GetName o = pname) (BoolRegistry r) with
  | Some (_, o) => (0, OptionBool.GetBoolValue o)
  | None => (3, value)
  end.

Definition GetOption_String (r : t) (name : string) (value : string)
    (key : Z) : result (Z * string * Z) :=
  let pname := OptionUtility.PrepareString name in
  match list_find (λ o, OptionString.GetName o = pname) (StringRegistry r)
  with
  | Some (_, o) =>
      match OptionString.GetStringValue_key o with
      | Ok (value, key) => Ok (0, value, key)
      | Thrown e => Thrown e
      end
  | None => Ok (3, value, key)
  end.

Definition GetKey (r : t) (name : string) (key : Z) : result (Z * Z) :=
  let pname := OptionUtility.PrepareString name in
  match list_find (λ o, OptionString.GetName o = pname) (StringRegistry r)
  with
  | Some (_, o) =>
      match OptionString.GetStringValue_key o with
      | Ok (_, key) => Ok (0, key)
      | Thrown e => Thrown e
      end
  | None => Ok (3, key)
  end.
End WithT.
Global Arguments t T : clear implicits.
End OptionRegistry.

(** ** Statements about the options registry *)

(** Every character of the string is a blank. *)
Fixpoint all_blank (str : string) : bool :=
  match str with
  | String c rest => Ascii.is_space c && all_blank rest
  | EmptyString => true
  end.

(** No blank follows a blank, and every blank is a space.  [after_blank]
    tells that the character before was a blank. *)
Fixpoint squeezed_from (after_blank : bool) (str : string) : bool :=
  match str with
  | String c rest =>
      if Ascii.is_space c
      then negb after_blank && bool_decide (c = " "%char)
           && squeezed_from true rest
      else squeezed_from false rest
  | EmptyString => true
  end.

(** The first character is no blank. *)
Definition starts_clean (str : string) : bool :=
  match str with
  | String c _ => negb (Ascii.is_space c)
  | EmptyString => true
  end.

(** The value lies on the admitted side of both bounds. *)
Definition in_range (value lower : Z) (lbound : lbound_t) (upper : Z)
    (ubound : ubound_t) : Prop :=
  match lbound with
  | m_inf => True
  | greaterthan => lower < value
  | greaterequal => lower ≤ value
  end
  ∧ match ubound with
    | p_inf => True
    | lessthan => value < upper
    | lessequal => value ≤ upper
    end.

Global Instance in_range_dec value lower lbound upper ubound :
  Decision (in_range value lower lbound upper ubound).
Proof. unfold in_range. destruct lbound, ubound; apply _. Defined.

(** An option as a setter leaves it: the value and the mark of who set
    it are new, the rest is kept. *)
Definition with_setby (b : OptionBase.t) (setby : Z) : OptionBase.t :=
  OptionBase.Mk (OptionBase.name b) (OptionBase.id b) (OptionBase.desc b) setby
    (OptionBase.hidden b) (OptionBase.pgrp b).

Definition OptionInt_set (o : OptionInt.t) (value setby : Z) : OptionInt.t :=
  OptionInt.Mk (with_setby (OptionInt.base o) setby) (OptionInt.vdefault o)
    value (OptionInt.lower o) (OptionInt.lbound o) (OptionInt.upper o)
    (OptionInt.ubound o).

Definition OptionBool_set (o : OptionBool.t) (value : bool) (setby : Z)
  : OptionBool.t :=
  OptionBool.Mk (with_setby (OptionBool.base o) setby) (OptionBool.vdefault o)
    value.

Definition OptionString_set (o : OptionString.t) (value : string) (setby : Z)
  : OptionString.t :=
  OptionString.Mk (with_setby (OptionString.base o) setby)
    (OptionString.vdefault o) value (OptionString.labels o).

Definition OptionReal_set {T} (o : OptionReal.t T) (value : T) (setby : Z)
  : OptionReal.t T :=
  OptionReal.Mk (with_setby (OptionReal.base o) setby) (OptionReal.vdefault o)
    value (OptionReal.lower o) (OptionReal.lbound o) (OptionReal.upper o)
    (OptionReal.ubound o).

Section RegistryStatements.
Context {T : Type} `{RealType T}.
Implicit Types (r : OptionRegistry.t T).

(** The option that a look-up of [name] reaches in each of the four
    vectors. *)
Definition find_Int r (name : string) : option OptionInt.t :=
  snd <$> list_find
            (λ o, OptionInt.GetName o = OptionUtility.PrepareString name)
            (OptionRegistry.IntRegistry r).

Definition find_Real r (name : string) : option (OptionReal.t T) :=
  snd <$> list_find
            (λ o, OptionReal.GetName o = OptionUtility.PrepareString name)
            (OptionRegistry.RealRegistry r).

Definition find_Bool r (name : string) : option OptionBool.t :=
  snd <$> list_find
            (λ o, OptionBool.GetName o = OptionUtility.PrepareString name)
            (OptionRegistry.BoolRegistry r).

Definition find_String r (name : string) : option OptionString.t :=
  snd <$> list_find
            (λ o, OptionString.GetName o = OptionUtility.PrepareString name)
            (OptionRegistry.StringRegistry r).

(** Two names that a look-up does not tell apart. *)
Definition same_name (name name' : string) : Prop :=
  OptionUtility.PrepareString name' = OptionUtility.PrepareString name.

Global Instance same_name_dec name name' : Decision (same_name name name').
Proof. unfold same_name. apply _. Defined.
End RegistryStatements.

(** The integers as a value type of [OptionReal], to run the model. *)
Global Instance Z_real : RealType Z := {
  real_eq a b := bool_decide (a = b);
  real_ne a b := bool_decide (a ≠ b);
  real_lt a b := bool_decide (a < b);
  real_le a b := bool_decide (a ≤ b);
  real_gt a b := bool_decide (a > b);
  real_ge a b := bool_decide (a >= b)
}.

(** A string that [PrepareString] returned, and is not empty. *)
Definition prepared (str : string) : Prop :=
  str ≠ EmptyString ∧ ∃ raw, str = OptionUtility.PrepareString raw.

(** A name as the constructors leave it. *)
Definition prepared_name (b : OptionBase.t) : Prop :=
  prepared (OptionBase.name b).

(** What the constructors establish and the setters keep. *)
Definition OptionInt_valid (o : OptionInt.t) : Prop :=
  in_range (OptionInt.value o) (OptionInt.lower o) (OptionInt.lbound o)
    (OptionInt.upper o) (OptionInt.ubound o)
  ∧ in_range (OptionInt.vdefault o) (OptionInt.lower o) (OptionInt.lbound o)
      (OptionInt.upper o) (OptionInt.ubound o)
  ∧ prepared_name (OptionInt.base o).

Definition OptionReal_valid {T} `{RealType T} (o : OptionReal.t T) : Prop :=
  OptionReal.CheckRange (OptionReal.value o) (OptionReal.lower o)
    (OptionReal.lbound o) (OptionReal.upper o) (OptionReal.ubound o) = 0
  ∧ real_ne (OptionReal.value o) (OptionReal.value o) = false
  ∧ prepared_name (OptionReal.base o).

Definition OptionBool_valid (o : OptionBool.t) : Prop :=
  prepared_name (OptionBool.base o).

Definition OptionString_valid (o : OptionString.t) : Prop :=
  is_Some (OptionString.labels o !! OptionString.value o)
  ∧ is_Some (OptionString.labels o !! OptionString.vdefault o)
  ∧ (∀ label, is_Some (OptionString.labels o !! label) → prepared label)
  ∧ prepared_name (OptionString.base o).

(** The four properties together. *)
Definition registry_valid {T} `{RealType T} (r : OptionRegistry.t T) : Prop :=
  Forall OptionInt_valid (OptionRegistry.IntRegistry r)
  ∧ Forall OptionReal_valid (OptionRegistry.RealRegistry r)
  ∧ Forall OptionBool_valid (OptionRegistry.BoolRegistry r)
  ∧ Forall OptionString_valid (OptionRegistry.StringRegistry r).

(** The label and key pairs of a [std::map] of labels, prepared. *)
Definition prepared_labels (labels : list (string * Z)) : list (string * Z) :=
  (λ entry, (OptionUtility.PrepareString entry.1, entry.2)) <$> labels.

(** The registries a program can build: from the empty one by locking,
    unlocking, registering options that a constructor returned, and
    setting options. *)
Inductive built {T} `{RealType T} : OptionRegistry.t T → Prop :=
| built_construct : built OptionRegistry.construct
| built_Lock r : built r → built (OptionRegistry.Lock r)
| built_UnLock r : built r → built (OptionRegistry.UnLock r)
| built_Register_Int r name id desc hidden pgrp lower lbound upper ubound
    vdefault o :
    built r →
    OptionInt.construct name id desc hidden pgrp lower lbound upper ubound
      vdefault = Ok o →
    built (OptionRegistry.Register_Int r o).2
| built_Register_Real r name id desc hidden pgrp lower lbound upper ubound
    vdefault o :
    built r →
    OptionReal.construct name id desc hidden pgrp lower lbound upper ubound
      vdefault = Ok o →
    built (OptionRegistry.Register_Real r o).2
| built_Register_Bool r name id desc hidden pgrp vdefault o :
    built r →
    OptionBool.construct name id desc hidden pgrp vdefault = Ok o →
    built (OptionRegistry.Register_Bool r o).2
| built_Register_String r name id desc hidden pgrp labels vdefault o :
    built r →
    OptionString.construct name id desc hidden pgrp labels vdefault = Ok o →
    built (OptionRegistry.Register_String r o).2
| built_SetOption_Int r name value setby :
    built r → built (OptionRegistry.SetOption_Int r name value setby).2
| built_SetOption_Real r name value setby :
    built r → built (OptionRegistry.SetOption_Real r name value setby).2
| built_SetOption_Bool r name value setby flag r' :
    built r →
    OptionRegistry.SetOption_Bool r name value setby = Ok (flag, r') →
    built r'
| built_SetOption_String r name value setby :
    built r → built (OptionRegistry.SetOption_String r name value setby).2.

(** A registry with an integer and a string option, and a value set. *)
Definition sample_registry : OptionRegistry.t Z :=
  let r := OptionRegistry.construct in
  let r :=
    match OptionInt.construct " Iteration  Limit" 1 "maximum of iterations"
            false 0 1 greaterequal 1000000 p_inf 150 with
    | Ok o => (OptionRegistry.Register_Int r o).2
    | Thrown _ => r
    end in
  let r :=
    match OptionString.construct "solver" 2 "linear solver" false 0
            [("CG", 1); ("GMRES", 2)] "cg" with
    | Ok o => (OptionRegistry.Register_String r o).2
    | Thrown _ => r
    end in
  (OptionRegistry.SetOption_String r " SOLVER " "gmres " 1).2.

(** ** Statements about the product as a whole *)

Section ProductStatements.
Context {T : Type} `{Scalar T}.


End ProductStatements.

(** Three rows in base one with sorted columns, the second one empty, and
    the buffers of the clean matrix with the row offsets in base zero. *)
Definition sorted_base_one : heap Z :=
  Heap (<[6%positive := ValBlock [0; 0; 0; 0]]>
          (<[5%positive := IntBlock [0; 0; 0; 0]]>
             (<[4%positive := IntBlock [0; 2; 2; 4]]>
                (blocks (memory_of [1; 3; 3; 5] [1; 3; 2; 3]
                           [10; 20; 30; 40]))))) [].

(** ** Statements about what a call writes *)

Section MemoryShape.
Context {T : Type} `{Scalar T}.

(** [h'] has the allocations of [h], each with as many cells, and the
    same requests to come. *)
Definition same_sizes (h h' : heap T) : Prop :=
  oracle h' = oracle h
  ∧ dom (blocks h') = dom (blocks h)
  ∧ (∀ p, length (ints_at h' p) = length (ints_at h p))
  ∧ (∀ p, length (vals_at h' p) = length (vals_at h p)).

(** From [h] to [h'] cells of the allocations at [W] have been written,
    and nothing else has happened. *)
Definition writes_only (W : list ptr) (h h' : heap T) : Prop :=
  same_except W h h' ∧ same_sizes h h'.

(** The three buffers of a matrix. *)
Definition buffers (A : aoclsparse_csr) : list ptr :=
  [csr_row_ptr A; csr_col_ptr A; csr_val A].
End MemoryShape.

(** ** Statements about the clean matrix *)

Section CleanStatements.
Context {T : Type} `{Scalar T}.

(** [out] is [row] with a zero on column [i] put between its entries if
    [i < n] and [row] does not hold column [i], and [row] itself if
    not. *)
Definition with_diagonal (n i : Z) (row out : list (Z * T)) : Prop :=
  if decide (i < n ∧ i ∉ row.*1)
  then ∃ l1 l2, row = l1 ++ l2 ∧ out = l1 ++ (i, szero) :: l2
  else out = row.
End CleanStatements.

(** ** Statements about the handle *)

(** The user's side of the handle [a'] is the one of [a]. *)
Definition same_user_side (a a' : aoclsparse_matrix) : Prop :=
  csr_mat a' = csr_mat a
  ∧ mat_m a' = mat_m a ∧ mat_n a' = mat_n a ∧ mat_nnz a' = mat_nnz a
  ∧ mat_base a' = mat_base a ∧ val_type a' = val_type a.

(** The three flags the driver sets at its end are in [a'] what they are
    in [a]. *)
Definition same_flags (a a' : aoclsparse_matrix) : Prop :=
  optimized a' = optimized a
  ∧ opt_csr_ready a' = opt_csr_ready a
  ∧ opt_csr_full_diag a' = opt_csr_full_diag a.

(** * The type dispatch of the sparse product *)

Section Sp2mProperties.
Context {Slot : Type}.
Variable csr2m_t :
  template_type →
  aoclsparse_operation → option aoclsparse_mat_descr → aoclsparse_matrix →
  aoclsparse_operation → option aoclsparse_mat_descr → aoclsparse_matrix →
  aoclsparse_request → Slot → aoclsparse_status * Slot.

Lemma sp2m_null_A opA descrA opB descrB B request C :
  aoclsparse_sp2m csr2m_t opA descrA None opB descrB B request C
  = (aoclsparse_status_invalid_pointer, C).
Proof. reflexivity. Qed.

Lemma sp2m_null_B opA descrA A opB descrB request C :
  aoclsparse_sp2m csr2m_t opA descrA A opB descrB None request C
  = (aoclsparse_status_invalid_pointer, C).
Proof. by destruct A. Qed.

Lemma sp2m_null_C opA descrA A opB descrB B request :
  aoclsparse_sp2m csr2m_t opA descrA A opB descrB B request None
  = (aoclsparse_status_invalid_pointer, None).
Proof. by destruct A, B. Qed.

Lemma sp2m_wrong_type opA descrA A opB descrB B request C :
  val_type A ≠ val_type B →
  aoclsparse_sp2m csr2m_t opA descrA (Some A) opB descrB (Some B) request (Some C)
  = (aoclsparse_status_wrong_type, Some C).
Proof.
  intros Hne. unfold aoclsparse_sp2m.
  destruct (val_type A), (val_type B); try done.
Qed.

Lemma sp2m_forwards opA descrA A opB descrB B request C :
  val_type A = val_type B →
  aoclsparse_sp2m csr2m_t opA descrA (Some A) opB descrB (Some B) request (Some C)
  = (let '(status, C') :=
       csr2m_t (template_of (val_type A)) opA descrA A opB descrB B request C in
     (status, Some C')).
Proof.
  intros Heq. unfold aoclsparse_sp2m. rewrite <- Heq.
  by destruct (val_type A).
Qed.

(** C9.  [aoclsparse_sp2m] answers [aoclsparse_status_invalid_pointer]
    when [A], [B] or [C] is null and leaves the slot alone; with the three
    present it answers [aoclsparse_status_wrong_type] when the value types
    of [A] and [B] differ, and for equal value types (float, double,
    complex float, complex double) its result is that of the kernel of
    that type, called with the very arguments it received. *)
Theorem sp2m_dispatch opA descrA A opB descrB B request C :
  match A, B, C with
  | Some A', Some B', Some C' =>
      if decide (val_type A' = val_type B')
      then aoclsparse_sp2m csr2m_t opA descrA A opB descrB B request C
           = (let '(status, C'') :=
                csr2m_t (template_of (val_type A')) opA descrA A' opB descrB
                  B' request C' in
              (status, Some C''))
      else aoclsparse_sp2m csr2m_t opA descrA A opB descrB B request C
           = (aoclsparse_status_wrong_type, C)
  | _, _, _ =>
      aoclsparse_sp2m csr2m_t opA descrA A opB descrB B request C
      = (aoclsparse_status_invalid_pointer, C)
  end.
Proof.
  destruct A as [A'|], B as [B'|], C as [C'|];
    auto using sp2m_null_A, sp2m_null_B, sp2m_null_C.
  destruct (decide _); auto using sp2m_forwards, sp2m_wrong_type.
Qed.
End Sp2mProperties.

(** * The SpMV entry points *)

Section EntryPointProperties.
Context {T : Type}.
Variable USE_AVX512 : bool.
Variable global_context : aoclsparse_context.
Variable indeterminate_is_avx512 : bool.
Variable K : csrmv_kernels T.

Local Abbreviation scsrmv :=
  (aoclsparse_scsrmv global_context indeterminate_is_avx512 K).
Local Abbreviation dcsrmv := (aoclsparse_dcsrmv USE_AVX512 global_context K).

(** C4.  The checks of [aoclsparse_scsrmv] and [aoclsparse_dcsrmv], in
    their order: a null descriptor gives invalid_pointer; else a base
    other than zero gives not_implemented; else a type that is neither
    general nor symmetric gives not_implemented; else a transposition
    gives not_implemented; else a negative [m], [n] or [nnz] gives
    invalid_size; else [m], [n] or [nnz] equal to zero gives success;
    else a null [csr_val], [csr_row_ptr], [csr_col_ind], [x] or [y] gives
    invalid_pointer.  In each of these cases [y] is returned as it was. *)
Theorem csrmv_checks_in_order trans alpha m n nnz csr_val csr_col_ind
    csr_row_ptr descr x beta y :
  let stop :=
    both_stop USE_AVX512 global_context indeterminate_is_avx512 K trans alpha
      m n nnz csr_val csr_col_ind csr_row_ptr descr x beta y in
  match descr with
  | None => stop aoclsparse_status_invalid_pointer
  | Some d =>
      if decide (descr_base d ≠ aoclsparse_index_base_zero)
      then stop aoclsparse_status_not_implemented
      else if decide (descr_type d ≠ aoclsparse_matrix_type_general
                      ∧ descr_type d ≠ aoclsparse_matrix_type_symmetric)
      then stop aoclsparse_status_not_implemented
      else if decide (trans ≠ aoclsparse_operation_none)
      then stop aoclsparse_status_not_implemented
      else if decide (m < 0 ∨ n < 0 ∨ nnz < 0)
      then stop aoclsparse_status_invalid_size
      else if decide (m = 0 ∨ n = 0 ∨ nnz = 0)
      then stop aoclsparse_status_success
      else if decide (csr_val = None ∨ csr_row_ptr = None
                      ∨ csr_col_ind = None ∨ x = None ∨ y = None)
      then stop aoclsparse_status_invalid_pointer
      else True
  end.
Proof.
  intros stop. subst stop. unfold both_stop, aoclsparse_scsrmv, aoclsparse_dcsrmv.
  destruct descr as [d|]; [|done].
  case_decide as Hbase; [by rewrite !bool_decide_true|].
  rewrite !(bool_decide_false (descr_base d ≠ _)) by naive_solver.
  case_decide as Hty.
  { by rewrite !(bool_decide_true (_ ≠ _)) by apply Hty. }
  replace (bool_decide (descr_type d ≠ aoclsparse_matrix_type_general)
           && bool_decide (descr_type d ≠ aoclsparse_matrix_type_symmetric))
    with false
    by (destruct (descr_type d); simpl in *; try done; naive_solver).
  case_decide as Htr; [by rewrite !bool_decide_true|].
  rewrite !(bool_decide_false (trans ≠ _)) by naive_solver.
  case_decide as Hneg.
  { destruct (decide (m < 0)); [by rewrite !(bool_decide_true (m < 0))|].
    rewrite !(bool_decide_false (m < 0)) by done.
    destruct (decide (n < 0)); [by rewrite !(bool_decide_true (n < 0))|].
    rewrite !(bool_decide_false (n < 0)) by done.
    by rewrite !(bool_decide_true (nnz < 0)) by lia. }
  rewrite !(bool_decide_false (m < 0)), !(bool_decide_false (n < 0)),
    !(bool_decide_false (nnz < 0)) by lia.
  case_decide as Hzero.
  { replace (bool_decide (m = 0) || bool_decide (n = 0) || bool_decide (nnz = 0))
      with true; [done|].
    symmetry. rewrite !orb_true_iff, !bool_decide_eq_true. tauto. }
  rewrite !(bool_decide_false (m = 0)), !(bool_decide_false (n = 0)),
    !(bool_decide_false (nnz = 0)) by tauto.
  case_decide as Hnull; [|done].
  destruct csr_val, csr_row_ptr, csr_col_ind, x, y; try done.
  destruct Hnull as [?|[?|[?|[?|?]]]]; discriminate.
Qed.




End EntryPointProperties.



(** Beyond [m = 214748364] the product overflows: for 214748365 rows and
    one entry, which is below ten entries a row, the comparison is made
    with the wrapped product, which is negative, and [aoclsparse_dcsrmv]
    calls the AVX2 kernel (number 5 of the probe), not the general one. *)
Example dcsrmv_threshold_wraps :
  1 ≤ 10 * 214748365
  ∧ wrap_aoclsparse_int (10 * 214748365) = -2147483646
  ∧ aoclsparse_dcsrmv false (MkContext 1 false) probe_kernels
      aoclsparse_operation_none 1 214748365 1 1 (Some [2]) (Some [0])
      (Some [0; 1]) (Some general_descr) (Some [3]) 0 (Some [0])
    = (aoclsparse_status_success, Some [5]).
Proof. split; [lia|]. split; reflexivity. Qed.

(** * Loops *)

Section Loops.
Context {St : Type}.
Implicit Types (body : Z → St → St) (s : St).

Lemma for_range_empty lo hi body s : hi ≤ lo → for_range lo hi body s = s.
Proof. intros. unfold for_range. by rewrite seqZ_nil by lia. Qed.

Lemma for_range_first lo hi body s :
  lo < hi → for_range lo hi body s = for_range (lo + 1) hi body (body lo s).
Proof.
  intros. unfold for_range. rewrite seqZ_cons by lia. simpl.
  by replace (Z.pred (hi - lo)) with (hi - (lo + 1)) by lia.
Qed.

Lemma for_range_last lo hi body s :
  lo ≤ hi → for_range lo (hi + 1) body s = body hi (for_range lo hi body s).
Proof.
  intros. unfold for_range.
  replace (hi + 1 - lo) with ((hi - lo) + 1) by lia.
  rewrite seqZ_app by lia. rewrite foldl_app.
  rewrite (seqZ_cons _ 1), (seqZ_nil _ (Z.pred 1)) by lia. simpl.
  by replace (lo + (hi - lo)) with hi by lia.
Qed.

Lemma for_range_split lo mid hi body s :
  lo ≤ mid ≤ hi →
  for_range lo hi body s = for_range mid hi body (for_range lo mid body s).
Proof.
  intros. unfold for_range.
  replace (hi - lo) with ((mid - lo) + (hi - mid)) by lia.
  rewrite seqZ_app, foldl_app by lia.
  by replace (lo + (mid - lo)) with mid by lia.
Qed.

(** The invariant rule of a counting loop. *)
Lemma for_range_ind (P : Z → St → Prop) lo hi body s :
  lo ≤ hi →
  P lo s →
  (∀ j s, lo ≤ j < hi → P j s → P (j + 1) (body j s)) →
  P hi (for_range lo hi body s).
Proof.
  intros Hle Hlo Hstep.
  assert (∀ k : nat, lo + Z.of_nat k ≤ hi →
            P (lo + Z.of_nat k) (for_range lo (lo + Z.of_nat k) body s))
    as Hk.
  { induction k as [|k IH]; intros Hk.
    - rewrite for_range_empty by lia.
      by replace (lo + Z.of_nat 0) with lo by lia.
    - replace (lo + Z.of_nat (S k)) with ((lo + Z.of_nat k) + 1) by lia.
      rewrite for_range_last by lia. apply Hstep; [lia|]. apply IH. lia. }
  specialize (Hk (Z.to_nat (hi - lo))).
  replace (lo + Z.of_nat (Z.to_nat (hi - lo))) with hi in Hk by lia.
  apply Hk. lia.
Qed.




End Loops.

(** * The vectorised kernels *)

Section ArrayFacts.
Context {A : Type}.
Implicit Types (a : list A) (d v : A).

Lemma at_nonneg d a i : 0 ≤ i → at_ d a i = default d (a !! Z.to_nat i).
Proof. intros. unfold at_. by rewrite bool_decide_false by lia. Qed.

Lemma length_set_ a i v : length (set_ a i v) = length a.
Proof. unfold set_. case_bool_decide; [done|]. by rewrite length_insert. Qed.

Lemma at_set_eq d a i v :
  0 ≤ i < Z.of_nat (length a) → at_ d (set_ a i v) i = v.
Proof.
  intros. unfold at_, set_. rewrite !bool_decide_false by lia.
  by rewrite list_lookup_insert_eq by lia.
Qed.

Lemma at_set_ne d a i j v : i ≠ j → at_ d (set_ a i v) j = at_ d a j.
Proof.
  intros. unfold at_, set_. repeat case_bool_decide; try done.
  by rewrite list_lookup_insert_ne by lia.
Qed.
End ArrayFacts.

Section KernelProperties.
Context {T : Type} `{ExactScalar T}.
Implicit Types (v a b c : list T) (csr_val x y : list T)
  (csr_col_ind csr_row_ptr : list Z).























End KernelProperties.

Section RowLoop.
Context {T : Type} `{Scalar T}.
Implicit Types (y : list T).




End RowLoop.

Section KernelTheorem.
Context {T : Type} `{Scalar T}.

End KernelTheorem.

(** The example of the sample program: a five by five matrix with eight
    entries, [alpha = 1], [beta = 0]. *)
Example sample_spmv_avx2 :
  aoclsparse_csrmv_vectorized_avx2 1 5 5 8 [1; 2; 3; 4; 5; 6; 7; 8]
    [0; 3; 1; 2; 1; 3; 4; 4] [0; 2; 3; 4; 7; 8] [1; 2; 3; 4; 5] 0
    [0; 0; 0; 0; 0] (MkContext 1 false)
  = (aoclsparse_status_success, [9; 6; 12; 69; 40]).
Proof. reflexivity. Qed.

(** A row of eleven entries runs the vector loop, the horizontal addition
    and the remainder loop of each kernel. *)
Example long_row_all_kernels :
  let csr_val := [1; 2; 3; 4; 5; 6; 7; 8; 9; 10; 11] in
  let csr_col_ind := [0; 1; 2; 3; 4; 5; 6; 7; 8; 9; 10] in
  let x := [1; 1; 2; 2; 3; 3; 4; 4; 5; 5; 6] in
  ∀ kernel, kernel ∈ vectorized_kernels.*1 →
    kernel 2 1 11 11 csr_val csr_col_ind [0; 11] x 3 [7] (MkContext 1 true)
    = (aoclsparse_status_success, [2 * 271 + 3 * 7]).
Proof.
  intros csr_val csr_col_ind x kernel Hk. simpl in Hk.
  repeat (apply elem_of_cons in Hk as [->|Hk]; [reflexivity|]).
  by apply elem_of_nil in Hk.
Qed.


(** * Memory *)

Section HeapFacts.
Context {T : Type} `{Scalar T}.
Implicit Types (h : heap T) (p q : ptr) (l : loc).

Lemma set_nil {A} (i : Z) (v : A) : set_ [] i v = [].
Proof. unfold set_. by case_bool_decide. Qed.

Lemma oracle_store_int h p i v : oracle (store_int h p i v) = oracle h.
Proof.
  unfold store_int. destruct p as [l|]; [|done].
  by destruct (blocks h !! l) as [[a|a]|].
Qed.

Lemma oracle_store_val h p i (v : T) : oracle (store_val h p i v) = oracle h.
Proof.
  unfold store_val. destruct p as [l|]; [|done].
  by destruct (blocks h !! l) as [[a|a]|].
Qed.

Lemma blocks_store_int_ne h p i v l :
  p ≠ Some l → blocks (store_int h p i v) !! l = blocks h !! l.
Proof.
  intros Hne. unfold store_int. destruct p as [l'|]; [|done].
  destruct (blocks h !! l') as [[a|a]|]; try done. simpl.
  apply lookup_insert_ne. congruence.
Qed.

Lemma blocks_store_val_ne h p i (v : T) l :
  p ≠ Some l → blocks (store_val h p i v) !! l = blocks h !! l.
Proof.
  intros Hne. unfold store_val. destruct p as [l'|]; [|done].
  destruct (blocks h !! l') as [[a|a]|]; try done. simpl.
  apply lookup_insert_ne. congruence.
Qed.

Lemma ints_at_store_int_eq h p i v :
  ints_at (store_int h p i v) p = set_ (ints_at h p) i v.
Proof.
  unfold store_int, ints_at. destruct p as [l|]; [|by rewrite set_nil].
  destruct (blocks h !! l) as [[a|a]|] eqn:Hl; simpl;
    rewrite ?Hl, ?set_nil; try done.
  by rewrite lookup_insert_eq.
Qed.

Lemma ints_at_store_int_ne h p i v q :
  p ≠ q → ints_at (store_int h p i v) q = ints_at h q.
Proof.
  intros Hne. unfold ints_at. destruct q as [l|]; [|done].
  rewrite blocks_store_int_ne; done.
Qed.

Lemma vals_at_store_int h p i v q :
  vals_at (store_int h p i v) q = vals_at h q.
Proof.
  unfold vals_at. destruct q as [l|]; [|done].
  destruct (decide (p = Some l)) as [->|Hne];
    [|by rewrite blocks_store_int_ne].
  unfold store_int. destruct (blocks h !! l) as [[a|a]|] eqn:Hl; simpl;
    rewrite ?Hl; try done.
  by rewrite lookup_insert_eq.
Qed.

Lemma vals_at_store_val_eq h p i (v : T) :
  vals_at (store_val h p i v) p = set_ (vals_at h p) i v.
Proof.
  unfold store_val, vals_at. destruct p as [l|]; [|by rewrite set_nil].
  destruct (blocks h !! l) as [[a|a]|] eqn:Hl; simpl;
    rewrite ?Hl, ?set_nil; try done.
  by rewrite lookup_insert_eq.
Qed.

Lemma vals_at_store_val_ne h p i (v : T) q :
  p ≠ q → vals_at (store_val h p i v) q = vals_at h q.
Proof.
  intros Hne. unfold vals_at. destruct q as [l|]; [|done].
  rewrite blocks_store_val_ne; done.
Qed.

Lemma ints_at_store_val h p i (v : T) q :
  ints_at (store_val h p i v) q = ints_at h q.
Proof.
  unfold ints_at. destruct q as [l|]; [|done].
  destruct (decide (p = Some l)) as [->|Hne];
    [|by rewrite blocks_store_val_ne].
  unfold store_val. destruct (blocks h !! l) as [[a|a]|] eqn:Hl; simpl;
    rewrite ?Hl; try done.
  by rewrite lookup_insert_eq.
Qed.

Lemma dom_store_int h p i v :
  dom (blocks (store_int h p i v)) = dom (blocks h).
Proof.
  unfold store_int. destruct p as [l|]; [|done].
  destruct (blocks h !! l) as [[a|a]|] eqn:Hl; try done. simpl.
  rewrite dom_insert_L. apply elem_of_dom_2 in Hl. set_solver.
Qed.

Lemma dom_store_val h p i (v : T) :
  dom (blocks (store_val h p i v)) = dom (blocks h).
Proof.
  unfold store_val. destruct p as [l|]; [|done].
  destruct (blocks h !! l) as [[a|a]|] eqn:Hl; try done. simpl.
  rewrite dom_insert_L. apply elem_of_dom_2 in Hl. set_solver.
Qed.

Lemma load_int_store_int_ne h p i v q j :
  p ≠ q → load_int (store_int h p i v) q j = load_int h q j.
Proof. intros. unfold load_int. by rewrite ints_at_store_int_ne. Qed.

Lemma load_int_store_val h p i (v : T) q j :
  load_int (store_val h p i v) q j = load_int h q j.
Proof. unfold load_int. by rewrite ints_at_store_val. Qed.

Lemma load_val_store_int h p i v q j :
  load_val (store_int h p i v) q j = load_val h q j.
Proof. unfold load_val. by rewrite vals_at_store_int. Qed.

Lemma load_val_store_val_ne h p i (v : T) q j :
  p ≠ q → load_val (store_val h p i v) q j = load_val h q j.
Proof. intros. unfold load_val. by rewrite vals_at_store_val_ne. Qed.

(** *** Requests *)

Lemma request_memory_served n h :
  0 ≤ n → grants 1 h = true →
  request_memory n h = (true, Heap (blocks h) (tail (oracle h))).
Proof.
  intros Hn Hg. unfold request_memory, grants in *.
  rewrite bool_decide_false by lia. destruct h as [bs [|b o]]; simpl in *.
  - done.
  - rewrite andb_true_r in Hg. unfold id in Hg. by subst b.
Qed.

Lemma request_memory_refused n h :
  n < 0 ∨ grants 1 h = false →
  ∃ o, request_memory n h = (false, Heap (blocks h) o).
Proof.
  intros Hc. unfold request_memory, grants in *. case_bool_decide.
  - exists (oracle h). by destruct h.
  - destruct Hc as [?|Hg]; [lia|]. destruct h as [bs [|b o]]; simpl in *.
    + done.
    + rewrite andb_true_r in Hg. unfold id in Hg. subst b. by exists o.
Qed.

Lemma grants_S k h :
  grants (S k) h = grants 1 h && grants k (Heap (blocks h) (tail (oracle h))).
Proof.
  unfold grants. destruct h as [bs [|b o]]; simpl.
  - by destruct k.
  - by rewrite andb_true_r.
Qed.

Lemma fresh_not_live h : blocks h !! fresh (dom (blocks h)) = None.
Proof. apply not_elem_of_dom. apply is_fresh. Qed.

Lemma new_ints_served n h :
  0 ≤ n → grants 1 h = true →
  let l := fresh (dom (blocks h)) in
  new_ints n h
  = (Some l, Heap (<[l := IntBlock (replicate (Z.to_nat n) 0)]> (blocks h))
               (tail (oracle h))).
Proof.
  intros Hn Hg. unfold new_ints. by rewrite request_memory_served.
Qed.

Lemma new_vals_served n h :
  0 ≤ n → grants 1 h = true →
  let l := fresh (dom (blocks h)) in
  new_vals n h
  = (Some l, Heap (<[l := ValBlock (replicate (Z.to_nat n) szero)]> (blocks h))
               (tail (oracle h))).
Proof.
  intros Hn Hg. unfold new_vals. by rewrite request_memory_served.
Qed.

Lemma new_ints_refused n h :
  n < 0 ∨ grants 1 h = false →
  ∃ o, new_ints n h = (None, Heap (blocks h) o).
Proof.
  intros Hc. unfold new_ints.
  destruct (request_memory_refused n h Hc) as [o ->]. by exists o.
Qed.

Lemma new_vals_refused n h :
  n < 0 ∨ grants 1 h = false →
  ∃ o, new_vals n h = (None, Heap (blocks h) o).
Proof.
  intros Hc. unfold new_vals.
  destruct (request_memory_refused n h Hc) as [o ->]. by exists o.
Qed.

Lemma preserved_refl h : preserved h h.
Proof. by intros l b. Qed.

Lemma preserved_trans h1 h2 h3 :
  preserved h1 h2 → preserved h2 h3 → preserved h1 h3.
Proof. intros H12 H23 l b Hl. by apply H23, H12. Qed.
End HeapFacts.

(** * Loops that fill arrays *)

Section FillLists.
Context {A : Type}.
Implicit Types (a : list A) (f : Z → A).

Lemma set_length_ge a i v : Z.of_nat (length a) ≤ i → set_ a i v = a.
Proof.
  intros. unfold set_. case_bool_decide; [done|].
  apply list_insert_ge. lia.
Qed.

(** [for (i = lo; i < hi; i++) a[i] = f i] on a list that holds the
    range. *)
Lemma fill_range a f lo hi :
  0 ≤ lo ≤ hi → hi ≤ Z.of_nat (length a) →
  for_range lo hi (λ i a, set_ a i (f i)) a
  = take (Z.to_nat lo) a ++ (f <$> seqZ lo (hi - lo)) ++ drop (Z.to_nat hi) a.
Proof.
  intros Hlo Hhi.
  apply (for_range_ind
           (λ j aj, aj = take (Z.to_nat lo) a ++ (f <$> seqZ lo (j - lo))
                         ++ drop (Z.to_nat j) a) lo hi).
  - lia.
  - rewrite seqZ_nil by lia. simpl. by rewrite take_drop.
  - intros j aj Hj ->.
    replace (j + 1 - lo) with ((j - lo) + 1) by lia.
    rewrite seqZ_app, fmap_app by lia.
    rewrite (seqZ_cons _ 1), (seqZ_nil _ (Z.pred 1)) by lia. simpl.
    replace (lo + (j - lo)) with j by lia.
    unfold set_. rewrite bool_decide_false by lia.
    assert (length (take (Z.to_nat lo) a) = Z.to_nat lo) as Hl1
      by (rewrite length_take; lia).
    assert (length (f <$> seqZ lo (j - lo)) = Z.to_nat (j - lo)) as Hl2
      by (by rewrite length_fmap, length_seqZ).
    rewrite insert_app_r_alt by lia.
    rewrite insert_app_r_alt by lia.
    rewrite Hl1, Hl2.
    replace (Z.to_nat j - Z.to_nat lo - Z.to_nat (j - lo))%nat with 0%nat
      by lia.
    destruct (drop (Z.to_nat j) a) as [|d rest] eqn:Hd.
    { apply (f_equal length) in Hd. rewrite length_drop in Hd.
      simpl in Hd. lia. }
    simpl. rewrite <- !app_assoc. simpl. do 3 f_equal.
    replace (Z.to_nat (j + 1)) with (Z.to_nat j + 1)%nat by lia.
    by rewrite <- drop_drop, Hd.
Qed.

(** The whole array filled. *)
Lemma fill_all a f n :
  Z.of_nat (length a) = n →
  for_range 0 n (λ i a, set_ a i (f i)) a = f <$> seqZ 0 n.
Proof.
  intros Hn. rewrite fill_range by lia. simpl.
  rewrite drop_ge by lia. rewrite app_nil_r. by rewrite Z.sub_0_r.
Qed.
End FillLists.

Section FillHeap.
Context {T : Type} `{Scalar T}.
Implicit Types (h : heap T) (p q r : ptr) (W : list ptr).

Lemma same_except_refl W h : same_except W h h.
Proof. by intros l. Qed.

Lemma same_except_trans W h1 h2 h3 :
  same_except W h1 h2 → same_except W h2 h3 → same_except W h1 h3.
Proof. intros H12 H23 l Hl. by rewrite H23, H12. Qed.

Lemma same_except_store_int W h p i v :
  p ∈ W → same_except W h (store_int h p i v).
Proof.
  intros Hp l Hl. apply blocks_store_int_ne. by intros ->.
Qed.

Lemma same_except_store_val W h p i (v : T) :
  p ∈ W → same_except W h (store_val h p i v).
Proof.
  intros Hp l Hl. apply blocks_store_val_ne. by intros ->.
Qed.

Lemma same_except_ints_at W h h' r :
  same_except W h h' → r ∉ W → ints_at h' r = ints_at h r.
Proof.
  intros Hs Hr. unfold ints_at. destruct r as [l|]; [|done].
  by rewrite Hs.
Qed.

Lemma same_except_vals_at W h h' r :
  same_except W h h' → r ∉ W → vals_at h' r = vals_at h r.
Proof.
  intros Hs Hr. unfold vals_at. destruct r as [l|]; [|done].
  by rewrite Hs.
Qed.

Lemma same_except_load_int W h h' r i :
  same_except W h h' → r ∉ W → load_int h' r i = load_int h r i.
Proof. intros. unfold load_int. by erewrite same_except_ints_at. Qed.

Lemma same_except_load_val W h h' r i :
  same_except W h h' → r ∉ W → load_val h' r i = load_val h r i.
Proof. intros. unfold load_val. by erewrite same_except_vals_at. Qed.

(** [for (i = lo; i < hi; i++) p[i] = g i], where the value [g] reads
    from memory is [f i] as long as only [p] has been written. *)
Lemma store_ints_loop p (g : heap T → Z → Z) (f : Z → Z) lo hi h :
  (∀ h' i, lo ≤ i < hi → same_except [p] h h' → g h' i = f i) →
  let h' := for_range lo hi (λ i h, store_int h p i (g h i)) h in
  oracle h' = oracle h
  ∧ dom (blocks h') = dom (blocks h)
  ∧ same_except [p] h h'
  ∧ (∀ q, vals_at h' q = vals_at h q)
  ∧ ints_at h' p = for_range lo hi (λ i a, set_ a i (f i)) (ints_at h p).
Proof.
  intros Hg h'. subst h'.
  destruct (decide (lo ≤ hi)) as [Hle|Hgt].
  2: { rewrite !for_range_empty by lia. repeat split; try done. }
  apply (for_range_ind
           (λ j hj,
              oracle hj = oracle h
              ∧ dom (blocks hj) = dom (blocks h)
              ∧ same_except [p] h hj
              ∧ (∀ q, vals_at hj q = vals_at h q)
              ∧ ints_at hj p
                = for_range lo j (λ i a, set_ a i (f i)) (ints_at h p))).
  - done.
  - rewrite for_range_empty by lia. repeat split; try done.
  - intros j hj Hj (Ho & Hd & Hs & Hv & Hi).
    rewrite oracle_store_int, dom_store_int, ints_at_store_int_eq.
    repeat split; try done.
    + eapply same_except_trans; [done|].
      apply same_except_store_int. set_solver.
    + intros q. by rewrite vals_at_store_int.
    + rewrite for_range_last by lia. by rewrite Hi, Hg.
Qed.

(** [for (i = lo; i < hi; i++) { p[i] = g i; q[i] = g' i; }] with [p] an
    array of integers and [q] an array of values. *)
Lemma store_ints_vals_loop p q (g : heap T → Z → Z) (g' : heap T → Z → T)
    (f : Z → Z) (f' : Z → T) lo hi h :
  (∀ h' i, lo ≤ i < hi → same_except [p; q] h h' → g h' i = f i) →
  (∀ h' i, lo ≤ i < hi → same_except [p; q] h h' → g' h' i = f' i) →
  let h' :=
    for_range lo hi
      (λ i h, let h := store_int h p i (g h i) in store_val h q i (g' h i))
      h in
  oracle h' = oracle h
  ∧ dom (blocks h') = dom (blocks h)
  ∧ same_except [p; q] h h'
  ∧ ints_at h' p = for_range lo hi (λ i a, set_ a i (f i)) (ints_at h p)
  ∧ vals_at h' q = for_range lo hi (λ i a, set_ a i (f' i)) (vals_at h q).
Proof.
  intros Hg Hg' h'. subst h'.
  destruct (decide (lo ≤ hi)) as [Hle|Hgt].
  2: { rewrite !for_range_empty by lia. repeat split; try done. }
  apply (for_range_ind
           (λ j hj,
              oracle hj = oracle h
              ∧ dom (blocks hj) = dom (blocks h)
              ∧ same_except [p; q] h hj
              ∧ ints_at hj p
                = for_range lo j (λ i a, set_ a i (f i)) (ints_at h p)
              ∧ vals_at hj q
                = for_range lo j (λ i a, set_ a i (f' i)) (vals_at h q))).
  - done.
  - rewrite !for_range_empty by lia. repeat split; try done.
  - intros j hj Hj (Ho & Hd & Hs & Hi & Hv).
    assert (same_except [p; q] h (store_int hj p j (g hj j))) as Hs'.
    { eapply same_except_trans; [done|].
      apply same_except_store_int. set_solver. }
    rewrite oracle_store_val, oracle_store_int, dom_store_val, dom_store_int.
    rewrite ints_at_store_val, ints_at_store_int_eq.
    rewrite vals_at_store_val_eq, vals_at_store_int.
    repeat split; try done.
    + eapply same_except_trans; [done|].
      apply same_except_store_val. set_solver.
    + rewrite for_range_last by lia. by rewrite Hi, Hg.
    + rewrite for_range_last by lia. by rewrite Hv, Hg'.
Qed.
End FillHeap.

(** * aoclsparse_copy_csr *)

Section CopyCsr.
Context {T : Type} `{Scalar T}.
Implicit Types (h : heap T) (p q r : ptr) (A As : aoclsparse_csr).

Lemma grants_oracle k h h' : oracle h = oracle h' → grants k h = grants k h'.
Proof. unfold grants. by intros ->. Qed.

Lemma grants_1_of_S k h : grants (S k) h = true → grants 1 h = true.
Proof. rewrite grants_S. by intros [? _]%andb_true_iff. Qed.

Lemma grants_tail k h (bs : gmap loc (block T)) :
  grants (S k) h = true → grants k (Heap bs (tail (oracle h))) = true.
Proof.
  rewrite grants_S. intros [_ Hk]%andb_true_iff.
  by rewrite <- Hk.
Qed.

Lemma grants_refused_cases h :
  grants 3 h = false →
  grants 1 h = false
  ∨ (grants 1 h = true
     ∧ ∀ bs : gmap loc (block T),
         grants 1 (Heap bs (tail (oracle h))) = false
         ∨ (grants 1 (Heap bs (tail (oracle h))) = true
            ∧ ∀ bs' : gmap loc (block T),
                grants 1 (Heap bs' (tail (tail (oracle h)))) = false)).
Proof.
  unfold grants. destruct h as [bs0 [|[] [|[] [|[] o]]]]; simpl; try done;
    intros _; auto.
Qed.

Lemma preserved_delete_ptr p h : preserved (delete_ptr p h) h.
Proof.
  intros l b. destruct p as [l'|]; simpl; [|done].
  rewrite lookup_delete. by case_decide.
Qed.

Lemma map_at_seqZ {X Y} (g : X → Y) (d : X) (a : list X) :
  (λ i, g (at_ d a i)) <$> seqZ 0 (Z.of_nat (length a)) = g <$> a.
Proof.
  apply list_eq. intros k. rewrite !list_lookup_fmap.
  destruct (decide (k < length a)%nat) as [Hk|Hk].
  - rewrite lookup_seqZ_lt by lia. simpl.
    rewrite at_nonneg by lia.
    replace (Z.to_nat (0 + Z.of_nat k)) with k by lia.
    destruct (a !! k) eqn:Hak; [done|].
    apply lookup_ge_None in Hak. lia.
  - rewrite lookup_seqZ_ge by lia. by rewrite (lookup_ge_None_2 a) by lia.
Qed.

Lemma live_not_fresh h p :
  live h p → p ≠ Some (fresh (dom (blocks h))).
Proof.
  intros (l & -> & Hl) [= ->]. rewrite fresh_not_live in Hl.
  by destruct Hl.
Qed.

Lemma live_not_null h p : live h p → is_null p = false.
Proof. intros (l & -> & _). done. Qed.

Lemma live_insert (bs : gmap loc (block T)) o o' l b p :
  live (Heap bs o) p → live (Heap (<[l := b]> bs) o') p.
Proof.
  intros (l' & -> & Hl). exists l'. split; [done|]. simpl in *.
  rewrite lookup_insert. case_decide; [done|]. done.
Qed.

Lemma copy_csr_success m n nnz base A As h :
  0 < m → 0 < nnz →
  live h (csr_row_ptr A) → live h (csr_col_ptr A) → live h (csr_val A) →
  grants 3 h = true →
  ∃ row col val h',
    aoclsparse_copy_csr m n nnz base A As h
    = (aoclsparse_status_success, Csr (Some row) (Some col) (Some val), h')
    ∧ blocks h !! row = None ∧ blocks h !! col = None
    ∧ blocks h !! val = None
    ∧ NoDup [row; col; val]
    ∧ preserved h h'
    ∧ ints_at h' (Some row)
      = (λ i, load_int h (csr_row_ptr A) i - base) <$> seqZ 0 (m + 1)
    ∧ ints_at h' (Some col)
      = (λ i, load_int h (csr_col_ptr A) i - base) <$> seqZ 0 nnz
    ∧ vals_at h' (Some val)
      = (λ i, load_val h (csr_val A) i) <$> seqZ 0 nnz.
Proof.
  intros Hm Hnnz Hlr Hlc Hlv Hg. unfold aoclsparse_copy_csr.
  rewrite bool_decide_false by lia.
  rewrite (live_not_null h _ Hlr), (live_not_null h _ Hlc),
    (live_not_null h _ Hlv). simpl.
  rewrite !(bool_decide_false (_ = 0)) by lia. simpl.
  destruct h as [bs o].
  rewrite new_ints_served by (simpl; eauto using grants_1_of_S with lia).
  simpl. set (l1 := fresh (dom bs)).
  set (h1 := Heap (<[l1 := IntBlock (replicate (Z.to_nat (m + 1)) 0)]> bs)
               (tail o)).
  assert (grants 2 h1 = true) as Hg1 by (by apply (grants_tail 2 (Heap bs o))).
  rewrite (new_ints_served nnz h1) by (eauto using grants_1_of_S with lia).
  simpl. set (l2 := fresh (dom _)).
  set (h2 := Heap (<[l2 := IntBlock (replicate (Z.to_nat nnz) 0)]> (blocks h1))
               (tail (tail o))).
  assert (grants 1 h2 = true) as Hg2 by (by apply (grants_tail 1 h1)).
  rewrite (new_vals_served nnz h2) by (eauto with lia).
  simpl. set (l3 := fresh (dom _)).
  set (h3 := Heap _ (tail (tail (tail o)))).
  assert (bs !! l1 = None) as Hl1 by apply (fresh_not_live (Heap bs o)).
  assert (blocks h1 !! l2 = None) as Hl2 by apply (fresh_not_live h1).
  assert (blocks h2 !! l3 = None) as Hl3 by apply (fresh_not_live h2).
  assert (l1 ≠ l2) as H12.
  { intros <-. unfold h1 in Hl2. simpl in Hl2.
    by rewrite lookup_insert_eq in Hl2. }
  assert (l2 ≠ l3) as H23.
  { intros <-. unfold h2 in Hl3. simpl in Hl3.
    by rewrite lookup_insert_eq in Hl3. }
  assert (l1 ≠ l3) as H13.
  { intros <-. unfold h2, h1 in Hl3. simpl in Hl3.
    rewrite lookup_insert_ne, lookup_insert_eq in Hl3 by done. done. }
  assert (bs !! l2 = None) as Hl2'.
  { unfold h1 in Hl2. simpl in Hl2. by rewrite lookup_insert_ne in Hl2. }
  assert (bs !! l3 = None) as Hl3'.
  { unfold h2, h1 in Hl3. simpl in Hl3.
    by rewrite !lookup_insert_ne in Hl3. }
  assert (preserved (Heap bs o) h3) as Hpres.
  { intros l b Hl. unfold h3, h2, h1. simpl in *.
    rewrite !lookup_insert_ne by congruence. done. }
  assert (∀ p, live (Heap bs o) p → p ∉ [Some l1; Some l2; Some l3]) as Hnew.
  { intros p (l & -> & [b Hl]) Hin. simpl in Hl.
    apply elem_of_cons in Hin as [[= ->]|Hin]; [congruence|].
    apply elem_of_cons in Hin as [[= ->]|Hin]; [congruence|].
    apply list_elem_of_singleton in Hin as [= ->]. congruence. }
  assert (∀ p i, live (Heap bs o) p →
            load_int h3 p i = load_int (Heap bs o) p i) as Hload3.
  { intros p i (l & -> & [b Hl]). unfold load_int, ints_at.
    by rewrite (Hpres l b Hl), Hl. }
  assert (∀ p i, live (Heap bs o) p →
            load_val h3 p i = load_val (Heap bs o) p i) as Hloadv3.
  { intros p i (l & -> & [b Hl]). unfold load_val, vals_at.
    by rewrite (Hpres l b Hl), Hl. }
  (* the loop over the row offsets *)
  destruct (store_ints_loop (Some l1)
              (λ h i, load_int h (csr_row_ptr A) i - base)
              (λ i, load_int (Heap bs o) (csr_row_ptr A) i - base)
              0 (m + 1) h3) as (Ho4 & Hd4 & Hs4 & Hv4 & Hi4).
  { intros h' i Hi Hs. simpl.
    rewrite (same_except_load_int [Some l1] h3), Hload3; try done.
    specialize (Hnew _ Hlr). set_solver. }
  set (h4 := for_range 0 (m + 1) _ h3) in *.
  (* the loop over the entries *)
  destruct (store_ints_vals_loop (Some l2) (Some l3)
              (λ h i, load_int h (csr_col_ptr A) i - base)
              (λ h i, load_val h (csr_val A) i)
              (λ i, load_int (Heap bs o) (csr_col_ptr A) i - base)
              (λ i, load_val (Heap bs o) (csr_val A) i)
              0 nnz h4) as (Ho5 & Hd5 & Hs5 & Hi5 & Hv5).
  { intros h' i Hi Hs. simpl.
    rewrite (same_except_load_int [Some l2; Some l3] h4),
      (same_except_load_int [Some l1] h3), Hload3; try done.
    - specialize (Hnew _ Hlc). set_solver.
    - specialize (Hnew _ Hlc). set_solver. }
  { intros h' i Hi Hs. simpl.
    rewrite (same_except_load_val [Some l2; Some l3] h4),
      (same_except_load_val [Some l1] h3), Hloadv3; try done.
    - specialize (Hnew _ Hlv). set_solver.
    - specialize (Hnew _ Hlv). set_solver. }
  set (h5 := for_range 0 nnz _ h4) in *.
  exists l1, l2, l3, h5. split; [done|].
  split; [done|]. split; [done|]. split; [done|].
  split. { repeat constructor; set_solver. }
  split.
  { intros l b Hl. simpl in Hl.
    rewrite Hs5, Hs4; [by apply Hpres| |].
    - intros [= ->]%list_elem_of_singleton. congruence.
    - intros Hin. apply elem_of_cons in Hin as [[= ->]|Hin]; [congruence|].
      apply list_elem_of_singleton in Hin as [= ->]. congruence. }
  split; [|split].
  - rewrite (same_except_ints_at [Some l2; Some l3] h4 h5) by
      (first [done | set_solver]).
    rewrite Hi4. apply fill_all.
    unfold h3, h2, h1, ints_at. simpl.
    rewrite !lookup_insert_ne, lookup_insert_eq by done.
    rewrite length_replicate. lia.
  - rewrite Hi5. apply fill_all.
    rewrite (same_except_ints_at [Some l1] h3 h4) by
      (first [done | set_solver]).
    unfold h3, h2, ints_at. simpl.
    rewrite !lookup_insert_ne, lookup_insert_eq by done.
    rewrite length_replicate. lia.
  - rewrite Hv5. apply fill_all.
    rewrite Hv4.
    unfold h3, vals_at. simpl.
    rewrite lookup_insert_eq.
    rewrite length_replicate. lia.
Qed.

(** The handler releases what the structure points to. *)
Lemma copy_csr_catch_spec As h0 h :
  (∀ l b, blocks h0 !! l = Some b →
     blocks h !! l = Some b
     ∨ Some l ∈ [csr_row_ptr As; csr_col_ptr As; csr_val As]) →
  ∃ h', copy_csr_catch As h0 = (aoclsparse_status_memory_error, As, h')
        ∧ preserved h' h.
Proof.
  intros Hsrc. unfold copy_csr_catch. eexists. split; [done|].
  intros l b Hl.
  assert (blocks h0 !! l = Some b
          ∧ Some l ∉ [csr_row_ptr As; csr_col_ptr As; csr_val As])
    as [Hl0 Hnot].
  { destruct As as [[r|] [c|] [v|]]; simpl in *;
      repeat (apply lookup_delete_Some in Hl as [? Hl]);
      (split; [done|]); rewrite !elem_of_cons, elem_of_nil; naive_solver. }
  by destruct (Hsrc l b Hl0).
Qed.

Lemma copy_csr_refused m n nnz base A As h :
  0 < m → nnz ≠ 0 →
  is_null (csr_col_ptr A) || is_null (csr_row_ptr A) || is_null (csr_val A)
  = false →
  nnz < 0 ∨ grants 3 h = false →
  ∃ As' h',
    aoclsparse_copy_csr m n nnz base A As h
    = (aoclsparse_status_memory_error, As', h')
    ∧ preserved h' h.
Proof.
  intros Hm Hnnz Hnull Hc. unfold aoclsparse_copy_csr.
  rewrite bool_decide_false by lia. rewrite Hnull.
  rewrite !(bool_decide_false (_ = 0)) by lia. simpl.
  destruct (grants 1 h) eqn:Hg1.
  2: { destruct (new_ints_refused (m + 1) h) as [o ->]; [by right|].
       destruct (copy_csr_catch_spec As (Heap (blocks h) o) h)
         as (h' & -> & Hp); [by left|]. eauto. }
  rewrite new_ints_served by (done || lia). cbv beta iota zeta.
  set (l1 := fresh (dom (blocks h))).
  set (h1 := Heap (<[l1 := _]> (blocks h)) (tail (oracle h))).
  assert (blocks h !! l1 = None) as Hl1 by apply fresh_not_live.
  destruct (decide (nnz < 0 ∨ grants 1 h1 = false)) as [Hc2|Hc2].
  { destruct (new_ints_refused nnz h1 Hc2) as [o ->].
    destruct (copy_csr_catch_spec
                (Csr (Some l1) (csr_col_ptr As) (csr_val As))
                (Heap (blocks h1) o) h) as (h' & -> & Hp); [|eauto].
    intros l b Hl. simpl in *.
    apply lookup_insert_Some in Hl as [[<- _]|[_ Hl]]; [right|by left].
    apply elem_of_cons. by left. }
  assert (0 ≤ nnz ∧ grants 1 h1 = true) as [Hnnz0 Hg2].
  { destruct (grants 1 h1); [lia|]. exfalso. apply Hc2. by right. }
  rewrite (new_ints_served nnz h1) by done. cbv beta iota zeta.
  set (l2 := fresh (dom _)).
  set (h2 := Heap (<[l2 := _]> (blocks h1)) (tail (oracle h1))).
  assert (grants 1 h2 = false) as Hg3.
  { destruct Hc as [?|Hc]; [lia|].
    rewrite grants_S, Hg1 in Hc. simpl in Hc.
    rewrite (grants_oracle 2 _ h1), grants_S, Hg2 in Hc by done.
    simpl in Hc. by rewrite (grants_oracle 1 _ h2) in Hc. }
  destruct (new_vals_refused nnz h2) as [o ->]; [by right|].
  destruct (copy_csr_catch_spec (Csr (Some l1) (Some l2) (csr_val As))
              (Heap (blocks h2) o) h) as (h' & -> & Hp); [|eauto].
  intros l b Hl. simpl in *.
  apply lookup_insert_Some in Hl as [[<- _]|[_ Hl]].
  { right. apply elem_of_cons. right. apply elem_of_cons. by left. }
  apply lookup_insert_Some in Hl as [[<- _]|[_ Hl]]; [right|by left].
  apply elem_of_cons. by left.
Qed.

(** C7.  [aoclsparse_copy_csr], case by case in the order of its checks:
    a negative [m] gives invalid_size; else a null source buffer gives
    invalid_pointer; else [m == 0] or [nnz == 0] gives success; in these
    three cases nothing is allocated or written.  Else, when the three
    requests for memory are served, the call succeeds, [*As] points to
    three new allocations, every allocation that existed is as it was,
    and for sources of [m + 1], [nnz] and [nnz] elements the new buffers
    have these sizes and hold the row offsets minus [base], the column
    indices minus [base] and the values as they are.  Else the call ends
    in memory_error and no allocation it made is left. *)
Theorem copy_csr_spec m n nnz base A As h :
  let r := aoclsparse_copy_csr m n nnz base A As h in
  if decide (m < 0) then r = (aoclsparse_status_invalid_size, As, h)
  else if is_null (csr_col_ptr A) || is_null (csr_row_ptr A)
          || is_null (csr_val A)
  then r = (aoclsparse_status_invalid_pointer, As, h)
  else if decide (m = 0 ∨ nnz = 0)
  then r = (aoclsparse_status_success, As, h)
  else if decide (0 < nnz ∧ grants 3 h = true)
  then
    live h (csr_row_ptr A) → live h (csr_col_ptr A) → live h (csr_val A) →
    ∃ row col val h',
      r = (aoclsparse_status_success,
           Csr (Some row) (Some col) (Some val), h')
      ∧ blocks h !! row = None ∧ blocks h !! col = None
      ∧ blocks h !! val = None
      ∧ NoDup [row; col; val]
      ∧ preserved h h'
      ∧ (Z.of_nat (length (ints_at h (csr_row_ptr A))) = m + 1 →
         Z.of_nat (length (ints_at h (csr_col_ptr A))) = nnz →
         Z.of_nat (length (vals_at h (csr_val A))) = nnz →
         ints_at h' (Some row)
         = (λ v, v - base) <$> ints_at h (csr_row_ptr A)
         ∧ ints_at h' (Some col)
           = (λ v, v - base) <$> ints_at h (csr_col_ptr A)
         ∧ vals_at h' (Some val) = vals_at h (csr_val A))
  else ∃ As' h', r = (aoclsparse_status_memory_error, As', h')
                 ∧ preserved h' h.
Proof.
  intros r. subst r.
  case_decide as Hm.
  { unfold aoclsparse_copy_csr. by rewrite bool_decide_true. }
  destruct (is_null (csr_col_ptr A) || is_null (csr_row_ptr A)
            || is_null (csr_val A)) eqn:Hnull.
  { unfold aoclsparse_copy_csr. rewrite bool_decide_false by done.
    by rewrite Hnull. }
  case_decide as Hzero.
  { unfold aoclsparse_copy_csr. rewrite bool_decide_false by done.
    rewrite Hnull.
    replace (bool_decide (m = 0) || bool_decide (nnz = 0)) with true; [done|].
    symmetry. rewrite orb_true_iff, !bool_decide_eq_true. tauto. }
  case_decide as Hserved.
  - intros Hlr Hlc Hlv. destruct Hserved as [Hnnz Hg].
    destruct (copy_csr_success m n nnz base A As h)
      as (row & col & val & h' & -> & Hr & Hc & Hv & Hnd & Hp & Hir & Hic & Hiv);
      try done; [lia|].
    exists row, col, val, h'. repeat (split; [done|]).
    intros Hlenr Hlenc Hlenv. rewrite Hir, Hic, Hiv.
    unfold load_int, load_val. split; [|split].
    + rewrite <- Hlenr. apply (map_at_seqZ (λ v, v - base)).
    + rewrite <- Hlenc. apply (map_at_seqZ (λ v, v - base)).
    + rewrite <- Hlenv.
      etrans; [apply (map_at_seqZ id)|apply list_fmap_id].
  - apply copy_csr_refused; try done; try lia.
    destruct (decide (nnz < 0)); [by left|right].
    destruct (grants 3 h); [|done]. exfalso. apply Hserved. split; [lia|done].
Qed.
End CopyCsr.

(** * aoclsparse_csr_fill_diag: the first pass *)

Section FilterFacts.
Context {X : Type} (P : X → Prop) `{∀ x, Decision (P x)}.

Lemma filter_none (l : list X) : (∀ x, x ∈ l → ¬ P x) → filter P l = [].
Proof.
  induction l as [|x l IH]; intros Hl; [done|].
  rewrite filter_cons_False by (apply Hl, elem_of_cons; by left).
  apply IH. intros y Hy. apply Hl, elem_of_cons. by right.
Qed.

Lemma filter_all (l : list X) : (∀ x, x ∈ l → P x) → filter P l = l.
Proof.
  induction l as [|x l IH]; intros Hl; [done|].
  rewrite filter_cons_True by (apply Hl, elem_of_cons; by left).
  f_equal. apply IH. intros y Hy. apply Hl, elem_of_cons. by right.
Qed.
End FilterFacts.

Section Sortedness.
Implicit Types (cols : list Z).

Lemma strictly_increasing_cons c cols :
  strictly_increasing (c :: cols) = true →
  strictly_increasing cols = true ∧ ∀ c', c' ∈ cols → c < c'.
Proof.
  revert c. induction cols as [|b cols IH]; intros c Hs.
  - split; [done|]. by intros c' ?%elem_of_nil.
  - simpl in Hs. apply andb_true_iff in Hs as [Hcb%bool_decide_eq_true Hs].
    split; [done|]. intros c' [->|Hin]%elem_of_cons; [done|].
    destruct (IH b Hs) as [_ Hlt]. specialize (Hlt c' Hin). lia.
Qed.

(** On a sorted row the scan finds column [i] exactly when the row holds
    it, and it stops behind the columns smaller than [i]. *)
Lemma scan_list_sorted i cols :
  strictly_increasing cols = true →
  scan_list i cols
  = (bool_decide (i ∈ cols), length (filter (λ c, c < i) cols)).
Proof.
  induction cols as [|c cols IH]; intros Hs.
  - rewrite bool_decide_false; [done|]. by intros ?%elem_of_nil.
  - destruct (strictly_increasing_cons c cols Hs) as [Hs' Hlt].
    cbn [scan_list].
    destruct (decide (i = c)) as [<-|Hic].
    { rewrite (bool_decide_true (i = i)) by done.
      rewrite (bool_decide_true (i ∈ i :: cols)) by (apply elem_of_cons; by left).
      rewrite filter_cons_False by lia.
      rewrite filter_none; [done|].
      intros c' Hc'. specialize (Hlt c' Hc'). lia. }
    rewrite (bool_decide_false (i = c)) by done.
    destruct (decide (c > i)) as [Hgt|Hgt].
    { rewrite (bool_decide_true (c > i)) by done.
      rewrite bool_decide_false.
      2: { intros [->|Hin]%elem_of_cons; [done|].
           specialize (Hlt i Hin). lia. }
      rewrite filter_cons_False by lia.
      rewrite filter_none; [done|].
      intros c' Hc'. specialize (Hlt c' Hc'). lia. }
    rewrite (bool_decide_false (c > i)) by done.
    rewrite IH by done. rewrite filter_cons_True by lia. simpl.
    f_equal. apply bool_decide_ext. rewrite elem_of_cons. naive_solver.
Qed.
End Sortedness.

Section FirstPass.
Context {T : Type} `{Scalar T}.
Implicit Types (h : heap T) (A : aoclsparse_csr).

(** The loop over the entries of a row does what [scan_list] does on the
    list of its columns. *)
Lemma scan_row_fuel_list h (col : ptr) base i idxend (fuel : nat) idx :
  fuel = Z.to_nat (idxend - idx) →
  scan_row_fuel fuel h col base i idxend idx
  = (let '(found, k) :=
       scan_list i ((λ idx, load_int h col idx - base)
                    <$> seqZ idx (idxend - idx)) in
     (found, idx + Z.of_nat k)).
Proof.
  revert idx. induction fuel as [|fuel IH]; intros idx Hfuel.
  - rewrite seqZ_nil by lia. simpl. by rewrite Z.add_0_r.
  - simpl. rewrite bool_decide_true by lia. rewrite seqZ_cons by lia. simpl.
    case_bool_decide; [by rewrite Z.add_0_r|].
    case_bool_decide; [by rewrite Z.add_0_r|].
    rewrite IH by lia.
    replace (Z.pred (idxend - idx)) with (idxend - (idx + 1)) by lia.
    replace (Z.succ idx) with (idx + 1) by lia.
    destruct (scan_list i _) as [found k]. f_equal. lia.
Qed.

Lemma scan_row_list base A h i :
  scan_row h (csr_col_ptr A) base i
    (load_int h (csr_row_ptr A) (i + 1) - base)
    (load_int h (csr_row_ptr A) i - base)
  = (let '(found, k) := scan_list i (row_columns base A h i) in
     (found, load_int h (csr_row_ptr A) i - base + Z.of_nat k)).
Proof.
  unfold scan_row. rewrite scan_row_fuel_list by done. unfold row_columns.
  by replace (load_int h (csr_row_ptr A) (i + 1) - base
              - (load_int h (csr_row_ptr A) i - base))
    with (load_int h (csr_row_ptr A) (i + 1) - load_int h (csr_row_ptr A) i)
    by lia.
Qed.

Lemma flagged_below_0 n base A h : flagged_below n base A h 0 = 0.
Proof. unfold flagged_below. by rewrite seqZ_nil. Qed.

Lemma flagged_below_succ n base A h j :
  0 ≤ j →
  flagged_below n base A h (j + 1)
  = flagged_below n base A h j + (if flagged n base A h j then 1 else 0).
Proof.
  intros Hj. unfold flagged_below.
  rewrite seqZ_app by lia. rewrite filter_app, length_app.
  rewrite (seqZ_cons _ 1), (seqZ_nil _ (Z.pred 1)) by lia.
  replace (0 + j) with j by lia.
  destruct (flagged n base A h j) eqn:Hf.
  - rewrite filter_cons_True by done. simpl. lia.
  - rewrite filter_cons_False by (by rewrite Hf). simpl. lia.
Qed.

Lemma flagged_below_nonneg n base A h j : 0 ≤ flagged_below n base A h j.
Proof. unfold flagged_below. lia. Qed.

(** The first pass: [count] is the number of flagged rows, and
    [missing_diag] holds the slot of every flagged row and [-1]
    elsewhere. *)
Lemma find_missing_diag_spec m n base A h :
  0 ≤ m →
  ∃ md,
    find_missing_diag m n base A h (replicate (Z.to_nat m) (-1))
    = (md, flagged_below n base A h m)
    ∧ length md = Z.to_nat m
    ∧ ∀ i, 0 ≤ i < m →
        at_ 0 md i
        = if flagged n base A h i then diag_slot n base A h i else -1.
Proof.
  intros Hm. unfold find_missing_diag.
  match goal with |- ∃ md, for_range 0 m ?body ?s = _ ∧ _ =>
    assert (∃ md, for_range 0 m body s = (md, flagged_below n base A h m)
                  ∧ length md = Z.to_nat m
                  ∧ (∀ i, 0 ≤ i < m →
                       at_ 0 md i
                       = if flagged n base A h i
                         then diag_slot n base A h i else -1)
                  ∧ (∀ i, m ≤ i < m → at_ 0 md i = -1)) as Hinv
  end.
  2: { destruct Hinv as (md & Heq & Hlen & Hlow & _). by exists md. }
  apply (for_range_ind
           (λ j s,
              ∃ md, s = (md, flagged_below n base A h j)
                    ∧ length md = Z.to_nat m
                    ∧ (∀ i, 0 ≤ i < j →
                         at_ 0 md i
                         = if flagged n base A h i
                           then diag_slot n base A h i else -1)
                    ∧ (∀ i, j ≤ i < m → at_ 0 md i = -1)) 0 m);
    [done| |].
  - exists (replicate (Z.to_nat m) (-1)). rewrite flagged_below_0.
    split; [done|]. split; [by rewrite length_replicate|].
    split; [intros; lia|]. intros i Hi. rewrite at_nonneg by lia.
    by rewrite lookup_replicate_2 by lia.
  - intros j s Hj (md & -> & Hlen & Hlow & Hhigh).
    rewrite scan_row_list. rewrite flagged_below_succ by lia.
    assert (flagged n base A h j
            = negb (scan_list j (row_columns base A h j)).1
              && bool_decide (j < n)) as Hf by done.
    assert (diag_slot n base A h j
            = load_int h (csr_row_ptr A) j - base
              + Z.of_nat (scan_list j (row_columns base A h j)).2
              + flagged_below n base A h j) as Hslot by done.
    destruct (scan_list j (row_columns base A h j)) as [found k].
    simpl in Hf, Hslot. rewrite Hf.
    destruct (negb found && bool_decide (j < n)).
    + eexists. split; [done|]. split; [by rewrite length_set_|].
      split.
      * intros i Hi. destruct (decide (i = j)) as [->|Hne].
        -- rewrite at_set_eq by lia. by rewrite Hf, Hslot.
        -- rewrite at_set_ne by done. apply Hlow. lia.
      * intros i Hi. rewrite at_set_ne by lia. apply Hhigh. lia.
    + rewrite Z.add_0_r. exists md. split; [done|]. split; [done|].
      split.
      * intros i Hi. destruct (decide (i = j)) as [->|Hne].
        -- rewrite Hf. apply Hhigh. lia.
        -- apply Hlow. lia.
      * intros i Hi. apply Hhigh. lia.
Qed.
End FirstPass.

(** * aoclsparse_csr_fill_diag on a matrix with a full diagonal *)

Section FillDiagNoop.
Context {T : Type} `{Scalar T}.
Implicit Types (h : heap T) (A : aoclsparse_csr).

Lemma flagged_sorted n base A h i :
  strictly_increasing (row_columns base A h i) = true →
  flagged n base A h i = bool_decide (lacks_diag n base A h i).
Proof.
  intros Hs. unfold flagged, lacks_diag. rewrite scan_list_sorted by done.
  simpl. repeat case_bool_decide; simpl; try done; tauto.
Qed.

Lemma flagged_below_none n base A h m :
  (∀ i, 0 ≤ i < m → flagged n base A h i = false) →
  flagged_below n base A h m = 0.
Proof.
  intros Hnone. unfold flagged_below. rewrite filter_none; [done|].
  intros i Hi%elem_of_seqZ. rewrite Hnone by lia. done.
Qed.

(** The storage of a vector that was served: none for no element, else
    the next request. *)
Lemma vector_storage_served n h :
  0 ≤ n → grants 1 h = true →
  vector_storage n h
  = Returns (true, if decide (n = 0) then h
                   else Heap (blocks h) (tail (oracle h))).
Proof.
  intros Hn Hg. unfold vector_storage. rewrite bool_decide_false by lia.
  case_decide as Hzero.
  - by rewrite bool_decide_true.
  - rewrite bool_decide_false by done. by rewrite request_memory_served.
Qed.

(** C8, amended.  On a matrix with sorted rows in which every row
    [i < n] holds column [i], [aoclsparse_csr_fill_diag] returns success
    and leaves the structure and every allocation as they were (the
    storage of its local vector is the one request it makes, and for
    [m = 0] it makes none). *)
Theorem fill_diag_full_diag_noop m n nnz base A h :
  0 ≤ m → grants 1 h = true →
  is_null (csr_col_ptr A) || is_null (csr_row_ptr A) || is_null (csr_val A)
  = false →
  rows_sorted m base A h →
  (∀ i, 0 ≤ i < m → i < n → i ∈ row_columns base A h i) →
  aoclsparse_csr_fill_diag m n nnz base A h
  = Returns (aoclsparse_status_success, A,
             if decide (m = 0) then h
             else Heap (blocks h) (tail (oracle h))).
Proof.
  intros Hm Hg Hnull Hsorted Hdiag. unfold aoclsparse_csr_fill_diag.
  rewrite vector_storage_served by done. rewrite Hnull.
  set (h' := if decide (m = 0) then h
             else Heap (blocks h) (tail (oracle h))).
  destruct (find_missing_diag_spec m n base A h' Hm) as (md & -> & _).
  assert (∀ i, flagged n base A h' i = flagged n base A h i) as Hsame.
  { intros i. unfold h'. by case_decide. }
  rewrite flagged_below_none; [done|].
  intros i Hi. rewrite Hsame.
  rewrite flagged_sorted by (by apply Hsorted).
  apply bool_decide_eq_false. intros [Hin Hlack]. by apply Hlack, Hdiag.
Qed.
End FillDiagNoop.

(** Witness of [fill_diag_full_diag_noop]: the matrix of the sample
    program, whose rows are sorted and hold their diagonal. *)
Lemma fill_diag_full_diag_noop_witness :
  aoclsparse_csr_fill_diag 5 5 8 0 csr_123
    (memory_of [0; 2; 3; 4; 7; 8] [0; 3; 1; 2; 1; 3; 4; 4]
       [1; 2; 3; 4; 5; 6; 7; 8])
  = Returns (aoclsparse_status_success, csr_123,
             memory_of [0; 2; 3; 4; 7; 8] [0; 3; 1; 2; 1; 3; 4; 4]
               [1; 2; 3; 4; 5; 6; 7; 8]).
Proof.
  apply (fill_diag_full_diag_noop 5 5 8 0 csr_123
           (memory_of [0; 2; 3; 4; 7; 8] [0; 3; 1; 2; 1; 3; 4; 4]
              [1; 2; 3; 4; 5; 6; 7; 8])).
  - lia.
  - reflexivity.
  - reflexivity.
  - intros i Hi.
    assert (i = 0 ∨ i = 1 ∨ i = 2 ∨ i = 3 ∨ i = 4) as Hc by lia.
    destruct Hc as [->|[->|[->|[->| ->]]]]; reflexivity.
  - intros i Hi _.
    assert (i = 0 ∨ i = 1 ∨ i = 2 ∨ i = 3 ∨ i = 4) as Hc by lia.
    destruct Hc as [->|[->|[->|[->| ->]]]];
      apply (bool_decide_unpack _); by vm_compute.
Defined.

(** C8 as stated fails on unsorted rows: the one row of [unsorted_row]
    holds its diagonal, behind the entry of column 1, and
    [aoclsparse_csr_fill_diag] adds a second diagonal entry in three new
    allocations. *)
Lemma fill_diag_unsorted_row_not_noop :
  (∀ i, 0 ≤ i < 1 → i < 2 → i ∈ row_columns 0 csr_123 unsorted_row i)
  ∧ ∃ A' h',
      aoclsparse_csr_fill_diag 1 2 2 0 csr_123 unsorted_row
      = Returns (aoclsparse_status_success, A', h')
      ∧ A' ≠ csr_123
      ∧ ints_at h' (csr_row_ptr A') = [0; 3]
      ∧ ints_at h' (csr_col_ptr A') = [0; 1; 0]
      ∧ vals_at h' (csr_val A') = [0; 10; 20].
Proof.
  split.
  - intros i Hi _. assert (i = 0) as -> by lia.
    apply (bool_decide_unpack _). by vm_compute.
  - eexists _, _. split; [vm_compute; reflexivity|].
    split; [discriminate|]. split; [|split]; vm_compute; reflexivity.
Qed.

(** * The quick return and the null check *)

Section QuickReturn.
Context {T : Type} `{Scalar T}.
Variable std_sort : (Z → Z → bool) → list Z → option (list Z).

(** C10.  With [m == 0] or [nnz == 0], [aoclsparse_sort_csr] returns
    success whatever the buffer pointers are, null included, and leaves
    memory as it was; [aoclsparse_copy_csr], once [m] has passed its sign
    check, answers a null source buffer by invalid_pointer although
    [m == 0] or [nnz == 0]. *)
Theorem quick_return_before_or_after_null_check m n nnz base A As
    (h : heap T) :
  m = 0 ∨ nnz = 0 →
  aoclsparse_sort_csr std_sort m n nnz base A As h
  = Returns (aoclsparse_status_success, h)
  ∧ (0 ≤ m →
     is_null (csr_col_ptr A) || is_null (csr_row_ptr A)
     || is_null (csr_val A) = true →
     aoclsparse_copy_csr m n nnz base A As h
     = (aoclsparse_status_invalid_pointer, As, h)).
Proof.
  intros Hzero. split.
  - unfold aoclsparse_sort_csr.
    replace (bool_decide (m = 0) || bool_decide (nnz = 0)) with true; [done|].
    symmetry. rewrite orb_true_iff, !bool_decide_eq_true. tauto.
  - intros Hm Hnull. unfold aoclsparse_copy_csr.
    rewrite bool_decide_false by lia. by rewrite Hnull.
Qed.
End QuickReturn.

(** Witness of [quick_return_before_or_after_null_check]: no rows, null
    buffers. *)
Lemma quick_return_before_or_after_null_check_witness :
  aoclsparse_sort_csr (λ _ l, Some l) 0 0 0 0 (Csr None None None)
    (Csr None None None) (Heap (T:=Z) ∅ [])
  = Returns (aoclsparse_status_success, Heap ∅ [])
  ∧ aoclsparse_copy_csr 0 0 0 0 (Csr None None None) (Csr None None None)
      (Heap (T:=Z) ∅ [])
    = (aoclsparse_status_invalid_pointer, Csr None None None, Heap ∅ []).
Proof.
  destruct (quick_return_before_or_after_null_check (λ _ l, Some l) 0 0 0 0
              (Csr None None None) (Csr None None None) (Heap (T:=Z) ∅ []))
    as [Hsort Hcopy]; [by left|].
  split; [exact Hsort|]. apply Hcopy; [lia|reflexivity].
Defined.

(** * aoclsparse_csr_optimize: alias or copy *)

Section Optimize.
Context {T : Type} `{Scalar T}.
Variable std_sort : (Z → Z → bool) → list Z → option (list Z).
Variable T_is : template_type.
Variable csr_check_internal :
  Z → Z → Z → aoclsparse_csr → aoclsparse_shape → aoclsparse_index_base →
  heap T → aoclsparse_status.
Variable csr_check_sort_diag :
  Z → Z → aoclsparse_index_base → aoclsparse_csr → heap T →
  aoclsparse_status * bool * bool.
Variable csr_indices :
  Z → aoclsparse_index_base → ptr → ptr → ptr → ptr → heap T →
  aoclsparse_status * ptr * ptr * heap T.

Local Abbreviation optimize :=
  (aoclsparse_csr_optimize std_sort T_is csr_check_internal
     csr_check_sort_diag csr_indices).

Lemma optimize_build_alias A h :
  optimize_build A true true h = (None, aliased A, h).
Proof. by destruct A as [? ? ? ? ? [? ? ?] [? ? ?] ? ? ? ? ? ? ?]. Qed.

Lemma optimize_reaches_build A h sorted fulldiag :
  validated T_is csr_check_internal csr_check_sort_diag A h sorted fulldiag →
  optimize (Some A) h
  = match optimize_build A sorted fulldiag h with
    | (Some status, A, h) => Returns (status, Some A, h)
    | (None, A, h) =>
        match
          (if negb sorted
           then
             match aoclsparse_sort_csr std_sort (mat_m A) (mat_n A)
                     (mat_nnz A) (mat_base A) (csr_mat A) (opt_csr_mat A) h
             with
             | Throws => Throws
             | Undefined => Undefined
             | Returns (_, h) =>
                 let '(status, sorted, fulldiag) :=
                   csr_check_sort_diag (mat_m A) (mat_n A)
                     (internal_base_index A) (opt_csr_mat A) h in
                 Returns (status, sorted, fulldiag, h)
             end
           else Returns (aoclsparse_status_success, sorted, fulldiag, h))
        with
        | Throws => Throws
        | Undefined => Undefined
        | Returns (status, sorted, fulldiag, h) =>
            if bool_decide (status ≠ aoclsparse_status_success)
            then Returns (status, Some A, h)
            else
              match
                (if negb fulldiag
                 then
                   match aoclsparse_csr_fill_diag (mat_m A) (mat_n A)
                           (mat_nnz A) (internal_base_index A)
                           (opt_csr_mat A) h
                   with
                   | Throws => Throws
                   | Undefined => Undefined
                   | Returns (status, As, h) =>
                       Returns (status, set_opt_csr_mat A As, h)
                   end
                 else Returns (aoclsparse_status_success, A, h))
              with
              | Throws => Throws
              | Undefined => Undefined
              | Returns (status, A, h) =>
                  if bool_decide (status ≠ aoclsparse_status_success)
                  then Returns (status, Some A, h)
                  else
                    let '(status, d, u, h) :=
                      csr_indices (mat_m A) (internal_base_index A)
                        (csr_row_ptr (opt_csr_mat A))
                        (csr_col_ptr (opt_csr_mat A)) (idiag A) (iurow A) h in
                    let A := set_idiag_iurow A d u in
                    if bool_decide (status ≠ aoclsparse_status_success)
                    then Returns (status, Some A, h)
                    else Returns (aoclsparse_status_success,
                                  Some (set_optimized A true fulldiag true), h)
              end
        end
    end.
Proof.
  intros (Hty & Hbase & Hcheck & Hprobe). unfold aoclsparse_csr_optimize.
  replace (negb _) with false.
  2: { symmetry. apply negb_false_iff.
       destruct Hty as [[-> ->]|[-> ->]]; done. }
  replace (bool_decide (mat_base A ≠ aoclsparse_index_base_zero)
           && bool_decide (mat_base A ≠ aoclsparse_index_base_one))
    with false.
  2: { destruct Hbase as [->| ->]; done. }
  rewrite Hcheck, Hprobe. cbv beta iota zeta.
  rewrite (bool_decide_false (aoclsparse_status_success ≠ _)) by (by intros []).
  done.
Qed.

Lemma optimize_build_copy A h sorted fulldiag status As h1 :
  sorted && fulldiag = false →
  aoclsparse_copy_csr (mat_m A) (mat_n A) (mat_nnz A) (mat_base A)
    (csr_mat A) (opt_csr_mat A) h = (status, As, h1) →
  optimize_build A sorted fulldiag h
  = if bool_decide (status ≠ aoclsparse_status_success)
    then (Some status, copied A As, h1)
    else (None,
          set_internal_base_index (copied A As) aoclsparse_index_base_zero,
          h1).
Proof.
  intros Hsf Hcopy. unfold optimize_build. rewrite Hsf.
  destruct A as [? ? ? ? ? ? ? ? ? ? ? ? ? ?]. simpl in *.
  by rewrite Hcopy.
Qed.

(** C5, amended.  For a validated handle:
    - when the probe answers sorted and full diagonal, the clean matrix
      is the user's: the three pointers of [opt_csr_mat] are those of
      [csr_mat], [opt_csr_is_users] is true, [internal_base_index] is the
      user's base, the construction leaves memory exactly as it was and
      the whole call leaves every allocation as it was;
    - otherwise [opt_csr_is_users] is false and [aoclsparse_copy_csr]
      runs on the user's matrix: if it fails the call returns its status
      and [internal_base_index] is not assigned; if it succeeds
      [internal_base_index] is zero; for [m > 0], [nnz > 0], live sources
      and memory granted it succeeds and [opt_csr_mat] points to three
      new allocations, every older allocation being as it was; for
      [m == 0] or [nnz == 0] it succeeds without copying anything. *)
Theorem optimize_alias_or_copy A h sorted fulldiag :
  validated T_is csr_check_internal csr_check_sort_diag A h sorted fulldiag →
  indices_keep_memory csr_indices →
  if sorted && fulldiag
  then
    optimize_build A sorted fulldiag h = (None, aliased A, h)
    ∧ ∃ status A' h',
        optimize (Some A) h = Returns (status, Some A', h')
        ∧ opt_csr_mat A' = csr_mat A ∧ csr_mat A' = csr_mat A
        ∧ opt_csr_is_users A' = true
        ∧ internal_base_index A' = mat_base A
        ∧ preserved h h'
  else
    ∃ status As h1,
      aoclsparse_copy_csr (mat_m A) (mat_n A) (mat_nnz A) (mat_base A)
        (csr_mat A) (opt_csr_mat A) h = (status, As, h1)
      ∧ (status ≠ aoclsparse_status_success →
           optimize (Some A) h = Returns (status, Some (copied A As), h1))
      ∧ (status = aoclsparse_status_success →
           optimize_build A sorted fulldiag h
           = (None,
              set_internal_base_index (copied A As)
                aoclsparse_index_base_zero, h1)
           ∧ ∀ st A' h',
               optimize (Some A) h = Returns (st, Some A', h') →
               opt_csr_is_users A' = false
               ∧ internal_base_index A' = aoclsparse_index_base_zero
               ∧ csr_mat A' = csr_mat A)
      ∧ (0 < mat_m A → 0 < mat_nnz A → grants 3 h = true →
         live h (csr_row_ptr (csr_mat A)) →
         live h (csr_col_ptr (csr_mat A)) →
         live h (csr_val (csr_mat A)) →
         status = aoclsparse_status_success
         ∧ preserved h h1
         ∧ ∃ row col val,
             As = Csr (Some row) (Some col) (Some val)
             ∧ blocks h !! row = None ∧ blocks h !! col = None
             ∧ blocks h !! val = None)
      ∧ (0 ≤ mat_m A → mat_m A = 0 ∨ mat_nnz A = 0 →
         is_null (csr_col_ptr (csr_mat A))
         || is_null (csr_row_ptr (csr_mat A))
         || is_null (csr_val (csr_mat A)) = false →
         status = aoclsparse_status_success
         ∧ As = opt_csr_mat A ∧ h1 = h).
Proof.
  intros Hval Hkeep.
  pose proof (optimize_reaches_build A h sorted fulldiag Hval) as Hopt.
  destruct (sorted && fulldiag) eqn:Hsf.
  - apply andb_true_iff in Hsf as [-> ->].
    rewrite optimize_build_alias in Hopt.
    split; [apply optimize_build_alias|].
    rewrite Hopt. clear Hopt. simpl.
    destruct (csr_indices _ _ _ _ _ _ h) as [[[status d] u] h'] eqn:Hind.
    pose proof (Hkeep _ _ _ _ _ _ _ _ _ _ _ Hind) as Hpres.
    destruct A as [? ? ? ? ? [? ? ?] [? ? ?] ? ? ? ? ? ? ?]. simpl in *.
    case_bool_decide; eexists _, _, _; (split; [done|]); done.
  - destruct (aoclsparse_copy_csr (mat_m A) (mat_n A) (mat_nnz A)
                (mat_base A) (csr_mat A) (opt_csr_mat A) h)
      as [[status As] h1] eqn:Hcopy.
    exists status, As, h1. split; [done|].
    pose proof (optimize_build_copy A h sorted fulldiag status As h1 Hsf Hcopy)
      as Hbuild.
    split; [|split; [|split]].
    + intros Hst. rewrite Hopt, Hbuild.
      by rewrite bool_decide_true.
    + intros ->. rewrite bool_decide_false in Hbuild by (by intros []).
      split; [done|]. intros st A' h' Hret.
      rewrite Hopt, Hbuild in Hret. clear Hopt Hbuild Hcopy.
      repeat case_match; cbv zeta in Hret; simplify_eq;
        destruct A as [? ? ? ? ? [? ? ?] [? ? ?] ? ? ? ? ? ? ?];
        repeat split; reflexivity.
    + intros Hm Hnnz Hg Hlr Hlc Hlv.
      destruct (copy_csr_success (mat_m A) (mat_n A) (mat_nnz A)
                  (mat_base A) (csr_mat A) (opt_csr_mat A) h)
        as (row & col & val & h' & Heq & Hr & Hc & Hv & _ & Hp & _);
        try done.
      rewrite Hcopy in Heq. injection Heq as -> -> ->.
      split; [done|]. split; [done|]. by exists row, col, val.
    + intros Hm Hzero Hnull. unfold aoclsparse_copy_csr in Hcopy.
      rewrite Hnull in Hcopy. rewrite bool_decide_false in Hcopy by lia.
      replace (bool_decide (mat_m A = 0) || bool_decide (mat_nnz A = 0))
        with true in Hcopy.
      2: { symmetry. rewrite orb_true_iff, !bool_decide_eq_true. tauto. }
      by injection Hcopy as <- <- <-.
Qed.
End Optimize.

(** * The modelled index builder keeps memory *)

Section IndicesModel.
Context {T : Type} `{Scalar T}.
Implicit Types (h : heap T).

Lemma new_ints_cases n h p h' :
  new_ints n h = (p, h') →
  match p with
  | None => blocks h' = blocks h
  | Some l =>
      blocks h !! l = None
      ∧ blocks h' = <[l := IntBlock (replicate (Z.to_nat n) 0)]> (blocks h)
  end.
Proof.
  unfold new_ints, request_memory.
  case_bool_decide; [by intros [= <- <-]|].
  destruct (oracle h) as [|[] o]; simpl; intros [= <- <-]; simpl; try done;
    (split; [apply fresh_not_live|done]).
Qed.

Lemma csr_indices_model_keeps_memory :
  indices_keep_memory (T:=T) csr_indices_model.
Proof.
  intros m base icrow icol d u h status d' u' h' Hcall.
  unfold csr_indices_model in Hcall.
  destruct (bool_decide (m < 0));
    [injection Hcall as <- <- <- <-; apply preserved_refl|].
  destruct (is_null icrow || is_null icol);
    [injection Hcall as <- <- <- <-; apply preserved_refl|].
  destruct (new_ints m h) as [[l1|] h1] eqn:Hn1;
    apply new_ints_cases in Hn1.
  2: { injection Hcall as <- <- <- <-. intros l b Hl. by rewrite Hn1. }
  destruct Hn1 as [Hl1 Hb1].
  destruct (new_ints m h1) as [[l2|] h2] eqn:Hn2;
    apply new_ints_cases in Hn2.
  2: { injection Hcall as <- <- <- <-. intros l b Hl. simpl.
       rewrite Hn2, Hb1. rewrite delete_insert_eq.
       rewrite lookup_delete_ne; [done|]. congruence. }
  destruct Hn2 as [Hl2 Hb2]. injection Hcall as <- <- <- <-.
  assert (same_except [Some l1; Some l2] h2
            (for_range 0 m
               (λ i h0,
                  let h3 :=
                    store_int h0 (Some l1) i
                      (first_position (λ c, bool_decide (c = i)) base icrow
                         icol h0 i) in
                  store_int h3 (Some l2) i
                    (first_position (λ c, bool_decide (c > i)) base icrow
                       icol h3 i)) h2)) as Hsame.
  { destruct (decide (0 ≤ m)) as [Hm|Hm].
    2: { rewrite for_range_empty by lia. apply same_except_refl. }
    apply (for_range_ind (λ _ hj, same_except [Some l1; Some l2] h2 hj));
      [done|apply same_except_refl|].
    intros j hj Hj Hs. eapply same_except_trans; [done|].
    eapply same_except_trans.
    - apply same_except_store_int. apply elem_of_cons. by left.
    - apply same_except_store_int. apply elem_of_cons. right.
      apply elem_of_cons. by left. }
  intros l b Hl.
  assert (l1 ≠ l) as Hne1 by congruence.
  assert (l2 ≠ l) as Hne2.
  { intros ->. rewrite Hb1, lookup_insert_ne in Hl2 by done. congruence. }
  rewrite Hsame.
  - rewrite Hb2, Hb1. by rewrite !lookup_insert_ne.
  - intros Hin. apply elem_of_cons in Hin as [[= ->]|Hin]; [done|].
    by apply list_elem_of_singleton in Hin as [= ->].
Qed.
End IndicesModel.

(** Witness of [optimize_alias_or_copy]: the matrix of the sample program
    is sorted with a full diagonal, and the clean matrix is the user's. *)
Lemma optimize_alias_or_copy_witness :
  let A := fresh_handle 5 5 8 0 aoclsparse_dmat csr_123 in
  optimize_build A true true sample_memory = (None, aliased A, sample_memory)
  ∧ ∃ status A' h',
      optimize_model T_double (λ _ l, Some l) (Some A) sample_memory
      = Returns (status, Some A', h')
      ∧ opt_csr_mat A' = csr_123 ∧ csr_mat A' = csr_123
      ∧ opt_csr_is_users A' = true
      ∧ internal_base_index A' = 0
      ∧ preserved sample_memory h'.
Proof.
  apply (optimize_alias_or_copy (λ _ l, Some l) T_double
           csr_check_internal_model csr_check_sort_diag_model csr_indices_model
           (fresh_handle 5 5 8 0 aoclsparse_dmat csr_123) sample_memory
           true true).
  - split; [by left|]. split; [by left|]. split; reflexivity.
  - apply csr_indices_model_keeps_memory.
Defined.

(** C5 as stated fails for a matrix without entries: the handle is
    validated, the probe answers sorted but not full diagonal, and the
    other branch builds no copy, since [aoclsparse_copy_csr] returns at once
    for [nnz == 0]: [opt_csr_mat] keeps its null pointers and the call ends
    in invalid_pointer. *)
Lemma optimize_empty_row_builds_no_copy :
  let A := fresh_handle 1 1 0 0 aoclsparse_dmat csr_123 in
  validated T_double csr_check_internal_model csr_check_sort_diag_model
    A empty_row true false
  ∧ ∃ A' h',
      optimize_model T_double (λ _ l, Some l) (Some A) empty_row
      = Returns (aoclsparse_status_invalid_pointer, Some A', h')
      ∧ opt_csr_is_users A' = false
      ∧ opt_csr_mat A' = Csr None None None
      ∧ blocks h' = blocks empty_row.
Proof.
  split.
  - split; [by left|]. split; [by left|]. split; reflexivity.
  - eexists _, _. split; [vm_compute; reflexivity|]. done.
Qed.

(** When memory is refused in the other branch the call ends in
    memory_error and [internal_base_index] is what it was. *)
Example optimize_copy_refused :
  let A := fresh_handle 1 2 2 1 aoclsparse_dmat csr_123 in
  let h := Heap (blocks (memory_of [1; 3] [2; 1] [10; 20])) [false] in
  ∃ A' h',
    optimize_model T_double (λ _ l, Some l) (Some A) h
    = Returns (aoclsparse_status_memory_error, Some A', h')
    ∧ opt_csr_is_users A' = false
    ∧ internal_base_index A' = 1
    ∧ blocks h' = blocks h.
Proof. eexists _, _. split; [vm_compute; reflexivity|]. done. Qed.

(** * Insertion sort meets the contract of std::sort *)

Section InsertionSort.
Implicit Types (comp : Z → Z → bool) (l racc : list Z).

Lemma is_sorted_snoc comp l x :
  is_sorted comp (l ++ [x])
  = is_sorted comp l
    && match last l with Some y => negb (comp x y) | None => true end.
Proof.
  induction l as [|a [|b l] IH]; [done|simpl; by rewrite andb_true_r|].
  change (is_sorted comp ((a :: b :: l) ++ [x]))
    with (negb (comp b a) && is_sorted comp ((b :: l) ++ [x])).
  rewrite IH. change (is_sorted comp (a :: b :: l))
    with (negb (comp b a) && is_sorted comp (b :: l)).
  by rewrite andb_assoc.
Qed.

Lemma is_sorted_reverse comp racc :
  is_sorted comp (reverse racc) = rsorted comp racc.
Proof.
  induction racc as [|p [|q racc] IH]; [done|done|].
  rewrite reverse_cons, is_sorted_snoc, IH.
  rewrite reverse_cons, last_snoc.
  change (rsorted comp (p :: q :: racc))
    with (negb (comp p q) && rsorted comp (q :: racc)).
  apply andb_comm.
Qed.

Lemma insert_back_perm comp x racc : insert_back comp x racc ≡ₚ x :: racc.
Proof.
  induction racc as [|p racc IH]; [done|]. simpl.
  destruct (comp x p); [|done]. rewrite IH. apply Permutation_swap.
Qed.

Lemma insert_back_rsorted comp x racc :
  (∀ p, p ∈ racc → comp p x = negb (comp x p)) →
  rsorted comp racc = true →
  rsorted comp (insert_back comp x racc) = true.
Proof.
  intros Hasym. induction racc as [|p racc IH]; intros Hs; [done|].
  simpl. destruct (comp x p) eqn:Hxp.
  - assert (comp p x = false) as Hpx.
    { rewrite Hasym by (apply elem_of_cons; by left). by rewrite Hxp. }
    assert (rsorted comp (insert_back comp x racc) = true) as Hrec.
    { apply IH.
      - intros q Hq. apply Hasym, elem_of_cons. by right.
      - destruct racc as [|q racc]; [done|]. simpl in Hs.
        by apply andb_true_iff in Hs as [_ Hs]. }
    destruct racc as [|q racc].
    + simpl. by rewrite Hpx.
    + simpl in Hs. apply andb_true_iff in Hs as [Hpq _].
      cbn [insert_back] in *. destruct (comp x q).
      * change (negb (comp p q)
                && rsorted comp (q :: insert_back comp x racc) = true).
        by rewrite Hpq, Hrec.
      * change (negb (comp p x) && rsorted comp (x :: q :: racc) = true).
        by rewrite Hpx, Hrec.
  - change (negb (comp x p) && rsorted comp (p :: racc) = true).
    by rewrite Hxp, Hs.
Qed.

Lemma insertion_sort_contract : std_sort_contract insertion_sort.
Proof.
  intros comp l Hnd [Hasym _]. exists (insertion_pass comp l).
  split; [done|]. unfold insertion_pass.
  rewrite is_sorted_reverse, reverse_Permutation.
  assert (∀ k racc,
            NoDup (racc ++ k) → (∀ a, a ∈ racc ++ k → a ∈ l) →
            rsorted comp racc = true →
            foldl (λ racc x, insert_back comp x racc) racc k ≡ₚ racc ++ k
            ∧ rsorted comp (foldl (λ racc x, insert_back comp x racc) racc k)
              = true) as Hgen.
  { induction k as [|x k IH]; intros racc Hnd' Hin Hs.
    - simpl. by rewrite app_nil_r.
    - simpl. destruct (IH (insert_back comp x racc)) as [Hp Hr].
      + rewrite insert_back_perm. simpl.
        by rewrite Permutation_middle.
      + intros a Ha. apply Hin. rewrite insert_back_perm in Ha.
        by rewrite <- Permutation_middle.
      + apply insert_back_rsorted; [|done].
        intros p Hp. apply Hasym.
        * apply Hin, elem_of_app. by left.
        * apply Hin, elem_of_app. right. apply elem_of_cons. by left.
        * intros ->. apply NoDup_app in Hnd' as (_ & Hdis & _).
          apply (Hdis x Hp), elem_of_cons. by left.
      + split; [|done]. rewrite Hp, insert_back_perm. simpl.
        by rewrite Permutation_middle. }
  destruct (Hgen l []) as [Hp Hr]; by auto.
Qed.
End InsertionSort.

(** * aoclsparse_sort_csr *)

Section Positions.
Context {X : Type}.
Implicit Types (a : list X) (d : X).

Lemma at_app_three d (l1 l2 l3 : list X) lo n k :
  0 ≤ lo → 0 ≤ n → 0 ≤ k →
  length l1 = Z.to_nat lo → length l2 = Z.to_nat n →
  at_ d (l1 ++ l2 ++ l3) k
  = if decide (k < lo) then at_ d l1 k
    else if decide (k < lo + n) then at_ d l2 (k - lo)
         else at_ d l3 (k - lo - n).
Proof.
  intros Hlo Hn Hk Hl1 Hl2. rewrite (at_nonneg d (l1 ++ l2 ++ l3)) by lia.
  case_decide.
  { rewrite at_nonneg by lia. by rewrite lookup_app_l by lia. }
  rewrite lookup_app_r by lia. case_decide.
  - rewrite at_nonneg by lia. rewrite lookup_app_l by lia.
    do 2 f_equal. lia.
  - rewrite at_nonneg by lia. rewrite lookup_app_r by lia.
    do 2 f_equal. lia.
Qed.

Lemma at_take d a lo k :
  0 ≤ k < lo → at_ d (take (Z.to_nat lo) a) k = at_ d a k.
Proof.
  intros. rewrite !at_nonneg by lia. by rewrite lookup_take_lt by lia.
Qed.

Lemma at_drop d a hi k :
  0 ≤ hi → 0 ≤ k → at_ d (drop (Z.to_nat hi) a) k = at_ d a (hi + k).
Proof.
  intros. rewrite !at_nonneg by lia. rewrite lookup_drop.
  do 2 f_equal. lia.
Qed.

Lemma at_fmap_seqZ (f : Z → X) d lo n k :
  0 ≤ k < n → at_ d (f <$> seqZ lo n) k = f (lo + k).
Proof.
  intros. rewrite at_nonneg by lia. rewrite list_lookup_fmap.
  rewrite lookup_seqZ_lt by lia. simpl. f_equal. lia.
Qed.

(** What a cell holds after [for (i = lo; i < hi; i++) a[i] = f i]. *)
Lemma at_fill_range (f : Z → X) d a lo hi k :
  0 ≤ lo ≤ hi → hi ≤ Z.of_nat (length a) → 0 ≤ k →
  at_ d (for_range lo hi (λ i a, set_ a i (f i)) a) k
  = if decide (lo ≤ k < hi) then f k else at_ d a k.
Proof.
  intros Hlo Hhi Hk. rewrite fill_range by done.
  rewrite (at_app_three d _ _ _ lo (hi - lo)); try lia.
  2: { rewrite length_take. lia. }
  2: { by rewrite length_fmap, length_seqZ. }
  repeat case_decide; try lia.
  - by apply at_take.
  - rewrite at_fmap_seqZ by lia. f_equal. lia.
  - rewrite at_drop by lia. f_equal. lia.
Qed.

Lemma length_fill_range (f : Z → X) a lo hi :
  0 ≤ lo ≤ hi → hi ≤ Z.of_nat (length a) →
  length (for_range lo hi (λ i a, set_ a i (f i)) a) = length a.
Proof.
  intros Hlo Hhi. rewrite fill_range by done.
  rewrite !length_app, length_take, length_fmap, length_seqZ, length_drop.
  lia.
Qed.

(** Two lists of the same length with the same cells are equal. *)
Lemma list_eq_at d (a1 a2 : list X) :
  length a1 = length a2 →
  (∀ k, 0 ≤ k < Z.of_nat (length a1) → at_ d a1 k = at_ d a2 k) →
  a1 = a2.
Proof.
  intros Hlen Hat. apply list_eq. intros k.
  destruct (decide (k < length a1)%nat) as [Hk|Hk].
  - specialize (Hat (Z.of_nat k) ltac:(lia)).
    rewrite !at_nonneg, Nat2Z.id in Hat by lia.
    destruct (a1 !! k) eqn:H1, (a2 !! k) eqn:H2; simpl in Hat;
      try (by subst);
      [apply lookup_ge_None in H2|apply lookup_ge_None in H1]; lia.
  - by rewrite !lookup_ge_None_2 by lia.
Qed.
End Positions.

Section SortFacts.
Lemma is_sorted_by_column (comp : Z → Z → bool) (g : Z → Z) base
    (s : list Z) :
  (∀ a b, comp a b = bool_decide (g a ≤ g b)) →
  is_sorted comp s = true →
  strictly_increasing ((λ a, g a - base) <$> s) = true.
Proof.
  intros Hcomp. induction s as [|a [|b s] IH]; [done|done|]. intros Hs.
  change (negb (comp b a) && is_sorted comp (b :: s) = true) in Hs.
  apply andb_true_iff in Hs as [Hab Hs].
  change (bool_decide (g a - base < g b - base)
          && strictly_increasing ((λ a, g a - base) <$> b :: s) = true).
  rewrite IH by done. rewrite andb_true_r.
  rewrite Hcomp in Hab.
  apply negb_true_iff, bool_decide_eq_false in Hab.
  apply bool_decide_eq_true. lia.
Qed.

Lemma at_seqZ lo k t : 0 ≤ t < k → at_ 0 (seqZ lo k) t = lo + t.
Proof.
  intros. rewrite at_nonneg by lia. rewrite lookup_seqZ_lt by lia.
  simpl. lia.
Qed.

Lemma NoDup_fmap_inj_on {X Y} (f : X → Y) (l : list X) a b :
  NoDup (f <$> l) → a ∈ l → b ∈ l → f a = f b → a = b.
Proof.
  induction l as [|x l IH]; intros Hnd Ha Hb Hf;
    [by apply elem_of_nil in Ha|].
  rewrite fmap_cons in Hnd. apply NoDup_cons in Hnd as [Hx Hnd].
  apply elem_of_cons in Ha as [->|Ha]; apply elem_of_cons in Hb as [->|Hb];
    try done.
  - exfalso. apply Hx. rewrite Hf. by apply list_elem_of_fmap_2.
  - exfalso. apply Hx. rewrite <- Hf. by apply list_elem_of_fmap_2.
  - by apply IH.
Qed.

Lemma orders_by_column (g : Z → Z) (l : list Z) :
  (∀ a b, a ∈ l → b ∈ l → a ≠ b → g a ≠ g b) →
  orders_distinct (λ a b, bool_decide (g a ≤ g b)) l.
Proof.
  intros Hinj. split.
  - intros a b Ha Hb Hne. specialize (Hinj a b Ha Hb Hne).
    repeat case_bool_decide; simpl; try done; lia.
  - intros a b c _ _ _ Hab%bool_decide_eq_true Hbc%bool_decide_eq_true.
    apply bool_decide_eq_true. lia.
Qed.

(** Offsets that do not decrease from one row to the next do not
    decrease over any stretch of rows. *)
Lemma offsets_monotone (rp : Z → Z) m :
  (∀ i, 0 ≤ i < m → rp i ≤ rp (i + 1)) →
  ∀ i j, 0 ≤ i ≤ j → j ≤ m → rp i ≤ rp j.
Proof.
  intros Hstep i j Hij Hj.
  replace j with (i + Z.of_nat (Z.to_nat (j - i))) in * by lia.
  induction (Z.to_nat (j - i)) as [|k IH].
  - replace (i + Z.of_nat 0) with i by lia. lia.
  - specialize (Hstep (i + Z.of_nat k) ltac:(lia)).
    replace (i + Z.of_nat (S k)) with (i + Z.of_nat k + 1) in * by lia.
    specialize (IH ltac:(lia) ltac:(lia)). lia.
Qed.

Lemma at_fmap_in_range (f : Z → Z) (a : list Z) i :
  0 ≤ i < Z.of_nat (length a) → at_ 0 (f <$> a) i = f (at_ 0 a i).
Proof.
  intros Hi. rewrite !at_nonneg by lia. rewrite list_lookup_fmap.
  destruct (a !! Z.to_nat i) eqn:Hai; [done|].
  apply lookup_ge_None in Hai. lia.
Qed.
End SortFacts.

Section SortCsr.
Context {T : Type} `{Scalar T}.
Variable std_sort : (Z → Z → bool) → list Z → option (list Z).
Hypothesis std_sort_ok : std_sort_contract std_sort.

Variables (m n nnz : Z) (base : aoclsparse_index_base).
Variables (A As : aoclsparse_csr) (h0 : heap T).
Hypothesis input_ok : sort_input m nnz base A As h0.
Hypothesis m_positive : 0 < m.
Hypothesis nnz_positive : 0 < nnz.
Hypothesis columns_distinct :
  ∀ i, 0 ≤ i < m → NoDup (row_columns base A h0 i).

Local Abbreviation rp := (load_int h0 (csr_row_ptr A)).
Local Abbreviation W := [csr_col_ptr As; csr_val As].

Lemma rp_bounds i : 0 ≤ i ≤ m → base ≤ rp i ≤ base + nnz.
Proof.
  destruct input_ok as (Hm & Hnnz & _ & _ & _ & H0 & Hend & Hmono & _).
  intros Hi.
  pose proof (offsets_monotone rp m Hmono 0 i ltac:(lia) ltac:(lia)).
  pose proof (offsets_monotone rp m Hmono i m ltac:(lia) ltac:(lia)).
  lia.
Qed.

Lemma rp_step i : 0 ≤ i < m → rp i ≤ rp (i + 1).
Proof. destruct input_ok as (_ & _ & _ & _ & _ & _ & _ & Hmono & _). auto. Qed.

Lemma untouched_sources h :
  same_except W h0 h →
  (∀ i, load_int h (csr_row_ptr A) i = rp i)
  ∧ (∀ i, load_int h (csr_col_ptr A) i = load_int h0 (csr_col_ptr A) i)
  ∧ (∀ i, load_val h (csr_val A) i = load_val h0 (csr_val A) i)
  ∧ (∀ i, 0 ≤ i ≤ m → load_int h (csr_row_ptr As) i = rp i - base).
Proof.
  destruct input_ok
    as (_ & _ & Hlr & _ & _ & _ & _ & _ & Hrow & _ & _ & Hapart).
  intros Hs. repeat split; intros i.
  - apply (same_except_load_int W); [done|]. apply Hapart.
    apply elem_of_cons. by left.
  - apply (same_except_load_int W); [done|]. apply Hapart.
    apply elem_of_cons. right. apply elem_of_cons. by left.
  - apply (same_except_load_val W); [done|]. apply Hapart.
    do 2 (apply elem_of_cons; right). apply elem_of_cons. by left.
  - intros Hi. rewrite (same_except_load_int W h0) by
      (first [done | apply Hapart; do 3 (apply elem_of_cons; right);
                     apply elem_of_cons; by left]).
    unfold load_int. rewrite Hrow. apply at_fmap_in_range. lia.
Qed.

Lemma csr_row_sorted_output h i :
  same_except W h0 h → 0 ≤ i < m →
  csr_row 0 As h i
  = (λ idx, (load_int h (csr_col_ptr As) idx, load_val h (csr_val As) idx))
    <$> seqZ (rp i - base) (rp (i + 1) - rp i).
Proof.
  intros Hs Hi. destruct (untouched_sources h Hs) as (_ & _ & _ & HrowS).
  unfold csr_row. rewrite !HrowS by lia.
  replace (rp i - base - 0) with (rp i - base) by lia.
  replace (rp (i + 1) - base - (rp i - base)) with (rp (i + 1) - rp i) by lia.
  apply list_fmap_ext. intros _ idx _. f_equal. lia.
Qed.

Lemma sort_row_done i s : 0 ≤ i < m → rows_done nnz base A As h0 i s →
  ∃ s', sort_row std_sort base A As i s = Some s'
        ∧ rows_done nnz base A As h0 (i + 1) s'.
Proof.
  intros Hi. destruct s as [perm h].
  intros (Hs & Hlc & Hlv & Hlp & Hid & Hrows).
  destruct (untouched_sources h Hs) as (HrowA & HcolA & HvalA & HrowS).
  pose proof (rp_bounds i ltac:(lia)) as Hbi.
  pose proof (rp_bounds (i + 1) ltac:(lia)) as Hbi1.
  pose proof (rp_step i Hi) as Hstep.
  unfold sort_row. rewrite !HrowA.
  set (lo := rp i - base).
  replace (rp (i + 1) - base - lo) with (rp (i + 1) - rp i) by lia.
  set (k := rp (i + 1) - rp i).
  set (comp := λ a b, bool_decide (load_int h (csr_col_ptr A) a
                                   ≤ load_int h (csr_col_ptr A) b)).
  (* the part of [perm] that is sorted *)
  assert (take (Z.to_nat (lo + k - lo)) (drop (Z.to_nat lo) perm) = seqZ lo k)
    as Hseg.
  { replace (lo + k - lo) with k by lia.
    apply (list_eq_at 0).
    - rewrite length_take, length_drop, length_seqZ. lia.
    - intros t Ht. rewrite length_take, length_drop in Ht.
      rewrite at_take by lia. rewrite at_drop by lia.
      rewrite Hid by lia. by rewrite at_seqZ by lia. }
  destruct (std_sort_ok comp (seqZ lo k))
    as (sorted & Hsort & Hperm & Hsorted).
  { apply NoDup_seqZ. }
  { apply orders_by_column. intros a b Ha Hb Hne Hcol.
    apply Hne.
    apply (NoDup_fmap_inj_on
             (λ idx, load_int h0 (csr_col_ptr A) idx - base) (seqZ lo k));
      [apply (columns_distinct i Hi)|done|done|].
    rewrite !HcolA in Hcol. lia. }
  assert (length sorted = Z.to_nat k) as Hlen_sorted.
  { by rewrite (Permutation_length Hperm), length_seqZ. }
  unfold sort_range. rewrite Hseg, Hsort.
  replace (Z.to_nat lo + Z.to_nat (lo + k - lo))%nat
    with (Z.to_nat (lo + k)) by lia.
  set (perm' := take (Z.to_nat lo) perm ++ sorted
                ++ drop (Z.to_nat (lo + k)) perm).
  assert (∀ t, 0 ≤ t → at_ 0 perm' t
               = if decide (t < lo) then at_ 0 perm t
                 else if decide (t < lo + k) then at_ 0 sorted (t - lo)
                      else at_ 0 perm t) as Hperm'.
  { intros t Ht. unfold perm'.
    rewrite (at_app_three 0 _ _ _ lo k) by
      (first [lia | rewrite length_take; lia | done]).
    repeat case_decide; try done.
    - by apply at_take.
    - rewrite at_drop by lia. f_equal. lia. }
  (* the loop over the entries of the row *)
  destruct (store_ints_vals_loop (csr_col_ptr As) (csr_val As)
              (λ h j, load_int h (csr_col_ptr A) (at_ 0 perm' j) - base)
              (λ h j, load_val h (csr_val A) (at_ 0 perm' j))
              (λ j, load_int h0 (csr_col_ptr A) (at_ 0 perm' j) - base)
              (λ j, load_val h0 (csr_val A) (at_ 0 perm' j))
              lo (lo + k) h) as (_ & _ & Hs' & Hi' & Hv').
  { intros h' j _ Hsame.
    destruct (untouched_sources h'
                (same_except_trans W _ _ _ Hs Hsame)) as (_ & Hc & _).
    by rewrite Hc. }
  { intros h' j _ Hsame.
    destruct (untouched_sources h'
                (same_except_trans W _ _ _ Hs Hsame)) as (_ & _ & Hv & _).
    by rewrite Hv. }
  set (h' := for_range lo (lo + k) _ h) in *.
  assert (same_except W h0 h') as Hs0' by (by eapply same_except_trans).
  exists (perm', h'). split; [done|].
  split; [done|].
  split; [by rewrite Hi', length_fill_range by lia|].
  split; [by rewrite Hv', length_fill_range by lia|].
  split.
  { unfold perm'. rewrite !length_app, length_take, length_drop. lia. }
  split.
  { intros t Ht. rewrite Hperm' by lia.
    rewrite !decide_False by lia. apply Hid. lia. }
  intros i' Hi'range.
  rewrite (csr_row_sorted_output h' i') by (first [done | lia]).
  destruct (decide (i' = i)) as [->|Hne].
  - (* the row just sorted *)
    fold lo k.
    assert ((λ idx, (load_int h' (csr_col_ptr As) idx,
                     load_val h' (csr_val As) idx)) <$> seqZ lo k
            = (λ a, (load_int h0 (csr_col_ptr A) a - base,
                     load_val h0 (csr_val A) a)) <$> sorted) as ->.
    { apply (list_eq_at (0, szero)).
      - by rewrite !length_fmap, length_seqZ.
      - intros t Ht. rewrite length_fmap, length_seqZ in Ht.
        rewrite at_fmap_seqZ by lia.
        unfold load_int, load_val. rewrite Hi', Hv'.
        rewrite !at_fill_range by lia.
        rewrite !decide_True by lia. rewrite Hperm' by lia.
        rewrite decide_False, decide_True by lia.
        replace (lo + t - lo) with t by lia.
        rewrite !(at_nonneg _ _ t) by lia. rewrite list_lookup_fmap.
        destruct (sorted !! Z.to_nat t) eqn:Hst; [done|].
        apply lookup_ge_None in Hst. lia. }
    split.
    + unfold csr_row. fold lo k. by rewrite Hperm.
    + rewrite <- list_fmap_compose.
      apply (is_sorted_by_column comp (load_int h0 (csr_col_ptr A)) base);
        [|done].
      intros a b. unfold comp. by rewrite !HcolA.
  - (* a row sorted before *)
    destruct (Hrows i' ltac:(lia)) as [Hp Hinc].
    rewrite (csr_row_sorted_output h i') in Hp, Hinc by (first [done | lia]).
    pose proof (rp_bounds i' ltac:(lia)) as Hb'.
    pose proof (rp_bounds (i' + 1) ltac:(lia)) as Hb1'.
    assert (rp (i' + 1) ≤ rp i) as Hbelow.
    { destruct input_ok as (_ & _ & _ & _ & _ & _ & _ & Hmono & _).
      apply (offsets_monotone rp m Hmono); lia. }
    pose proof (rp_step i' ltac:(lia)) as Hstep'.
    assert ((λ idx, (load_int h' (csr_col_ptr As) idx,
                     load_val h' (csr_val As) idx))
            <$> seqZ (rp i' - base) (rp (i' + 1) - rp i')
            = (λ idx, (load_int h (csr_col_ptr As) idx,
                       load_val h (csr_val As) idx))
              <$> seqZ (rp i' - base) (rp (i' + 1) - rp i')) as ->; [|done].
    apply list_fmap_ext. intros _ idx Hidx%list_elem_of_lookup_2.
    apply elem_of_seqZ in Hidx. unfold load_int, load_val.
    rewrite Hi', Hv'. rewrite !at_fill_range by lia.
    by rewrite !decide_False by lia.
Qed.

(** The loop over the rows: every sort returns. *)
Lemma sort_rows_done s :
  rows_done nnz base A As h0 0 s →
  ∃ s', sort_rows std_sort m base A As s = Some s'
        ∧ rows_done nnz base A As h0 m s'.
Proof.
  intros Hstart. unfold sort_rows.
  apply (for_range_ind
           (λ j os, ∃ s', os = Some s' ∧ rows_done nnz base A As h0 j s'));
    [lia|by exists s|].
  intros j os Hj (s' & -> & Hd). by apply sort_row_done.
Qed.
End SortCsr.

Section SortCsrTheorem.
Context {T : Type} `{Scalar T}.
Variable std_sort : (Z → Z → bool) → list Z → option (list Z).

Lemma sized_not_null (h : heap T) p :
  0 < Z.of_nat (length (ints_at h p)) ∨ 0 < Z.of_nat (length (vals_at h p)) →
  is_null p = false.
Proof. destruct p; [done|]. simpl. lia. Qed.

(** C6, amended.  For a valid matrix with [m >= 0] rows, buffers of
    [As] apart from those of [A] that hold the row offsets of [A]
    without the base, and rows whose column indices are pairwise
    distinct, [aoclsparse_sort_csr] returns success; it writes the
    column and the value buffer of [As] and nothing else, so that the
    row offsets are what they were; and every row of the output holds a
    permutation of the pairs (column - base, value) of the same row of
    the input, with strictly increasing columns.  [std::sort] is any
    function that meets [std_sort_contract], and the request for the
    storage of [perm] is served. *)
Theorem sort_csr_sorts_rows m n nnz base A As (h : heap T) :
  std_sort_contract std_sort →
  sort_input m nnz base A As h →
  (∀ i, 0 ≤ i < m → NoDup (row_columns base A h i)) →
  grants 1 h = true →
  ∃ h',
    aoclsparse_sort_csr std_sort m n nnz base A As h
    = Returns (aoclsparse_status_success, h')
    ∧ same_except [csr_col_ptr As; csr_val As] h h'
    ∧ ints_at h' (csr_row_ptr As) = ints_at h (csr_row_ptr As)
    ∧ ∀ i, 0 ≤ i < m →
        csr_row 0 As h' i ≡ₚ csr_row base A h i
        ∧ strictly_increasing (csr_row 0 As h' i).*1 = true.
Proof.
  intros Hsort Hin Hdistinct Hg.
  pose proof Hin
    as (Hm & Hnnz & Hlr & Hlc & Hlv & H0 & Hend & Hmono & Hrow & HlcS & HlvS
        & Hapart).
  unfold aoclsparse_sort_csr.
  destruct (decide (m = 0 ∨ nnz = 0)) as [Hempty|Hfull].
  { (* the quick return: there are no rows, or every row is empty *)
    assert (bool_decide (m = 0) || bool_decide (nnz = 0) = true) as ->.
    { destruct Hempty as [-> | ->]; [done|].
      by rewrite (bool_decide_true (0 = 0)), orb_true_r. }
    exists h. split; [done|]. split; [apply same_except_refl|].
    split; [done|]. intros i Hi.
    assert (nnz = 0) as -> by lia.
    pose proof (offsets_monotone (λ i, load_int h (csr_row_ptr A) i) m Hmono
                  0 i ltac:(lia) ltac:(lia)) as Hlow.
    pose proof (offsets_monotone (λ i, load_int h (csr_row_ptr A) i) m Hmono
                  (i + 1) m ltac:(lia) ltac:(lia)) as Hhigh.
    simpl in Hlow, Hhigh.
    assert (csr_row base A h i = []) as ->.
    { unfold csr_row. by rewrite seqZ_nil by lia. }
    assert (csr_row 0 As h i = []) as ->; [|done].
    unfold csr_row, load_int. rewrite Hrow.
    rewrite !(at_fmap_in_range (λ v, v - base)) by lia.
    unfold load_int in Hlow, Hhigh, H0, Hend.
    by rewrite seqZ_nil by lia. }
  assert (0 < m ∧ 0 < nnz) as [Hm' Hnnz'] by lia.
  rewrite !(bool_decide_false (_ = 0)) by lia.
  rewrite !(sized_not_null h) by (first [left; lia | right; lia]).
  unfold vector_storage. rewrite !bool_decide_false by lia.
  rewrite request_memory_served by (done || lia).
  cbv beta iota zeta.
  set (h0 := Heap (blocks h) (tail (oracle h))).
  rewrite fill_all by (rewrite length_replicate; lia).
  assert (∃ s', sort_rows std_sort m base A As
                  (((λ j : Z, j) <$> seqZ 0 nnz), h0) = Some s'
                ∧ rows_done nnz base A As h0 m s')
    as ([perm h'] & -> & Hdone).
  { apply (sort_rows_done std_sort Hsort m nnz base A As h0); [done..|].
    split; [apply same_except_refl|].
    split; [done|]. split; [done|].
    split; [by rewrite length_fmap, length_seqZ; lia|].
    split; [|intros; lia].
    intros k Hk. change (load_int h0 (csr_row_ptr A) 0) with
      (load_int h (csr_row_ptr A) 0) in Hk.
    rewrite (at_fmap_seqZ (λ j, j) 0 0 nnz k) by lia. lia. }
  destruct Hdone as (Hs & _ & _ & _ & _ & Hrows).
  exists h'. split; [done|]. split; [done|]. split; [|done].
  apply (same_except_ints_at [csr_col_ptr As; csr_val As] h0); [done|].
  apply Hapart. do 3 (apply elem_of_cons; right). apply elem_of_cons. by left.
Qed.
End SortCsrTheorem.

(** Witness of [sort_csr_sorts_rows]: three rows in base one, sorted by
    insertion sort. *)
Lemma sort_csr_sorts_rows_witness :
  ∃ h',
    aoclsparse_sort_csr insertion_sort 3 3 6 1 csr_123 csr_456
      unsorted_base_one
    = Returns (aoclsparse_status_success, h')
    ∧ same_except [csr_col_ptr csr_456; csr_val csr_456] unsorted_base_one h'
    ∧ ints_at h' (csr_row_ptr csr_456)
      = ints_at unsorted_base_one (csr_row_ptr csr_456)
    ∧ ∀ i, 0 ≤ i < 3 →
        csr_row 0 csr_456 h' i ≡ₚ csr_row 1 csr_123 unsorted_base_one i
        ∧ strictly_increasing (csr_row 0 csr_456 h' i).*1 = true.
Proof.
  apply (sort_csr_sorts_rows insertion_sort 3 3 6 1 csr_123 csr_456
           unsorted_base_one insertion_sort_contract).
  - repeat split; try reflexivity; try lia.
    + intros i Hi. assert (i = 0 ∨ i = 1 ∨ i = 2) as Hc by lia.
      destruct Hc as [->|[->| ->]]; vm_compute; discriminate.
    + intros p Hp Hq.
      repeat (apply elem_of_cons in Hp as [->|Hp]);
        try (by apply elem_of_nil in Hp);
        repeat (apply elem_of_cons in Hq as [Hq|Hq]; try discriminate Hq);
        by apply elem_of_nil in Hq.
  - intros i Hi. assert (i = 0 ∨ i = 1 ∨ i = 2) as Hc by lia.
    destruct Hc as [->|[->| ->]]; apply (bool_decide_unpack _); by vm_compute.
  - reflexivity.
Defined.

(** C6 as stated fails where a row holds a column twice: the matrix is
    valid, insertion sort meets the contract of [std::sort], and the two
    entries of column 1 leave [aoclsparse_sort_csr] in the opposite order,
    where a stable sort keeps the order of the input. *)
Lemma sort_csr_not_stable :
  std_sort_contract insertion_sort
  ∧ sort_input 1 2 0 csr_123 csr_456 duplicate_columns
  ∧ csr_row 0 csr_123 duplicate_columns 0 = [(1, 10); (1, 20)]
  ∧ ∃ h',
      aoclsparse_sort_csr insertion_sort 1 2 2 0 csr_123 csr_456
        duplicate_columns
      = Returns (aoclsparse_status_success, h')
      ∧ csr_row 0 csr_456 h' 0 = [(1, 20); (1, 10)].
Proof.
  split; [apply insertion_sort_contract|]. split; [|split].
  - repeat split; try reflexivity; try lia.
    + intros i Hi. assert (i = 0) as -> by lia. vm_compute. discriminate.
    + intros p Hp Hq.
      repeat (apply elem_of_cons in Hp as [->|Hp]);
        try (by apply elem_of_nil in Hp);
        repeat (apply elem_of_cons in Hq as [Hq|Hq]; try discriminate Hq);
        by apply elem_of_nil in Hq.
  - reflexivity.
  - eexists. split; [vm_compute; reflexivity|]. reflexivity.
Qed.

(** * aoclsparse_csr_fill_diag: the second pass *)

Section SortedColumns.
Implicit Types (cols : list Z).

Lemma strictly_increasing_cons_iff c cols :
  strictly_increasing (c :: cols) = true
  ↔ strictly_increasing cols = true ∧ ∀ c', c' ∈ cols → c < c'.
Proof.
  split; [apply strictly_increasing_cons|]. intros [Hs Hlt].
  destruct cols as [|b cols]; [done|]. simpl.
  apply andb_true_iff. split; [|done].
  apply bool_decide_eq_true. apply Hlt, elem_of_cons. by left.
Qed.

Lemma strictly_increasing_app l1 l2 :
  strictly_increasing (l1 ++ l2) = true
  ↔ strictly_increasing l1 = true ∧ strictly_increasing l2 = true
    ∧ ∀ x y, x ∈ l1 → y ∈ l2 → x < y.
Proof.
  induction l1 as [|c l1 IH].
  - simpl. split; [intros Hs|by intros (_ & ? & _)].
    split; [done|]. split; [done|]. by intros x y ?%elem_of_nil.
  - change ((c :: l1) ++ l2) with (c :: (l1 ++ l2)).
    rewrite !strictly_increasing_cons_iff, IH. split.
    + intros [(Hs1 & Hs2 & Hx) Hlt]. split; [split; [done|]|].
      * intros c' Hc'. apply Hlt, elem_of_app. by left.
      * split; [done|]. intros x y [->|Hx1]%elem_of_cons Hy.
        -- apply Hlt, elem_of_app. by right.
        -- by apply Hx.
    + intros ([Hs1 Hlt] & Hs2 & Hx). split.
      * split; [done|]. split; [done|]. intros x y Hx1 Hy.
        apply Hx; [|done]. apply elem_of_cons. by right.
      * intros c' [Hc'|Hc']%elem_of_app; [by apply Hlt|].
        apply Hx; [|done]. apply elem_of_cons. by left.
Qed.

(** A sorted row holds a column at most once. *)
Lemma strictly_increasing_once i cols :
  strictly_increasing cols = true → i ∈ cols →
  length (filter (λ c, c = i) cols) = 1%nat.
Proof.
  induction cols as [|c cols IH]; intros Hs Hin.
  - by apply elem_of_nil in Hin.
  - apply strictly_increasing_cons_iff in Hs as [Hs Hlt].
    destruct (decide (c = i)) as [->|Hne].
    + rewrite filter_cons_True by done.
      rewrite filter_none; [done|].
      intros c' Hc'. specialize (Hlt c' Hc'). lia.
    + rewrite filter_cons_False by done. apply IH; [done|].
      apply elem_of_cons in Hin as [->|Hin]; done.
Qed.

Lemma scan_list_le i cols : ((scan_list i cols).2 ≤ length cols)%nat.
Proof.
  induction cols as [|c cols IH]; simpl; [lia|].
  repeat case_bool_decide; simpl; try lia.
  destruct (scan_list i cols) as [found k]. simpl in *. lia.
Qed.

(** Where the scan of a sorted row stops without its diagonal, the
    columns before are smaller and the columns behind are larger. *)
Lemma scan_list_split i l1 l2 :
  strictly_increasing (l1 ++ l2) = true →
  scan_list i (l1 ++ l2) = (false, length l1) →
  (∀ c, c ∈ l1 → c < i) ∧ (∀ c, c ∈ l2 → i < c).
Proof.
  induction l1 as [|c l1 IH]; intros Hs Hscan.
  - split; [by intros c ?%elem_of_nil|]. simpl in *.
    destruct l2 as [|c l2]; [by intros c ?%elem_of_nil|].
    simpl in Hscan. apply strictly_increasing_cons_iff in Hs as [_ Hlt].
    case_bool_decide; [done|]. case_bool_decide.
    + intros c' [->|Hc']%elem_of_cons; [lia|].
      specialize (Hlt c' Hc'). lia.
    + by destruct (scan_list i l2).
  - change ((c :: l1) ++ l2) with (c :: (l1 ++ l2)) in *.
    apply strictly_increasing_cons_iff in Hs as [Hs _].
    simpl in Hscan. case_bool_decide; [done|].
    case_bool_decide; [done|].
    destruct (scan_list i (l1 ++ l2)) as [found k] eqn:Hrec.
    injection Hscan as -> ->. destruct (IH Hs eq_refl) as [Hlow Hhigh].
    split; [|done]. intros c' [->|Hc']%elem_of_cons; [lia|by apply Hlow].
Qed.

Lemma filter_agree {X} (P Q : X → Prop) `{∀ x, Decision (P x)}
    `{∀ x, Decision (Q x)} (l : list X) :
  (∀ x, x ∈ l → P x ↔ Q x) → filter P l = filter Q l.
Proof.
  induction l as [|x l IH]; intros Hl; [done|].
  assert (filter P l = filter Q l) as Hrec.
  { apply IH. intros y Hy. apply Hl, elem_of_cons. by right. }
  assert (P x ↔ Q x) as Hx by (apply Hl, elem_of_cons; by left).
  destruct (decide (P x)) as [HP|HP].
  - rewrite !filter_cons_True by tauto. by rewrite Hrec.
  - rewrite !filter_cons_False by tauto. done.
Qed.
End SortedColumns.

Section Entries.
Context {T : Type} `{Scalar T}.
Implicit Types (cols : list Z) (vals : list T).

Lemma length_entries cols vals lo len :
  length (entries cols vals lo len) = Z.to_nat len.
Proof. unfold entries. by rewrite length_fmap, length_seqZ. Qed.

Lemma entries_app cols vals lo a b :
  0 ≤ a → 0 ≤ b →
  entries cols vals lo (a + b)
  = entries cols vals lo a ++ entries cols vals (lo + a) b.
Proof. intros. unfold entries. by rewrite seqZ_app, fmap_app by lia. Qed.

Lemma entries_snoc cols vals nc c (v : T) :
  0 ≤ nc < Z.of_nat (length cols) → nc < Z.of_nat (length vals) →
  entries (set_ cols nc c) (set_ vals nc v) 0 (nc + 1)
  = entries cols vals 0 nc ++ [(c, v)].
Proof.
  intros Hc Hv. rewrite entries_app by lia. f_equal.
  - unfold entries. apply list_fmap_ext.
    intros _ idx Hidx%list_elem_of_lookup_2%elem_of_seqZ.
    by rewrite !at_set_ne by lia.
  - unfold entries. rewrite (seqZ_cons _ 1), (seqZ_nil _ (Z.pred 1)) by lia.
    simpl. by rewrite !at_set_eq by lia.
Qed.

Lemma row_part_app base (A : aoclsparse_csr) (h : heap T) lo a b :
  0 ≤ a → 0 ≤ b →
  row_part base A h lo (a + b)
  = row_part base A h lo a ++ row_part base A h (lo + a) b.
Proof. intros. unfold row_part. by rewrite seqZ_app, fmap_app by lia. Qed.

Lemma row_part_one base (A : aoclsparse_csr) (h : heap T) idx :
  row_part base A h idx 1
  = [(load_int h (csr_col_ptr A) idx - base, load_val h (csr_val A) idx)].
Proof.
  unfold row_part. by rewrite (seqZ_cons _ 1), (seqZ_nil _ (Z.pred 1)) by lia.
Qed.

Lemma row_part_columns base (A : aoclsparse_csr) (h : heap T) lo len :
  (row_part base A h lo len).*1
  = (λ idx, load_int h (csr_col_ptr A) idx - base) <$> seqZ lo len.
Proof. unfold row_part. rewrite <- list_fmap_compose. done. Qed.

Lemma csr_row_columns base (A : aoclsparse_csr) (h : heap T) i :
  (csr_row base A h i).*1 = row_columns base A h i.
Proof. apply row_part_columns. Qed.
End Entries.

Section Written.
Context {T : Type} `{Scalar T}.
Implicit Types (h : heap T) (A : aoclsparse_csr) (R : list Z).
Variables (h0 : heap T) (icrow icol aval : ptr) (N : Z).
Hypothesis Hne : icrow ≠ icol.

Lemma written_store_col_val h R nc l c (v : T) :
  written h0 icrow icol aval N h R nc l → nc < N →
  written h0 icrow icol aval N
    (store_val (store_int h icol nc c) aval nc v) R (nc + 1) (l ++ [(c, v)]).
Proof.
  intros (Hs & HR & Hlc & Hlv & Hnc & He) Hlt. unfold written.
  rewrite !ints_at_store_val, vals_at_store_val_eq, vals_at_store_int.
  rewrite ints_at_store_int_ne by done. rewrite ints_at_store_int_eq.
  rewrite !length_set_. split_and!; try done; try lia.
  - eapply same_except_trans; [done|].
    eapply same_except_trans;
      [apply same_except_store_int|apply same_except_store_val];
      repeat constructor.
  - rewrite entries_snoc by lia. by rewrite He.
Qed.

Lemma written_store_val_col h R nc l c (v : T) :
  written h0 icrow icol aval N h R nc l → nc < N →
  written h0 icrow icol aval N
    (store_int (store_val h aval nc v) icol nc c) R (nc + 1) (l ++ [(c, v)]).
Proof.
  intros (Hs & HR & Hlc & Hlv & Hnc & He) Hlt. unfold written.
  rewrite vals_at_store_int, vals_at_store_val_eq.
  rewrite ints_at_store_int_ne by done. rewrite ints_at_store_int_eq.
  rewrite !ints_at_store_val.
  rewrite !length_set_. split_and!; try done; try lia.
  - eapply same_except_trans; [done|].
    eapply same_except_trans;
      [apply same_except_store_val|apply same_except_store_int];
      repeat constructor.
  - rewrite entries_snoc by lia. by rewrite He.
Qed.

Lemma written_store_offset h R nc l k v :
  written h0 icrow icol aval N h R nc l →
  written h0 icrow icol aval N (store_int h icrow k v) (set_ R k v) nc l.
Proof.
  intros (Hs & HR & Hlc & Hlv & Hnc & He). unfold written.
  rewrite vals_at_store_int, ints_at_store_int_eq.
  rewrite ints_at_store_int_ne by done.
  split_and!; try done.
  - eapply same_except_trans; [done|].
    apply same_except_store_int. repeat constructor.
  - by rewrite HR.
Qed.

Lemma written_load_int h R nc l p j :
  written h0 icrow icol aval N h R nc l → p ∉ [icrow; icol; aval] →
  load_int h p j = load_int h0 p j.
Proof. intros (Hs & _) Hp. by eapply same_except_load_int. Qed.

Lemma written_load_val h R nc l p j :
  written h0 icrow icol aval N h R nc l → p ∉ [icrow; icol; aval] →
  load_val h p j = load_val h0 p j.
Proof. intros (Hs & _) Hp. by eapply same_except_load_val. Qed.

Lemma written_add_diag h R nc l i na :
  written h0 icrow icol aval N h R nc l → nc < N →
  ∃ h', add_diag icol aval i (h, na, nc) = (h', na + 1, nc + 1)
        ∧ written h0 icrow icol aval N h' R (nc + 1) (l ++ [(i, szero)]).
Proof.
  intros Hw Hlt. eexists. split; [done|].
  by apply written_store_col_val.
Qed.
End Written.

Section RowBounds.
Context {T : Type} `{Scalar T}.
Variables (m n nnz : Z) (base : aoclsparse_index_base) (A : aoclsparse_csr)
  (h0 : heap T).

Local Abbreviation rp i := (load_int h0 (csr_row_ptr A) i).
Local Abbreviation above i := (flagged_below n base A h0 i).
Local Abbreviation stop i :=
  (Z.of_nat (scan_list i (row_columns base A h0 i)).2).

Hypothesis Hfirst : rp 0 = base.
Hypothesis Hlast : rp m = base + nnz.
Hypothesis Hmono : ∀ i, 0 ≤ i < m → rp i ≤ rp (i + 1).

Lemma offsets_in_range i : 0 ≤ i ≤ m → base ≤ rp i ≤ base + nnz.
Proof.
  intros Hi.
  pose proof (offsets_monotone (λ i, rp i) m Hmono 0 i ltac:(lia) ltac:(lia)).
  pose proof (offsets_monotone (λ i, rp i) m Hmono i m ltac:(lia) ltac:(lia)).
  simpl in *. lia.
Qed.

Lemma flagged_below_mono a b : 0 ≤ a ≤ b → above a ≤ above b.
Proof.
  intros Hab. unfold flagged_below.
  replace b with (a + (b - a)) at 1 by lia.
  rewrite seqZ_app by lia. rewrite filter_app, length_app. lia.
Qed.

Lemma flagged_counted i :
  0 ≤ i < m → flagged n base A h0 i = true → above i + 1 ≤ above m.
Proof.
  intros Hi Hf.
  pose proof (flagged_below_succ n base A h0 i ltac:(lia)) as Hs.
  rewrite Hf in Hs.
  pose proof (flagged_below_mono (i + 1) m ltac:(lia)). lia.
Qed.

Lemma stop_in_row i : 0 ≤ i < m → 0 ≤ stop i ≤ rp (i + 1) - rp i.
Proof.
  intros Hi. pose proof (scan_list_le i (row_columns base A h0 i)) as Hle.
  unfold row_columns in Hle at 2.
  rewrite length_fmap, length_seqZ in Hle.
  specialize (Hmono i Hi). lia.
Qed.
End RowBounds.

Section SecondPass.
Context {T : Type} `{Scalar T}.
Variables (m n nnz : Z) (base : aoclsparse_index_base) (A : aoclsparse_csr)
  (h0 : heap T) (icrow icol aval : ptr) (md : list Z).

Local Abbreviation rp i := (load_int h0 (csr_row_ptr A) i).
Local Abbreviation above i := (flagged_below n base A h0 i).
Local Abbreviation N := (nnz + flagged_below n base A h0 m).
Local Abbreviation stop i :=
  (Z.of_nat (scan_list i (row_columns base A h0 i)).2).

Hypothesis Hm : 0 ≤ m.
Hypothesis Hne : icrow ≠ icol.
Hypothesis Hrow : csr_row_ptr A ∉ [icrow; icol; aval].
Hypothesis Hcol : csr_col_ptr A ∉ [icrow; icol; aval].
Hypothesis Hval : csr_val A ∉ [icrow; icol; aval].
Hypothesis Hfirst : rp 0 = base.
Hypothesis Hlast : rp m = base + nnz.
Hypothesis Hmono : ∀ i, 0 ≤ i < m → rp i ≤ rp (i + 1).
Hypothesis Hoffsets : Z.of_nat (length (ints_at h0 icrow)) = m + 1.
Hypothesis Hcolumns : Z.of_nat (length (ints_at h0 icol)) = N.
Hypothesis Hvalues : Z.of_nat (length (vals_at h0 aval)) = N.
Hypothesis Hmd : ∀ i, 0 ≤ i < m →
  at_ 0 md i
  = if flagged n base A h0 i then diag_slot n base A h0 i else -1.

Lemma copy_entry_progress i done R idx s :
  0 ≤ i < m → rp i - base ≤ idx < rp (i + 1) - base →
  row_progress n base A h0 icrow icol aval N i done R idx s →
  row_progress n base A h0 icrow icol aval N i done R (idx + 1)
    (copy_entry base A md icol aval i idx s).
Proof.
  intros Hi Hidx. destruct s as [[h na] nc]. intros (l & Hw & Hnc & Hcase).
  pose proof (offsets_in_range m nnz base A h0 Hfirst Hlast Hmono i ltac:(lia)) as Hlo.
  pose proof (offsets_in_range m nnz base A h0 Hfirst Hlast Hmono (i + 1) ltac:(lia)) as Hhi.
  pose proof (stop_in_row m base A h0 Hmono i Hi) as Hstop.
  pose proof (flagged_below_nonneg n base A h0 i) as Hab.
  pose proof (flagged_below_mono n base A h0 i m ltac:(lia)) as Habm.
  pose proof (Hmd i Hi) as Hslot. unfold diag_slot in Hslot.
  unfold copy_entry.
  assert (∀ h' na' l',
            written h0 icrow icol aval N h' R (idx + na') (done ++ l') →
            idx + na' < N →
            written h0 icrow icol aval N
              (store_int
                 (store_val h' aval (idx + na') (load_val h' (csr_val A) idx))
                 icol (idx + na')
                 (load_int
                    (store_val h' aval (idx + na')
                       (load_val h' (csr_val A) idx))
                    (csr_col_ptr A) idx - base))
              R (idx + na' + 1)
              (done ++ l' ++ row_part base A h0 idx 1)) as Hcopy.
  { intros h' na' l' Hw' Hlt. rewrite load_int_store_val.
    rewrite (written_load_int _ _ _ _ _ _ _ _ _ _ _ Hw' Hcol).
    rewrite (written_load_val _ _ _ _ _ _ _ _ _ _ _ Hw' Hval).
    rewrite row_part_one, app_assoc.
    by apply written_store_val_col. }
  destruct Hcase as [(-> & -> & Hbefore)|(Hf & -> & Hpast & ->)].
  - destruct (flagged n base A h0 i) eqn:Hf.
    + pose proof (flagged_counted m n base A h0 i Hi Hf) as Hcount.
      specialize (Hbefore eq_refl).
      destruct (decide (idx = rp i - base + stop i)) as [Heq|Hneq].
      * rewrite bool_decide_true by lia. subst nc.
        destruct (written_add_diag h0 icrow icol aval N Hne h R _ _ i
                    (above i) Hw ltac:(lia)) as (h' & -> & Hw').
        replace (idx + above i + 1) with (idx + (above i + 1)) in * by lia.
        rewrite <- app_assoc in Hw'.
        specialize (Hcopy h' (above i + 1) _ Hw' ltac:(lia)).
        eexists. split; [exact Hcopy|]. split; [lia|]. right.
        split; [done|]. split; [done|]. split; [lia|].
        rewrite <- app_assoc. simpl.
        replace (idx - (rp i - base)) with (stop i) by lia.
        replace (idx + 1 - (rp i - base) - stop i) with 1 by lia.
        by replace (rp i - base + stop i) with idx by lia.
      * rewrite bool_decide_false by lia. subst nc.
        specialize (Hcopy h (above i) _ Hw ltac:(lia)).
        eexists. split; [exact Hcopy|]. split; [lia|]. left.
        split; [done|]. split; [|lia].
        replace (idx + 1 - (rp i - base)) with (idx - (rp i - base) + 1)
          by lia.
        rewrite row_part_app by lia.
        by replace (rp i - base + (idx - (rp i - base))) with idx by lia.
    + rewrite bool_decide_false by lia. subst nc.
      specialize (Hcopy h (above i) _ Hw ltac:(lia)).
      eexists. split; [exact Hcopy|]. split; [lia|]. left.
      split; [done|]. split; [|by rewrite Hf].
      replace (idx + 1 - (rp i - base)) with (idx - (rp i - base) + 1)
        by lia.
      rewrite row_part_app by lia.
      by replace (rp i - base + (idx - (rp i - base))) with idx by lia.
  - rewrite Hf in Hslot. pose proof (flagged_counted m n base A h0 i Hi Hf) as Hcount.
    rewrite bool_decide_false by lia. subst nc.
    specialize (Hcopy h (above i + 1) _ Hw ltac:(lia)).
    eexists. split; [exact Hcopy|]. split; [lia|]. right.
    split; [done|]. split; [done|]. split; [lia|].
    rewrite <- app_assoc. simpl. do 2 f_equal.
    replace (idx + 1 - (rp i - base) - stop i)
      with (idx - (rp i - base) - stop i + 1) by lia.
    rewrite row_part_app by lia. f_equal. f_equal. lia.
Qed.
Lemma seqZ_snoc i : 0 ≤ i → seqZ 0 (i + 1) = seqZ 0 i ++ [i].
Proof.
  intros. rewrite seqZ_app by lia.
  by rewrite (seqZ_cons _ 1), (seqZ_nil _ (Z.pred 1)) by lia.
Qed.

Lemma fill_row_progress i s :
  0 ≤ i < m →
  rows_filled m n base A h0 icrow icol aval N i s →
  rows_filled m n base A h0 icrow icol aval N (i + 1)
    (fill_row base A md icrow icol aval i s).
Proof.
  intros Hi. destruct s as [[h na] nc].
  intros (R & Hw & -> & -> & HlenR & HR).
  pose proof (offsets_in_range m nnz base A h0 Hfirst Hlast Hmono i ltac:(lia)) as Hlo.
  pose proof (offsets_in_range m nnz base A h0 Hfirst Hlast Hmono (i + 1) ltac:(lia)) as Hhi.
  pose proof (stop_in_row m base A h0 Hmono i Hi) as Hstop.
  pose proof (flagged_below_nonneg n base A h0 i) as Hab.
  pose proof (flagged_below_mono n base A h0 i m ltac:(lia)) as Habm.
  pose proof (flagged_below_succ n base A h0 i ltac:(lia)) as Hsucc.
  pose proof (Hmono i Hi) as Hstep.
  pose proof (Hmd i Hi) as Hslot. unfold diag_slot in Hslot.
  unfold fill_row. cbv zeta.
  rewrite !(written_load_int _ _ _ _ _ _ _ _ _ _ _ Hw Hrow).
  pose proof (written_store_offset h0 icrow icol aval N Hne h R _ _ i
                (rp i - base + above i) Hw) as Hw1.
  set (h1 := store_int h icrow i (rp i - base + above i)) in *.
  set (R1 := set_ R i (rp i - base + above i)) in *.
  rewrite !(written_load_int _ _ _ _ _ _ _ _ _ _ _ Hw1 Hrow).
  set (done := concat (filled_row n base A h0 <$> seqZ 0 i)) in *.
  assert (row_progress n base A h0 icrow icol aval N i done R1
            (rp (i + 1) - base)
            (for_range (rp i - base) (rp (i + 1) - base)
               (copy_entry base A md icol aval i)
               (h1, above i, rp i - base + above i))) as Hrow_done.
  { apply (for_range_ind
             (row_progress n base A h0 icrow icol aval N i done R1));
      [lia| |].
    - exists []. rewrite app_nil_r. split; [done|]. split; [done|]. left.
      split; [done|]. split; [|lia].
      rewrite Z.sub_diag. unfold row_part. by rewrite seqZ_nil.
    - intros idx s Hidx. by apply copy_entry_progress. }
  destruct (for_range _ _ _ _) as [[h2 na2] nc2].
  destruct Hrow_done as (l & Hw2 & -> & Hcase).
  assert (Z.of_nat (length R1) = m + 1) as HlenR1.
  { unfold R1. by rewrite length_set_. }
  assert (∀ k, 0 ≤ k < i + 1 → at_ 0 R1 k = rp k - base + above k) as HR1.
  { intros k Hk. unfold R1. destruct (decide (k = i)) as [->|Hki].
    - by rewrite at_set_eq by lia.
    - rewrite at_set_ne by done. apply HR. lia. }
  assert (concat (filled_row n base A h0 <$> seqZ 0 (i + 1))
          = done ++ filled_row n base A h0 i) as Hconcat.
  { rewrite seqZ_snoc, fmap_app, concat_app by lia. simpl.
    by rewrite app_nil_r. }
  destruct Hcase as [(-> & -> & Hbefore)|(Hf & -> & Hpast & ->)].
  - destruct (flagged n base A h0 i) eqn:Hf.
    + pose proof (flagged_counted m n base A h0 i Hi Hf) as Hcount.
      specialize (Hbefore eq_refl).
      rewrite bool_decide_true by lia.
      destruct (written_add_diag h0 icrow icol aval N Hne h2 R1 _ _ i
                  (above i) Hw2 ltac:(lia)) as (h' & -> & Hw').
      exists R1. rewrite Hconcat. unfold filled_row. rewrite Hf. split.
      { rewrite <- app_assoc in Hw'.
        replace (rp (i + 1) - base - (rp i - base)) with (stop i) in Hw'
          by lia.
        replace (rp (i + 1) - rp i - stop i) with 0 by lia.
        unfold row_part at 2. by rewrite seqZ_nil by lia. }
      split; [lia|]. split; [lia|]. done.
    + rewrite bool_decide_false by lia.
      exists R1. rewrite Hconcat. unfold filled_row. rewrite Hf. split.
      { by replace (rp (i + 1) - base - (rp i - base))
          with (rp (i + 1) - rp i) in Hw2 by lia. }
      split; [lia|]. split; [lia|]. done.
  - rewrite Hf in *. pose proof (flagged_counted m n base A h0 i Hi Hf) as Hcount.
    rewrite bool_decide_false by lia.
    exists R1. rewrite Hconcat. unfold filled_row. rewrite Hf. split.
    { by replace (rp (i + 1) - base - (rp i - base) - stop i)
        with (rp (i + 1) - rp i - stop i) in Hw2 by lia. }
    split; [lia|]. split; [lia|]. done.
Qed.

Lemma rows_filled_upto i :
  0 ≤ i ≤ m →
  rows_filled m n base A h0 icrow icol aval N i
    (for_range 0 i (fill_row base A md icrow icol aval) (h0, 0, 0)).
Proof.
  intros Hi.
  apply (for_range_ind (rows_filled m n base A h0 icrow icol aval N));
    [lia| |].
  - exists (ints_at h0 icrow). rewrite flagged_below_0.
    split; [|split; [done|split; [lia|split; [done|intros; lia]]]].
    split; [apply same_except_refl|]. split_and!; try done.
  - intros j s Hj. apply fill_row_progress. lia.
Qed.

(** The entries written for the rows above [i] fill the new buffers up
    to the new offset of row [i]. *)
Lemma filled_rows_length i :
  0 ≤ i ≤ m →
  Z.of_nat (length (concat (filled_row n base A h0 <$> seqZ 0 i)))
  = rp i - base + above i.
Proof.
  intros Hi. pose proof (rows_filled_upto i Hi) as Hinv.
  destruct (for_range _ _ _ _) as [[h na] nc].
  destruct Hinv as (R & (_ & _ & _ & _ & Hnc & He) & _ & -> & _).
  rewrite <- He, length_entries. lia.
Qed.

(** The part of the new buffers between the new offsets of row [i] and of
    row [i + 1] is the filled row. *)
Lemma filled_row_extract (cols : list Z) (vals : list T) i :
  entries cols vals 0 (rp m - base + above m)
  = concat (filled_row n base A h0 <$> seqZ 0 m) →
  0 ≤ i < m →
  entries cols vals (rp i - base + above i)
    (rp (i + 1) - base + above (i + 1) - (rp i - base + above i))
  = filled_row n base A h0 i.
Proof.
  intros He Hi.
  pose proof (filled_rows_length i ltac:(lia)) as Hli.
  pose proof (filled_rows_length (i + 1) ltac:(lia)) as Hli1.
  pose proof (flagged_below_nonneg n base A h0 i) as Hab.
  pose proof (offsets_in_range m nnz base A h0 Hfirst Hlast Hmono i ltac:(lia)) as Hlo.
  pose proof (flagged_below_mono n base A h0 (i + 1) m ltac:(lia)) as Habm.
  pose proof (flagged_below_succ n base A h0 i ltac:(lia)) as Hsucc.
  pose proof (offsets_in_range m nnz base A h0 Hfirst Hlast Hmono (i + 1) ltac:(lia)) as Hhi.
  pose proof (Hmono i Hi) as Hstep.
  assert (0 ≤ above (i + 1) - above i) as Hgrow
    by (destruct (flagged n base A h0 i); lia).
  assert (seqZ 0 m = seqZ 0 (i + 1) ++ seqZ (0 + (i + 1)) (m - (i + 1)))
    as Hrows.
  { rewrite <- seqZ_app by lia. f_equal. lia. }
  rewrite Hrows, fmap_app, concat_app in He.
  replace (rp m - base + above m)
    with ((rp (i + 1) - base + above (i + 1))
          + (rp m - base + above m - (rp (i + 1) - base + above (i + 1))))
    in He by lia.
  rewrite entries_app in He by lia.
  apply app_inj_1 in He as [He _]; [|rewrite length_entries; lia].
  rewrite seqZ_snoc, fmap_app, concat_app in He, Hli1 by lia.
  simpl in He, Hli1. rewrite app_nil_r in He, Hli1.
  rewrite length_app in Hli1.
  replace (rp (i + 1) - base + above (i + 1))
    with ((rp i - base + above i)
          + (rp (i + 1) - base + above (i + 1) - (rp i - base + above i)))
    in He at 1 by lia.
  rewrite entries_app in He by lia.
  apply app_inj_1 in He as [_ He]; [|rewrite length_entries; lia].
  done.
Qed.

(** The second pass. *)
Lemma fill_rows_spec :
  rows_filled m n base A h0 icrow icol aval N m
    (fill_rows m base A md icrow icol aval h0).
Proof. apply rows_filled_upto. lia. Qed.
End SecondPass.

(** * aoclsparse_csr_fill_diag *)

Section Requests.
Context {T : Type} `{Scalar T}.
Implicit Types (h : heap T) (p q : ptr).

Lemma request_memory_inv n h b h' :
  0 ≤ n → request_memory n h = (b, h') →
  blocks h' = blocks h ∧ oracle h' = tail (oracle h) ∧ grants 1 h = b.
Proof.
  intros Hn. unfold request_memory, grants.
  rewrite bool_decide_false by lia.
  destruct h as [bs [|served o]]; simpl; intros [= <- <-]; simpl.
  - done.
  - by rewrite andb_true_r.
Qed.

Lemma new_ints_inv n h r h' :
  0 ≤ n → new_ints n h = (r, h') →
  oracle h' = tail (oracle h)
  ∧ match r with
    | None => grants 1 h = false ∧ blocks h' = blocks h
    | Some l =>
        grants 1 h = true ∧ blocks h !! l = None
        ∧ blocks h' = <[l := IntBlock (replicate (Z.to_nat n) 0)]> (blocks h)
    end.
Proof.
  intros Hn. unfold new_ints.
  destruct (request_memory n h) as [b h1] eqn:Hreq.
  destruct (request_memory_inv n h b h1 Hn Hreq) as (Hb & Ho & Hg).
  destruct b; simpl; intros [= <- <-]; simpl.
  - rewrite Hb. split; [done|]. split; [done|]. split; [|done].
    rewrite <- Hb. apply fresh_not_live.
  - done.
Qed.

Lemma new_vals_inv n h r h' :
  0 ≤ n → new_vals n h = (r, h') →
  oracle h' = tail (oracle h)
  ∧ match r with
    | None => grants 1 h = false ∧ blocks h' = blocks h
    | Some l =>
        grants 1 h = true ∧ blocks h !! l = None
        ∧ blocks h' = <[l := ValBlock (replicate (Z.to_nat n) szero)]> (blocks h)
    end.
Proof.
  intros Hn. unfold new_vals.
  destruct (request_memory n h) as [b h1] eqn:Hreq.
  destruct (request_memory_inv n h b h1 Hn Hreq) as (Hb & Ho & Hg).
  destruct b; simpl; intros [= <- <-]; simpl.
  - rewrite Hb. split; [done|]. split; [done|]. split; [|done].
    rewrite <- Hb. apply fresh_not_live.
  - done.
Qed.

Lemma grants_next k h h' :
  oracle h' = tail (oracle h) →
  grants (S k) h = grants 1 h && grants k h'.
Proof.
  intros Ho. rewrite grants_S. f_equal. unfold grants. simpl. by rewrite Ho.
Qed.

Lemma ints_at_delete_ptr p q h :
  p ≠ q → ints_at (delete_ptr p h) q = ints_at h q.
Proof.
  intros Hne. destruct p as [l|]; [|done]. destruct q as [l'|]; [|done].
  unfold ints_at. simpl. rewrite lookup_delete_ne; [done|congruence].
Qed.

Lemma vals_at_delete_ptr p q h :
  p ≠ q → vals_at (delete_ptr p h) q = vals_at h q.
Proof.
  intros Hne. destruct p as [l|]; [|done]. destruct q as [l'|]; [|done].
  unfold vals_at. simpl. rewrite lookup_delete_ne; [done|congruence].
Qed.

Lemma ints_at_blocks h h' p : blocks h' = blocks h → ints_at h' p = ints_at h p.
Proof. intros Hb. unfold ints_at. by rewrite Hb. Qed.

Lemma vals_at_blocks h h' p : blocks h' = blocks h → vals_at h' p = vals_at h p.
Proof. intros Hb. unfold vals_at. by rewrite Hb. Qed.
End Requests.

Section SameMatrix.
Context {T : Type} `{Scalar T}.
Implicit Types (h : heap T) (A : aoclsparse_csr).

Lemma same_matrix_blocks A h h' : blocks h' = blocks h → same_matrix A h h'.
Proof.
  intros Hb. unfold same_matrix.
  by rewrite !(ints_at_blocks h h'), (vals_at_blocks h h').
Qed.

Lemma same_matrix_trans A h1 h2 h3 :
  same_matrix A h1 h2 → same_matrix A h2 h3 → same_matrix A h1 h3.
Proof.
  intros (Hr & Hc & Hv) (Hr' & Hc' & Hv'). unfold same_matrix.
  by rewrite Hr', Hc', Hv'.
Qed.

Lemma same_matrix_insert A h h' l b :
  live h (csr_row_ptr A) → live h (csr_col_ptr A) → live h (csr_val A) →
  blocks h !! l = None → blocks h' = <[l := b]> (blocks h) →
  same_matrix A h h'.
Proof.
  intros (lr & Hr & [br Hbr]) (lc & Hc & [bc Hbc]) (lv & Hv & [bv Hbv])
    Hl Hb.
  unfold same_matrix, ints_at, vals_at. rewrite Hr, Hc, Hv, Hb.
  rewrite !lookup_insert_ne by congruence. done.
Qed.

Lemma live_blocks h h' l (b : block T) p :
  blocks h' = <[l := b]> (blocks h) → live h p → live h' p.
Proof.
  intros Hb (l' & -> & Hl). exists l'. split; [done|]. rewrite Hb.
  rewrite lookup_insert. by case_decide.
Qed.

Section Transport.
Variables (A : aoclsparse_csr) (h h' : heap T).
Hypothesis Hsame : same_matrix A h h'.

Lemma same_matrix_row_ptr i :
  load_int h' (csr_row_ptr A) i = load_int h (csr_row_ptr A) i.
Proof. destruct Hsame as (Hr & _). unfold load_int. by rewrite Hr. Qed.

Lemma same_matrix_row_part base lo len :
  row_part base A h' lo len = row_part base A h lo len.
Proof.
  destruct Hsame as (_ & Hc & Hv). unfold row_part, load_int, load_val.
  by rewrite Hc, Hv.
Qed.

Lemma same_matrix_csr_row base i :
  csr_row base A h' i = csr_row base A h i.
Proof.
  unfold csr_row. rewrite !same_matrix_row_ptr.
  apply same_matrix_row_part.
Qed.

Lemma same_matrix_row_columns base i :
  row_columns base A h' i = row_columns base A h i.
Proof. by rewrite <- !csr_row_columns, same_matrix_csr_row. Qed.

Lemma same_matrix_flagged n base i :
  flagged n base A h' i = flagged n base A h i.
Proof. unfold flagged. by rewrite same_matrix_row_columns. Qed.

Lemma same_matrix_flagged_below n base j :
  flagged_below n base A h' j = flagged_below n base A h j.
Proof.
  unfold flagged_below. do 2 f_equal. apply filter_agree.
  intros i _. by rewrite same_matrix_flagged.
Qed.

Lemma same_matrix_diag_slot n base i :
  diag_slot n base A h' i = diag_slot n base A h i.
Proof.
  unfold diag_slot.
  by rewrite same_matrix_row_ptr, same_matrix_row_columns,
    same_matrix_flagged_below.
Qed.

Lemma same_matrix_filled_row n base i :
  filled_row n base A h' i = filled_row n base A h i.
Proof.
  unfold filled_row.
  by rewrite !same_matrix_row_ptr, same_matrix_row_columns,
    same_matrix_flagged, !same_matrix_row_part, same_matrix_csr_row.
Qed.
End Transport.
End SameMatrix.

Section FillDiag.
Context {T : Type} `{Scalar T}.
Implicit Types (h : heap T) (A : aoclsparse_csr).

Lemma live_same_blocks h h' p : blocks h' = blocks h → live h p → live h' p.
Proof. intros Hb (l & -> & Hl). exists l. by rewrite Hb. Qed.

Lemma live_fresh h p l : live h p → blocks h !! l = None → p ≠ Some l.
Proof. intros (l' & -> & [b Hl']) Hl [= ->]. congruence. Qed.

(** What a call returns: a memory error when one of its four requests
    is refused; the matrix as it is when no row is flagged; else new
    buffers with the new row offsets and, between them, the filled
    rows. *)
Lemma fill_diag_cases m n nnz base A h :
  valid_csr m nnz base A h →
  ∃ st A' h',
    aoclsparse_csr_fill_diag m n nnz base A h = Returns (st, A', h')
    ∧ ((st = aoclsparse_status_memory_error ∧ grants 4 h = false)
       ∨ (st = aoclsparse_status_success
          ∧ flagged_below n base A h m = 0 ∧ A' = A
          ∧ blocks h' = blocks h)
       ∨ (st = aoclsparse_status_success
          ∧ 0 < flagged_below n base A h m
          ∧ (∀ k, 0 ≤ k ≤ m →
               load_int h' (csr_row_ptr A') k
               = load_int h (csr_row_ptr A) k - base
                 + flagged_below n base A h k)
          ∧ (∀ i, 0 ≤ i < m →
               entries (ints_at h' (csr_col_ptr A')) (vals_at h' (csr_val A'))
                 (load_int h (csr_row_ptr A) i - base
                  + flagged_below n base A h i)
                 (load_int h (csr_row_ptr A) (i + 1) - base
                  + flagged_below n base A h (i + 1)
                  - (load_int h (csr_row_ptr A) i - base
                     + flagged_below n base A h i))
               = filled_row n base A h i))).
Proof.
  intros (Hm & Hlr & Hlc & Hlv & Hlenr & Hlenc & Hlenv & Hfirst & Hlast
          & Hmono).
  pose proof (offsets_in_range m nnz base A h Hfirst Hlast Hmono 0
                ltac:(lia)) as Hnnz.
  pose proof (flagged_below_nonneg n base A h m) as Hcount0.
  unfold aoclsparse_csr_fill_diag, vector_storage.
  rewrite bool_decide_false by lia.
  destruct (decide (m = 0)) as [->|Hrows].
  { (* no row: the vector is empty and nothing is flagged *)
    rewrite bool_decide_true by done.
    rewrite (live_not_null h _ Hlr), (live_not_null h _ Hlc),
      (live_not_null h _ Hlv). cbn [orb].
    destruct (find_missing_diag_spec 0 n base A h Hm) as (md & -> & _).
    rewrite flagged_below_0. rewrite bool_decide_true by lia.
    eexists _, _, _. split; [done|]. right. left. done. }
  rewrite (bool_decide_false (m = 0)) by done.
  destruct (request_memory m h) as [b h1] eqn:Hreq.
  destruct (request_memory_inv m h b h1 Hm Hreq) as (Hb1 & Ho1 & Hg1).
  destruct b.
  2: { eexists _, _, _. split; [done|]. left. split; [done|].
       by rewrite (grants_next 3 h h1 Ho1), Hg1. }
  pose proof (same_matrix_blocks A h h1 Hb1) as Hs1.
  rewrite (live_not_null h _ Hlr), (live_not_null h _ Hlc),
    (live_not_null h _ Hlv). simpl.
  destruct (find_missing_diag_spec m n base A h1 Hm)
    as (md & -> & Hlenmd & Hmd).
  rewrite (same_matrix_flagged_below A h h1 Hs1).
  case_bool_decide as Hcount.
  { eexists _, _, _. split; [done|]. right. left.
    split; [done|]. split; [lia|]. done. }
  (* the three buffers *)
  destruct (new_ints (m + 1) h1) as [r1 h2] eqn:Hn1.
  destruct (new_ints_inv (m + 1) h1 r1 h2 ltac:(lia) Hn1) as (Ho2 & Hr1).
  destruct r1 as [icrow|].
  2: { destruct Hr1 as [Hg2 _]. eexists _, _, _. split; [done|]. left.
       split; [done|].
       rewrite (grants_next 3 h h1 Ho1), (grants_next 2 h1 h2 Ho2), Hg2.
       by rewrite andb_false_r. }
  destruct Hr1 as (Hg2 & Hf1 & Hb2).
  destruct (new_ints (nnz + flagged_below n base A h m) h2) as [r2 h3]
    eqn:Hn2.
  destruct (new_ints_inv (nnz + flagged_below n base A h m) h2 r2 h3
              ltac:(lia) Hn2) as (Ho3 & Hr2).
  destruct r2 as [icol|].
  2: { destruct Hr2 as [Hg3 _]. eexists _, _, _. split; [done|]. left.
       split; [done|].
       rewrite (grants_next 3 h h1 Ho1), (grants_next 2 h1 h2 Ho2),
         (grants_next 1 h2 h3 Ho3), Hg3.
       by rewrite !andb_false_r. }
  destruct Hr2 as (Hg3 & Hf2 & Hb3).
  destruct (new_vals (nnz + flagged_below n base A h m) h3) as [r3 h4]
    eqn:Hn3.
  destruct (new_vals_inv (nnz + flagged_below n base A h m) h3 r3 h4
              ltac:(lia) Hn3) as (Ho4 & Hr3).
  destruct r3 as [aval|].
  2: { destruct Hr3 as [Hg4 _]. eexists _, _, _. split; [done|]. left.
       split; [done|].
       rewrite (grants_next 3 h h1 Ho1), (grants_next 2 h1 h2 Ho2),
         (grants_next 1 h2 h3 Ho3).
       assert (grants 1 h3 = grants 1 h3 && grants 0 h4) as ->
         by (by rewrite andb_true_r).
       rewrite Hg4. by rewrite !andb_false_r. }
  destruct Hr3 as (Hg4 & Hf3 & Hb4).
  (* the buffers of the matrix are apart from the new ones *)
  assert (∀ p, live h p → live h1 p ∧ live h2 p ∧ live h3 p) as Hlive.
  { intros p Hp. pose proof (live_same_blocks h h1 p Hb1 Hp) as Hp1.
    pose proof (live_blocks h1 h2 _ _ p Hb2 Hp1) as Hp2.
    pose proof (live_blocks h2 h3 _ _ p Hb3 Hp2) as Hp3. done. }
  assert (∀ p, live h p → p ∉ [Some icrow; Some icol; Some aval]) as Hapart.
  { intros p Hp. destruct (Hlive p Hp) as (Hp1 & Hp2 & Hp3).
    pose proof (live_fresh h1 p icrow Hp1 Hf1).
    pose proof (live_fresh h2 p icol Hp2 Hf2).
    pose proof (live_fresh h3 p aval Hp3 Hf3).
    intros Hin. repeat (apply elem_of_cons in Hin as [?|Hin]; [done|]).
    by apply elem_of_nil in Hin. }
  assert (icrow ≠ icol) as Hne12.
  { intros <-. rewrite Hb2, lookup_insert_eq in Hf2. done. }
  assert (icol ≠ aval) as Hne23.
  { intros <-. rewrite Hb3, lookup_insert_eq in Hf3. done. }
  assert (icrow ≠ aval) as Hne13.
  { intros <-. rewrite Hb3, Hb2 in Hf3.
    rewrite lookup_insert_ne, lookup_insert_eq in Hf3 by done. done. }
  assert (same_matrix A h h4) as Hs4.
  { destruct (Hlive _ Hlr) as (Hr1 & Hr2 & Hr3).
    destruct (Hlive _ Hlc) as (Hc1 & Hc2 & Hc3).
    destruct (Hlive _ Hlv) as (Hv1 & Hv2 & Hv3).
    eapply same_matrix_trans; [exact Hs1|].
    eapply same_matrix_trans; [by eapply same_matrix_insert|].
    eapply same_matrix_trans; by eapply same_matrix_insert. }
  pose proof (same_matrix_trans A h1 h h4) as Hs14.
  assert (same_matrix A h1 h4) as Hs1_4.
  { destruct (Hlive _ Hlr) as (Hr1 & Hr2 & Hr3).
    destruct (Hlive _ Hlc) as (Hc1 & Hc2 & Hc3).
    destruct (Hlive _ Hlv) as (Hv1 & Hv2 & Hv3).
    eapply same_matrix_trans; [by eapply same_matrix_insert|].
    eapply same_matrix_trans; by eapply same_matrix_insert. }
  clear Hs14.
  (* the sizes of the new buffers *)
  assert (ints_at h4 (Some icrow) = replicate (Z.to_nat (m + 1)) 0) as Hi1.
  { unfold ints_at. rewrite Hb4, Hb3, Hb2.
    rewrite !lookup_insert_ne by done. by rewrite lookup_insert_eq. }
  assert (ints_at h4 (Some icol)
          = replicate (Z.to_nat (nnz + flagged_below n base A h m)) 0)
    as Hi2.
  { unfold ints_at. rewrite Hb4, Hb3.
    rewrite !lookup_insert_ne by done. by rewrite lookup_insert_eq. }
  assert (vals_at h4 (Some aval)
          = replicate (Z.to_nat (nnz + flagged_below n base A h m)) szero)
    as Hi3.
  { unfold vals_at. rewrite Hb4. by rewrite lookup_insert_eq. }
  (* the second pass *)
  assert (∀ i, load_int h4 (csr_row_ptr A) i = load_int h (csr_row_ptr A) i)
    as Hrp by apply (same_matrix_row_ptr A h h4 Hs4).
  assert (∀ j, flagged_below n base A h4 j = flagged_below n base A h j)
    as Hfb by (intros; apply (same_matrix_flagged_below A h h4 Hs4)).
  assert (∀ i, 0 ≤ i < m →
            load_int h4 (csr_row_ptr A) i ≤ load_int h4 (csr_row_ptr A) (i + 1))
    as Hmono4.
  { intros i Hi. rewrite !Hrp. by apply Hmono. }
  assert (∀ i, 0 ≤ i < m →
            at_ 0 md i
            = if flagged n base A h4 i then diag_slot n base A h4 i else -1)
    as Hmd4.
  { intros i Hi. rewrite (same_matrix_flagged A h1 h4 Hs1_4),
      (same_matrix_diag_slot A h1 h4 Hs1_4). by apply Hmd. }
  pose proof (fill_rows_spec m n nnz base A h4 (Some icrow) (Some icol)
                (Some aval) md) as Hspec.
  pose proof (filled_row_extract m n nnz base A h4 (Some icrow) (Some icol)
                (Some aval) md) as Hextract.
  rewrite !Hrp, !Hfb in Hspec, Hextract.
  assert (Some icrow ≠ Some icol) as Hne by congruence.
  specialize (Hspec Hm Hne (Hapart _ Hlr) (Hapart _ Hlc) (Hapart _ Hlv)
                Hfirst Hlast Hmono4).
  specialize (Hextract Hne (Hapart _ Hlr) (Hapart _ Hlc) (Hapart _ Hlv)
                Hfirst Hlast Hmono4).
  rewrite Hi1, Hi2, Hi3, !length_replicate in Hspec, Hextract.
  specialize (Hspec ltac:(lia) ltac:(lia) ltac:(lia) Hmd4).
  specialize (Hextract ltac:(lia) ltac:(lia) ltac:(lia) Hmd4).
  destruct (fill_rows m base A md (Some icrow) (Some icol) (Some aval) h4)
    as [[h5 na] nc].
  destruct Hspec as (R & (Hs5 & HR & Hlc5 & Hlv5 & Hnc & He) & -> & ->
                     & HlenR & HR5).
  eexists _, _, _. split; [done|]. right. right.
  split; [done|]. split; [lia|]. simpl.
  set (h6 := store_int h5 (Some icrow) m _).
  assert (∀ p q, live h p → q ∈ [Some icrow; Some icol; Some aval] → p ≠ q)
    as Hdiff.
  { intros p q Hp Hq ->. by apply (Hapart _ Hp). }
  split.
  - intros k Hk. unfold load_int at 1.
    rewrite !ints_at_delete_ptr by (apply Hdiff; [done|repeat constructor]).
    unfold h6. rewrite ints_at_store_int_eq, HR.
    destruct (decide (k = m)) as [->|Hkm].
    + rewrite at_set_eq by lia. lia.
    + rewrite at_set_ne by done. rewrite HR5 by lia. by rewrite Hrp, Hfb.
  - intros i Hi.
    rewrite !ints_at_delete_ptr, !vals_at_delete_ptr
      by (apply Hdiff; [done|repeat constructor]).
    unfold h6. rewrite ints_at_store_int_ne, vals_at_store_int by done.
    rewrite <- (same_matrix_filled_row A h h4 Hs4).
    rewrite <- !Hrp, <- !Hfb.
    apply Hextract; [|done].
    by rewrite Hrp, Hfb in He.
Qed.
End FillDiag.

Section FillDiagTheorem.
Context {T : Type} `{Scalar T}.
Implicit Types (h : heap T) (A : aoclsparse_csr).

Lemma csr_row_entries A h i :
  csr_row 0 A h i
  = entries (ints_at h (csr_col_ptr A)) (vals_at h (csr_val A))
      (load_int h (csr_row_ptr A) i)
      (load_int h (csr_row_ptr A) (i + 1) - load_int h (csr_row_ptr A) i).
Proof.
  unfold csr_row, entries. rewrite Z.sub_0_r. apply list_fmap_ext.
  intros _ idx _. unfold load_int, load_val. by rewrite Z.sub_0_r.
Qed.

Lemma flagged_below_lacking m n base A h :
  rows_sorted m base A h →
  flagged_below n base A h m
  = Z.of_nat (length (rows_lacking_diag m n base A h)).
Proof.
  intros Hsorted. unfold flagged_below, rows_lacking_diag. do 2 f_equal.
  apply filter_agree. intros i Hi%elem_of_seqZ.
  rewrite flagged_sorted by (apply Hsorted; lia).
  apply bool_decide_eq_true.
Qed.

Lemma flagged_none m n base A h i :
  flagged_below n base A h m = 0 → 0 ≤ i < m → flagged n base A h i = false.
Proof.
  intros Hnone Hi. destruct (flagged n base A h i) eqn:Hf; [|done].
  assert (i ∈ filter (λ i, flagged n base A h i = true) (seqZ 0 m)) as Hin.
  { apply list_elem_of_filter. split; [done|]. apply elem_of_seqZ. lia. }
  unfold flagged_below in Hnone.
  destruct (filter _ (seqZ 0 m)); [by apply elem_of_nil in Hin|].
  simpl in Hnone. lia.
Qed.

(** A filled row of a sorted matrix: the row with a zero on the diagonal
    put in its place if the row lacks it, and the row itself if not;
    its columns increase strictly, and column [i] is among them once if
    the row lies in the square part. *)
Lemma filled_row_sorted m n base A h i :
  (∀ i, 0 ≤ i < m →
     load_int h (csr_row_ptr A) i ≤ load_int h (csr_row_ptr A) (i + 1)) →
  0 ≤ i < m →
  strictly_increasing (row_columns base A h i) = true →
  (if decide (lacks_diag n base A h i)
   then ∃ l1 l2, csr_row base A h i = l1 ++ l2
                 ∧ filled_row n base A h i = l1 ++ (i, szero) :: l2
   else filled_row n base A h i = csr_row base A h i)
  ∧ strictly_increasing (filled_row n base A h i).*1 = true
  ∧ (i < n →
     length (filter (λ c, c = i) (filled_row n base A h i).*1) = 1%nat).
Proof.
  intros Hmono Hi Hs. unfold filled_row. rewrite flagged_sorted by done.
  pose proof (stop_in_row m base A h Hmono i Hi) as Hstop.
  pose proof (scan_list_sorted i _ Hs) as Hscan.
  destruct (decide (lacks_diag n base A h i)) as [Hlack|Hhas].
  - rewrite bool_decide_true by done. destruct Hlack as [Hin Hlack].
    rewrite bool_decide_false in Hscan by done.
    set (lo := load_int h (csr_row_ptr A) i - base) in *.
    set (len := load_int h (csr_row_ptr A) (i + 1)
                - load_int h (csr_row_ptr A) i) in *.
    destruct (scan_list i (row_columns base A h i)) as [found kn] eqn:Hkn.
    injection Hscan as -> Hkn'. simpl in *.
    set (l1 := row_part base A h lo (Z.of_nat kn)).
    set (l2 := row_part base A h (lo + Z.of_nat kn) (len - Z.of_nat kn)).
    assert (csr_row base A h i = l1 ++ l2) as Hrow.
    { change (csr_row base A h i) with (row_part base A h lo len).
      replace len with (Z.of_nat kn + (len - Z.of_nat kn)) at 1 by lia.
      apply row_part_app; lia. }
    assert (row_columns base A h i = l1.*1 ++ l2.*1) as Hcols.
    { by rewrite <- csr_row_columns, Hrow, fmap_app. }
    assert (length l1.*1 = kn) as Hlen1.
    { unfold l1, row_part. rewrite !length_fmap, length_seqZ. lia. }
    rewrite Hcols in Hs, Hkn.
    assert (scan_list i (l1.*1 ++ l2.*1) = (false, length l1.*1)) as Hkn2
      by (by rewrite Hlen1).
    destruct (scan_list_split i _ _ Hs Hkn2) as [Hlow Hhigh].
    apply strictly_increasing_app in Hs as (Hs1 & Hs2 & Hcross).
    assert (strictly_increasing ((l1 ++ (i, szero) :: l2).*1) = true)
      as Hfilled.
    { rewrite fmap_app, fmap_cons. simpl.
      apply strictly_increasing_app. split; [done|]. split.
      - by apply strictly_increasing_cons_iff.
      - intros x y Hx [->|Hy]%elem_of_cons; [by apply Hlow|by apply Hcross]. }
    split; [by exists l1, l2|]. split; [done|]. intros _.
    apply strictly_increasing_once; [done|].
    rewrite fmap_app, fmap_cons. simpl. apply elem_of_app. right.
    apply elem_of_cons. by left.
  - rewrite bool_decide_false by done. split; [done|].
    rewrite csr_row_columns. split; [done|]. intros Hin.
    apply strictly_increasing_once; [done|].
    destruct (decide (i ∈ row_columns base A h i)) as [|Hout]; [done|].
    exfalso. by apply Hhas.
Qed.

(** C2.  On a valid matrix with sorted rows a call returns success
    when its four requests for memory are served, and after a call
    that returns success: every row is the row of the input, with one
    entry of value zero on column [i] put between its entries if row
    [i < n] lacked it; the columns of every row increase strictly, and
    column [i] occurs once in row [i < n]; and the last row offset minus
    the first is [nnz] plus the number of rows that lacked their
    diagonal.  Columns are read without their base: the output is in
    base zero when a diagonal was added, and the untouched input in its
    own base when none was. *)
Theorem fill_diag_adds_missing_diagonals m n nnz base A h :
  valid_csr m nnz base A h → rows_sorted m base A h →
  (grants 4 h = true →
   ∃ A' h', aoclsparse_csr_fill_diag m n nnz base A h
            = Returns (aoclsparse_status_success, A', h'))
  ∧ ∀ A' h',
      aoclsparse_csr_fill_diag m n nnz base A h
      = Returns (aoclsparse_status_success, A', h') →
      let missing := rows_lacking_diag m n base A h in
      let base' := if decide (missing = []) then base else 0 in
      (∀ i, 0 ≤ i < m →
         (if decide (lacks_diag n base A h i)
          then ∃ l1 l2, csr_row base A h i = l1 ++ l2
                        ∧ csr_row base' A' h' i = l1 ++ (i, szero) :: l2
          else csr_row base' A' h' i = csr_row base A h i)
         ∧ strictly_increasing (row_columns base' A' h' i) = true
         ∧ (i < n →
            length (filter (λ c, c = i) (row_columns base' A' h' i))
            = 1%nat))
      ∧ load_int h' (csr_row_ptr A') m - load_int h' (csr_row_ptr A') 0
        = nnz + Z.of_nat (length missing).
Proof.
  intros Hvalid Hsorted.
  destruct (fill_diag_cases m n nnz base A h Hvalid)
    as (st & A1 & h1 & Hcall & Hcases).
  destruct Hvalid as (Hm & Hlr & Hlc & Hlv & Hlenr & Hlenc & Hlenv & Hfirst
                      & Hlast & Hmono).
  rewrite Hcall. split.
  - intros Hg. destruct Hcases as [[_ Hg']|[(-> & _)|(-> & _)]];
      [congruence|by eauto..].
  - intros A' h' [= -> -> ->]. intros missing base'.
    pose proof (flagged_below_lacking m n base A h Hsorted) as Hcount.
    fold missing in Hcount.
    assert (∀ i, 0 ≤ i < m →
              csr_row base' A' h' i = filled_row n base A h i) as Hrows.
    { destruct Hcases as [[? _]|[(_ & Hnone & -> & Hb)|(_ & Hsome & Hoff & Hent)]];
        [done| |].
      - intros i Hi. unfold base'. rewrite decide_True.
        2: { apply length_zero_iff_nil. lia. }
        rewrite (same_matrix_csr_row A h h' (same_matrix_blocks A h h' Hb)).
        unfold filled_row. by rewrite (flagged_none m n base A h i).
      - intros i Hi. unfold base'. rewrite decide_False.
        2: { intros Hnil. rewrite Hnil in Hcount. simpl in Hcount. lia. }
        rewrite csr_row_entries, !Hoff by lia. by apply Hent. }
    split.
    + intros i Hi. rewrite <- csr_row_columns, Hrows by done.
      apply (filled_row_sorted m); [done..|]. apply Hsorted. lia.
    + destruct Hcases as [[? _]|[(_ & Hnone & -> & Hb)|(_ & Hsome & Hoff & Hent)]];
        [done| |].
      * unfold load_int. rewrite (ints_at_blocks h h' _ Hb).
        fold (load_int h (csr_row_ptr A) m).
        fold (load_int h (csr_row_ptr A) 0). lia.
      * rewrite !Hoff by lia. rewrite flagged_below_0. lia.
Qed.
End FillDiagTheorem.

(** Witness of [fill_diag_adds_missing_diagonals]: four rows in base one,
    of which three lack their diagonal. *)
Lemma fill_diag_adds_missing_diagonals_witness :
  (grants 4 lacking_diagonals = true →
   ∃ A' h', aoclsparse_csr_fill_diag 4 4 5 1 csr_123 lacking_diagonals
            = Returns (aoclsparse_status_success, A', h'))
  ∧ ∀ A' h',
      aoclsparse_csr_fill_diag 4 4 5 1 csr_123 lacking_diagonals
      = Returns (aoclsparse_status_success, A', h') →
      let missing := rows_lacking_diag 4 4 1 csr_123 lacking_diagonals in
      let base' := if decide (missing = []) then 1 else 0 in
      (∀ i, 0 ≤ i < 4 →
         (if decide (lacks_diag 4 1 csr_123 lacking_diagonals i)
          then ∃ l1 l2, csr_row 1 csr_123 lacking_diagonals i = l1 ++ l2
                        ∧ csr_row base' A' h' i = l1 ++ (i, szero) :: l2
          else csr_row base' A' h' i = csr_row 1 csr_123 lacking_diagonals i)
         ∧ strictly_increasing (row_columns base' A' h' i) = true
         ∧ (i < 4 →
            length (filter (λ c, c = i) (row_columns base' A' h' i)) = 1%nat))
      ∧ load_int h' (csr_row_ptr A') 4 - load_int h' (csr_row_ptr A') 0
        = 5 + Z.of_nat (length missing).
Proof.
  apply (fill_diag_adds_missing_diagonals 4 4 5 1 csr_123 lacking_diagonals).
  - split; [lia|].
    split; [eexists; split; [reflexivity|]; vm_compute; eauto|].
    split; [eexists; split; [reflexivity|]; vm_compute; eauto|].
    split; [eexists; split; [reflexivity|]; vm_compute; eauto|].
    repeat (split; [reflexivity|]).
    intros i Hi. assert (i = 0 ∨ i = 1 ∨ i = 2 ∨ i = 3) as Hc by lia.
    destruct Hc as [->|[->|[->| ->]]]; vm_compute; discriminate.
  - intros i Hi. assert (i = 0 ∨ i = 1 ∨ i = 2 ∨ i = 3) as Hc by lia.
    destruct Hc as [->|[->|[->| ->]]]; reflexivity.
Defined.

(** The same call, evaluated: the new offsets, columns and values. *)
Example fill_diag_lacking_diagonals :
  ∃ A' h',
    aoclsparse_csr_fill_diag 4 4 5 1 csr_123 lacking_diagonals
    = Returns (aoclsparse_status_success, A', h')
    ∧ ints_at h' (csr_row_ptr A') = [0; 3; 4; 5; 8]
    ∧ ints_at h' (csr_col_ptr A') = [0; 1; 3; 1; 2; 0; 1; 3]
    ∧ vals_at h' (csr_val A') = [0; 10; 20; 30; 0; 40; 50; 0].
Proof. eexists _, _. split; [vm_compute; reflexivity|]. by vm_compute. Qed.

(** * OptionUtility::PrepareString *)

Section PrepareStringFacts.
Import OptionUtility.
Implicit Types (c : ascii) (s : string).

Lemma is_space_tolower c : Ascii.is_space (tolower c) = Ascii.is_space c.
Proof. by destruct c as [[] [] [] [] [] [] [] []]. Qed.

Lemma tolower_tolower c : tolower (tolower c) = tolower c.
Proof. by destruct c as [[] [] [] [] [] [] [] []]. Qed.

Lemma ltrim_tolower s :
  ltrim (transform_tolower s) = transform_tolower (ltrim s).
Proof.
  induction s as [|c s IH]; [done|]. simpl. rewrite is_space_tolower.
  by destruct (Ascii.is_space c).
Qed.

Lemma rtrim_tolower s :
  rtrim (transform_tolower s) = transform_tolower (rtrim s).
Proof.
  induction s as [|c s IH]; [done|]. simpl. rewrite IH, is_space_tolower.
  destruct (rtrim s); simpl; [by destruct (Ascii.is_space c)|done].
Qed.

Lemma squeeze_from_tolower b s :
  squeeze_from b (transform_tolower s) = transform_tolower (squeeze_from b s).
Proof.
  revert b. induction s as [|c s IH]; intros b; [done|]. simpl.
  rewrite is_space_tolower, !IH.
  by destruct (Ascii.is_space c), b.
Qed.

Lemma transform_tolower_idemp s :
  transform_tolower (transform_tolower s) = transform_tolower s.
Proof.
  induction s as [|c s IH]; [done|]. simpl. by rewrite tolower_tolower, IH.
Qed.

Lemma starts_clean_ltrim s : starts_clean (ltrim s) = true.
Proof.
  induction s as [|c s IH]; [done|]. simpl.
  destruct (Ascii.is_space c) eqn:Hc; [done|]. simpl. by rewrite Hc.
Qed.

Lemma ltrim_clean s : starts_clean s = true → ltrim s = s.
Proof.
  destruct s as [|c s]; [done|]. simpl.
  by destruct (Ascii.is_space c).
Qed.

Lemma starts_clean_rtrim s :
  starts_clean s = true → starts_clean (rtrim s) = true.
Proof.
  destruct s as [|c s]; [done|]. simpl.
  destruct (Ascii.is_space c) eqn:Hc; [done|]. intros _.
  destruct (rtrim s); simpl; by rewrite Hc.
Qed.

Lemma starts_clean_squeeze s :
  starts_clean s = true → starts_clean (squeeze s) = true.
Proof.
  destruct s as [|c s]; [done|]. unfold squeeze. simpl.
  destruct (Ascii.is_space c) eqn:Hc; [done|]. simpl. by rewrite Hc.
Qed.

Lemma rtrim_empty s : rtrim s = EmptyString ↔ all_blank s = true.
Proof.
  induction s as [|c s IH]; [done|]. simpl.
  destruct (rtrim s) eqn:Hr.
  - destruct (Ascii.is_space c); simpl; [|done].
    split; [intros _; by apply IH|done].
  - split; [done|]. intros [_ Hs%IH]%andb_true_iff. done.
Qed.

Lemma ltrim_empty s : ltrim s = EmptyString ↔ all_blank s = true.
Proof.
  induction s as [|c s IH]; [done|]. simpl.
  by destruct (Ascii.is_space c).
Qed.

Lemma rtrim_idemp s : rtrim (rtrim s) = rtrim s.
Proof.
  induction s as [|c s IH]; [done|]. simpl.
  destruct (rtrim s) as [|d k] eqn:Hr.
  - destruct (Ascii.is_space c) eqn:Hc; [done|]. simpl. by rewrite Hc.
  - change (rtrim (String c (String d k))) with
      (match rtrim (String d k) with
       | EmptyString => if Ascii.is_space c then EmptyString
                        else String c EmptyString
       | kept => String c kept
       end).
    by rewrite IH.
Qed.

Lemma squeeze_from_empty b s :
  squeeze_from b s = EmptyString
  ↔ s = EmptyString ∨ (b = true ∧ all_blank s = true).
Proof.
  induction s as [|c s IH]; [by split; auto|]. simpl.
  destruct (Ascii.is_space c), b; simpl.
  - rewrite IH. split; [intros [->|[_ ?]]; auto|].
    intros [?|[_ ?]]; [done|auto].
  - split; [done|]. by intros [?|[? _]].
  - split; [done|]. by intros [?|[_ ?]].
  - split; [done|]. by intros [?|[? _]].
Qed.

(** A string without blanks at its end keeps none when its runs of
    blanks are squeezed. *)
Lemma rtrim_squeeze_from b s :
  rtrim s = s → rtrim (squeeze_from b s) = squeeze_from b s.
Proof.
  revert b. induction s as [|c s IH]; intros b; [done|].
  intros Hs. simpl in Hs.
  destruct (rtrim s) as [|d k] eqn:Hr.
  - (* the rest is empty *)
    destruct (Ascii.is_space c) eqn:Hc; [done|].
    injection Hs as <-. simpl. rewrite Hc. simpl. by rewrite Hc.
  - injection Hs as Hs. specialize (IH true) as IHt.
    specialize (IH false) as IHf.
    assert (all_blank s = false) as Hnb.
    { destruct (all_blank s) eqn:Hb; [|done].
      apply rtrim_empty in Hb. congruence. }
    assert (s ≠ EmptyString) as Hne by (by intros ->).
    simpl. destruct (Ascii.is_space c) eqn:Hc.
    + destruct b; [by apply IHt|].
      specialize (IHt Hs).
      destruct (squeeze_from true s) as [|e q] eqn:Hq.
      { apply squeeze_from_empty in Hq as [?|[_ ?]]; congruence. }
      change (rtrim (String " " (String e q))) with
        (match rtrim (String e q) with
         | EmptyString => if Ascii.is_space " " then EmptyString
                          else String " "%char EmptyString
         | kept => String " "%char kept
         end).
      by rewrite IHt.
    + specialize (IHf Hs).
      destruct (squeeze_from false s) as [|e q] eqn:Hq.
      { apply squeeze_from_empty in Hq as [?|[? _]]; congruence. }
      change (rtrim (String c (String e q))) with
        (match rtrim (String e q) with
         | EmptyString => if Ascii.is_space c then EmptyString
                          else String c EmptyString
         | kept => String c kept
         end).
      by rewrite IHf.
Qed.

Lemma squeezed_squeeze_from b s : squeezed_from b (squeeze_from b s) = true.
Proof.
  revert b. induction s as [|c s IH]; intros b; [done|]. simpl.
  destruct (Ascii.is_space c) eqn:Hc.
  - destruct b; [apply IH|]. simpl. apply IH.
  - simpl. rewrite Hc. apply IH.
Qed.

Lemma squeeze_from_squeezed b s :
  squeezed_from b s = true → squeeze_from b s = s.
Proof.
  revert b. induction s as [|c s IH]; intros b; [done|]. simpl.
  destruct (Ascii.is_space c).
  - intros [[Hb ->%bool_decide_eq_true]%andb_true_iff Hs]%andb_true_iff.
    destruct b; [done|]. by rewrite IH.
  - intros Hs. by rewrite IH.
Qed.

Lemma squeeze_idemp s : squeeze (squeeze s) = squeeze s.
Proof. apply squeeze_from_squeezed, squeezed_squeeze_from. Qed.
End PrepareStringFacts.

(** X1.  [PrepareString] is idempotent: a prepared string is left as it
    is, so that a name read back from an option finds this option. *)
Theorem PrepareString_idempotent (str : string) :
  OptionUtility.PrepareString (OptionUtility.PrepareString str)
  = OptionUtility.PrepareString str.
Proof.
  unfold OptionUtility.PrepareString. cbv zeta.
  rewrite ltrim_tolower, rtrim_tolower. unfold OptionUtility.squeeze.
  rewrite squeeze_from_tolower, transform_tolower_idemp. f_equal.
  set (u := OptionUtility.rtrim (OptionUtility.ltrim str)).
  assert (starts_clean u = true) as Hclean
    by apply starts_clean_rtrim, starts_clean_ltrim.
  assert (OptionUtility.rtrim u = u) as Hend by apply rtrim_idemp.
  fold (OptionUtility.squeeze u).
  rewrite (ltrim_clean (OptionUtility.squeeze u))
    by (by apply starts_clean_squeeze).
  unfold OptionUtility.squeeze at 1.
  rewrite rtrim_squeeze_from by done.
  apply squeeze_idemp.
Qed.

(** A string of blanks is prepared to the empty string. *)
Lemma PrepareString_of_blank (str : string) :
  all_blank str = true → OptionUtility.PrepareString str = EmptyString.
Proof.
  unfold OptionUtility.PrepareString. cbv zeta.
  rewrite <- ltrim_empty. by intros ->.
Qed.

(** A string that holds a character other than a blank keeps one. *)
Lemma PrepareString_nonblank (str : string) :
  all_blank str = false → OptionUtility.PrepareString str ≠ EmptyString.
Proof.
  unfold OptionUtility.PrepareString. cbv zeta. intros Hblank Hempty.
  assert (OptionUtility.ltrim str ≠ EmptyString) as Hl.
  { intros Hl. apply ltrim_empty in Hl. congruence. }
  pose proof (starts_clean_ltrim str) as Hclean.
  destruct (OptionUtility.ltrim str) as [|c s]; [done|].
  simpl in Hclean. apply negb_true_iff in Hclean.
  destruct (OptionUtility.squeeze (OptionUtility.rtrim (String c s)))
    as [|d q] eqn:Hq; [|done].
  apply squeeze_from_empty in Hq as [Hq|[? _]]; [|done].
  apply rtrim_empty in Hq. simpl in Hq. by rewrite Hclean in Hq.
Qed.

(** X2.  [PrepareString] reduces a string to zero length exactly when
    the string holds nothing but blanks; this is the case in which the
    constructors refuse a name. *)
Theorem PrepareString_empty_iff (str : string) :
  OptionUtility.PrepareString str = EmptyString ↔ all_blank str = true.
Proof.
  split; [|apply PrepareString_of_blank].
  intros Hempty. destruct (all_blank str) eqn:Hblank; [done|].
  by apply PrepareString_nonblank in Hblank.
Qed.

(** * OptionInt *)

Section OptionIntFacts.
Lemma CheckRange_zero_iff value lower lbound upper ubound :
  OptionInt.CheckRange value lower lbound upper ubound = 0
  ↔ in_range value lower lbound upper ubound.
Proof.
  unfold OptionInt.CheckRange, in_range.
  destruct lbound, ubound; simpl; repeat case_bool_decide; simpl;
    split; try lia; intros [? ?]; lia.
Qed.

Lemma setby_or_zero (setby : Z) :
  (if bool_decide (setby ≠ 0) then setby else 0) = setby.
Proof. case_bool_decide; [done|]. destruct (decide (setby = 0)); lia. Qed.

Lemma SetInvegerValue_spec o value setby :
  OptionInt.SetInvegerValue o value setby
  = if decide (in_range value (OptionInt.lower o) (OptionInt.lbound o)
                 (OptionInt.upper o) (OptionInt.ubound o))
    then Ok (OptionInt_set o value setby)
    else Thrown (out_of_range "Value out-of-bounds.").
Proof.
  unfold OptionInt.SetInvegerValue.
  rewrite (bool_decide_false (value ≠ value)) by (by intros []).
  case_bool_decide as Hc; rewrite CheckRange_zero_iff in Hc.
  - by rewrite decide_False.
  - rewrite decide_True by done. by rewrite setby_or_zero.
Qed.
End OptionIntFacts.

(** X3.  The constructor of [OptionInt] returns an option exactly when
    [lower <= upper], the default lies within the bounds and the name is
    not blank; the option then holds the prepared name, the default as its
    value and [setby = 0].  In every other case it throws
    [invalid_argument], never [out_of_range].  The check of [lower] against
    [upper] is made for the bounds of an unbounded side too. *)
Theorem OptionInt_construct_spec name id desc hidden pgrp lower lbound upper
    ubound vdefault :
  if decide (lower ≤ upper ∧ in_range vdefault lower lbound upper ubound
             ∧ all_blank name = false)
  then OptionInt.construct name id desc hidden pgrp lower lbound upper ubound
         vdefault
       = Ok (OptionInt.Mk
               (OptionBase.Mk (OptionUtility.PrepareString name) id desc 0
                  hidden pgrp)
               vdefault vdefault lower lbound upper ubound)
  else ∃ what,
      OptionInt.construct name id desc hidden pgrp lower lbound upper ubound
        vdefault
      = Thrown (invalid_argument what).
Proof.
  unfold OptionInt.construct.
  rewrite (bool_decide_false (upper ≠ upper)) by (by intros []).
  rewrite (bool_decide_false (lower ≠ lower)) by (by intros []).
  rewrite (bool_decide_false (vdefault ≠ vdefault)) by (by intros []).
  cbv zeta. simpl.
  assert (OptionUtility.PrepareString name = EmptyString
          ↔ all_blank name = true) as Hname.
  { split; [|apply PrepareString_of_blank].
    intros Hempty. destruct (all_blank name) eqn:Hblank; [done|].
    by apply PrepareString_nonblank in Hblank. }
  pose proof (CheckRange_zero_iff vdefault lower lbound upper ubound) as Hcheck.
  case_decide as Hok.
  - destruct Hok as (Hle & Hin & Hblank).
    rewrite bool_decide_false by lia.
    assert (bool_decide (lower = upper) && bool_decide (lbound ≠ m_inf)
            && bool_decide (ubound ≠ p_inf)
            && negb (bool_decide (lbound = greaterequal)
                     && bool_decide (ubound = lessequal)) = false) as ->.
    { destruct Hin as [Hlo Hhi].
      destruct lbound, ubound; simpl; repeat case_bool_decide; simpl;
        try done; lia. }
    rewrite (bool_decide_false (_ ≠ 0)) by (intros Hne; apply Hne; tauto).
    rewrite bool_decide_false; [done|].
    intros Hempty%Hname. congruence.
  - case_bool_decide as Hbounds; [by eauto|].
    destruct (bool_decide (lower = upper) && _ && _ && _); [by eauto|].
    case_bool_decide as Hdefault; [by eauto|].
    case_bool_decide as Hempty; [by eauto|].
    exfalso. apply Hok. split; [lia|]. split; [by apply Hcheck|].
    destruct (all_blank name) eqn:Hb; [|done].
    exfalso. by apply Hempty, Hname.
Qed.

(** * Looking up by name in a vector of options *)

Section FirstMatch.
Context {A : Type} (key : A → string).
Implicit Types (l : list A) (o : A) (q : string).

(** Replacing an element by one of the same name moves no look-up. *)
Lemma list_find_insert_same_key l i o o' q :
  l !! i = Some o → key o' = key o →
  list_find (λ x, key x = q) (<[i:=o']> l)
  = (λ '(j, x), (j, if decide (j = i) then o' else x))
    <$> list_find (λ x, key x = q) l.
Proof.
  revert i. induction l as [|x l IH]; intros i Hi Hkey; [done|].
  destruct i as [|i]; simpl in *.
  - injection Hi as ->. rewrite Hkey.
    destruct (decide (key o = q)); [done|].
    destruct (list_find _ l) as [[j y]|]; [|done]. done.
  - destruct (decide (key x = q)); [done|].
    rewrite (IH i Hi Hkey).
    destruct (list_find _ l) as [[j y]|]; [|done]. simpl.
    do 2 f_equal. destruct (decide (j = i)), (decide (S j = S i)); done || lia.
Qed.

Lemma list_find_key l q i o :
  list_find (λ x, key x = q) l = Some (i, o) → l !! i = Some o ∧ key o = q.
Proof. intros (? & ? & _)%list_find_Some. done. Qed.

(** The look-ups after the element a look-up for [q] reached has been
    replaced by one of the same name. *)
Lemma find_after_update l q i o o' q' :
  list_find (λ x, key x = q) l = Some (i, o) → key o' = key o →
  snd <$> list_find (λ x, key x = q') (<[i:=o']> l)
  = if decide (q' = q) then Some o'
    else snd <$> list_find (λ x, key x = q') l.
Proof.
  intros Hfind Hkey. destruct (list_find_key _ _ _ _ Hfind) as [Hi Hq].
  rewrite (list_find_insert_same_key l i o o' q' Hi Hkey).
  destruct (decide (q' = q)) as [->|Hne].
  - rewrite Hfind. simpl. by rewrite decide_True.
  - destruct (list_find (λ x, key x = q') l) as [[j y]|] eqn:Hj; [|done].
    simpl. f_equal. destruct (decide (j = i)) as [->|]; [|done].
    destruct (list_find_key _ _ _ _ Hj) as [Hj' Hq']. congruence.
Qed.

(** Appending an element: it is reached under its name if no earlier
    element has this name. *)
Lemma find_after_append l o q :
  snd <$> list_find (λ x, key x = q) (l ++ [o])
  = match snd <$> list_find (λ x, key x = q) l with
    | Some o' => Some o'
    | None => if decide (key o = q) then Some o else None
    end.
Proof.
  destruct (list_find (λ x, key x = q) l) as [[i x]|] eqn:Hl.
  - by rewrite (list_find_app_l _ _ _ _ _ Hl).
  - rewrite list_find_app_r by done. simpl.
    by destruct (decide (key o = q)).
Qed.
End FirstMatch.

(** * OptionRegistry: setting and getting *)

Section RegistrySetGet.
Context {T : Type} `{RealType T}.
Implicit Types (r : OptionRegistry.t T) (name : string).

Lemma GetOption_Int_find r name value :
  OptionRegistry.GetOption_Int r name value
  = match find_Int r name with
    | Some o => (0, OptionInt.value o)
    | None => (3, value)
    end.
Proof.
  unfold OptionRegistry.GetOption_Int, find_Int.
  by destruct (list_find _ _) as [[i o]|].
Qed.

Lemma GetOption_Real_find r name (value : T) :
  OptionRegistry.GetOption_Real r name value
  = match find_Real r name with
    | Some o => (0, OptionReal.value o)
    | None => (3, value)
    end.
Proof.
  unfold OptionRegistry.GetOption_Real, find_Real.
  by destruct (list_find _ _) as [[i o]|].
Qed.

Lemma GetOption_Bool_find r name value :
  OptionRegistry.GetOption_Bool r name value
  = match find_Bool r name with
    | Some o => (0, OptionBool.value o)
    | None => (3, value)
    end.
Proof.
  unfold OptionRegistry.GetOption_Bool, find_Bool.
  by destruct (list_find _ _) as [[i o]|].
Qed.

Lemma GetOption_String_find r name value key :
  OptionRegistry.GetOption_String r name value key
  = match find_String r name with
    | Some o =>
        match OptionString.labels o !! OptionString.value o with
        | Some key => Ok (0, OptionString.value o, key)
        | None => Thrown (out_of_range "map::at")
        end
    | None => Ok (3, value, key)
    end.
Proof.
  unfold OptionRegistry.GetOption_String, find_String.
  destruct (list_find _ _) as [[i o]|]; [|done]. simpl.
  unfold OptionString.GetStringValue_key. by destruct (_ !! _).
Qed.

(** X4.  [SetOption] for an integer: flag 3 for a name that reaches no
    integer option, else flag 4 in a locked registry, else flag 1 for a
    value outside the bounds of the option; in these cases the registry
    is left as it is.  Else the flag is 0, the other three vectors and
    the lock are as before, and a look-up reaches the option with its
    new value under every name that prepares to the same string, and
    what it reached before under any other.  Flag 2 is never returned. *)
Theorem SetOption_Int_spec r name value setby :
  match find_Int r name with
  | None => OptionRegistry.SetOption_Int r name value setby = (3, r)
  | Some o =>
      if OptionRegistry.readonly r
      then OptionRegistry.SetOption_Int r name value setby = (4, r)
      else if decide (in_range value (OptionInt.lower o) (OptionInt.lbound o)
                        (OptionInt.upper o) (OptionInt.ubound o))
      then
        ∃ r', OptionRegistry.SetOption_Int r name value setby = (0, r')
          ∧ OptionRegistry.readonly r' = false
          ∧ OptionRegistry.RealRegistry r' = OptionRegistry.RealRegistry r
          ∧ OptionRegistry.BoolRegistry r' = OptionRegistry.BoolRegistry r
          ∧ OptionRegistry.StringRegistry r' = OptionRegistry.StringRegistry r
          ∧ (∀ name',
               find_Int r' name'
               = if decide (same_name name name')
                 then Some (OptionInt_set o value setby)
                 else find_Int r name')
          ∧ (∀ name' value',
               OptionRegistry.GetOption_Int r' name' value'
               = if decide (same_name name name') then (0, value)
                 else OptionRegistry.GetOption_Int r name' value')
      else OptionRegistry.SetOption_Int r name value setby = (1, r)
  end.
Proof.
  unfold find_Int at 1. unfold OptionRegistry.SetOption_Int.
  destruct (list_find _ _) as [[it o]|] eqn:Hfind; simpl; [|done].
  destruct (OptionRegistry.readonly r) eqn:Hlock; [done|].
  rewrite SetInvegerValue_spec. case_decide; [|done].
  eexists. split; [done|]. simpl. do 4 (split; [done|]).
  assert (∀ name',
            find_Int
              (OptionRegistry.Mk false
                 (<[it := OptionInt_set o value setby]>
                    (OptionRegistry.IntRegistry r))
                 (OptionRegistry.RealRegistry r)
                 (OptionRegistry.BoolRegistry r)
                 (OptionRegistry.StringRegistry r)) name'
            = if decide (same_name name name')
              then Some (OptionInt_set o value setby)
              else find_Int r name') as Hfinds.
  { intros name'. unfold find_Int. simpl.
    rewrite (find_after_update OptionInt.GetName _ _ it o
               (OptionInt_set o value setby) _ Hfind eq_refl).
    unfold same_name. by repeat case_decide. }
  split; [done|]. intros name' value'.
  rewrite !GetOption_Int_find, Hfinds. by case_decide.
Qed.

(** X5.  [SetOption] for a real: flag 3 for a name that reaches no
    real option, else flag 4 in a locked registry, else flag 2 for a
    value that differs from itself (a NaN), else flag 1 for a value that
    [CheckRange] refuses; in these cases the registry is left as it is.
    Else the flag is 0 and the look-ups reach the new value under the
    names that prepare to the same string, and are as before under the
    others. *)
Theorem SetOption_Real_spec r name (value : T) setby :
  match find_Real r name with
  | None => OptionRegistry.SetOption_Real r name value setby = (3, r)
  | Some o =>
      if OptionRegistry.readonly r
      then OptionRegistry.SetOption_Real r name value setby = (4, r)
      else if real_ne value value
      then OptionRegistry.SetOption_Real r name value setby = (2, r)
      else if decide (OptionReal.CheckRange value (OptionReal.lower o)
                        (OptionReal.lbound o) (OptionReal.upper o)
                        (OptionReal.ubound o) ≠ 0)
      then OptionRegistry.SetOption_Real r name value setby = (1, r)
      else
        ∃ r', OptionRegistry.SetOption_Real r name value setby = (0, r')
          ∧ OptionRegistry.readonly r' = false
          ∧ OptionRegistry.IntRegistry r' = OptionRegistry.IntRegistry r
          ∧ OptionRegistry.BoolRegistry r' = OptionRegistry.BoolRegistry r
          ∧ OptionRegistry.StringRegistry r' = OptionRegistry.StringRegistry r
          ∧ (∀ name',
               find_Real r' name'
               = if decide (same_name name name')
                 then Some (OptionReal_set o value setby)
                 else find_Real r name')
          ∧ (∀ name' value',
               OptionRegistry.GetOption_Real r' name' value'
               = if decide (same_name name name') then (0, value)
                 else OptionRegistry.GetOption_Real r name' value')
  end.
Proof.
  unfold find_Real at 1. unfold OptionRegistry.SetOption_Real.
  destruct (list_find _ _) as [[it o]|] eqn:Hfind; simpl; [|done].
  destruct (OptionRegistry.readonly r) eqn:Hlock; [done|].
  unfold OptionReal.SetRealValue.
  destruct (real_ne value value); [done|].
  case_bool_decide as Hcheck; [by rewrite decide_True|].
  rewrite decide_False by (intros Hne; by apply Hne).
  cbv zeta. rewrite setby_or_zero.
  eexists. split; [done|]. simpl. do 4 (split; [done|]).
  assert (∀ name',
            find_Real
              (OptionRegistry.Mk false (OptionRegistry.IntRegistry r)
                 (<[it := OptionReal_set o value setby]>
                    (OptionRegistry.RealRegistry r))
                 (OptionRegistry.BoolRegistry r)
                 (OptionRegistry.StringRegistry r)) name'
            = if decide (same_name name name')
              then Some (OptionReal_set o value setby)
              else find_Real r name') as Hfinds.
  { intros name'. unfold find_Real. simpl.
    rewrite (find_after_update OptionReal.GetName _ _ it o
               (OptionReal_set o value setby) _ Hfind eq_refl).
    unfold same_name. by repeat case_decide. }
  split; [done|]. intros name' value'.
  rewrite !GetOption_Real_find, Hfinds. by case_decide.
Qed.

(** X6.  [SetOption] for a Boolean never throws: flag 3 for a name
    that reaches no Boolean option, else flag 4 in a locked registry,
    both with the registry left as it is; else flag 0, and the look-ups
    reach the new value under the names that prepare to the same string
    and are as before under the others.  Flags 1 and 2 are never
    returned. *)
Theorem SetOption_Bool_spec r name value setby :
  match find_Bool r name with
  | None => OptionRegistry.SetOption_Bool r name value setby = Ok (3, r)
  | Some o =>
      if OptionRegistry.readonly r
      then OptionRegistry.SetOption_Bool r name value setby = Ok (4, r)
      else
        ∃ r', OptionRegistry.SetOption_Bool r name value setby = Ok (0, r')
          ∧ OptionRegistry.readonly r' = false
          ∧ OptionRegistry.IntRegistry r' = OptionRegistry.IntRegistry r
          ∧ OptionRegistry.RealRegistry r' = OptionRegistry.RealRegistry r
          ∧ OptionRegistry.StringRegistry r' = OptionRegistry.StringRegistry r
          ∧ (∀ name',
               find_Bool r' name'
               = if decide (same_name name name')
                 then Some (OptionBool_set o value setby)
                 else find_Bool r name')
          ∧ (∀ name' value',
               OptionRegistry.GetOption_Bool r' name' value'
               = if decide (same_name name name') then (0, value)
                 else OptionRegistry.GetOption_Bool r name' value')
  end.
Proof.
  unfold find_Bool at 1. unfold OptionRegistry.SetOption_Bool.
  destruct (list_find _ _) as [[it o]|] eqn:Hfind; simpl; [|done].
  destruct (OptionRegistry.readonly r) eqn:Hlock; [done|].
  unfold OptionBool.SetBoolValue.
  rewrite (bool_decide_false (value ≠ value)) by (by intros []).
  cbv zeta. rewrite setby_or_zero.
  eexists. split; [done|]. simpl. do 4 (split; [done|]).
  assert (∀ name',
            find_Bool
              (OptionRegistry.Mk false (OptionRegistry.IntRegistry r)
                 (OptionRegistry.RealRegistry r)
                 (<[it := OptionBool_set o value setby]>
                    (OptionRegistry.BoolRegistry r))
                 (OptionRegistry.StringRegistry r)) name'
            = if decide (same_name name name')
              then Some (OptionBool_set o value setby)
              else find_Bool r name') as Hfinds.
  { intros name'. unfold find_Bool. simpl.
    rewrite (find_after_update OptionBool.GetName _ _ it o
               (OptionBool_set o value setby) _ Hfind eq_refl).
    unfold same_name. by repeat case_decide. }
  split; [done|]. intros name' value'.
  rewrite !GetOption_Bool_find, Hfinds. by case_decide.
Qed.

(** X7.  [SetOption] for a string: flag 3 for a name that reaches no
    string option, else flag 4 in a locked registry, else flag 2 when
    the prepared value is none of the labels of the option; in these
    cases the registry is left as it is.  Else the flag is 0 and the
    option holds the prepared value: [GetOption] returns it with the key
    of this label under the names that prepare to the same string, and
    what it returned before under the others.  Flag 1 is never
    returned. *)
Theorem SetOption_String_spec r name value setby :
  match find_String r name with
  | None => OptionRegistry.SetOption_String r name value setby = (3, r)
  | Some o =>
      if OptionRegistry.readonly r
      then OptionRegistry.SetOption_String r name value setby = (4, r)
      else
        match OptionString.labels o !! OptionUtility.PrepareString value with
        | None => OptionRegistry.SetOption_String r name value setby = (2, r)
        | Some key =>
            ∃ r', OptionRegistry.SetOption_String r name value setby = (0, r')
              ∧ OptionRegistry.readonly r' = false
              ∧ OptionRegistry.IntRegistry r' = OptionRegistry.IntRegistry r
              ∧ OptionRegistry.RealRegistry r' = OptionRegistry.RealRegistry r
              ∧ OptionRegistry.BoolRegistry r' = OptionRegistry.BoolRegistry r
              ∧ (∀ name',
                   find_String r' name'
                   = if decide (same_name name name')
                     then Some (OptionString_set o
                                  (OptionUtility.PrepareString value) setby)
                     else find_String r name')
              ∧ (∀ name' value' key',
                   OptionRegistry.GetOption_String r' name' value' key'
                   = if decide (same_name name name')
                     then Ok (0, OptionUtility.PrepareString value, key)
                     else OptionRegistry.GetOption_String r name' value' key')
        end
  end.
Proof.
  unfold find_String at 1. unfold OptionRegistry.SetOption_String.
  destruct (list_find _ _) as [[it o]|] eqn:Hfind; simpl; [|done].
  destruct (OptionRegistry.readonly r) eqn:Hlock; [done|].
  unfold OptionString.SetStringValue. cbv zeta.
  destruct (OptionString.labels o !! OptionUtility.PrepareString value)
    as [key|] eqn:Hlabel; [|done].
  rewrite setby_or_zero.
  eexists. split; [done|]. simpl. do 4 (split; [done|]).
  assert (∀ name',
            find_String
              (OptionRegistry.Mk false (OptionRegistry.IntRegistry r)
                 (OptionRegistry.RealRegistry r)
                 (OptionRegistry.BoolRegistry r)
                 (<[it := OptionString_set o
                            (OptionUtility.PrepareString value) setby]>
                    (OptionRegistry.StringRegistry r))) name'
            = if decide (same_name name name')
              then Some (OptionString_set o
                           (OptionUtility.PrepareString value) setby)
              else find_String r name') as Hfinds.
  { intros name'. unfold find_String. simpl.
    rewrite (find_after_update OptionString.GetName _ _ it o
               (OptionString_set o (OptionUtility.PrepareString value) setby)
               _ Hfind eq_refl).
    unfold same_name. by repeat case_decide. }
  split; [done|]. intros name' value' key'.
  rewrite !GetOption_String_find, Hfinds. case_decide; [|done].
  simpl. by rewrite Hlabel.
Qed.
End RegistrySetGet.

(** * OptionString: the constructor *)

Section OptionStringFacts.
Implicit Types (entries : list (string * Z)) (own : gmap string Z).

Lemma insert_labels_spec entries own :
  if decide (Forall (λ e, e.1 ≠ EmptyString) (prepared_labels entries)
             ∧ NoDup (prepared_labels entries).*1
             ∧ Forall (λ e, own !! e.1 = None) (prepared_labels entries))
  then OptionString.insert_labels entries own
       = Ok (list_to_map (prepared_labels entries) ∪ own)
  else ∃ what,
      OptionString.insert_labels entries own
      = Thrown (invalid_argument what).
Proof.
  revert own. induction entries as [|e es IH]; intros own.
  - rewrite decide_True by (repeat split; constructor).
    simpl. by rewrite (left_id_L ∅ (∪)).
  - simpl. set (label := OptionUtility.PrepareString e.1).
    case_bool_decide as Hblank.
    { rewrite decide_False; [by eauto|].
      intros (Hnb & _). by apply Forall_cons in Hnb as [? _]. }
    destruct (own !! label) as [key|] eqn:Hown.
    { rewrite decide_False; [by eauto|].
      intros (_ & _ & Hfree). apply Forall_cons in Hfree as [Hfree _].
      simpl in Hfree. fold label in Hfree. congruence. }
    specialize (IH (<[label := e.2]> own)).
    assert (Forall (λ e', <[label := e.2]> own !! e'.1 = None)
              (prepared_labels es)
            ↔ label ∉ (prepared_labels es).*1
              ∧ Forall (λ e', own !! e'.1 = None) (prepared_labels es))
      as Hfree.
    { rewrite !Forall_forall. split.
      - intros Hall. split.
        + intros (e' & -> & Hin)%list_elem_of_fmap.
          specialize (Hall e' Hin). by rewrite lookup_insert_eq in Hall.
        + intros e' Hin. specialize (Hall e' Hin).
          apply lookup_insert_None in Hall as [? _]. done.
      - intros [Hout Hall] e' Hin. apply lookup_insert_None.
        split; [by apply Hall|]. intros Heq. apply Hout.
        apply list_elem_of_fmap. by exists e'. }
    case_decide as Hrest.
    + destruct Hrest as (Hnb & Hnd & Hfr). apply Hfree in Hfr as [Hout Hfr].
      rewrite decide_True.
      2: { split; [by constructor|]. split; [by constructor|].
           by constructor. }
      rewrite IH. f_equal. simpl. fold label.
      rewrite <- insert_union_l. rewrite <- insert_union_r; [done|].
      by apply not_elem_of_list_to_map.
    + rewrite decide_False; [done|].
      intros (Hnb & Hnd & Hfr). apply Hrest.
      apply Forall_cons in Hnb as [_ Hnb].
      apply NoDup_cons in Hnd as [Hout Hnd].
      apply Forall_cons in Hfr as [_ Hfr].
      split; [done|]. split; [done|]. apply Hfree. done.
Qed.
End OptionStringFacts.

(** X8.  The constructor of [OptionString] returns an option exactly
    when there is a label, the name is not blank, no prepared label is
    empty, no two labels are the same once prepared (labels that differ in
    case or in blanks only collide), and the prepared default is one of
    them.  The option then holds the prepared labels with their keys and
    the prepared default as its value.  In every other case the constructor
    throws [invalid_argument]. *)
Theorem OptionString_construct_spec name id desc hidden pgrp labels vdefault :
  if decide (labels ≠ [] ∧ all_blank name = false
             ∧ Forall (λ e, e.1 ≠ EmptyString) (prepared_labels labels)
             ∧ NoDup (prepared_labels labels).*1
             ∧ OptionUtility.PrepareString vdefault
               ∈ (prepared_labels labels).*1)
  then OptionString.construct name id desc hidden pgrp labels vdefault
       = Ok (OptionString.Mk
               (OptionBase.Mk (OptionUtility.PrepareString name) id desc 0
                  hidden pgrp)
               (OptionUtility.PrepareString vdefault)
               (OptionUtility.PrepareString vdefault)
               (list_to_map (prepared_labels labels)))
  else ∃ what,
      OptionString.construct name id desc hidden pgrp labels vdefault
      = Thrown (invalid_argument what).
Proof.
  unfold OptionString.construct. cbv zeta.
  assert (OptionUtility.PrepareString name = EmptyString
          ↔ all_blank name = true) as Hname.
  { split; [|apply PrepareString_of_blank].
    intros Hempty. destruct (all_blank name) eqn:Hblank; [done|].
    by apply PrepareString_nonblank in Hblank. }
  pose proof (insert_labels_spec labels ∅) as Hlabels.
  assert (Forall (λ e : string * Z, (∅ : gmap string Z) !! e.1 = None)
            (prepared_labels labels)) as Hfree.
  { apply Forall_forall. intros e _. apply lookup_empty. }
  rewrite (right_id_L ∅ (∪)) in Hlabels.
  case_bool_decide as Hnone.
  { rewrite decide_False; [by eauto|].
    intros (Hsome & _). apply Hsome. by apply length_zero_iff_nil. }
  case_bool_decide as Hblank.
  { rewrite decide_False; [by eauto|].
    intros (_ & Hnb & _). apply Hname in Hblank. congruence. }
  case_decide as Hok.
  - rewrite Hlabels.
    destruct (list_to_map (prepared_labels labels)
              !! OptionUtility.PrepareString vdefault) as [key|] eqn:Hdef.
    + rewrite decide_True; [done|].
      split; [by intros ->|]. split.
      { destruct (all_blank name) eqn:Hb; [|done].
        exfalso. by apply Hblank, Hname. }
      destruct Hok as (? & ? & _). split; [done|]. split; [done|].
      apply list_elem_of_fmap. exists (OptionUtility.PrepareString vdefault, key).
      split; [done|]. by apply elem_of_list_to_map.
    + rewrite decide_False; [by eauto|].
      intros (_ & _ & _ & Hnd & (e & Heq & Hin)%list_elem_of_fmap).
      destruct e as [label key]. simpl in Heq. subst label.
      apply (elem_of_list_to_map (M := gmap string)) in Hin; [|done].
      congruence.
  - destruct Hlabels as [what ->].
    rewrite decide_False; [by eauto|].
    intros (_ & _ & ? & ? & _). apply Hok. done.
Qed.

(** * OptionRegistry: registering *)

Section RegistryRegister.
Context {T : Type} `{RealType T}.
Implicit Types (r : OptionRegistry.t T) (name : string).

(** X9.  [Register] returns 0 and appends, whether the registry is
    locked or not, and checks nothing: a look-up reaches the new option
    under its name only if it reached none before, so that of two
    options of one name the first registered is the one that is set and
    read.  This holds for each of the four overloads. *)
Theorem Register_first_wins r :
  (∀ o,
     (OptionRegistry.Register_Int r o).1 = 0
     ∧ OptionRegistry.readonly (OptionRegistry.Register_Int r o).2
       = OptionRegistry.readonly r
     ∧ ∀ name,
         find_Int (OptionRegistry.Register_Int r o).2 name
         = match find_Int r name with
           | Some o' => Some o'
           | None =>
               if decide (OptionInt.GetName o
                          = OptionUtility.PrepareString name)
               then Some o else None
           end)
  ∧ (∀ o,
       (OptionRegistry.Register_Real r o).1 = 0
       ∧ OptionRegistry.readonly (OptionRegistry.Register_Real r o).2
         = OptionRegistry.readonly r
       ∧ ∀ name,
           find_Real (OptionRegistry.Register_Real r o).2 name
           = match find_Real r name with
             | Some o' => Some o'
             | None =>
                 if decide (OptionReal.GetName o
                            = OptionUtility.PrepareString name)
                 then Some o else None
             end)
  ∧ (∀ o,
       (OptionRegistry.Register_Bool r o).1 = 0
       ∧ OptionRegistry.readonly (OptionRegistry.Register_Bool r o).2
         = OptionRegistry.readonly r
       ∧ ∀ name,
           find_Bool (OptionRegistry.Register_Bool r o).2 name
           = match find_Bool r name with
             | Some o' => Some o'
             | None =>
                 if decide (OptionBool.GetName o
                            = OptionUtility.PrepareString name)
                 then Some o else None
             end)
  ∧ (∀ o,
       (OptionRegistry.Register_String r o).1 = 0
       ∧ OptionRegistry.readonly (OptionRegistry.Register_String r o).2
         = OptionRegistry.readonly r
       ∧ ∀ name,
           find_String (OptionRegistry.Register_String r o).2 name
           = match find_String r name with
             | Some o' => Some o'
             | None =>
                 if decide (OptionString.GetName o
                            = OptionUtility.PrepareString name)
                 then Some o else None
             end).
Proof.
  repeat split; intros name.
  - apply (find_after_append OptionInt.GetName).
  - apply (find_after_append OptionReal.GetName).
  - apply (find_after_append OptionBool.GetName).
  - apply (find_after_append OptionString.GetName).
Qed.
End RegistryRegister.

(** * OptionRegistry: what every registry keeps *)

Section Validity.
Context {T : Type} `{RealType T}.
Implicit Types (r : OptionRegistry.t T) (name : string).

Lemma OptionInt_construct_valid name id desc hidden pgrp lower lbound upper
    ubound vdefault o :
  OptionInt.construct name id desc hidden pgrp lower lbound upper ubound
    vdefault = Ok o →
  OptionInt_valid o.
Proof.
  unfold OptionInt.construct. cbv zeta.
  destruct (bool_decide (upper ≠ upper) || _); [done|].
  case_bool_decide; [done|].
  destruct (bool_decide (lower = upper) && _ && _ && _); [done|].
  case_bool_decide; [done|]. case_bool_decide as Hcheck; [done|].
  case_bool_decide; [done|].
  intros [= <-]. unfold OptionInt_valid, prepared_name, prepared. simpl.
  assert (in_range vdefault lower lbound upper ubound) as Hin
    by (by apply CheckRange_zero_iff).
  eauto.
Qed.

Lemma OptionReal_construct_valid name id desc hidden pgrp (lower : T) lbound
    upper ubound vdefault o :
  OptionReal.construct name id desc hidden pgrp lower lbound upper ubound
    vdefault = Ok o →
  OptionReal_valid o.
Proof.
  unfold OptionReal.construct. cbv zeta.
  destruct (real_ne upper upper || real_ne lower lower); [done|].
  destruct (real_lt upper lower); [done|].
  destruct (real_eq lower upper && _ && _ && _); [done|].
  destruct (real_ne vdefault vdefault) eqn:Hnan; [done|].
  case_bool_decide as Hcheck; [done|]. case_bool_decide; [done|].
  intros [= <-]. unfold OptionReal_valid, prepared_name, prepared. simpl.
  eauto.
Qed.

Lemma OptionBool_construct_valid name id desc hidden pgrp vdefault o :
  OptionBool.construct name id desc hidden pgrp vdefault = Ok o →
  OptionBool_valid o.
Proof.
  unfold OptionBool.construct. cbv zeta.
  repeat case_bool_decide; try done.
  intros [= <-]. unfold OptionBool_valid, prepared_name, prepared. simpl.
  eauto.
Qed.

Lemma OptionString_construct_valid name id desc hidden pgrp labels vdefault o :
  OptionString.construct name id desc hidden pgrp labels vdefault = Ok o →
  OptionString_valid o.
Proof.
  unfold OptionString.construct. cbv zeta.
  repeat case_bool_decide; try done.
  pose proof (insert_labels_spec labels ∅) as Hlabels.
  case_decide as Hok; [|by destruct Hlabels as [what ->]].
  rewrite Hlabels, (right_id_L ∅ (∪)).
  destruct (list_to_map (prepared_labels labels)
            !! OptionUtility.PrepareString vdefault) as [key|] eqn:Hdef;
    [|done].
  intros [= <-]. unfold OptionString_valid, prepared_name, prepared. simpl.
  destruct Hok as (Hnb & Hnd & _).
  split; [by rewrite Hdef|]. split; [by rewrite Hdef|]. split; [|by eauto].
  intros label [k Hk].
  apply (elem_of_list_to_map (M := gmap string)) in Hk; [|done].
  pose proof Hk as Hk'. rewrite Forall_forall in Hnb.
  apply Hnb in Hk'. split; [done|].
  unfold prepared_labels in Hk.
  apply list_elem_of_fmap in Hk as (e & [= -> _] & _). eauto.
Qed.
End Validity.

Section Invariant.
Context {T : Type} `{RealType T}.
Implicit Types (r : OptionRegistry.t T) (name : string).

Lemma Forall_found {A} (P : A → Prop) (Q : A → Prop) `{∀ x, Decision (Q x)}
    (l : list A) i x :
  Forall P l → list_find Q l = Some (i, x) → P x.
Proof.
  intros Hall (Hi & _)%list_find_Some. by eapply Forall_lookup_1.
Qed.

Lemma SetOption_Int_valid r name value setby :
  registry_valid r →
  registry_valid (OptionRegistry.SetOption_Int r name value setby).2.
Proof.
  intros Hvalid. unfold OptionRegistry.SetOption_Int.
  destruct (list_find _ _) as [[it o]|] eqn:Hfind; [|done].
  destruct (OptionRegistry.readonly r); [done|].
  rewrite SetInvegerValue_spec. case_decide as Hin; [|done].
  destruct Hvalid as (Hi & Hr & Hb & Hs). split; [|done]. simpl.
  apply Forall_insert; [done|].
  destruct (Forall_found _ _ _ _ _ Hi Hfind) as (_ & Hdef & Hname).
  done.
Qed.

Lemma SetOption_Real_valid r name (value : T) setby :
  registry_valid r →
  registry_valid (OptionRegistry.SetOption_Real r name value setby).2.
Proof.
  intros Hvalid. unfold OptionRegistry.SetOption_Real.
  destruct (list_find _ _) as [[it o]|] eqn:Hfind; [|done].
  destruct (OptionRegistry.readonly r); [done|].
  unfold OptionReal.SetRealValue.
  destruct (real_ne value value) eqn:Hnan; [done|].
  case_bool_decide as Hcheck; [done|]. cbv zeta.
  destruct Hvalid as (Hi & Hr & Hb & Hs).
  split; [done|]. split; [|done]. simpl.
  apply Forall_insert; [done|].
  destruct (Forall_found _ _ _ _ _ Hr Hfind) as (_ & _ & Hname).
  done.
Qed.

Lemma SetOption_Bool_valid r name value setby flag r' :
  registry_valid r →
  OptionRegistry.SetOption_Bool r name value setby = Ok (flag, r') →
  registry_valid r'.
Proof.
  intros Hvalid. unfold OptionRegistry.SetOption_Bool.
  destruct (list_find _ _) as [[it o]|] eqn:Hfind; [|by intros [= _ <-]].
  destruct (OptionRegistry.readonly r); [by intros [= _ <-]|].
  unfold OptionBool.SetBoolValue.
  rewrite (bool_decide_false (value ≠ value)) by (by intros []).
  cbv zeta. intros [= _ <-].
  destruct Hvalid as (Hi & Hr & Hb & Hs).
  split; [done|]. split; [done|]. split; [|done]. simpl.
  apply Forall_insert; [done|].
  exact (Forall_found _ _ _ _ _ Hb Hfind).
Qed.

Lemma SetOption_String_valid r name value setby :
  registry_valid r →
  registry_valid (OptionRegistry.SetOption_String r name value setby).2.
Proof.
  intros Hvalid. unfold OptionRegistry.SetOption_String.
  destruct (list_find _ _) as [[it o]|] eqn:Hfind; [|done].
  destruct (OptionRegistry.readonly r); [done|].
  unfold OptionString.SetStringValue. cbv zeta.
  destruct (OptionString.labels o !! OptionUtility.PrepareString value)
    as [key|] eqn:Hlabel; [|done].
  destruct Hvalid as (Hi & Hr & Hb & Hs).
  split; [done|]. split; [done|]. split; [done|]. simpl.
  apply Forall_insert; [done|].
  destruct (Forall_found _ _ _ _ _ Hs Hfind) as (_ & Hdef & Hlabels & Hname).
  unfold OptionString_valid. simpl. split; [by rewrite Hlabel|]. done.
Qed.

Lemma built_valid r : built r → registry_valid r.
Proof.
  induction 1 as [|r _ IH|r _ IH|r ? ? ? ? ? ? ? ? ? ? o _ IH Hc
                 |r ? ? ? ? ? ? ? ? ? ? o _ IH Hc|r ? ? ? ? ? ? o _ IH Hc
                 |r ? ? ? ? ? ? ? o _ IH Hc|r ? ? ? _ IH|r ? ? ? _ IH
                 |r ? ? ? ? ? _ IH Hset|r ? ? ? _ IH].
  - repeat split; constructor.
  - done.
  - done.
  - destruct IH as (Hi & Hr & Hb & Hs). split; [|done]. simpl.
    apply Forall_app. split; [done|]. constructor; [|done].
    by eapply OptionInt_construct_valid.
  - destruct IH as (Hi & Hr & Hb & Hs). split; [done|]. split; [|done].
    simpl. apply Forall_app. split; [done|]. constructor; [|done].
    by eapply OptionReal_construct_valid.
  - destruct IH as (Hi & Hr & Hb & Hs). split; [done|]. split; [done|].
    split; [|done]. simpl. apply Forall_app. split; [done|].
    constructor; [|done]. by eapply OptionBool_construct_valid.
  - destruct IH as (Hi & Hr & Hb & Hs). split; [done|]. split; [done|].
    split; [done|]. simpl. apply Forall_app. split; [done|].
    constructor; [|done]. by eapply OptionString_construct_valid.
  - by apply SetOption_Int_valid.
  - by apply SetOption_Real_valid.
  - by eapply SetOption_Bool_valid.
  - by apply SetOption_String_valid.
Qed.

(** X10.  In every registry that is built from the empty one by
    [Lock], [UnLock], [Register] of options that a constructor returned
    and [SetOption]: each integer option holds a value and a default
    within its bounds, each real option a value that [CheckRange]
    accepts and that equals itself, each string option a value and a
    default among its labels, and every name and label is a prepared
    string that is not empty.  In such a registry [GetOption] for a
    string and [GetKey] do not throw. *)
Theorem built_registry_valid r :
  built r →
  registry_valid r
  ∧ (∀ name value key,
       ∃ res, OptionRegistry.GetOption_String r name value key = Ok res)
  ∧ (∀ name key, ∃ res, OptionRegistry.GetKey r name key = Ok res).
Proof.
  intros Hvalid%built_valid. split; [done|].
  destruct Hvalid as (_ & _ & _ & Hs).
  split.
  - intros name value key. unfold OptionRegistry.GetOption_String.
    destruct (list_find _ _) as [[it o]|] eqn:Hfind; [|by eauto].
    destruct (Forall_found _ _ _ _ _ Hs Hfind) as ([k Hk] & _).
    unfold OptionString.GetStringValue_key. rewrite Hk. by eauto.
  - intros name key. unfold OptionRegistry.GetKey.
    destruct (list_find _ _) as [[it o]|] eqn:Hfind; [|by eauto].
    destruct (Forall_found _ _ _ _ _ Hs Hfind) as ([k Hk] & _).
    unfold OptionString.GetStringValue_key. rewrite Hk. by eauto.
Qed.
End Invariant.

Lemma sample_registry_built : built sample_registry.
Proof.
  unfold sample_registry. cbv zeta.
  apply built_SetOption_String.
  destruct (OptionString.construct _ _ _ _ _ _ _) as [ostr|] eqn:Hstr.
  - eapply built_Register_String; [|exact Hstr].
    destruct (OptionInt.construct _ _ _ _ _ _ _ _ _ _) as [oint|] eqn:Hint.
    + eapply built_Register_Int; [|exact Hint]. constructor.
    + constructor.
  - destruct (OptionInt.construct _ _ _ _ _ _ _ _ _ _) as [oint|] eqn:Hint.
    + eapply built_Register_Int; [|exact Hint]. constructor.
    + constructor.
Defined.

(** Witness of [built_registry_valid]: a registry with an integer and a
    string option, of which the second has been set. *)
Lemma built_registry_valid_witness :
  registry_valid sample_registry
  ∧ (∀ name value key,
       ∃ res,
         OptionRegistry.GetOption_String sample_registry name value key = Ok res)
  ∧ (∀ name key, ∃ res, OptionRegistry.GetKey sample_registry name key = Ok res).
Proof. apply (built_registry_valid sample_registry sample_registry_built). Defined.

(** * The product as a whole *)

Section WholeProduct.
Context {T : Type} `{Scalar T}.




End WholeProduct.

Section EntryPointProduct.
Context {T : Type} `{Scalar T}.
Variable USE_AVX512 : bool.
Variable global_context : aoclsparse_context.
Variable indeterminate_is_avx512 : bool.
Variable symm :
  T → Z → Z → Z → list T → list Z → list Z → list T → T → list T →
  aoclsparse_status * list T.
Variable general :
  T → Z → Z → Z → list T → list Z → list Z → list T → T → list T →
  aoclsparse_context → aoclsparse_status * list T.

End EntryPointProduct.




(** * The copy as a matrix *)

Section CopyAsMatrix.
Context {T : Type} `{Scalar T}.
Implicit Types (h : heap T) (A : aoclsparse_csr).

Lemma for_range_oracle lo hi (body : Z → heap T → heap T) h :
  (∀ j h', oracle (body j h') = oracle h') →
  oracle (for_range lo hi body h) = oracle h.
Proof.
  intros Hbody. destruct (decide (lo ≤ hi)) as [Hle|Hgt].
  - apply (for_range_ind (λ _ h', oracle h' = oracle h)); [done..|].
    intros j h' _ Hh'. by rewrite Hbody.
  - by rewrite for_range_empty by lia.
Qed.

(** An array that has cells is an allocation. *)
Lemma sized_ints_live h p : 0 < Z.of_nat (length (ints_at h p)) → live h p.
Proof.
  unfold ints_at. destruct p as [l|]; [|simpl; lia].
  destruct (blocks h !! l) as [b|] eqn:Hl; [|simpl; lia].
  intros _. exists l. split; [done|]. by rewrite Hl.
Qed.

Lemma sized_vals_live h p : 0 < Z.of_nat (length (vals_at h p)) → live h p.
Proof.
  unfold vals_at. destruct p as [l|]; [|simpl; lia].
  destruct (blocks h !! l) as [b|] eqn:Hl; [|simpl; lia].
  intros _. exists l. split; [done|]. by rewrite Hl.
Qed.

Lemma preserved_ints_at h h' p :
  preserved h h' → live h p → ints_at h' p = ints_at h p.
Proof.
  intros Hp (l & -> & [b Hl]). unfold ints_at. by rewrite (Hp l b Hl), Hl.
Qed.

Lemma preserved_vals_at h h' p :
  preserved h h' → live h p → vals_at h' p = vals_at h p.
Proof.
  intros Hp (l & -> & [b Hl]). unfold vals_at. by rewrite (Hp l b Hl), Hl.
Qed.

Lemma preserved_same_matrix A h h' :
  preserved h h' →
  live h (csr_row_ptr A) → live h (csr_col_ptr A) → live h (csr_val A) →
  same_matrix A h h'.
Proof.
  intros Hp Hr Hc Hv. split; [|split].
  - by apply preserved_ints_at.
  - by apply preserved_ints_at.
  - by apply preserved_vals_at.
Qed.

(** The requests of a copy that succeeds. *)
Lemma copy_csr_oracle m n nnz base A As h :
  0 < m → 0 < nnz →
  live h (csr_row_ptr A) → live h (csr_col_ptr A) → live h (csr_val A) →
  grants 3 h = true →
  oracle (aoclsparse_copy_csr m n nnz base A As h).2
  = tail (tail (tail (oracle h))).
Proof.
  intros Hm Hnnz Hlr Hlc Hlv Hg. unfold aoclsparse_copy_csr.
  rewrite bool_decide_false by lia.
  rewrite (live_not_null h _ Hlr), (live_not_null h _ Hlc),
    (live_not_null h _ Hlv). simpl.
  rewrite !(bool_decide_false (_ = 0)) by lia. simpl.
  rewrite new_ints_served by (eauto using grants_1_of_S with lia).
  cbv beta iota zeta.
  set (h1 := Heap _ (tail (oracle h))).
  assert (grants 2 h1 = true) as Hg1 by (by apply (grants_tail 2 h)).
  rewrite (new_ints_served nnz h1) by (eauto using grants_1_of_S with lia).
  cbv beta iota zeta.
  set (h2 := Heap _ (tail (oracle h1))).
  assert (grants 1 h2 = true) as Hg2 by (by apply (grants_tail 1 h1)).
  rewrite (new_vals_served nnz h2) by (eauto with lia).
  cbv beta iota zeta. simpl.
  rewrite for_range_oracle.
  2: { intros j h'. by rewrite oracle_store_val, oracle_store_int. }
  rewrite for_range_oracle.
  2: { intros j h'. by rewrite oracle_store_int. }
  done.
Qed.

(** The copy of a valid matrix is a valid matrix in base zero with the
    same rows, in three new allocations. *)
Lemma copy_csr_valid m n nnz base A As h :
  valid_csr m nnz base A h → 0 < m → 0 < nnz → grants 3 h = true →
  ∃ row col val h',
    aoclsparse_copy_csr m n nnz base A As h
    = (aoclsparse_status_success, Csr (Some row) (Some col) (Some val), h')
    ∧ blocks h !! row = None ∧ blocks h !! col = None
    ∧ blocks h !! val = None
    ∧ NoDup [row; col; val]
    ∧ preserved h h'
    ∧ oracle h' = tail (tail (tail (oracle h)))
    ∧ valid_csr m nnz 0 (Csr (Some row) (Some col) (Some val)) h'
    ∧ ints_at h' (Some row) = (λ v, v - base) <$> ints_at h (csr_row_ptr A)
    ∧ ∀ i, 0 ≤ i < m →
        csr_row 0 (Csr (Some row) (Some col) (Some val)) h' i
        = csr_row base A h i.
Proof.
  intros (Hm0 & Hlr & Hlc & Hlv & Hlenr & Hlenc & Hlenv & Hfirst & Hlast
          & Hmono) Hm Hnnz Hg.
  pose proof (copy_csr_oracle m n nnz base A As h Hm Hnnz Hlr Hlc Hlv Hg)
    as Horacle.
  destruct (copy_csr_success m n nnz base A As h Hm Hnnz Hlr Hlc Hlv Hg)
    as (row & col & val & h' & Hcall & Hr & Hc & Hv & Hnd & Hp & Hir & Hic
        & Hiv).
  rewrite Hcall in Horacle. simpl in Horacle.
  exists row, col, val, h'. repeat (split; [done|]).
  assert (∀ k, 0 ≤ k ≤ m →
            load_int h' (Some row) k = load_int h (csr_row_ptr A) k - base)
    as Hrow.
  { intros k Hk. unfold load_int at 1. rewrite Hir.
    rewrite (at_fmap_seqZ _ 0 0 (m + 1) k) by lia. by rewrite Z.add_0_l. }
  assert (∀ k, 0 ≤ k < nnz →
            load_int h' (Some col) k = load_int h (csr_col_ptr A) k - base)
    as Hcol.
  { intros k Hk. unfold load_int at 1. rewrite Hic.
    rewrite (at_fmap_seqZ _ 0 0 nnz k) by lia. by rewrite Z.add_0_l. }
  assert (∀ k, 0 ≤ k < nnz →
            load_val h' (Some val) k = load_val h (csr_val A) k) as Hval.
  { intros k Hk. unfold load_val at 1. rewrite Hiv.
    rewrite (at_fmap_seqZ _ szero 0 nnz k) by lia. by rewrite Z.add_0_l. }
  split; [|split].
  - (* the copy is valid *)
    assert (Z.of_nat (length (ints_at h' (Some row))) = m + 1) as Hlr'.
    { rewrite Hir, length_fmap, length_seqZ. lia. }
    assert (Z.of_nat (length (ints_at h' (Some col))) = nnz) as Hlc'.
    { rewrite Hic, length_fmap, length_seqZ. lia. }
    assert (Z.of_nat (length (vals_at h' (Some val))) = nnz) as Hlv'.
    { rewrite Hiv, length_fmap, length_seqZ. lia. }
    split; [done|]. simpl.
    split; [apply sized_ints_live; lia|].
    split; [apply sized_ints_live; lia|].
    split; [apply sized_vals_live; lia|].
    repeat (split; [done|]).
    split; [rewrite Hrow by lia; lia|].
    split; [rewrite Hrow by lia; lia|].
    intros i Hi. rewrite !Hrow by lia. specialize (Hmono i Hi). lia.
  - rewrite Hir. unfold load_int. rewrite <- Hlenr.
    apply (map_at_seqZ (λ v, v - base)).
  - intros i Hi. unfold csr_row. simpl.
    rewrite !Hrow by lia.
    pose proof (offsets_in_range m nnz base A h Hfirst Hlast Hmono i
                  ltac:(lia)) as Hbi.
    pose proof (offsets_in_range m nnz base A h Hfirst Hlast Hmono (i + 1)
                  ltac:(lia)) as Hbi1.
    replace (load_int h (csr_row_ptr A) i - base - 0)
      with (load_int h (csr_row_ptr A) i - base) by lia.
    replace (load_int h (csr_row_ptr A) (i + 1) - base
             - (load_int h (csr_row_ptr A) i - base))
      with (load_int h (csr_row_ptr A) (i + 1) - load_int h (csr_row_ptr A) i)
      by lia.
    apply list_fmap_ext. intros k idx [-> Hk]%lookup_seqZ.
    rewrite Hcol, Hval by lia. f_equal. lia.
Qed.

(** X14.  For a valid matrix with [m > 0] rows and [nnz > 0] entries,
    when the three requests for memory are served: [aoclsparse_copy_csr]
    returns success; [*As] points to three new allocations that hold a
    valid matrix in base zero; each of its rows holds the pairs
    (column - base, value) of the same row of [A], in the same order; and
    the buffers of [A] hold what they held. *)
Theorem copy_csr_same_rows m n nnz base A As h :
  valid_csr m nnz base A h → 0 < m → 0 < nnz → grants 3 h = true →
  ∃ As' h',
    aoclsparse_copy_csr m n nnz base A As h
    = (aoclsparse_status_success, As', h')
    ∧ (∀ p, p ∈ [csr_row_ptr As'; csr_col_ptr As'; csr_val As'] →
         ¬ live h p)
    ∧ valid_csr m nnz 0 As' h'
    ∧ same_matrix A h h'
    ∧ ∀ i, 0 ≤ i < m → csr_row 0 As' h' i = csr_row base A h i.
Proof.
  intros Hvalid Hm Hnnz Hg.
  destruct (copy_csr_valid m n nnz base A As h Hvalid Hm Hnnz Hg)
    as (row & col & val & h' & Hcall & Hr & Hc & Hv & Hnd & Hp & _ & Hvalid'
        & _ & Hrows).
  destruct Hvalid as (_ & Hlr & Hlc & Hlv & _).
  exists (Csr (Some row) (Some col) (Some val)), h'.
  split; [done|]. split; [|split; [done|split; [|done]]].
  - intros p Hin (l & -> & [b Hl]). simpl in Hin.
    repeat (apply elem_of_cons in Hin as [[= ->]|Hin]; [congruence|]).
    by apply elem_of_nil in Hin.
  - by apply preserved_same_matrix.
Qed.
End CopyAsMatrix.

(** Witness of [copy_csr_same_rows]: three rows in base one. *)
Lemma copy_csr_same_rows_witness :
  ∃ As' h',
    aoclsparse_copy_csr 3 3 6 1 csr_123 (Csr None None None)
      (memory_of [1; 4; 4; 7] [3; 1; 2; 3; 2; 1] [10; 20; 30; 40; 50; 60])
    = (aoclsparse_status_success, As', h')
    ∧ (∀ p, p ∈ [csr_row_ptr As'; csr_col_ptr As'; csr_val As'] →
         ¬ live (memory_of [1; 4; 4; 7] [3; 1; 2; 3; 2; 1]
                   [10; 20; 30; 40; 50; 60]) p)
    ∧ valid_csr 3 6 0 As' h'
    ∧ same_matrix csr_123
        (memory_of [1; 4; 4; 7] [3; 1; 2; 3; 2; 1] [10; 20; 30; 40; 50; 60]) h'
    ∧ ∀ i, 0 ≤ i < 3 →
        csr_row 0 As' h' i
        = csr_row 1 csr_123
            (memory_of [1; 4; 4; 7] [3; 1; 2; 3; 2; 1]
               [10; 20; 30; 40; 50; 60]) i.
Proof.
  apply (copy_csr_same_rows 3 3 6 1 csr_123 (Csr None None None)
           (memory_of [1; 4; 4; 7] [3; 1; 2; 3; 2; 1]
              [10; 20; 30; 40; 50; 60])).
  - split; [lia|].
    split; [eexists; split; [reflexivity|]; vm_compute; eauto|].
    split; [eexists; split; [reflexivity|]; vm_compute; eauto|].
    split; [eexists; split; [reflexivity|]; vm_compute; eauto|].
    repeat (split; [reflexivity|]).
    intros i Hi. assert (i = 0 ∨ i = 1 ∨ i = 2) as Hc by lia.
    destruct Hc as [->|[->| ->]]; vm_compute; discriminate.
  - lia.
  - lia.
  - reflexivity.
Defined.

(** * The sort: what it writes, and what it returns *)

Section SortedLists.
Context {X : Type}.
Implicit Types (l : list (Z * X)).

Lemma strictly_increasing_NoDup (cols : list Z) :
  strictly_increasing cols = true → NoDup cols.
Proof.
  induction cols as [|c cols IH]; intros Hs; [constructor|].
  apply strictly_increasing_cons_iff in Hs as [Hs Hlt].
  constructor; [|by apply IH].
  intros Hin. specialize (Hlt c Hin). lia.
Qed.

(** Two lists of entries with strictly increasing columns that are
    permutations of each other are equal. *)
Lemma sorted_perm_eq l1 l2 :
  strictly_increasing l1.*1 = true → strictly_increasing l2.*1 = true →
  l1 ≡ₚ l2 → l1 = l2.
Proof.
  revert l2. induction l1 as [|a l1 IH]; intros l2 Hs1 Hs2 Hp.
  - by apply Permutation_nil in Hp.
  - destruct l2 as [|b l2]; [by apply Permutation_sym, Permutation_nil in Hp|].
    rewrite fmap_cons in Hs1, Hs2.
    apply strictly_increasing_cons_iff in Hs1 as [Hs1 Hlt1].
    apply strictly_increasing_cons_iff in Hs2 as [Hs2 Hlt2].
    assert (a = b) as <-.
    { assert (a ∈ b :: l2) as Ha.
      { rewrite <- Hp. apply elem_of_cons. by left. }
      assert (b ∈ a :: l1) as Hb.
      { rewrite Hp. apply elem_of_cons. by left. }
      apply elem_of_cons in Ha as [Ha|Ha]; [done|].
      apply elem_of_cons in Hb as [Hb|Hb]; [done|].
      specialize (Hlt2 a.1 ltac:(by apply list_elem_of_fmap_2)).
      specialize (Hlt1 b.1 ltac:(by apply list_elem_of_fmap_2)). lia. }
    f_equal. apply IH; [done..|]. by apply Permutation_cons_inv in Hp.
Qed.
End SortedLists.

Section SortFrame.
Context {T : Type} `{Scalar T}.
Variable std_sort : (Z → Z → bool) → list Z → option (list Z).
Implicit Types (h : heap T) (A As : aoclsparse_csr).

(** A loop of stores to [p] and [q] writes to no other allocation and
    neither makes nor frees one. *)
Lemma stores_frame p q (g : heap T → Z → Z) (g' : heap T → Z → T) lo hi h :
  let h' :=
    for_range lo hi
      (λ i h, let h := store_int h p i (g h i) in store_val h q i (g' h i))
      h in
  oracle h' = oracle h
  ∧ dom (blocks h') = dom (blocks h)
  ∧ same_except [p; q] h h'.
Proof.
  intros h'. subst h'.
  destruct (decide (lo ≤ hi)) as [Hle|Hgt].
  2: { rewrite !for_range_empty by lia. repeat split; try done. }
  apply (for_range_ind
           (λ j hj,
              oracle hj = oracle h
              ∧ dom (blocks hj) = dom (blocks h)
              ∧ same_except [p; q] h hj)).
  - done.
  - repeat split; try done.
  - intros j hj Hj (Ho & Hd & Hs).
    rewrite oracle_store_val, oracle_store_int, dom_store_val, dom_store_int.
    repeat split; try done.
    eapply same_except_trans; [done|].
    apply (same_except_trans _ _ (store_int hj p j (g hj j))).
    + apply same_except_store_int. set_solver.
    + apply same_except_store_val. set_solver.
Qed.

(** The body of the loop over the rows, when its sort returns, writes to
    the column and the value buffer of [As] only. *)
Lemma sort_row_frame base A As j s s' :
  sort_row std_sort base A As j s = Some s' →
  oracle s'.2 = oracle s.2
  ∧ dom (blocks s'.2) = dom (blocks s.2)
  ∧ same_except [csr_col_ptr As; csr_val As] s.2 s'.2.
Proof.
  destruct s as [pj hj]. unfold sort_row.
  set (idx := load_int hj (csr_row_ptr A) j - base).
  set (nnzrow := load_int hj (csr_row_ptr A) (j + 1) - base - idx).
  destruct (sort_range std_sort idx (idx + nnzrow) _ pj) as [perm'|];
    [|done].
  intros [= <-]. cbn [snd].
  apply (stores_frame (csr_col_ptr As) (csr_val As)
           (λ h k, load_int h (csr_col_ptr A) (at_ 0 perm' k) - base)
           (λ h k, load_val h (csr_val A) (at_ 0 perm' k))
           idx (idx + nnzrow) hj).
Qed.

(** So does the loop, when every sort has returned. *)
Lemma sort_rows_frame base A As m s s' :
  sort_rows std_sort m base A As s = Some s' →
  oracle s'.2 = oracle s.2
  ∧ dom (blocks s'.2) = dom (blocks s.2)
  ∧ same_except [csr_col_ptr As; csr_val As] s.2 s'.2.
Proof.
  unfold sort_rows.
  destruct (decide (0 ≤ m)) as [Hle|Hgt].
  2: { rewrite !for_range_empty by lia. intros [= <-].
       repeat split; try done. }
  revert s'.
  apply (for_range_ind
           (λ j os,
              ∀ s', os = Some s' →
                oracle s'.2 = oracle s.2
                ∧ dom (blocks s'.2) = dom (blocks s.2)
                ∧ same_except [csr_col_ptr As; csr_val As] s.2 s'.2)).
  - done.
  - intros s' [= <-]. repeat split; try done.
  - intros j [sj|] Hj IH s' Hrow; [|done].
    destruct (IH sj eq_refl) as (Ho & Hd & Hs).
    destruct (sort_row_frame base A As j sj s' Hrow) as (Ho' & Hd' & Hs').
    rewrite Ho', Hd'. repeat split; try done.
    by eapply same_except_trans.
Qed.

(** What a call on the input the driver prepares does. *)
Lemma sort_csr_run m n nnz base A As h :
  std_sort_contract std_sort →
  sort_input m nnz base A As h →
  (∀ i, 0 ≤ i < m → NoDup (row_columns base A h i)) →
  grants 1 h = true →
  ∃ h',
    aoclsparse_sort_csr std_sort m n nnz base A As h
    = Returns (aoclsparse_status_success, h')
    ∧ same_except [csr_col_ptr As; csr_val As] h h'
    ∧ oracle h' = (if decide (m = 0 ∨ nnz = 0) then oracle h
                   else tail (oracle h))
    ∧ Z.of_nat (length (ints_at h' (csr_col_ptr As))) = nnz
    ∧ Z.of_nat (length (vals_at h' (csr_val As))) = nnz
    ∧ ∀ i, 0 ≤ i < m →
        csr_row 0 As h' i ≡ₚ csr_row base A h i
        ∧ strictly_increasing (csr_row 0 As h' i).*1 = true.
Proof.
  intros Hsort Hin Hdistinct Hg.
  pose proof Hin
    as (Hm & Hnnz & Hlr & Hlc & Hlv & H0 & Hend & Hmono & Hrow & HlcS & HlvS
        & Hapart).
  unfold aoclsparse_sort_csr.
  destruct (decide (m = 0 ∨ nnz = 0)) as [Hempty|Hfull].
  { assert (bool_decide (m = 0) || bool_decide (nnz = 0) = true) as ->.
    { destruct Hempty as [-> | ->]; [done|].
      by rewrite (bool_decide_true (0 = 0)), orb_true_r. }
    exists h. split; [done|]. split; [apply same_except_refl|].
    do 3 (split; [done|]). intros i Hi.
    assert (nnz = 0) as -> by lia.
    pose proof (offsets_monotone (λ i, load_int h (csr_row_ptr A) i) m Hmono
                  0 i ltac:(lia) ltac:(lia)) as Hlow.
    pose proof (offsets_monotone (λ i, load_int h (csr_row_ptr A) i) m Hmono
                  (i + 1) m ltac:(lia) ltac:(lia)) as Hhigh.
    simpl in Hlow, Hhigh.
    assert (csr_row base A h i = []) as ->.
    { unfold csr_row. by rewrite seqZ_nil by lia. }
    assert (csr_row 0 As h i = []) as ->; [|done].
    unfold csr_row, load_int. rewrite Hrow.
    rewrite !(at_fmap_in_range (λ v, v - base)) by lia.
    unfold load_int in Hlow, Hhigh, H0, Hend.
    by rewrite seqZ_nil by lia. }
  assert (0 < m ∧ 0 < nnz) as [Hm' Hnnz'] by lia.
  rewrite !(bool_decide_false (_ = 0)) by lia.
  rewrite !(sized_not_null h) by (first [left; lia | right; lia]).
  unfold vector_storage. rewrite !bool_decide_false by lia.
  rewrite request_memory_served by (done || lia).
  cbv beta iota zeta.
  set (h0 := Heap (blocks h) (tail (oracle h))).
  rewrite fill_all by (rewrite length_replicate; lia).
  assert (∃ s', sort_rows std_sort m base A As
                  (((λ j : Z, j) <$> seqZ 0 nnz), h0) = Some s'
                ∧ rows_done nnz base A As h0 m s')
    as ([perm h'] & Hloop & Hdone).
  { apply (sort_rows_done std_sort Hsort m nnz base A As h0); [done..|].
    split; [apply same_except_refl|].
    split; [done|]. split; [done|].
    split; [by rewrite length_fmap, length_seqZ; lia|].
    split; [|intros; lia].
    intros k Hk. change (load_int h0 (csr_row_ptr A) 0) with
      (load_int h (csr_row_ptr A) 0) in Hk.
    rewrite (at_fmap_seqZ (λ j, j) 0 0 nnz k) by lia. lia. }
  destruct (sort_rows_frame base A As m _ _ Hloop) as (Horacle & _ & _).
  rewrite Hloop.
  destruct Hdone as (Hs & Hlc' & Hlv' & _ & _ & Hrows).
  exists h'. by repeat (split; [done|]).
Qed.

(** X15.  [aoclsparse_sort_csr], case by case in the order of the code:
    [m == 0] or [nnz == 0] gives success at once; else a null buffer of
    [A] gives invalid_pointer; in both cases the memory is as it was.
    Else a negative [nnz] makes the resize of [perm] throw an exception
    that the handler for [std::bad_alloc] does not catch.  Else, when
    the storage of [perm] is refused, the call returns memory_error and
    no allocation has changed.  When it is served, on the input the
    driver prepares: either a call of [std::sort] has no result, and
    the behaviour is undefined, or the call returns success and has
    written to the column and the value buffer of [As] and to no other
    allocation, and has made and freed none; every sort has a result
    when no row holds a column twice and [std::sort] meets its
    contract. *)
Theorem sort_csr_outcomes m n nnz base A As h :
  let r := aoclsparse_sort_csr std_sort m n nnz base A As h in
  if decide (m = 0 ∨ nnz = 0)
  then r = Returns (aoclsparse_status_success, h)
  else if is_null (csr_col_ptr A) || is_null (csr_row_ptr A)
          || is_null (csr_val A)
  then r = Returns (aoclsparse_status_invalid_pointer, h)
  else if decide (nnz < 0) then r = Throws
  else if grants 1 h
  then sort_input m nnz base A As h →
       (r = Undefined
        ∨ ∃ h', r = Returns (aoclsparse_status_success, h')
                ∧ same_except [csr_col_ptr As; csr_val As] h h'
                ∧ dom (blocks h') = dom (blocks h))
       ∧ (std_sort_contract std_sort →
          (∀ i, 0 ≤ i < m → NoDup (row_columns base A h i)) →
          r ≠ Undefined)
  else ∃ h', r = Returns (aoclsparse_status_memory_error, h')
             ∧ blocks h' = blocks h.
Proof.
  intros r.
  assert (grants 1 h = true →
          sort_input m nnz base A As h →
          std_sort_contract std_sort →
          (∀ i, 0 ≤ i < m → NoDup (row_columns base A h i)) →
          r ≠ Undefined) as Hreturns.
  { intros Hg Hin Hsort Hnd.
    destruct (sort_csr_run m n nnz base A As h Hsort Hin Hnd Hg)
      as (h' & Hcall & _).
    subst r. by rewrite Hcall. }
  revert Hreturns. subst r. unfold aoclsparse_sort_csr.
  case_decide as Hzero.
  { replace (bool_decide (m = 0) || bool_decide (nnz = 0)) with true; [done|].
    symmetry. rewrite orb_true_iff, !bool_decide_eq_true. tauto. }
  rewrite !(bool_decide_false (_ = 0)) by tauto. simpl.
  destruct (is_null (csr_col_ptr A) || is_null (csr_row_ptr A)
            || is_null (csr_val A)); [done|].
  unfold vector_storage. case_decide as Hneg.
  { by rewrite bool_decide_true. }
  rewrite bool_decide_false by done.
  rewrite (bool_decide_false (nnz = 0)) by tauto.
  destruct (grants 1 h) eqn:Hg.
  - rewrite request_memory_served by (done || lia).
    cbv beta iota zeta.
    set (h0 := Heap (blocks h) (tail (oracle h))).
    set (perm := for_range 0 nnz _ _).
    intros Hreturns Hin. split; [|by apply Hreturns].
    destruct (sort_rows std_sort m base A As (perm, h0))
      as [[perm' h']|] eqn:Hloop; [right|by left].
    destruct (sort_rows_frame base A As m _ _ Hloop) as (_ & Hd & Hs).
    exists h'. by repeat split.
  - intros _. destruct (request_memory_refused nnz h) as [o ->]; [by right|].
    by eexists.
Qed.

(** X16.  On the input the driver prepares, with rows whose columns
    increase strictly already, and the storage of [perm] served:
    [aoclsparse_sort_csr] returns success and every row of [As] holds
    the pairs (column - base, value) of the same row of [A], in the
    order of [A]. *)
Theorem sort_csr_sorted_rows_unchanged m n nnz base A As h :
  std_sort_contract std_sort →
  sort_input m nnz base A As h →
  rows_sorted m base A h →
  grants 1 h = true →
  ∃ h',
    aoclsparse_sort_csr std_sort m n nnz base A As h
    = Returns (aoclsparse_status_success, h')
    ∧ ∀ i, 0 ≤ i < m → csr_row 0 As h' i = csr_row base A h i.
Proof.
  intros Hsort Hin Hsorted Hg.
  destruct (sort_csr_run m n nnz base A As h Hsort Hin) as
    (h' & Hcall & _ & _ & _ & _ & Hrows); [|done|].
  { intros i Hi. apply strictly_increasing_NoDup. by apply Hsorted. }
  exists h'. split; [done|]. intros i Hi.
  destruct (Hrows i Hi) as [Hperm Hinc].
  apply sorted_perm_eq; [done| |done].
  rewrite csr_row_columns. by apply Hsorted.
Qed.
End SortFrame.

(** Witness of [sort_csr_sorted_rows_unchanged]: three sorted rows in base
    one, sorted by insertion sort. *)
Lemma sort_csr_sorted_rows_unchanged_witness :
  ∃ h',
    aoclsparse_sort_csr insertion_sort 3 3 4 1 csr_123 csr_456 sorted_base_one
    = Returns (aoclsparse_status_success, h')
    ∧ ∀ i, 0 ≤ i < 3 →
        csr_row 0 csr_456 h' i = csr_row 1 csr_123 sorted_base_one i.
Proof.
  apply (sort_csr_sorted_rows_unchanged insertion_sort 3 3 4 1 csr_123 csr_456
           sorted_base_one insertion_sort_contract).
  - repeat split; try reflexivity; try lia.
    + intros i Hi. assert (i = 0 ∨ i = 1 ∨ i = 2) as Hc by lia.
      destruct Hc as [->|[->| ->]]; vm_compute; discriminate.
    + intros p Hp Hq.
      repeat (apply elem_of_cons in Hp as [->|Hp]);
        try (by apply elem_of_nil in Hp);
        repeat (apply elem_of_cons in Hq as [Hq|Hq]; try discriminate Hq);
        by apply elem_of_nil in Hq.
  - intros i Hi. assert (i = 0 ∨ i = 1 ∨ i = 2) as Hc by lia.
    destruct Hc as [->|[->| ->]]; reflexivity.
  - reflexivity.
Defined.

(** Witness of [sort_csr_outcomes]: three rows in base one, none with a
    column twice, sorted by insertion sort. *)
Lemma sort_csr_outcomes_witness :
  ∃ h',
    aoclsparse_sort_csr insertion_sort 3 3 6 1 csr_123 csr_456
      unsorted_base_one
    = Returns (aoclsparse_status_success, h')
    ∧ same_except [csr_col_ptr csr_456; csr_val csr_456] unsorted_base_one h'
    ∧ dom (blocks h') = dom (blocks unsorted_base_one).
Proof.
  assert (sort_input 3 6 1 csr_123 csr_456 unsorted_base_one) as Hin.
  { repeat split; try reflexivity; try lia.
    - intros i Hi. assert (i = 0 ∨ i = 1 ∨ i = 2) as Hc by lia.
      destruct Hc as [->|[->| ->]]; vm_compute; discriminate.
    - intros p Hp Hq.
      repeat (apply elem_of_cons in Hp as [->|Hp]);
        try (by apply elem_of_nil in Hp);
        repeat (apply elem_of_cons in Hq as [Hq|Hq]; try discriminate Hq);
        by apply elem_of_nil in Hq. }
  destruct (sort_csr_outcomes insertion_sort 3 3 6 1 csr_123 csr_456
              unsorted_base_one Hin) as [[Hu|Hr] Hdef]; [|exact Hr].
  exfalso. apply Hdef; [apply insertion_sort_contract| |exact Hu].
  intros i Hi. assert (i = 0 ∨ i = 1 ∨ i = 2) as Hc by lia.
  destruct Hc as [->|[->| ->]]; apply (bool_decide_unpack _); by vm_compute.
Defined.

(** A sort without result on a row that holds a column twice: the call
    has none either, where insertion sort gives success. *)
Example sort_csr_sort_does_not_return :
  aoclsparse_sort_csr
    (λ comp l, if bool_decide (NoDup (load_int duplicate_columns
                                        (csr_col_ptr csr_123) <$> l))
               then insertion_sort comp l else None)
    1 2 2 0 csr_123 csr_456 duplicate_columns
  = Undefined
  ∧ ∃ h', aoclsparse_sort_csr insertion_sort 1 2 2 0 csr_123 csr_456
            duplicate_columns
          = Returns (aoclsparse_status_success, h').
Proof. split; [by vm_compute|]. eexists. by vm_compute. Qed.

(** * The memory of aoclsparse_csr_fill_diag *)

Section Writes.
Context {T : Type} `{Scalar T}.
Implicit Types (h : heap T) (p q : ptr) (W : list ptr).

(** A loop keeps what every turn keeps. *)
Lemma for_range_inv {St} (P : St → Prop) lo hi (body : Z → St → St) s :
  P s → (∀ j s', lo ≤ j < hi → P s' → P (body j s')) →
  P (for_range lo hi body s).
Proof.
  intros Hs Hbody. destruct (decide (lo ≤ hi)) as [Hle|Hgt].
  - by apply (for_range_ind (λ _, P)).
  - by rewrite for_range_empty by lia.
Qed.

Lemma writes_only_refl W h : writes_only W h h.
Proof. split; [apply same_except_refl|]. by repeat split. Qed.

Lemma writes_only_trans W h1 h2 h3 :
  writes_only W h1 h2 → writes_only W h2 h3 → writes_only W h1 h3.
Proof.
  intros [Hs (Ho & Hd & Hi & Hv)] [Hs' (Ho' & Hd' & Hi' & Hv')].
  split; [by eapply same_except_trans|].
  split; [congruence|]. split; [congruence|].
  split; intros q; [by rewrite Hi'|by rewrite Hv'].
Qed.

Lemma writes_only_store_int W h p i v :
  p ∈ W → writes_only W h (store_int h p i v).
Proof.
  intros Hp. split; [by apply same_except_store_int|].
  split; [apply oracle_store_int|]. split; [apply dom_store_int|].
  split; intros q; [|by rewrite vals_at_store_int].
  destruct (decide (p = q)) as [->|Hne].
  - by rewrite ints_at_store_int_eq, length_set_.
  - by rewrite ints_at_store_int_ne.
Qed.

Lemma writes_only_store_val W h p i (v : T) :
  p ∈ W → writes_only W h (store_val h p i v).
Proof.
  intros Hp. split; [by apply same_except_store_val|].
  split; [apply oracle_store_val|]. split; [apply dom_store_val|].
  split; intros q; [by rewrite ints_at_store_val|].
  destruct (decide (p = q)) as [->|Hne].
  - by rewrite vals_at_store_val_eq, length_set_.
  - by rewrite vals_at_store_val_ne.
Qed.

Local Ltac stores Hw :=
  cbv beta iota zeta; cbn [fst snd];
  repeat (eapply writes_only_trans;
          [|first [apply writes_only_store_int
                  |apply writes_only_store_val]; set_solver]);
  exact Hw.

Lemma add_diag_writes icrow icol aval i h0 h na nc :
  writes_only [icrow; icol; aval] h0 h →
  writes_only [icrow; icol; aval] h0 (add_diag icol aval i (h, na, nc)).1.1.
Proof. intros Hw. unfold add_diag. stores Hw. Qed.

Lemma copy_entry_writes base A md icrow icol aval i idx h0
    (s : heap T * Z * Z) :
  writes_only [icrow; icol; aval] h0 s.1.1 →
  writes_only [icrow; icol; aval] h0
    (copy_entry base A md icol aval i idx s).1.1.
Proof.
  destruct s as [[h na] nc]. cbn [fst]. intros Hw.
  unfold copy_entry, add_diag.
  destruct (bool_decide (nc = at_ 0 md i)); stores Hw.
Qed.

Lemma fill_row_writes base A md icrow icol aval i h0 (s : heap T * Z * Z) :
  writes_only [icrow; icol; aval] h0 s.1.1 →
  writes_only [icrow; icol; aval] h0
    (fill_row base A md icrow icol aval i s).1.1.
Proof.
  destruct s as [[h na] nc]. cbn [fst]. intros Hw. unfold fill_row.
  set (h1 := store_int h icrow i _).
  assert (writes_only [icrow; icol; aval] h0 h1) as Hw1 by (subst h1; stores Hw).
  match goal with
  | |- context [for_range ?lo ?hi ?body ?s0] =>
      pose proof (for_range_inv
                    (λ s : heap T * Z * Z,
                       writes_only [icrow; icol; aval] h0 s.1.1)
                    lo hi body s0 Hw1) as Hloop;
      destruct (for_range lo hi body s0) as [[h2 na2] nc2]
  end.
  cbn [fst] in Hloop.
  assert (writes_only [icrow; icol; aval] h0 h2) as Hw2.
  { apply Hloop. intros j s' _ Hs'. by apply copy_entry_writes. }
  destruct (bool_decide (nc2 = at_ 0 md i)); [|done].
  by apply add_diag_writes.
Qed.

(** The second pass writes to the three new buffers only. *)
Lemma fill_rows_writes m base A md icrow icol aval h :
  writes_only [icrow; icol; aval] h
    (fill_rows m base A md icrow icol aval h).1.1.
Proof.
  unfold fill_rows.
  apply (for_range_inv
           (λ s : heap T * Z * Z, writes_only [icrow; icol; aval] h s.1.1)).
  - apply writes_only_refl.
  - intros j s' _ Hs'. by apply fill_row_writes.
Qed.
End Writes.

Section FillDiagMemory.
Context {T : Type} `{Scalar T}.
Implicit Types (h : heap T) (A : aoclsparse_csr).

Lemma new_vals_cases n h p h' :
  new_vals n h = (p, h') →
  match p with
  | None => blocks h' = blocks h
  | Some l =>
      blocks h !! l = None
      ∧ blocks h' = <[l := ValBlock (replicate (Z.to_nat n) szero)]> (blocks h)
  end.
Proof.
  unfold new_vals, request_memory.
  case_bool_decide; [by intros [= <- <-]|].
  destruct (oracle h) as [|[] o]; simpl; intros [= <- <-]; simpl; try done;
    (split; [apply fresh_not_live|done]).
Qed.

Lemma lookup_delete_ptr p h l :
  blocks (delete_ptr p h) !! l
  = if decide (p = Some l) then None else blocks h !! l.
Proof.
  destruct p as [l'|]; simpl.
  - rewrite lookup_delete. repeat case_decide; congruence.
  - done.
Qed.

(** The storage of a vector of [n] elements: none is requested for
    [n = 0]; a request changes no allocation, served or refused. *)
Lemma vector_storage_blocks n h :
  0 ≤ n →
  ∃ h1, vector_storage n h
        = Returns (bool_decide (n = 0) || grants 1 h, h1)
        ∧ blocks h1 = blocks h.
Proof.
  intros Hn. unfold vector_storage. rewrite bool_decide_false by lia.
  case_bool_decide as Hz; [by exists h|]. simpl.
  destruct (grants 1 h) eqn:Hg.
  - rewrite request_memory_served by (done || lia). by eexists.
  - destruct (request_memory_refused n h) as [o ->]; [by right|].
    by eexists.
Qed.

(** X17.  [aoclsparse_csr_fill_diag], where it stops: a negative [m]
    makes the constructor of [missing_diag] throw an exception that the
    handler for [std::bad_alloc] does not catch.  Else the vector asks
    for storage unless [m = 0]; when that request is refused the call
    returns memory_error.  Else a null buffer gives invalid_pointer.
    Else, on a valid matrix, the call returns success or memory_error.
    Whenever the status is not success, the structure is as it was and
    so is every allocation: the buffers obtained before a request was
    refused have been freed. *)
Theorem fill_diag_failure_keeps_memory m n nnz base A h :
  let r := aoclsparse_csr_fill_diag m n nnz base A h in
  if decide (m < 0) then r = Throws
  else if bool_decide (m = 0) || grants 1 h
  then if is_null (csr_col_ptr A) || is_null (csr_row_ptr A)
          || is_null (csr_val A)
       then ∃ h', r = Returns (aoclsparse_status_invalid_pointer, A, h')
                  ∧ blocks h' = blocks h
       else valid_csr m nnz base A h →
            ∃ st A' h',
              r = Returns (st, A', h')
              ∧ (st = aoclsparse_status_success
                 ∨ (st = aoclsparse_status_memory_error ∧ A' = A
                    ∧ blocks h' = blocks h))
  else ∃ h', r = Returns (aoclsparse_status_memory_error, A, h')
             ∧ blocks h' = blocks h.
Proof.
  intros r. subst r. unfold aoclsparse_csr_fill_diag.
  case_decide as Hm.
  { unfold vector_storage. by rewrite bool_decide_true. }
  destruct (vector_storage_blocks m h ltac:(lia)) as (h1 & -> & Hb1).
  destruct (bool_decide (m = 0) || grants 1 h); [|by eexists].
  destruct (is_null (csr_col_ptr A) || is_null (csr_row_ptr A)
            || is_null (csr_val A)); [by eexists|].
  intros _.
  destruct (find_missing_diag m n base A h1 _) as [md count].
  case_bool_decide; [eexists _, _, _; split; [done|by left]|].
  destruct (new_ints (m + 1) h1) as [[icrow|] h2] eqn:Hn1;
    apply new_ints_cases in Hn1.
  2: { eexists _, _, _. split; [done|]. right. by rewrite Hn1. }
  destruct Hn1 as [Hf1 Hb2].
  destruct (new_ints (nnz + count) h2) as [[icol|] h3] eqn:Hn2;
    apply new_ints_cases in Hn2.
  2: { eexists _, _, _. split; [done|]. right. do 2 (split; [done|]).
       simpl. rewrite Hn2, Hb2, <- Hb1. by apply delete_insert_id. }
  destruct Hn2 as [Hf2 Hb3].
  assert (icrow ≠ icol) as Hne.
  { intros <-. rewrite Hb2, lookup_insert_eq in Hf2. done. }
  destruct (new_vals (nnz + count) h3) as [[aval|] h4] eqn:Hn3;
    apply new_vals_cases in Hn3.
  2: { eexists _, _, _. split; [done|]. right. do 2 (split; [done|]).
       simpl. rewrite Hn3, Hb3, Hb2, <- Hb1.
       rewrite delete_insert_ne by done.
       rewrite (delete_insert_id (blocks h1) icrow) by done.
       apply (delete_insert_id (blocks h1)). rewrite Hb2 in Hf2.
       by rewrite lookup_insert_ne in Hf2. }
  destruct (fill_rows m base A md _ _ _ h4) as [[h5 na] nc].
  eexists _, _, _. split; [done|]. by left.
Qed.

(** The allocations of a call on a valid matrix that adds diagonals. *)
Lemma fill_diag_memory m n nnz base A h st A' h' :
  valid_csr m nnz base A h →
  aoclsparse_csr_fill_diag m n nnz base A h = Returns (st, A', h') →
  st = aoclsparse_status_success →
  0 < flagged_below n base A h m →
  ∃ icrow icol aval,
    A' = Csr (Some icrow) (Some icol) (Some aval)
    ∧ blocks h !! icrow = None ∧ blocks h !! icol = None
    ∧ blocks h !! aval = None
    ∧ Z.of_nat (length (ints_at h' (Some icrow))) = m + 1
    ∧ Z.of_nat (length (ints_at h' (Some icol)))
      = nnz + flagged_below n base A h m
    ∧ Z.of_nat (length (vals_at h' (Some aval)))
      = nnz + flagged_below n base A h m
    ∧ ∀ l, l ∉ [icrow; icol; aval] →
        blocks h' !! l
        = if decide (Some l ∈ buffers A) then None else blocks h !! l.
Proof.
  intros (Hm & Hlr & Hlc & Hlv & Hlenr & Hlenc & Hlenv & Hfirst & Hlast
          & Hmono) Hcall -> Hsome.
  pose proof (offsets_in_range m nnz base A h Hfirst Hlast Hmono 0
                ltac:(lia)) as Hnnz.
  assert (m ≠ 0) as Hm0.
  { intros ->. rewrite flagged_below_0 in Hsome. lia. }
  revert Hcall. unfold aoclsparse_csr_fill_diag, vector_storage.
  rewrite bool_decide_false by lia.
  rewrite (bool_decide_false (m = 0)) by done.
  destruct (request_memory m h) as [b h1] eqn:Hreq.
  destruct (request_memory_inv m h b h1 Hm Hreq) as (Hb1 & Ho1 & Hg1).
  destruct b; [|done].
  pose proof (same_matrix_blocks A h h1 Hb1) as Hs1.
  rewrite (live_not_null h _ Hlr), (live_not_null h _ Hlc),
    (live_not_null h _ Hlv). simpl.
  destruct (find_missing_diag_spec m n base A h1 Hm)
    as (md & -> & Hlenmd & Hmd).
  rewrite (same_matrix_flagged_below A h h1 Hs1).
  rewrite bool_decide_false by lia.
  destruct (new_ints (m + 1) h1) as [[icrow|] h2] eqn:Hn1; [|done].
  destruct (new_ints_inv (m + 1) h1 _ h2 ltac:(lia) Hn1)
    as (Ho2 & Hg2 & Hf1 & Hb2).
  destruct (new_ints (nnz + flagged_below n base A h m) h2)
    as [[icol|] h3] eqn:Hn2; [|done].
  destruct (new_ints_inv (nnz + flagged_below n base A h m) h2 _ h3
              ltac:(lia) Hn2) as (Ho3 & Hg3 & Hf2 & Hb3).
  destruct (new_vals (nnz + flagged_below n base A h m) h3)
    as [[aval|] h4] eqn:Hn3; [|done].
  destruct (new_vals_inv (nnz + flagged_below n base A h m) h3 _ h4
              ltac:(lia) Hn3) as (Ho4 & Hg4 & Hf3 & Hb4).
  assert (icrow ≠ icol) as Hne12.
  { intros <-. rewrite Hb2, lookup_insert_eq in Hf2. done. }
  assert (icol ≠ aval) as Hne23.
  { intros <-. rewrite Hb3, lookup_insert_eq in Hf3. done. }
  assert (icrow ≠ aval) as Hne13.
  { intros <-. rewrite Hb3, Hb2 in Hf3.
    rewrite lookup_insert_ne, lookup_insert_eq in Hf3 by done. done. }
  assert (blocks h !! icrow = None) as Hfr1 by (by rewrite <- Hb1).
  assert (blocks h !! icol = None) as Hfr2.
  { rewrite Hb2, lookup_insert_ne in Hf2 by done. by rewrite <- Hb1. }
  assert (blocks h !! aval = None) as Hfr3.
  { rewrite Hb3, Hb2, !lookup_insert_ne in Hf3 by done. by rewrite <- Hb1. }
  assert (∀ p, live h p → p ∉ [Some icrow; Some icol; Some aval]) as Hapart.
  { intros p (l & -> & [b Hl]) Hin.
    repeat (apply elem_of_cons in Hin as [[= ->]|Hin]; [congruence|]).
    by apply elem_of_nil in Hin. }
  assert (∀ p q, live h p → q ∈ [Some icrow; Some icol; Some aval] → p ≠ q)
    as Hdiff.
  { intros p q Hp Hq ->. by apply (Hapart _ Hp). }
  assert (ints_at h4 (Some icrow) = replicate (Z.to_nat (m + 1)) 0) as Hi1.
  { unfold ints_at. rewrite Hb4, Hb3, Hb2.
    rewrite !lookup_insert_ne by done. by rewrite lookup_insert_eq. }
  assert (ints_at h4 (Some icol)
          = replicate (Z.to_nat (nnz + flagged_below n base A h m)) 0)
    as Hi2.
  { unfold ints_at. rewrite Hb4, Hb3.
    rewrite !lookup_insert_ne by done. by rewrite lookup_insert_eq. }
  assert (vals_at h4 (Some aval)
          = replicate (Z.to_nat (nnz + flagged_below n base A h m)) szero)
    as Hi3.
  { unfold vals_at. rewrite Hb4. by rewrite lookup_insert_eq. }
  pose proof (fill_rows_writes m base A md (Some icrow) (Some icol)
                (Some aval) h4) as Hw5.
  destruct (fill_rows m base A md (Some icrow) (Some icol) (Some aval) h4)
    as [[h5 na] nc].
  cbn [fst] in Hw5.
  set (h6 := store_int h5 (Some icrow) m _).
  assert (writes_only [Some icrow; Some icol; Some aval] h4 h6)
    as [Hs6 (_ & _ & Hsi & Hsv)].
  { eapply writes_only_trans; [done|].
    apply writes_only_store_int. set_solver. }
  intros [= <- <-].
  exists icrow, icol, aval. repeat (split; [done|]).
  split; [|split; [|split]].
  - rewrite !ints_at_delete_ptr by (apply Hdiff; [done|repeat constructor]).
    rewrite Hsi, Hi1, length_replicate. lia.
  - rewrite !ints_at_delete_ptr by (apply Hdiff; [done|repeat constructor]).
    rewrite Hsi, Hi2, length_replicate. lia.
  - rewrite !vals_at_delete_ptr by (apply Hdiff; [done|repeat constructor]).
    rewrite Hsv, Hi3, length_replicate. lia.
  - intros l Hl. rewrite !lookup_delete_ptr. unfold buffers.
    assert (blocks h6 !! l = blocks h !! l) as Hl6.
    { rewrite Hs6.
      2: { intros Hin. apply Hl.
           repeat (apply elem_of_cons in Hin as [[= ->]|Hin];
                   [set_solver|]).
           by apply elem_of_nil in Hin. }
      rewrite Hb4, Hb3, Hb2, !lookup_insert_ne by set_solver.
      by rewrite Hb1. }
    repeat case_decide; try done; exfalso; set_solver.
Qed.
End FillDiagMemory.

(** Witness of [fill_diag_failure_keeps_memory]: four rows in base one, of
    which three lack their diagonal, in a memory that serves the vector
    and the new row pointer and refuses the new column buffer. *)
Lemma fill_diag_failure_keeps_memory_witness :
  ∃ st A' h',
    aoclsparse_csr_fill_diag 4 4 5 1 csr_123
      (Heap (blocks lacking_diagonals) [true; true; false])
    = Returns (st, A', h')
    ∧ (st = aoclsparse_status_success
       ∨ (st = aoclsparse_status_memory_error ∧ A' = csr_123
          ∧ blocks h' = blocks lacking_diagonals)).
Proof.
  refine (fill_diag_failure_keeps_memory 4 4 5 1 csr_123
            (Heap (blocks lacking_diagonals) [true; true; false]) _).
  split; [lia|].
  split; [eexists; split; [reflexivity|]; vm_compute; eauto|].
  split; [eexists; split; [reflexivity|]; vm_compute; eauto|].
  split; [eexists; split; [reflexivity|]; vm_compute; eauto|].
  repeat (split; [reflexivity|]).
  intros i Hi. assert (i = 0 ∨ i = 1 ∨ i = 2 ∨ i = 3) as Hc by lia.
  destruct Hc as [->|[->|[->| ->]]]; vm_compute; discriminate.
Defined.

(** The call of the witness returns memory_error, and the row pointer it
    had obtained is freed. *)
Example fill_diag_second_request_refused :
  aoclsparse_csr_fill_diag 4 4 5 1 csr_123
    (Heap (blocks lacking_diagonals) [true; true; false])
  = Returns (aoclsparse_status_memory_error, csr_123,
             Heap (blocks lacking_diagonals) []).
Proof. vm_compute. reflexivity. Qed.

(** * The matrix aoclsparse_csr_fill_diag returns *)

Section ScanAgain.
Implicit Types (cols : list Z).

(** Where the scan of a row stopped without its diagonal, it finds the
    diagonal once it has been put there. *)
Lemma scan_list_insert i l1 l2 :
  scan_list i (l1 ++ l2) = (false, length l1) →
  scan_list i (l1 ++ i :: l2) = (true, length l1).
Proof.
  induction l1 as [|c l1 IH]; intros Hscan.
  - simpl. by rewrite bool_decide_true.
  - simpl in *. case_bool_decide; [done|]. case_bool_decide; [done|].
    destruct (scan_list i (l1 ++ l2)) as [found k] eqn:Hk.
    injection Hscan as -> ->. by rewrite IH.
Qed.
End ScanAgain.

Section FillDiagResult.
Context {T : Type} `{Scalar T}.
Implicit Types (h : heap T) (A : aoclsparse_csr).

(** A call on a matrix no row of which is flagged. *)
Lemma fill_diag_nothing_flagged m n nnz base A h :
  0 ≤ m → grants 1 h = true →
  is_null (csr_col_ptr A) || is_null (csr_row_ptr A) || is_null (csr_val A)
  = false →
  (∀ i, 0 ≤ i < m → flagged n base A h i = false) →
  aoclsparse_csr_fill_diag m n nnz base A h
  = Returns (aoclsparse_status_success, A,
             if decide (m = 0) then h
             else Heap (blocks h) (tail (oracle h))).
Proof.
  intros Hm Hg Hnull Hnone. unfold aoclsparse_csr_fill_diag.
  rewrite vector_storage_served by done. rewrite Hnull.
  set (h' := if decide (m = 0) then h else _).
  assert (blocks h' = blocks h) as Hb by (subst h'; by case_decide).
  destruct (find_missing_diag_spec m n base A h' Hm) as (md & -> & _).
  rewrite flagged_below_none; [done|].
  intros i Hi.
  rewrite (same_matrix_flagged A h h' (same_matrix_blocks A h h' Hb)).
  by apply Hnone.
Qed.

(** What a call that succeeds on a valid matrix returns. *)
Lemma fill_diag_result m n nnz base A h A' h' :
  valid_csr m nnz base A h →
  aoclsparse_csr_fill_diag m n nnz base A h
  = Returns (aoclsparse_status_success, A', h') →
  let count := flagged_below n base A h m in
  (count = 0 ∧ A' = A ∧ blocks h' = blocks h)
  ∨ (0 < count
     ∧ valid_csr m (nnz + count) 0 A' h'
     ∧ (∀ p, p ∈ buffers A' → ¬ live h p)
     ∧ (∀ p, p ∈ buffers A → ¬ live h' p)
     ∧ (∀ l, Some l ∉ buffers A ++ buffers A' →
          blocks h' !! l = blocks h !! l)
     ∧ ∀ i, 0 ≤ i < m → csr_row 0 A' h' i = filled_row n base A h i).
Proof.
  intros Hvalid Hcall count.
  destruct (fill_diag_cases m n nnz base A h Hvalid)
    as (st & A1 & h1 & Hcall' & Hcases).
  rewrite Hcall in Hcall'. injection Hcall' as <- <- <-.
  destruct Hcases as [[? _]|[(_ & Hnone & -> & Hb)|(_ & Hsome & Hoff & Hent)]];
    [done|by left|right].
  destruct (fill_diag_memory m n nnz base A h _ A' h' Hvalid Hcall eq_refl
              Hsome)
    as (icrow & icol & aval & -> & Hf1 & Hf2 & Hf3 & Hl1 & Hl2 & Hl3
        & Hframe).
  destruct Hvalid as (Hm & Hlr & Hlc & Hlv & Hlenr & Hlenc & Hlenv & Hfirst
                      & Hlast & Hmono).
  pose proof (offsets_in_range m nnz base A h Hfirst Hlast Hmono 0
                ltac:(lia)) as Hnnz.
  fold count in Hl2, Hl3.
  assert (∀ p, live h p → p ∉ [Some icrow; Some icol; Some aval]) as Hapart.
  { intros p (l & -> & [b Hl]) Hin.
    repeat (apply elem_of_cons in Hin as [[= ->]|Hin]; [congruence|]).
    by apply elem_of_nil in Hin. }
  split; [done|]. split; [|split; [|split; [|split]]].
  - split; [done|]. simpl.
    split; [apply sized_ints_live; lia|].
    split; [apply sized_ints_live; lia|].
    split; [apply sized_vals_live; lia|].
    do 3 (split; [done|]).
    split; [rewrite Hoff, flagged_below_0 by lia; lia|].
    split; [rewrite Hoff by lia; fold count; lia|].
    intros i Hi. rewrite !Hoff by lia. specialize (Hmono i Hi).
    pose proof (flagged_below_mono n base A h i (i + 1) ltac:(lia)). lia.
  - intros p Hp Hlive. by apply (Hapart p).
  - intros p Hp (l & -> & [b Hl]).
    assert (l ∉ [icrow; icol; aval]) as Hold.
    { intros Hin. apply (Hapart (Some l)).
      - unfold buffers in Hp.
        repeat (apply elem_of_cons in Hp as [Hp|Hp]; [by rewrite Hp|]).
        by apply elem_of_nil in Hp.
      - by apply (list_elem_of_fmap_2 Some) in Hin. }
    rewrite (Hframe l Hold), decide_True in Hl by done. done.
  - intros l Hl. rewrite Hframe.
    + rewrite decide_False; [done|]. intros Hin. apply Hl.
      apply elem_of_app. by left.
    + intros Hin. apply Hl. apply elem_of_app. right. unfold buffers. simpl.
      by apply (list_elem_of_fmap_2 Some) in Hin.
  - intros i Hi. rewrite csr_row_entries, !Hoff by lia. by apply Hent.
Qed.

(** X18.  After a call that returns success on a valid matrix, with
    [count] the number of rows the first pass flags: if [count] is zero
    the structure and every allocation are as they were; else [*A]
    points to three allocations that did not exist, which hold a valid
    matrix of [nnz + count] entries in base zero, the three buffers [*A]
    pointed to have been freed, and every other allocation is as it
    was. *)
Theorem fill_diag_new_matrix m n nnz base A h A' h' :
  valid_csr m nnz base A h →
  aoclsparse_csr_fill_diag m n nnz base A h
  = Returns (aoclsparse_status_success, A', h') →
  let count := flagged_below n base A h m in
  if decide (count = 0) then A' = A ∧ blocks h' = blocks h
  else
    valid_csr m (nnz + count) 0 A' h'
    ∧ (∀ p, p ∈ buffers A' → ¬ live h p)
    ∧ (∀ p, p ∈ buffers A → ¬ live h' p)
    ∧ (∀ l, Some l ∉ buffers A ++ buffers A' →
         blocks h' !! l = blocks h !! l).
Proof.
  intros Hvalid Hcall count.
  destruct (fill_diag_result m n nnz base A h A' h' Hvalid Hcall)
    as [(Hnone & -> & Hb)|(Hsome & Hv & Hnew & Hold & Hframe & _)];
    subst count.
  - by rewrite decide_True.
  - rewrite decide_False by lia. done.
Qed.

(** The rows of the result hold their diagonal where the scan looks for
    it. *)
Lemma filled_row_not_flagged m n base A h A' h' i :
  (∀ i, 0 ≤ i < m →
     load_int h (csr_row_ptr A) i ≤ load_int h (csr_row_ptr A) (i + 1)) →
  0 ≤ i < m →
  csr_row 0 A' h' i = filled_row n base A h i →
  flagged n 0 A' h' i = false.
Proof.
  intros Hmono Hi Hrow. unfold flagged.
  rewrite <- csr_row_columns, Hrow. unfold filled_row.
  pose proof (stop_in_row m base A h Hmono i Hi) as Hstop.
  destruct (flagged n base A h i) eqn:Hf.
  - unfold flagged in Hf. apply andb_true_iff in Hf as [Hfound _].
    set (lo := load_int h (csr_row_ptr A) i - base) in *.
    set (len := load_int h (csr_row_ptr A) (i + 1)
                - load_int h (csr_row_ptr A) i) in *.
    destruct (scan_list i (row_columns base A h i)) as [found kn] eqn:Hkn.
    simpl in Hfound, Hstop |- *. apply negb_true_iff in Hfound as ->.
    set (l1 := row_part base A h lo (Z.of_nat kn)).
    set (l2 := row_part base A h (lo + Z.of_nat kn) (len - Z.of_nat kn)).
    assert (row_columns base A h i = l1.*1 ++ l2.*1) as Hcols.
    { rewrite <- csr_row_columns, <- fmap_app. f_equal.
      change (csr_row base A h i) with (row_part base A h lo len).
      replace len with (Z.of_nat kn + (len - Z.of_nat kn)) at 1 by lia.
      apply row_part_app; lia. }
    assert (length l1.*1 = kn) as Hlen1.
    { unfold l1, row_part. rewrite !length_fmap, length_seqZ. lia. }
    rewrite Hcols, <- Hlen1 in Hkn.
    rewrite fmap_app, fmap_cons. cbn [fst].
    by rewrite (scan_list_insert i _ _ Hkn).
  - unfold flagged in Hf. by rewrite csr_row_columns.
Qed.

(** X19.  A second call on the result of a call that returned success
    on a valid matrix, with the number of entries and the base of this
    result, adds nothing: it returns success and leaves the structure
    and every allocation as they are, when the storage of its local
    vector is served; for [m = 0] the vector asks for none.  The rows
    need not be sorted. *)
Theorem fill_diag_idempotent m n nnz base A h A' h' :
  valid_csr m nnz base A h →
  aoclsparse_csr_fill_diag m n nnz base A h
  = Returns (aoclsparse_status_success, A', h') →
  grants 1 h' = true →
  let count := flagged_below n base A h m in
  aoclsparse_csr_fill_diag m n (nnz + count)
    (if decide (count = 0) then base else 0) A' h'
  = Returns (aoclsparse_status_success, A',
             if decide (m = 0) then h'
             else Heap (blocks h') (tail (oracle h'))).
Proof.
  intros Hvalid Hcall Hg count.
  destruct (fill_diag_result m n nnz base A h A' h' Hvalid Hcall)
    as [(Hnone & -> & Hb)|(Hsome & Hv & _ & _ & _ & Hrows)];
    subst count.
  - rewrite decide_True by done.
    destruct Hvalid as (Hm & Hlr & Hlc & Hlv & _).
    apply fill_diag_nothing_flagged; [done..| |].
    + by rewrite (live_not_null h _ Hlr), (live_not_null h _ Hlc),
        (live_not_null h _ Hlv).
    + intros i Hi.
      rewrite (same_matrix_flagged A h h' (same_matrix_blocks A h h' Hb)).
      by apply (flagged_none m).
  - rewrite decide_False by lia.
    destruct Hv as (Hm & Hlr & Hlc & Hlv & _).
    destruct Hvalid as (_ & _ & _ & _ & _ & _ & _ & _ & _ & Hmono).
    apply fill_diag_nothing_flagged; [done..| |].
    + by rewrite (live_not_null h' _ Hlr), (live_not_null h' _ Hlc),
        (live_not_null h' _ Hlv).
    + intros i Hi. apply (filled_row_not_flagged m n base A h); [done..|].
      by apply Hrows.
Qed.
End FillDiagResult.

(** Witness of [fill_diag_new_matrix]: four rows in base one, of which
    three lack their diagonal. *)
Lemma fill_diag_new_matrix_witness :
  ∃ A' h',
    aoclsparse_csr_fill_diag 4 4 5 1 csr_123 lacking_diagonals
    = Returns (aoclsparse_status_success, A', h')
    ∧ let count := flagged_below 4 1 csr_123 lacking_diagonals 4 in
      if decide (count = 0)
      then A' = csr_123 ∧ blocks h' = blocks lacking_diagonals
      else
        valid_csr 4 (5 + count) 0 A' h'
        ∧ (∀ p, p ∈ buffers A' → ¬ live lacking_diagonals p)
        ∧ (∀ p, p ∈ buffers csr_123 → ¬ live h' p)
        ∧ (∀ l, Some l ∉ buffers csr_123 ++ buffers A' →
             blocks h' !! l = blocks lacking_diagonals !! l).
Proof.
  eexists _, _. split; [vm_compute; reflexivity|].
  apply (fill_diag_new_matrix 4 4 5 1 csr_123 lacking_diagonals).
  - split; [lia|].
    split; [eexists; split; [reflexivity|]; vm_compute; eauto|].
    split; [eexists; split; [reflexivity|]; vm_compute; eauto|].
    split; [eexists; split; [reflexivity|]; vm_compute; eauto|].
    repeat (split; [reflexivity|]).
    intros i Hi. assert (i = 0 ∨ i = 1 ∨ i = 2 ∨ i = 3) as Hc by lia.
    destruct Hc as [->|[->|[->| ->]]]; vm_compute; discriminate.
  - vm_compute. reflexivity.
Defined.

(** Witness of [fill_diag_idempotent]: one row whose diagonal is stored
    behind the entry of column 1, so that the first pass flags it. *)
Lemma fill_diag_idempotent_witness :
  ∃ A' h',
    aoclsparse_csr_fill_diag 1 2 2 0 csr_123 unsorted_row
    = Returns (aoclsparse_status_success, A', h')
    ∧ let count := flagged_below 2 0 csr_123 unsorted_row 1 in
      aoclsparse_csr_fill_diag 1 2 (2 + count)
        (if decide (count = 0) then 0 else 0) A' h'
      = Returns (aoclsparse_status_success, A',
                 Heap (blocks h') (tail (oracle h'))).
Proof.
  eexists _, _. split; [vm_compute; reflexivity|].
  refine (fill_diag_idempotent 1 2 2 0 csr_123 unsorted_row _ _ _ _ _).
  - split; [lia|].
    split; [eexists; split; [reflexivity|]; vm_compute; eauto|].
    split; [eexists; split; [reflexivity|]; vm_compute; eauto|].
    split; [eexists; split; [reflexivity|]; vm_compute; eauto|].
    repeat (split; [reflexivity|]).
    intros i Hi. assert (i = 0) as -> by lia. vm_compute. discriminate.
  - vm_compute. reflexivity.
  - reflexivity.
Defined.

(** * Copy, sort and fill, one after the other *)

Section Pipeline.
Context {T : Type} `{Scalar T}.
Variable std_sort : (Z → Z → bool) → list Z → option (list Z).
Implicit Types (h : heap T) (A As : aoclsparse_csr).

Lemma grants_drop (a b : nat) h h' :
  oracle h' = drop a (oracle h) →
  grants (a + b) h = true → grants a h = true ∧ grants b h' = true.
Proof.
  unfold grants. intros ->. generalize (oracle h). clear h h'.
  induction a as [|a IH]; intros o; [done|].
  destruct o as [|x o]; [by rewrite drop_nil, !take_nil|].
  simpl. rewrite !andb_true_iff. intros [Hx Ho].
  destruct (IH o Ho). done.
Qed.

Lemma tail_drop {X} (o : list X) k : tail (drop k o) = drop (S k) o.
Proof.
  revert o. induction k as [|k IH]; intros [|x o]; simpl; done.
Qed.

Lemma same_blocks_ints_at h h' l :
  blocks h' !! l = blocks h !! l → ints_at h' (Some l) = ints_at h (Some l).
Proof. intros Hl. unfold ints_at. by rewrite Hl. Qed.

Lemma same_blocks_vals_at h h' l :
  blocks h' !! l = blocks h !! l → vals_at h' (Some l) = vals_at h (Some l).
Proof. intros Hl. unfold vals_at. by rewrite Hl. Qed.

(** Buffers that are live and apart from the ones a call frees or makes
    hold what they held. *)
Lemma frame_same_matrix A (W : list ptr) h h' :
  live h (csr_row_ptr A) → live h (csr_col_ptr A) → live h (csr_val A) →
  (∀ p, p ∈ buffers A → p ∉ W) →
  (∀ l, Some l ∉ W → blocks h' !! l = blocks h !! l) →
  same_matrix A h h'.
Proof.
  intros (lr & Hr & _) (lc & Hc & _) (lv & Hv & _) Hapart Hframe.
  unfold same_matrix. rewrite Hr, Hc, Hv.
  unfold buffers in Hapart. rewrite Hr, Hc, Hv in Hapart.
  split; [|split].
  - apply same_blocks_ints_at, Hframe, Hapart. set_solver.
  - apply same_blocks_ints_at, Hframe, Hapart. set_solver.
  - apply same_blocks_vals_at, Hframe, Hapart. set_solver.
Qed.

(** X20.  The three steps of the driver on a matrix that is neither
    sorted nor complete, with the arguments the driver passes: for a
    valid matrix [A] with [m > 0] rows and [nnz > 0] entries whose rows
    hold no column twice, when the eight requests for memory are served,
    [aoclsparse_copy_csr], then [aoclsparse_sort_csr] from [A] to the
    copy, then [aoclsparse_csr_fill_diag] on the copy in base zero all
    return success; the buffers of [A] hold what they held; and every
    row of the result is a permutation of the pairs (column - base,
    value) of the same row of [A], in the order of strictly increasing
    columns, with a zero on column [i] put in its place if [i < n] and
    the row did not hold it, so that the columns of the result increase
    strictly and row [i < n] holds column [i] once. *)
Theorem copy_sort_fill_clean_matrix m n nnz base A As0 h :
  std_sort_contract std_sort →
  valid_csr m nnz base A h → 0 < m → 0 < nnz →
  (∀ i, 0 ≤ i < m → NoDup (row_columns base A h i)) →
  grants 8 h = true →
  ∃ As h1 h2 As' h3,
    aoclsparse_copy_csr m n nnz base A As0 h
    = (aoclsparse_status_success, As, h1)
    ∧ aoclsparse_sort_csr std_sort m n nnz base A As h1
      = Returns (aoclsparse_status_success, h2)
    ∧ aoclsparse_csr_fill_diag m n nnz 0 As h2
      = Returns (aoclsparse_status_success, As', h3)
    ∧ same_matrix A h h3
    ∧ ∀ i, 0 ≤ i < m →
        ∃ row,
          row ≡ₚ csr_row base A h i
          ∧ strictly_increasing row.*1 = true
          ∧ with_diagonal n i row (csr_row 0 As' h3 i)
          ∧ strictly_increasing (csr_row 0 As' h3 i).*1 = true
          ∧ (i < n →
             length (filter (λ c, c = i) (csr_row 0 As' h3 i).*1) = 1%nat).
Proof.
  intros Hsort Hvalid Hm Hnnz Hdistinct Hg.
  destruct (grants_drop 3 5 h (Heap (blocks h) (drop 3 (oracle h))) eq_refl
              Hg) as [Hg3 Hg5].
  (* the copy *)
  destruct (copy_csr_valid m n nnz base A As0 h Hvalid Hm Hnnz Hg3)
    as (row & col & val & h1 & Hcall1 & Hfr & Hfc & Hfv & Hnd & Hp1 & Ho1
        & Hvalid1 & Hir1 & Hrows1).
  set (As := Csr (Some row) (Some col) (Some val)) in *.
  pose proof Hvalid as (Hm0 & Hlr & Hlc & Hlv & Hlenr & Hlenc & Hlenv
                        & Hfirst & Hlast & Hmono).
  pose proof Hvalid1 as (_ & Hlr1 & Hlc1 & Hlv1 & Hlenr1 & Hlenc1 & Hlenv1
                         & Hfirst1 & Hlast1 & Hmono1).
  pose proof (preserved_same_matrix A h h1 Hp1 Hlr Hlc Hlv) as Hs1.
  assert (∀ p, live h p → p ∉ [Some row; Some col; Some val]) as Hapart.
  { intros p (l & -> & [b Hl]) Hin.
    repeat (apply elem_of_cons in Hin as [[= ->]|Hin]; [congruence|]).
    by apply elem_of_nil in Hin. }
  apply NoDup_cons in Hnd as [Hrow_new Hnd].
  assert (oracle h1 = drop 3 (oracle h)) as Ho1'.
  { rewrite Ho1. by destruct (oracle h) as [|? [|? [|? ?]]]. }
  (* the sort *)
  assert (sort_input m nnz base A As h1) as Hin.
  { destruct Hs1 as (Hr & Hc & Hv).
    split; [lia|]. split; [lia|]. unfold load_int.
    rewrite Hr, Hc, Hv. do 3 (split; [done|]).
    split; [done|]. split; [done|]. split; [done|].
    split; [done|]. split; [done|]. split; [done|].
    intros p Hp Hq. simpl in Hp, Hq.
    apply elem_of_cons in Hp as [->|Hp]; [by apply (Hapart _ Hlr); set_solver|].
    apply elem_of_cons in Hp as [->|Hp]; [by apply (Hapart _ Hlc); set_solver|].
    apply elem_of_cons in Hp as [->|Hp]; [by apply (Hapart _ Hlv); set_solver|].
    apply list_elem_of_singleton in Hp as ->. apply Hrow_new.
    by apply (list_elem_of_fmap_inj_2 Some). }
  destruct (grants_drop 1 4 (Heap (blocks h) (drop 3 (oracle h)))
              (Heap (blocks h) (drop 4 (oracle h)))) as [Hg1 Hg4];
    [by simpl; rewrite drop_drop|done|].
  destruct (sort_csr_run std_sort m n nnz base A As h1 Hsort Hin)
    as (h2 & Hcall2 & Hs2 & Ho2 & Hlenc2 & Hlenv2 & Hrows2).
  { intros i Hi. rewrite (same_matrix_row_columns A h h1 Hs1).
    by apply Hdistinct. }
  { by rewrite (grants_oracle 1 h1 (Heap (blocks h) (drop 3 (oracle h)))). }
  rewrite decide_False in Ho2 by lia.
  assert (csr_row_ptr As ∉ [csr_col_ptr As; csr_val As]) as Hrow_apart.
  { simpl. intros Hq. apply Hrow_new.
    by apply (list_elem_of_fmap_inj_2 Some). }
  assert (∀ k, load_int h2 (csr_row_ptr As) k = load_int h1 (csr_row_ptr As) k)
    as Hrp2.
  { intros k. by apply (same_except_load_int [csr_col_ptr As; csr_val As]). }
  assert (same_matrix A h1 h2) as Hs12.
  { destruct Hs1 as (Hr & Hc & Hv). unfold same_matrix.
    rewrite !(same_except_ints_at [csr_col_ptr As; csr_val As] h1 h2),
      (same_except_vals_at [csr_col_ptr As; csr_val As] h1 h2); try done.
    - intros Hq. apply (Hapart _ Hlv). set_solver.
    - intros Hq. apply (Hapart _ Hlc). set_solver.
    - intros Hq. apply (Hapart _ Hlr). set_solver. }
  (* the sorted copy is a valid matrix with sorted rows *)
  assert (valid_csr m nnz 0 As h2) as Hvalid2.
  { assert (ints_at h2 (csr_row_ptr As) = ints_at h1 (csr_row_ptr As)) as Hr2
      by (by apply (same_except_ints_at [csr_col_ptr As; csr_val As])).
    split; [done|].
    split; [apply sized_ints_live; rewrite Hr2, Hlenr1; lia|].
    split; [apply sized_ints_live; rewrite Hlenc2; lia|].
    split; [apply sized_vals_live; rewrite Hlenv2; lia|].
    split; [by rewrite Hr2|]. do 2 (split; [done|]).
    rewrite !Hrp2. do 2 (split; [done|]).
    intros i Hi. rewrite !Hrp2. by apply Hmono1. }
  assert (rows_sorted m 0 As h2) as Hsorted2.
  { intros i Hi. rewrite <- csr_row_columns. by apply Hrows2. }
  assert (grants 4 h2 = true) as Hg2.
  { rewrite (grants_oracle 4 h2 (Heap (blocks h) (drop 4 (oracle h)))); [done|].
    simpl. rewrite Ho2, Ho1'. apply tail_drop. }
  (* the diagonals *)
  destruct (fill_diag_cases m n nnz 0 As h2 Hvalid2)
    as (st & As' & h3 & Hcall3 & Hcases).
  assert (st = aoclsparse_status_success) as ->.
  { destruct Hcases as [[_ Hno]|[(-> & _)|(-> & _)]]; [congruence|done..]. }
  clear Hcases.
  exists As, h1, h2, As', h3. do 3 (split; [done|]).
  pose proof (fill_diag_result m n nnz 0 As h2 As' h3 Hvalid2 Hcall3)
    as Hresult. cbv zeta in Hresult.
  assert (same_matrix A h2 h3
          ∧ ∀ i, 0 ≤ i < m → csr_row 0 As' h3 i = filled_row n 0 As h2 i)
    as [Hs23 Hrows3].
  { destruct Hresult as [(Hnone & -> & Hb)|(Hsome & _ & Hnew & _ & Hframe
                                           & Hrows)].
    - split; [by apply same_matrix_blocks|]. intros i Hi.
      rewrite (same_matrix_csr_row As h2 h3 (same_matrix_blocks As h2 h3 Hb)).
      unfold filled_row. by rewrite (flagged_none m n 0 As h2 i).
    - split; [|done].
      destruct Hs1 as (Hr & Hc & Hv). destruct Hs12 as (Hr' & Hc' & Hv').
      assert (∀ p, live h p → live h2 p) as Hlive2.
      { intros p (l & -> & [b Hl]). exists l. split; [done|].
        rewrite Hs2.
        - rewrite (Hp1 l b Hl). by eexists.
        - intros Hq. apply (Hapart (Some l)); [by exists l; eauto|].
          simpl in Hq. set_solver. }
      apply (frame_same_matrix A (buffers As ++ buffers As')); auto.
      intros p Hp Hq. apply elem_of_app in Hq as [Hq|Hq].
      + assert (live h p) as Hlive.
        { unfold buffers in Hp.
          repeat (apply elem_of_cons in Hp as [->|Hp]; [done|]).
          by apply elem_of_nil in Hp. }
        by apply (Hapart p).
      + apply (Hnew p Hq). apply Hlive2. unfold buffers in Hp.
        repeat (apply elem_of_cons in Hp as [->|Hp]; [done|]).
        by apply elem_of_nil in Hp. }
  split.
  { eapply same_matrix_trans; [exact Hs1|].
    eapply same_matrix_trans; [exact Hs12|exact Hs23]. }
  intros i Hi. exists (csr_row 0 As h2 i).
  destruct (Hrows2 i Hi) as [Hperm Hinc].
  rewrite (same_matrix_csr_row A h h1 Hs1) in Hperm.
  destruct Hvalid2 as (_ & _ & _ & _ & _ & _ & _ & _ & _ & Hmono2).
  destruct (filled_row_sorted m n 0 As h2 i Hmono2 Hi (Hsorted2 i Hi))
    as (Hfill & Hfinc & Honce).
  rewrite Hrows3 by done.
  split; [done|]. split; [done|]. split; [|done].
  unfold with_diagonal. rewrite csr_row_columns.
  unfold lacks_diag in Hfill. done.
Qed.
End Pipeline.

(** Witness of [copy_sort_fill_clean_matrix]: three rows in base one, the
    first and the third with unsorted columns, the second empty and so
    without its diagonal. *)
Lemma copy_sort_fill_clean_matrix_witness :
  let h := memory_of [1; 4; 4; 7] [3; 1; 2; 2; 1; 3] [10; 20; 30; 40; 50; 60] in
  ∃ As h1 h2 As' h3,
    aoclsparse_copy_csr 3 3 6 1 csr_123 (Csr None None None) h
    = (aoclsparse_status_success, As, h1)
    ∧ aoclsparse_sort_csr insertion_sort 3 3 6 1 csr_123 As h1
      = Returns (aoclsparse_status_success, h2)
    ∧ aoclsparse_csr_fill_diag 3 3 6 0 As h2
      = Returns (aoclsparse_status_success, As', h3)
    ∧ same_matrix csr_123 h h3
    ∧ ∀ i, 0 ≤ i < 3 →
        ∃ row,
          row ≡ₚ csr_row 1 csr_123 h i
          ∧ strictly_increasing row.*1 = true
          ∧ with_diagonal 3 i row (csr_row 0 As' h3 i)
          ∧ strictly_increasing (csr_row 0 As' h3 i).*1 = true
          ∧ (i < 3 →
             length (filter (λ c, c = i) (csr_row 0 As' h3 i).*1) = 1%nat).
Proof.
  intros h.
  apply (copy_sort_fill_clean_matrix insertion_sort 3 3 6 1 csr_123
           (Csr None None None) h insertion_sort_contract).
  - split; [lia|].
    split; [eexists; split; [reflexivity|]; vm_compute; eauto|].
    split; [eexists; split; [reflexivity|]; vm_compute; eauto|].
    split; [eexists; split; [reflexivity|]; vm_compute; eauto|].
    repeat (split; [reflexivity|]).
    intros i Hi. assert (i = 0 ∨ i = 1 ∨ i = 2) as Hc by lia.
    destruct Hc as [->|[->| ->]]; vm_compute; discriminate.
  - lia.
  - lia.
  - intros i Hi. assert (i = 0 ∨ i = 1 ∨ i = 2) as Hc by lia.
    destruct Hc as [->|[->| ->]]; apply (bool_decide_unpack _); by vm_compute.
  - reflexivity.
Defined.

(** The same three calls, evaluated: the clean matrix. *)
Example copy_sort_fill_evaluated :
  let h := memory_of [1; 4; 4; 7] [3; 1; 2; 2; 1; 3] [10; 20; 30; 40; 50; 60] in
  let '(_, As, h1) := aoclsparse_copy_csr 3 3 6 1 csr_123 (Csr None None None) h in
  match aoclsparse_sort_csr insertion_sort 3 3 6 1 csr_123 As h1 with
  | Returns (_, h2) =>
      match aoclsparse_csr_fill_diag 3 3 6 0 As h2 with
      | Returns (_, As', h3) =>
          ints_at h3 (csr_row_ptr As') = [0; 3; 4; 7]
          ∧ ints_at h3 (csr_col_ptr As') = [0; 1; 2; 1; 0; 1; 2]
          ∧ vals_at h3 (csr_val As') = [20; 30; 10; 0; 50; 40; 60]
      | Throws | Undefined => False
      end
  | Throws | Undefined => False
  end.
Proof. by vm_compute. Qed.

(** * aoclsparse_csr_optimize: what it rejects, and what it keeps *)

Section OptimizeHandle.
Context {T : Type} `{Scalar T}.
Variable std_sort : (Z → Z → bool) → list Z → option (list Z).
Variable T_is : template_type.
Variable csr_check_internal :
  Z → Z → Z → aoclsparse_csr → aoclsparse_shape → aoclsparse_index_base →
  heap T → aoclsparse_status.
Variable csr_check_sort_diag :
  Z → Z → aoclsparse_index_base → aoclsparse_csr → heap T →
  aoclsparse_status * bool * bool.
Variable csr_indices :
  Z → aoclsparse_index_base → ptr → ptr → ptr → ptr → heap T →
  aoclsparse_status * ptr * ptr * heap T.

Local Abbreviation optimize :=
  (aoclsparse_csr_optimize std_sort T_is csr_check_internal
     csr_check_sort_diag csr_indices).

(** X21.  The checks of [aoclsparse_csr_optimize], in their order: a
    null handle gives invalid_pointer; else a value type that is not
    the one of the template gives wrong_type; else a base other than
    zero and one gives invalid_value; else a status of the validator
    other than success is returned as it is; else a status of the probe
    other than success gives internal_error.  In each of these cases the
    handle and the memory are as they were. *)
Theorem optimize_rejections A h :
  match A with
  | None => optimize None h = Returns (aoclsparse_status_invalid_pointer, None, h)
  | Some a =>
      let stop status := optimize (Some a) h = Returns (status, Some a, h) in
      let checked :=
        csr_check_internal (mat_m a) (mat_n a) (mat_nnz a) (csr_mat a)
          shape_general (mat_base a) h in
      let probed :=
        csr_check_sort_diag (mat_m a) (mat_n a) (mat_base a) (csr_mat a) h in
      if decide (¬ (val_type a = aoclsparse_dmat ∧ T_is = T_double
                    ∨ val_type a = aoclsparse_smat ∧ T_is = T_float))
      then stop aoclsparse_status_wrong_type
      else if decide (mat_base a ≠ aoclsparse_index_base_zero
                      ∧ mat_base a ≠ aoclsparse_index_base_one)
      then stop aoclsparse_status_invalid_value
      else if decide (checked ≠ aoclsparse_status_success)
      then stop checked
      else if decide (probed.1.1 ≠ aoclsparse_status_success)
      then stop aoclsparse_status_internal_error
      else True
  end.
Proof.
  destruct A as [a|]; [|done]. cbv zeta.
  unfold aoclsparse_csr_optimize.
  case_decide as Hty.
  { replace (negb _) with true; [done|]. symmetry. apply negb_true_iff.
    apply not_true_iff_false. intros Htrue. apply Hty.
    apply orb_true_iff in Htrue as [Hd|Hs];
      [left|right]; apply andb_true_iff in Hd || apply andb_true_iff in Hs.
    - destruct Hd as [?%bool_decide_eq_true ?%bool_decide_eq_true]. done.
    - destruct Hs as [?%bool_decide_eq_true ?%bool_decide_eq_true]. done. }
  replace (negb _) with false.
  2: { symmetry. apply negb_false_iff.
       destruct Hty as [[Hv Ht]|[Hv Ht]]; rewrite Hv, Ht; done. }
  case_decide as Hbase.
  { destruct Hbase as [Hb0 Hb1].
    by rewrite (bool_decide_true _ Hb0), (bool_decide_true _ Hb1). }
  assert (bool_decide (mat_base a ≠ aoclsparse_index_base_zero)
          && bool_decide (mat_base a ≠ aoclsparse_index_base_one) = false)
    as ->.
  { apply andb_false_iff.
    destruct (decide (mat_base a = aoclsparse_index_base_zero)) as [E|E].
    - left. apply bool_decide_eq_false. intros Hn. by apply Hn.
    - right. apply bool_decide_eq_false. intros Hn. by apply Hbase. }
  destruct (decide (csr_check_internal _ _ _ _ _ _ _ ≠ _)) as [Hcheck|Hcheck];
    [by rewrite bool_decide_true|].
  rewrite bool_decide_false by done.
  destruct (csr_check_sort_diag _ _ _ _ h) as [[status sorted] fulldiag].
  simpl. case_decide as Hprobe; [by rewrite bool_decide_true|done].
Qed.

Lemma optimize_build_keeps A sorted fulldiag h o A1 h1 :
  optimize_build A sorted fulldiag h = (o, A1, h1) →
  same_user_side A A1 ∧ same_flags A A1
  ∧ ∀ status, o = Some status → status ≠ aoclsparse_status_success.
Proof.
  unfold optimize_build. destruct (sorted && fulldiag).
  - intros [= <- <- <-]. by destruct A.
  - destruct (aoclsparse_copy_csr _ _ _ _ _ _ _) as [[status As] h2].
    case_bool_decide as Hst; intros [= <- <- <-].
    + destruct A. repeat split. by intros ? [= <-].
    + by destruct A.
Qed.

(** X22.  Whatever [aoclsparse_csr_optimize] returns for a handle, the
    user's side of the handle is as it was: the three pointers of
    [csr_mat], [m], [n], [nnz], the base and the value type.  When the
    status is success the flags [optimized] and [opt_csr_ready] are
    set; when it is not, [optimized], [opt_csr_ready] and
    [opt_csr_full_diag] are as they were. *)
Theorem optimize_keeps_user_matrix A h st A' h' :
  optimize (Some A) h = Returns (st, A', h') →
  ∃ a',
    A' = Some a'
    ∧ same_user_side A a'
    ∧ if decide (st = aoclsparse_status_success)
      then optimized a' = true ∧ opt_csr_ready a' = true
      else same_flags A a'.
Proof.
  unfold aoclsparse_csr_optimize.
  assert (∀ a' status h0,
            same_user_side A a' → same_flags A a' →
            status ≠ aoclsparse_status_success →
            Returns (status, Some a', h0) = Returns (st, A', h') →
            ∃ a', A' = Some a' ∧ same_user_side A a'
                  ∧ if decide (st = aoclsparse_status_success)
                    then optimized a' = true ∧ opt_csr_ready a' = true
                    else same_flags A a') as Hstop.
  { intros a' status h0 Hu Hf Hst [= <- <- <-]. exists a'.
    split; [done|]. split; [done|]. by rewrite decide_False. }
  assert (same_user_side A A ∧ same_flags A A) as [Hu0 Hf0] by done.
  destruct (negb _); [by apply Hstop|].
  destruct (_ && _); [by apply Hstop|].
  case_bool_decide as Hcheck; [by apply Hstop|].
  destruct (csr_check_sort_diag _ _ _ _ h) as [[status sorted] fulldiag].
  case_bool_decide as Hprobe; [by apply Hstop|].
  destruct (optimize_build A sorted fulldiag h) as [[o A1] h1] eqn:Hbuild.
  destruct (optimize_build_keeps _ _ _ _ _ _ _ Hbuild) as (Hu1 & Hf1 & Ho).
  destruct o as [status1|]; [apply Hstop; auto|].
  (* the sort and the second probe *)
  match goal with
  | |- context [if negb sorted then ?X else ?Y] =>
      destruct (if negb sorted then X else Y)
        as [[[[status2 sorted2] fulldiag2] h2]| |]; [|done..]
  end.
  case_bool_decide as Hst2; [by apply Hstop|].
  (* the diagonals *)
  match goal with
  | |- context [if negb fulldiag2 then ?X else ?Y] =>
      assert (match (if negb fulldiag2 then X else Y) with
              | Returns (_, A2, _) => same_user_side A A2 ∧ same_flags A A2
              | Throws | Undefined => True
              end) as Hfill;
      [|destruct (if negb fulldiag2 then X else Y)
          as [[[status3 A2] h3]| |]; [|done..]]
  end.
  { destruct (negb fulldiag2); [|done].
    destruct (aoclsparse_csr_fill_diag _ _ _ _ _ _) as [[[s3 As] h3]| |];
      [|done..].
    by destruct A1. }
  destruct Hfill as [Hu2 Hf2].
  case_bool_decide as Hst3; [by apply Hstop|].
  (* the index builder *)
  destruct (csr_indices _ _ _ _ _ _ h3) as [[[status4 d] u] h4].
  assert (same_user_side A (set_idiag_iurow A2 d u)
          ∧ same_flags A (set_idiag_iurow A2 d u)) as [Hu4 Hf4]
    by (by destruct A2).
  case_bool_decide as Hst4; [by apply Hstop|].
  intros [= <- <- <-]. eexists. split; [done|].
  split; [by destruct A2|]. by rewrite decide_True.
Qed.
End OptimizeHandle.

(** Witness of [optimize_keeps_user_matrix]: a handle on three rows in
    base one that are neither sorted nor complete, with the validator,
    the probe and the index builder modelled. *)
Lemma optimize_keeps_user_matrix_witness :
  let A := fresh_handle 3 3 6 1 aoclsparse_dmat csr_123 in
  let h := memory_of [1; 4; 4; 7] [3; 1; 2; 2; 1; 3] [10; 20; 30; 40; 50; 60] in
  ∃ st A' h',
    optimize_model T_double insertion_sort (Some A) h = Returns (st, A', h')
    ∧ ∃ a',
        A' = Some a'
        ∧ same_user_side A a'
        ∧ if decide (st = aoclsparse_status_success)
          then optimized a' = true ∧ opt_csr_ready a' = true
          else same_flags A a'.
Proof.
  intros A h. eexists _, _, _. split; [vm_compute; reflexivity|].
  eapply (optimize_keeps_user_matrix insertion_sort T_double
            csr_check_internal_model csr_check_sort_diag_model
            csr_indices_model A h).
  vm_compute. reflexivity.
Defined.
